(** * xv6 (xk) kernel core: pipes, redo log, inode I/O, wait, page faults

    A shallow embedding of the functions of [kernel/file.c], [kernel/fs.c],
    [kernel/proc.c], [kernel/trap.c] and [kernel/sysfile.c] that the
    specification talks about, followed by the theorems that settle each
    claim on that embedding.

    Conventions.
    - C integers are [Z]; every arithmetic result goes through the wrap of
      its C type ([int32], [uint32], [uint64]).
    - Bytes are [Z] in [0, 256); memory and disk blocks are [list Z].
    - A pointer to a kernel object is a handle into the table holding it.
    - A call that goes to [sleep] is the outcome [Sleeps]; after a wakeup
      the C code re-tests its loop condition, which is the same function
      applied to the state of that moment. *)

From Stdlib Require Import ZArith List Lia Bool String.
From stdpp Require Import base list.

Open Scope Z_scope.

(* ===================================================================== *)
(** ** Machine integers *)
(* ===================================================================== *)

Definition uint32 (z : Z) : Z := z mod 2 ^ 32.
Definition uint64 (z : Z) : Z := z mod 2 ^ 64.
Definition uint16 (z : Z) : Z := z mod 2 ^ 16.
Definition int32 (z : Z) : Z := (z + 2 ^ 31) mod 2 ^ 32 - 2 ^ 31.
Definition int16 (z : Z) : Z := (z + 2 ^ 15) mod 2 ^ 16 - 2 ^ 15.

(* ===================================================================== *)
(** ** Constants of headers *)
(* ===================================================================== *)

(** [inc/fs.h] *)
Definition INODEFILEINO : Z := 0.
Definition ROOTINO : Z := 1.
Definition BSIZE : Z := 512.
Definition BPB : Z := BSIZE * 8.
Definition DIRSIZ : Z := 14.

(** Modelled from the spec: [PGSIZE] of [mmu.h], which is not part of the
    sources at hand; the spec fixes physical pages at 4 KiB. *)
Definition PGSIZE : Z := 4096.

(** The remaining constants come from headers outside the sources at hand
    ([param.h], [stat.h], [fcntl.h], [spinlock.h]); the functions take them
    as parameters. *)
Class Config := {
  sizeof_pipe : Z;   (* sizeof(struct pipe), depends on struct spinlock *)
  NDEV : Z;
  NINODE : Z;
  NPROC : Z;
  NOFILE : Z;
  NFILE : Z;
  FSSIZE : Z;
  ROOTDEV : Z;
  T_DIR : Z;
  T_FILE : Z;
  T_DEV : Z;
  O_RDONLY : Z;
  O_WRONLY : Z;
  O_RDWR : Z;
  O_CREATE : Z
}.

(** The values xv6 ships in those headers, used for the concrete runs. *)
Definition xk_config : Config := {|
  sizeof_pipe := 128;
  NDEV := 10; NINODE := 50; NPROC := 64; NOFILE := 16; NFILE := 100;
  FSSIZE := 100000; ROOTDEV := 1;
  T_DIR := 1; T_FILE := 2; T_DEV := 3;
  O_RDONLY := 0; O_WRONLY := 1; O_RDWR := 2; O_CREATE := 512
|}.

(* ===================================================================== *)
(** ** Memory *)
(* ===================================================================== *)

(** [mem_read m pos len]: the [len] bytes of [m] from offset [pos] on, as
    [memmove(dst, m + pos, len)] delivers them. *)
Definition mem_read (m : list Z) (pos len : Z) : list Z :=
  take (Z.to_nat len) (drop (Z.to_nat pos) m).

(** [mem_write m pos src len]: [m] after [memmove(m + pos, src, len)].
    Bytes that would land past the end of [m] leave the modelled memory
    and are not recorded. *)
Definition mem_write (m : list Z) (pos : Z) (src : list Z) (len : Z) : list Z :=
  list_inserts (Z.to_nat pos) (take (Z.to_nat len) src) m.

(** The byte at offset [pos] of [m]; offsets outside the modelled memory
    read as 0. *)
Definition byte_at (m : list Z) (pos : Z) : Z := default 0 (m !! Z.to_nat pos).

(** Outcome of a call that may go to sleep. *)
Inductive blocking (A : Type) : Type :=
| Sleeps : blocking A
| Returns : A -> blocking A.
Arguments Sleeps {A}.
Arguments Returns {A} _.

(* ===================================================================== *)
(** ** Pipes ([inc/file.h], [kernel/file.c]) *)
(* ===================================================================== *)

(** [struct pipe], with its fields kept apart from the memory that
    [pipe->buf] points at.  [buf] is that memory: the ring is its first
    [buf_size] bytes, what follows is whatever lies behind the ring.  The
    spinlock carries no data.

    [sys_pipe] points [pipe->buf] at the page that holds the struct
    itself, so on the machine the ring positions below
    [sizeof(struct pipe)] are the bytes of the struct, which this record
    does not show.  The record is the pipe as [piperead] finds it, which
    stores nothing into the page, and as [pipewrite] leaves it while the
    bytes it stores stay at ring positions from [sizeof(struct pipe)] on
    (lemma [pipewrite_page_behind_struct]); a write that wraps stores at
    ring position 0, over the struct.  The page itself, with the fields
    loaded from it, is modelled further down ([pipewrite_page]). *)
Record pipe : Type := mkpipe {
  buf : list Z;
  head : Z;
  tail : Z;
  hasopenread : bool;
  hasopenwrite : bool
}.

(** [int buf_size = PGSIZE - sizeof(struct pipe);] *)
Definition buf_size `{Config} : Z := int32 (PGSIZE - sizeof_pipe).

Definition set_head (p : pipe) (h : Z) : pipe :=
  {| buf := buf p; head := h; tail := tail p;
     hasopenread := hasopenread p; hasopenwrite := hasopenwrite p |}.

Definition set_buf_tail (p : pipe) (b : list Z) (t : Z) : pipe :=
  {| buf := b; head := head p; tail := t;
     hasopenread := hasopenread p; hasopenwrite := hasopenwrite p |}.

(** [piperead(fp, buf, n)] on the pipe [fp->pp].  The result carries the
    return value, the pipe afterwards and the bytes stored at [buf].
    [n] is positive at every call site ([sys_read] rejects [n <= 0]); a
    negative length, which [memmove] would take as a huge [size_t], is
    outside the model. *)
Definition piperead `{Config} (p : pipe) (n : Z) : blocking (Z * pipe * list Z) :=
  if head p =? tail p then
    if hasopenwrite p then Sleeps            (* sleep(&pipe->hasopenwrite) *)
    else Returns (0, p, [])                  (* EOF *)
  else if int32 (tail p - head p) <? n then
    let num_read := int32 (tail p - head p) in
    Returns (num_read,
             set_head p (int32 (head p + num_read)),
             mem_read (buf p) (Z.rem (head p) buf_size) num_read)
  else
    Returns (n,
             set_head p (int32 (head p + n)),
             mem_read (buf p) (Z.rem (head p) buf_size) n).

(** [pipewrite(fp, buf, n)] on the pipe [fp->pp]; [src] is the caller's
    buffer.  The result carries the return value and the pipe afterwards. *)
Definition pipewrite `{Config} (p : pipe) (src : list Z) (n : Z) : blocking (Z * pipe) :=
  if negb (hasopenread p) then Returns (-1, p)
  else if int32 (tail p - head p) =? buf_size then Sleeps
  else if int32 (buf_size - Z.rem (tail p) buf_size) <? n then
    (* Case 1: not enough room at the end of the buffer *)
    let start_to_head := Z.rem (head p) buf_size in
    let tail_to_end := int32 (buf_size - Z.rem (tail p) buf_size) in
    let b1 := mem_write (buf p) (Z.rem (tail p) buf_size) src tail_to_end in
    let num_written := tail_to_end in
    let t1 := int32 (tail p + num_written) in
    let remaining := int32 (n - tail_to_end) in
    if remaining <? start_to_head then
      Returns (int32 (num_written + remaining),
               set_buf_tail p (mem_write b1 0 src remaining)
                            (int32 (t1 + remaining)))
    else
      Returns (int32 (num_written + start_to_head),
               set_buf_tail p (mem_write b1 0 src start_to_head)
                            (int32 (t1 + start_to_head)))
  else
    (* Case 2: enough room at the end of the buffer *)
    Returns (n,
             set_buf_tail p (mem_write (buf p) (Z.rem (tail p) buf_size) src n)
                          (int32 (tail p + n))).

(** The counter invariant of the spec: [tail - head] in [0, buf_size]. *)
Definition pipe_inv `{Config} (p : pipe) : Prop :=
  0 <= tail p - head p <= buf_size.

(** The ring has at least two bytes and fits the page. *)
Definition pipe_layout_ok `{Config} : Prop := 0 <= sizeof_pipe <= PGSIZE - 2.

(** Counters far from the end of the [int] range. *)
Definition counters_small (p : pipe) : Prop :=
  0 <= head p /\ head p <= tail p /\ tail p < 2 ^ 30.

(** An empty pipe with both ends open, its counters at [start]. *)
Definition fresh_pipe (mem : list Z) (start : Z) : pipe :=
  {| buf := mem; head := start; tail := start;
     hasopenread := true; hasopenwrite := true |}.

(** Ring position of the [i]-th byte counted from counter value [c]. *)
Definition ring_pos `{Config} (c i : Z) : Z := (c + i) mod buf_size.

(** What the spec asks of a write that returned [k]: the [k] bytes appended
    from ring position [tail % buf_size] on, continuing at position 0 after
    the end of the ring, are the first [k] bytes of the source, in order. *)
Definition appended_in_order `{Config} (p p' : pipe) (src : list Z) (k : Z) : Prop :=
  forall i, 0 <= i < k ->
    byte_at (buf p') (ring_pos (tail p) i) = byte_at src i.

(** What the spec asks of a read that returned [k]: the destination holds
    the [k] ring bytes from position [head % buf_size] on, in ring order. *)
Definition read_from_ring `{Config} (p : pipe) (out : list Z) (k : Z) : Prop :=
  forall i, 0 <= i < k ->
    byte_at out i = byte_at (buf p) (ring_pos (head p) i).

(* ===================================================================== *)
(** ** Byte encodings *)
(* ===================================================================== *)

(** Little-endian object representation of a [w]-byte integer (x86-64). *)
Fixpoint le_enc (w : nat) (z : Z) : list Z :=
  match w with
  | O => []
  | S w' => z mod 256 :: le_enc w' (z / 256)
  end.

Fixpoint le_dec (bs : list Z) : Z :=
  match bs with
  | [] => 0
  | b :: r => b + 256 * le_dec r
  end.

(** The unsigned [w]-byte integer stored at offset [pos] of [m]. *)
Definition rd (m : list Z) (pos : Z) (w : nat) : Z :=
  le_dec (mem_read m pos (Z.of_nat w)).

(** [m] with the [w]-byte integer [z] stored at offset [pos]. *)
Definition wr (m : list Z) (pos : Z) (w : nat) (z : Z) : list Z :=
  mem_write m pos (le_enc w z) (Z.of_nat w).

(** [memset(_, 0, len)] *)
Definition zeros (len : Z) : list Z := repeat 0 (Z.to_nat len).

(* ===================================================================== *)
(** ** On-disk structures ([inc/fs.h]) *)
(* ===================================================================== *)

(** [struct superblock]: six [uint]s. *)
Record superblock : Type := mksb {
  sb_size : Z;
  sb_nblocks : Z;
  bmapstart : Z;
  inodestart : Z;
  swapstart : Z;
  logstart : Z
}.

Definition sizeof_superblock : Z := 24.

Definition decode_superblock (m : list Z) : superblock :=
  {| sb_size := rd m 0 4; sb_nblocks := rd m 4 4; bmapstart := rd m 8 4;
     inodestart := rd m 12 4; swapstart := rd m 16 4; logstart := rd m 20 4 |}.

(** Modelled from the spec: [struct extent] of [extent.h], which is not part
    of the sources at hand; the spec gives it as
    [{ u32 startblkno, u32 nblocks }]. *)
Record extent : Type := mkextent {
  startblkno : Z;
  nblocks : Z
}.

(** [struct dinode] is handled in its 64-byte object representation:
    [short type] at 0, [short devid] at 2, [uint size] at 4, [data[i]] at
    [8 + 8 i] (six extents), [pad[6]] at 56 and two bytes of tail padding. *)
Definition sizeof_dinode : Z := 64.

Definition di_type (d : list Z) : Z := int16 (rd d 0 2).
Definition di_devid (d : list Z) : Z := int16 (rd d 2 2).
Definition di_size (d : list Z) : Z := rd d 4 4.
Definition di_data (d : list Z) (i : Z) : extent :=
  {| startblkno := rd d (8 + 8 * i) 4; nblocks := rd d (12 + 8 * i) 4 |}.

(** [INODEOFF(inum)], a [size_t] product. *)
Definition INODEOFF (inum : Z) : Z := uint64 (inum * sizeof_dinode).

(** [BBLOCK(b, sb)] *)
Definition BBLOCK (b : Z) (sb : superblock) : Z := uint32 (b / BPB + bmapstart sb).

(** [struct log_meta] is handled in its 84-byte object representation:
    [short commited] at 0, [uint nchanges] at 4, [blocknos[i]] at
    [8 + 4 i] (19 entries). *)
Definition sizeof_log_meta : Z := 84.

Definition lm_commited (l : list Z) : Z := int16 (rd l 0 2).
Definition lm_nchanges (l : list Z) : Z := rd l 4 4.
Definition lm_blockno (l : list Z) (i : Z) : Z := rd l (8 + 4 * i) 4.
Definition lm_set_commited (l : list Z) (v : Z) : list Z := wr l 0 2 v.
Definition lm_set_nchanges (l : list Z) (v : Z) : list Z := wr l 4 4 v.
Definition lm_set_blockno (l : list Z) (i v : Z) : list Z := wr l (8 + 4 * i) 4 v.

(* ===================================================================== *)
(** ** File-system state *)
(* ===================================================================== *)

(** [struct inode] ([inc/file.h]).  [i_lock] is the inode's sleep-lock, held
    or not by the running process. *)
Record inode : Type := mkinode {
  i_dev : Z;
  i_inum : Z;
  i_ref : Z;
  i_valid : Z;
  i_lock : bool;
  i_type : Z;
  i_devid : Z;
  i_size : Z;
  i_data : list extent
}.

(** A [struct inode *]: the inode file or a slot of [icache.inode]. *)
Inductive iptr : Type :=
| Inodefile : iptr
| Icache : nat -> iptr.

(** What reaches the disk, in order, with the transaction brackets. *)
Inductive event : Type :=
| Ebegin : event                 (* begin_tx took the log lock *)
| Ewrite : Z -> list Z -> event  (* bwrite of a block with this content *)
| Ecommit : event.               (* commit_tx released the log lock *)

(** Modelled from the spec: the block cache ([bread], [bwrite], [brelse] of
    [bio.c]) and the block device, which are not part of the sources at
    hand.  [disk] is the device; [bufs] holds the data of the buffers that
    are resident in the cache.  [bread] of a block with a resident buffer
    returns that buffer, otherwise a buffer with the device's content;
    [bwrite] stores the buffer on the device.  Buffer locks and the dirty
    flag are not tracked: one kernel thread runs, and residency of modified
    buffers is kept until they are written. *)
Record fs : Type := mkfs {
  disk : Z -> list Z;
  bufs : Z -> option (list Z);
  junk : list Z;        (* the indeterminate bytes of uninitialised stack *)
  sb : superblock;      (* the global [sb] *)
  loglock : bool;       (* [loglock] held by the running process *)
  inodefile : inode;    (* [icache.inodefile] *)
  inodes : list inode;  (* [icache.inode] *)
  dev_read : Z -> Z -> Z * list Z;   (* devsw[devid].read, if registered *)
  dev_write : Z -> list Z -> Z -> Z; (* devsw[devid].write, if registered *)
  dev_has : Z -> bool * bool;        (* which of the two are non-null *)
  events : list event
}.

Definition upd {A : Type} (f : Z -> A) (k : Z) (v : A) : Z -> A :=
  fun k' => if k' =? k then v else f k'.

Definition set_disk_bufs (s : fs) (d : Z -> list Z) (b : Z -> option (list Z))
    (e : list event) : fs :=
  {| disk := d; bufs := b; junk := junk s; sb := sb s; loglock := loglock s;
     inodefile := inodefile s; inodes := inodes s; dev_read := dev_read s;
     dev_write := dev_write s; dev_has := dev_has s; events := e |}.

Definition set_loglock (s : fs) (l : bool) (e : list event) : fs :=
  {| disk := disk s; bufs := bufs s; junk := junk s; sb := sb s; loglock := l;
     inodefile := inodefile s; inodes := inodes s; dev_read := dev_read s;
     dev_write := dev_write s; dev_has := dev_has s; events := e |}.

Definition set_sb (s : fs) (x : superblock) : fs :=
  {| disk := disk s; bufs := bufs s; junk := junk s; sb := x;
     loglock := loglock s;
     inodefile := inodefile s; inodes := inodes s; dev_read := dev_read s;
     dev_write := dev_write s; dev_has := dev_has s; events := events s |}.

Definition set_inodefile (s : fs) (ip : inode) : fs :=
  {| disk := disk s; bufs := bufs s; junk := junk s; sb := sb s;
     loglock := loglock s;
     inodefile := ip; inodes := inodes s; dev_read := dev_read s;
     dev_write := dev_write s; dev_has := dev_has s; events := events s |}.

Definition set_inodes (s : fs) (l : list inode) : fs :=
  {| disk := disk s; bufs := bufs s; junk := junk s; sb := sb s;
     loglock := loglock s;
     inodefile := inodefile s; inodes := l; dev_read := dev_read s;
     dev_write := dev_write s; dev_has := dev_has s; events := events s |}.

(** Modelled from the spec: [bread(dev, b)->data] of [bio.c], the cached
    copy of block [b] if there is one, else the block on disk. *)
Definition bread (s : fs) (b : Z) : list Z :=
  match bufs s b with
  | Some d => d
  | None => disk s b
  end.

(** A store into [buf->data] of the buffer of block [b]. *)
Definition bset (s : fs) (b : Z) (d : list Z) : fs :=
  set_disk_bufs s (disk s) (upd (bufs s) b (Some d)) (events s).

(** Modelled from the spec: [bwrite(buf)] of [bio.c] for the buffer of
    block [b]. *)
Definition bwrite (s : fs) (b : Z) : fs :=
  let d := bread s b in
  set_disk_bufs s (upd (disk s) b d) (upd (bufs s) b (Some d))
                (events s ++ [Ewrite b d]).

(** Outcome of a kernel function on the file-system state. *)
Inductive outcome (A : Type) : Type :=
| Done : A -> fs -> outcome A
| Panic : string -> outcome A     (* panic() or a failed assert *)
| Blocked : outcome A             (* waits for a lock it cannot get *)
| Undefined : outcome A           (* access outside a C object *)
| OutOfFuel : outcome A.          (* the model's loop bound was too small *)
Arguments Done {A} _ _.
Arguments Panic {A} _.
Arguments Blocked {A}.
Arguments Undefined {A}.
Arguments OutOfFuel {A}.

Definition bind {A B : Type} (m : outcome A) (k : A -> fs -> outcome B) : outcome B :=
  match m with
  | Done a s => k a s
  | Panic msg => Panic msg
  | Blocked => Blocked
  | Undefined => Undefined
  | OutOfFuel => OutOfFuel
  end.

Notation "'let*' ( x , s ) := m 'in' k" := (bind m (fun x s => k))
  (at level 10, x name, s name, m at level 100, k at level 200).

(* ===================================================================== *)
(** ** The redo log ([kernel/fs.c]) *)
(* ===================================================================== *)

(** [begin_tx()] *)
Definition begin_tx (s : fs) : outcome unit :=
  if loglock s then Blocked                       (* acquiresleep(&loglock) *)
  else
    let s := set_loglock s true (events s ++ [Ebegin]) in
    let log := zeros sizeof_log_meta in
    let b := logstart (sb s) in
    let s := bset s b (mem_write (bread s b) 0 log sizeof_log_meta) in
    Done tt (bwrite s b).

(** [log_write(b)] for the buffer of block [blockno]. *)
Definition log_write (blockno : Z) (s : fs) : outcome unit :=
  if negb (loglock s) then Panic "not holding lock"
  else
    let lb := logstart (sb s) in
    let log := mem_read (bread s lb) 0 sizeof_log_meta in
    if 19 <=? lm_nchanges log then Undefined     (* blocknos[nchanges] *)
    else
      let log := lm_set_blockno log (lm_nchanges log) blockno in
      let log := lm_set_nchanges log (uint32 (lm_nchanges log + 1)) in
      let db := uint32 (lb + lm_nchanges log) in
      let s := bset s db (mem_write (bread s db) 0 (bread s blockno) BSIZE) in
      let s := bwrite s db in
      let s := bset s lb (mem_write (bread s lb) 0 log sizeof_log_meta) in
      Done tt (bwrite s lb).

(** One round of the loop of [commit_tx]: the home block of entry [i]. *)
Definition commit_block (log : list Z) (s : fs) (i : Z) : fs :=
  let block_no := lm_blockno log i in
  let lb := uint32 (logstart (sb s) + 1 + i) in
  let s := bset s block_no
             (mem_write (bread s block_no) 0 (bread s lb) sizeof_log_meta) in
  bwrite s block_no.

(** [commit_tx()].  The loop runs [i] over [0, log.nchanges); for [i] past
    18 the read of [blocknos[i]] leaves the struct and finds the bytes that
    follow [log] on the stack. *)
Definition commit_tx (s : fs) : outcome unit :=
  if negb (loglock s) then Panic "not holding lock"
  else
    let mb := logstart (sb s) in
    let log := mem_read (bread s mb) 0 sizeof_log_meta in
    let log := lm_set_commited log 1 in
    let s := bset s mb (mem_write (bread s mb) 0 log sizeof_log_meta) in
    let s := bwrite s mb in
    let s := fold_left (commit_block (log ++ junk s))
                       (seqZ 0 (lm_nchanges log)) s in
    let log := zeros sizeof_log_meta in
    let s := bset s mb (mem_write (bread s mb) 0 log sizeof_log_meta) in
    let s := bwrite s mb in
    Done tt (set_loglock s false (events s ++ [Ecommit])).

(* ===================================================================== *)
(** ** Boot: [iinit] and recovery ([kernel/fs.c]) *)
(* ===================================================================== *)

(** [readsb(dev, &sb)] *)
Definition readsb (s : fs) : fs :=
  set_sb s (decode_superblock (mem_read (bread s 1) 0 sizeof_superblock)).

(** [init_inodefile(dev)] *)
Definition init_inodefile (dev : Z) (s : fs) : fs :=
  let di := mem_read (bread s (inodestart (sb s))) 0 sizeof_dinode in
  set_inodefile s
    {| i_inum := INODEFILEINO; i_dev := dev; i_type := di_type di;
       i_valid := 1; i_ref := 1; i_lock := i_lock (inodefile s);
       i_devid := di_devid di; i_size := di_size di;
       i_data := map (di_data di) (seqZ 0 6) |}.

Definition unlock_inode (ip : inode) : inode :=
  {| i_dev := i_dev ip; i_inum := i_inum ip; i_ref := i_ref ip;
     i_valid := i_valid ip; i_lock := false; i_type := i_type ip;
     i_devid := i_devid ip; i_size := i_size ip; i_data := i_data ip |}.

(** One round of the replay loop of [iinit]: the home block of entry [j]. *)
Definition replay_block (log : list Z) (s : fs) (j : Z) : fs :=
  let block_no := lm_blockno log j in
  let lb := uint32 (logstart (sb s) + 1 + j) in
  let s := bset s block_no
             (mem_write (bread s block_no) 0 (bread s lb) BSIZE) in
  bwrite s block_no.

(** [iinit(dev)].  [log] is followed on the stack by bytes the function
    never wrote; the [BSIZE]-byte copy out of [&log] takes them along.
    The replay loop reads [blocknos[j]]; for [j] past 18 that read leaves
    the struct and finds those bytes as well. *)
Definition iinit (dev : Z) (s : fs) : fs :=
  let s := set_inodes s (map unlock_inode (inodes s)) in
  let s := set_inodefile s (unlock_inode (inodefile s)) in
  let s := readsb s in
  let s := init_inodefile dev s in
  let s := set_loglock s false (events s) in
  let lb := logstart (sb s) in
  let log := mem_read (bread s lb) 0 sizeof_log_meta in
  if lm_commited log =? 1 then
    let s := fold_left (replay_block (log ++ junk s))
                       (seqZ 0 (lm_nchanges log)) s in
    let log := zeros sizeof_log_meta in
    let s := bset s lb (mem_write (bread s lb) 0 (log ++ junk s) BSIZE) in
    bwrite s lb
  else s.

(** The disk after the replay of entry [j]: home block [blocknos[j]] takes
    the content of shadow block [lb + 1 + j]. *)
Definition replay_disk (lb : Z) (log : list Z) (d : Z -> list Z) (j : Z)
    : Z -> list Z :=
  upd d (lm_blockno log j) (d (uint32 (lb + 1 + j))).

(** The state at boot: no buffer is resident. *)
Definition cache_empty (s : fs) : Prop := forall b, bufs s b = None.

(** Every resident buffer holds what the disk holds. *)
Definition cache_clean (s : fs) : Prop :=
  forall b d, bufs s b = Some d -> d = disk s b.

(** Every block of the device has [BSIZE] bytes. *)
Definition wf_disk (d : Z -> list Z) : Prop :=
  forall b, length (d b) = Z.to_nat BSIZE.

(* ===================================================================== *)
(** ** Inode reads ([kernel/fs.c]) *)
(* ===================================================================== *)

(** [ip->data[extno]]; an index past the array is read as an empty extent
    here and is reported as [Undefined] by the callers that can reach it. *)
Definition ext_at (ip : inode) (extno : Z) : extent :=
  default (mkextent 0 0) (i_data ip !! Z.to_nat extno).

(** The [min] macro. *)
Definition cmin (a b : Z) : Z := if a <? b then a else b.

(** The loop of [readi], one round per unit of [fuel].  [dst] collects the
    bytes stored through the moving [dst] pointer. *)
Fixpoint readi_loop (fuel : nat) (s : fs) (ip : inode) (n : Z)
    (extno extoff foff off tot : Z) (dst : list Z) : outcome (list Z) :=
  if negb (tot <? n) then Done dst s
  else
    match fuel with
    | O => OutOfFuel
    | S fuel' =>
      if negb (0 <? nblocks (ext_at ip extno)) then
        Panic "assert(extent->nblocks > 0)"
      else if (nblocks (ext_at ip extno) <=? extoff) && negb (extno <? 5) then
        Panic "assert(extno < 5)"
      else
        let moved := nblocks (ext_at ip extno) <=? extoff in
        let extno := if moved then extno + 1 else extno in
        let extoff := if moved then 0 else extoff in
        if off / BSIZE <=? foff then
          let data := bread s (uint32 (startblkno (ext_at ip extno) + extoff)) in
          let m := cmin (uint32 (n - tot)) (uint32 (BSIZE - off mod BSIZE)) in
          readi_loop fuel' s ip n extno (uint32 (extoff + 1)) (uint32 (foff + 1))
                     (uint32 (off + m)) (uint32 (tot + m))
                     (dst ++ mem_read data (off mod BSIZE) m)
        else
          readi_loop fuel' s ip n extno (uint32 (extoff + 1)) (uint32 (foff + 1))
                     off tot dst
    end.

(** [readi(ip, dst, off, n)]: the return value and the bytes stored at
    [dst].  No round of the loop leaves [tot] and [foff] both unchanged, so
    [off / BSIZE + n + 1] rounds are enough for it to end. *)
Definition readi `{Config} (ip : inode) (off n : Z) (s : fs) : outcome (Z * list Z) :=
  if negb (i_lock ip) then Panic "not holding lock"
  else if i_type ip =? T_DEV then
    if (i_devid ip <? 0) || (NDEV <=? i_devid ip)
       || negb (fst (dev_has s (i_devid ip)))
    then Done (-1, []) s
    else Done (dev_read s (i_devid ip) (int32 n)) s
  else if (i_size ip <? off) || (uint32 (off + n) <? off) then Done (-1, []) s
  else
    let n := if i_size ip <? uint32 (off + n) then uint32 (i_size ip - off)
             else n in
    let* (dst, s) := readi_loop (Z.to_nat (off / BSIZE + n + 1)) s ip n
                                0 0 0 off 0 [] in
    Done (int32 n, dst) s.

(** The block that holds file block [fb]: the extents are walked in order,
    each one contributing its [nblocks] consecutive blocks. *)
Fixpoint block_of_extents (es : list extent) (fb : Z) : Z :=
  match es with
  | [] => 0
  | e :: r =>
      if fb <? nblocks e then startblkno e + fb
      else block_of_extents r (fb - nblocks e)
  end.

(** The number of blocks in the leading run of non-empty extents. *)
Fixpoint capacity (es : list extent) : Z :=
  match es with
  | [] => 0
  | e :: r => if 0 <? nblocks e then nblocks e + capacity r else 0
  end.

(** The byte at offset [o] of the file of inode [ip]. *)
Definition file_byte (s : fs) (ip : inode) (o : Z) : Z :=
  byte_at (bread s (block_of_extents (i_data ip) (o / BSIZE))) (o mod BSIZE).

(** Extents with 32-bit fields that do not run past the last block
    number. *)
Definition wf_extents (es : list extent) : Prop :=
  Forall (fun e => 0 <= startblkno e /\ 0 <= nblocks e /\
                   startblkno e + nblocks e < 2 ^ 32) es.

(** An inode as the file system builds it: six such extents, and a size
    that fits into the allocated blocks and into the [int] return value. *)
Definition wf_inode (ip : inode) : Prop :=
  length (i_data ip) = 6%nat /\
  wf_extents (i_data ip) /\
  0 <= i_size ip <= capacity (i_data ip) * BSIZE /\
  i_size ip < 2 ^ 31.

(** Every buffer, resident or read from the device, has [BSIZE] bytes. *)
Definition wf_bufs (s : fs) : Prop :=
  forall b, length (bread s b) = Z.to_nat BSIZE.

(* ===================================================================== *)
(** ** Inode locks and the inode cache ([kernel/fs.c]) *)
(* ===================================================================== *)

Definition iget_at (s : fs) (p : iptr) : option inode :=
  match p with
  | Inodefile => Some (inodefile s)
  | Icache i => inodes s !! i
  end.

Definition iput_at (s : fs) (p : iptr) (ip : inode) : fs :=
  match p with
  | Inodefile => set_inodefile s ip
  | Icache i => set_inodes s (<[i := ip]> (inodes s))
  end.

Definition set_ilock (ip : inode) (l : bool) : inode :=
  {| i_dev := i_dev ip; i_inum := i_inum ip; i_ref := i_ref ip;
     i_valid := i_valid ip; i_lock := l; i_type := i_type ip;
     i_devid := i_devid ip; i_size := i_size ip; i_data := i_data ip |}.

Definition set_isize (ip : inode) (sz : Z) : inode :=
  {| i_dev := i_dev ip; i_inum := i_inum ip; i_ref := i_ref ip;
     i_valid := i_valid ip; i_lock := i_lock ip; i_type := i_type ip;
     i_devid := i_devid ip; i_size := sz; i_data := i_data ip |}.

Definition set_iextent (ip : inode) (extno : Z) (e : extent) : inode :=
  {| i_dev := i_dev ip; i_inum := i_inum ip; i_ref := i_ref ip;
     i_valid := i_valid ip; i_lock := i_lock ip; i_type := i_type ip;
     i_devid := i_devid ip; i_size := i_size ip;
     i_data := <[Z.to_nat extno := e]> (i_data ip) |}.

(** The assignments of [locki] out of a [struct dinode]. *)
Definition load_dinode (ip : inode) (dip : list Z) : inode :=
  {| i_dev := i_dev ip; i_inum := i_inum ip; i_ref := i_ref ip;
     i_valid := 1; i_lock := i_lock ip; i_type := di_type dip;
     i_devid := di_devid dip; i_size := di_size dip;
     i_data := map (di_data dip) (seqZ 0 6) |}.

(** The object representation of the [struct dinode dip] that [writei]
    fills from [ip]: [pad] and the tail padding are never assigned and keep
    what the stack held. *)
Definition enc_dinode (ip : inode) (stack : list Z) : list Z :=
  le_enc 2 (i_type ip) ++ le_enc 2 (i_devid ip) ++ le_enc 4 (i_size ip)
  ++ flat_map (fun e => le_enc 4 (startblkno e) ++ le_enc 4 (nblocks e))
              (take 6 (i_data ip))
  ++ take 8 (stack ++ zeros 8).

(** [acquiresleep(&ip->lock)] after the checks of [locki]. *)
Definition acquire_ilock (p : iptr) (s : fs) : outcome unit :=
  match iget_at s p with
  | None => Undefined
  | Some ip =>
      if i_ref ip <? 1 then Panic "locki"
      else if i_lock ip then Blocked
      else Done tt (iput_at s p (set_ilock ip true))
  end.

(** [unlocki(ip)] *)
Definition unlocki (p : iptr) (s : fs) : outcome unit :=
  match iget_at s p with
  | None => Undefined
  | Some ip =>
      if negb (i_lock ip) || (i_ref ip <? 1) then Panic "unlocki"
      else Done tt (iput_at s p (set_ilock ip false))
  end.

(** The [readi] call of [read_dinode]: the bytes of [dip] afterwards.
    [dip] is uninitialised before the call and the return value of [readi]
    is dropped, so bytes that [readi] did not store keep what the stack
    held. *)
Definition read_dinode_held `{Config} (inum : Z) (s : fs) : outcome (list Z) :=
  let* (r, s) := readi (inodefile s) (uint32 (INODEOFF inum)) sizeof_dinode s in
  Done (mem_write (take 64 (junk s ++ zeros 64)) 0 (snd r)
                  (Z.of_nat (length (snd r)))) s.

Definition finish_locki (p : iptr) (dip : list Z) (s : fs) : outcome unit :=
  match iget_at s p with
  | None => Undefined
  | Some ip =>
      let ip := load_dinode ip dip in
      if i_type ip =? 0 then Panic "iget: no type"
      else Done tt (iput_at s p ip)
  end.

(** [locki(&icache.inodefile)]: [read_dinode] finds the lock held. *)
Definition locki_inodefile `{Config} (s : fs) : outcome unit :=
  let* (_, s) := acquire_ilock Inodefile s in
  if i_valid (inodefile s) =? 0 then
    let* (dip, s) := read_dinode_held (i_inum (inodefile s)) s in
    finish_locki Inodefile dip s
  else Done tt s.

(** [read_dinode(inum, dip)] *)
Definition read_dinode `{Config} (inum : Z) (s : fs) : outcome (list Z) :=
  if i_lock (inodefile s) then read_dinode_held inum s
  else
    let* (_, s) := locki_inodefile s in
    let* (dip, s) := read_dinode_held inum s in
    let* (_, s) := unlocki Inodefile s in
    Done dip s.

(** [locki(ip)] *)
Definition locki `{Config} (p : iptr) (s : fs) : outcome unit :=
  match p with
  | Inodefile => locki_inodefile s
  | Icache i =>
      let* (_, s) := acquire_ilock p s in
      match iget_at s p with
      | None => Undefined
      | Some ip =>
          if i_valid ip =? 0 then
            let* (_, s) := locki_inodefile s in
            let* (dip, s) := read_dinode (i_inum ip) s in
            let* (_, s) := unlocki Inodefile s in
            finish_locki p dip s
          else Done tt s
      end
  end.

(** [concurrent_readi(ip, dst, off, n)] *)
Definition concurrent_readi `{Config} (p : iptr) (off n : Z) (s : fs)
    : outcome (Z * list Z) :=
  let* (_, s) := locki p s in
  match iget_at s p with
  | None => Undefined
  | Some ip =>
      let* (r, s) := readi ip off n s in
      let* (_, s) := unlocki p s in
      Done r s
  end.

(* ===================================================================== *)
(** ** Block allocation and inode writes ([kernel/fs.c]) *)
(* ===================================================================== *)

(** The first [i] with [data[i] == 0] in the [int data[BSIZE / 4]] copy of
    a bitmap block. *)
Definition find_zero_word (data : list Z) : option Z :=
  find (fun i => rd data (4 * i) 4 =? 0) (seqZ 0 (BSIZE / 4)).

(** The outer loop of [balloc] over the bitmap blocks [bs]. *)
Fixpoint balloc_scan `{Config} (bs : list Z) (s : fs) : outcome Z :=
  match bs with
  | [] => Panic "No more free space in extent region"
  | blockno :: r =>
      match find_zero_word (bread s blockno) with
      | Some i =>
          let s := bset s blockno (wr (bread s blockno) (4 * i) 4 (2 ^ 32 - 1)) in
          let* (_, s) := log_write blockno s in
          let addr := uint32 ((blockno - bmapstart (sb s)) * BPB + i * 32) in
          if negb (inodestart (sb s) <? addr) then
            Panic "assert(addr > sb.inodestart)"
          else if negb (addr <? FSSIZE) then Panic "assert(addr < FSSIZE)"
          else Done addr s
      | None => balloc_scan r s
      end
  end.

(** [balloc()] *)
Definition balloc `{Config} (s : fs) : outcome Z :=
  let first := BBLOCK (inodestart (sb s)) (sb s) in
  balloc_scan (seqZ first (inodestart (sb s) - first)) s.

(** The body of [if (foff >= off / BSIZE) { ... }] in the loop of [writei]
    on the inode [p], whose fields the loop read as [ip], without its first
    and last statement: one block of the write and the write-back of the
    dinode.  [writeback] is the step that stores the updated dinode, which
    differs between the inode file and every other inode.  [src] is the
    caller's buffer; the moving [src] pointer is [src + tot].  The result
    is the new [off] and [tot]. *)
Definition writei_block `{Config}
    (writeback : list Z -> fs -> outcome unit)
    (p : iptr) (src : list Z) (n oldoff : Z)
    (ip : inode) (extno extoff off tot : Z) (s : fs) : outcome (Z * Z) :=
  let* (ip, s) :=
    if nblocks (ext_at ip extno) =? 0 then
      if extno =? 5 then Panic "Run out of space for a file"
      else
        let* (addr, s) := balloc s in
        Done (set_iextent ip extno (mkextent addr 32)) s
    else Done ip s in
  let b := uint32 (startblkno (ext_at ip extno) + extoff) in
  let m := cmin (uint32 (n - tot)) (uint32 (BSIZE - off mod BSIZE)) in
  let s := bset s b (mem_write (bread s b) (off mod BSIZE)
                               (drop (Z.to_nat tot) src) m) in
  let* (_, s) := log_write b s in
  let off := uint32 (off + m) in
  let tot := uint32 (tot + m) in
  let ip := if i_size ip <? uint32 (oldoff + tot)
            then set_isize ip (uint32 (oldoff + tot)) else ip in
  let s := iput_at s p ip in
  let* (_, s) := writeback (enc_dinode ip (junk s)) s in
  Done (off, tot) s.

(** The whole body: [begin_tx] first and [commit_tx] last unless the
    caller of [writei] already holds the log lock. *)
Definition writei_step `{Config}
    (writeback : list Z -> fs -> outcome unit)
    (p : iptr) (src : list Z) (n oldoff : Z) (log_started : bool)
    (ip : inode) (extno extoff off tot : Z) (s : fs) : outcome (Z * Z) :=
  if 6 <=? extno then Undefined              (* extent->nblocks past data[5] *)
  else
    let* (_, s) := if log_started then Done tt s else begin_tx s in
    let* (ot, s) := writei_block writeback p src n oldoff
                                 ip extno extoff off tot s in
    let* (_, s) := if log_started then Done tt s else commit_tx s in
    Done ot s.

(** The loop of [writei], one round per unit of [fuel]. *)
Fixpoint writei_loop `{Config} (fuel : nat)
    (writeback : list Z -> fs -> outcome unit)
    (p : iptr) (src : list Z) (n oldoff : Z) (log_started : bool)
    (extno extoff foff off tot : Z) (s : fs) : outcome unit :=
  if negb (tot <? n) then Done tt s
  else
    match fuel, iget_at s p with
    | O, _ => OutOfFuel
    | _, None => Undefined
    | S fuel', Some ip =>
      if 6 <=? extno then Undefined            (* extent->nblocks past data[5] *)
      else
        let moved := (nblocks (ext_at ip extno) <=? extoff)
                     && negb (nblocks (ext_at ip extno) =? 0) in
        let extno := if moved then extno + 1 else extno in
        let extoff := if moved then 0 else extoff in
        if off / BSIZE <=? foff then
          let* (ot, s) := writei_step writeback p src n oldoff log_started
                                      ip extno extoff off tot s in
          writei_loop fuel' writeback p src n oldoff log_started
                      extno (uint32 (extoff + 1)) (uint32 (foff + 1))
                      (fst ot) (snd ot) s
        else
          writei_loop fuel' writeback p src n oldoff log_started
                      extno (uint32 (extoff + 1)) (uint32 (foff + 1)) off tot s
    end.

(** The part of [writei] before the loop, shared by both kinds of inode:
    lock check, device dispatch, range check.  [None] means "go on to the
    loop". *)
Definition writei_entry `{Config} (ip : inode) (src : list Z) (off n : Z)
    (s : fs) : option (outcome Z) :=
  if negb (i_lock ip) then Some (Panic "not holding lock")
  else if i_type ip =? T_DEV then
    if (i_devid ip <? 0) || (NDEV <=? i_devid ip)
       || negb (snd (dev_has s (i_devid ip)))
    then Some (Done (-1) s)
    else Some (Done (dev_write s (i_devid ip) src (int32 n)) s)
  else if (i_size ip <? off) || (uint32 (off + n) <? off) then Some (Done (-1) s)
  else None.

(** The write-back of the dinode when [ip == &icache.inodefile]. *)
Definition writeback_inodefile (dip : list Z) (s : fs) : outcome unit :=
  let b := inodestart (sb s) in
  let s := bset s b (mem_write (bread s b) 0 dip sizeof_dinode) in
  log_write b s.

(** [writei(&icache.inodefile, src, off, n)] *)
Definition writei_inodefile `{Config} (src : list Z) (off n : Z) (s : fs)
    : outcome Z :=
  match writei_entry (inodefile s) src off n s with
  | Some r => r
  | None =>
      let* (_, s) := writei_loop (Z.to_nat (off / BSIZE + n + 1))
                       writeback_inodefile Inodefile src n off (loglock s)
                       0 0 0 off 0 s in
      Done (int32 n) s
  end.

(** [concurrent_writei(&icache.inodefile, &dip, INODEOFF(ip->inum),
    sizeof(struct dinode))], return value dropped: the write-back of the
    dinode of every other inode. *)
Definition writeback_other `{Config} (inum : Z) (dip : list Z) (s : fs)
    : outcome unit :=
  let* (_, s) := locki Inodefile s in
  let* (_, s) := writei_inodefile dip (uint32 (INODEOFF inum)) sizeof_dinode s in
  unlocki Inodefile s.

(** [writei(ip, src, off, n)] *)
Definition writei `{Config} (p : iptr) (src : list Z) (off n : Z) (s : fs)
    : outcome Z :=
  match p with
  | Inodefile => writei_inodefile src off n s
  | Icache _ =>
      match iget_at s p with
      | None => Undefined
      | Some ip =>
          match writei_entry ip src off n s with
          | Some r => r
          | None =>
              let* (_, s) := writei_loop (Z.to_nat (off / BSIZE + n + 1))
                               (writeback_other (i_inum ip)) p src n off
                               (loglock s) 0 0 0 off 0 s in
              Done (int32 n) s
          end
      end
  end.

(** [concurrent_writei(ip, src, off, n)] *)
Definition concurrent_writei `{Config} (p : iptr) (src : list Z) (off n : Z)
    (s : fs) : outcome Z :=
  let* (_, s) := locki p s in
  let* (r, s) := writei p src off n s in
  let* (_, s) := unlocki p s in
  Done r s.

(* ===================================================================== *)
(** ** Traces and crashes *)
(* ===================================================================== *)

(** The number of transactions of a trace, if the trace is a sequence of
    transactions: each an [Ebegin], block writes, an [Ecommit], with no
    write outside.  [inside] tells whether a transaction is open. *)
Fixpoint txns (inside : bool) (evs : list event) : option nat :=
  match evs with
  | [] => if inside then None else Some 0%nat
  | Ebegin :: r => if inside then None else txns true r
  | Ewrite _ _ :: r => if inside then txns true r else None
  | Ecommit :: r => if inside then option_map S (txns false r) else None
  end.

Definition is_write (e : event) : bool :=
  match e with
  | Ewrite _ _ => true
  | _ => false
  end.

(** The number of file blocks a write of [n] bytes at [off] touches. *)
Definition blocks_touched (off n : Z) : Z :=
  if n <=? 0 then 0 else (off + n - 1) / BSIZE - off / BSIZE + 1.

(** The device after a crash that let exactly the writes of [evs] through. *)
Definition crash_disk (d : Z -> list Z) (evs : list event) : Z -> list Z :=
  fold_left (fun d e => match e with
                        | Ewrite b v => upd d b v
                        | _ => d
                        end) evs d.

(** The events up to and including the first [Ecommit]. *)
Fixpoint upto_commit (evs : list event) : list event :=
  match evs with
  | [] => []
  | Ecommit :: _ => [Ecommit]
  | e :: r => e :: upto_commit r
  end.

(** ** Specifications of outcomes *)

(** [post P o]: the call did not stop for lack of fuel, and if it returned,
    its result and final state satisfy [P]. *)
Definition post {A : Type} (P : A -> fs -> Prop) (o : outcome A) : Prop :=
  match o with
  | Done a s => P a s
  | OutOfFuel => False
  | _ => True
  end.

(** From [s] to [s'] the log lock did not change hands, the inode file
    stayed loaded or not, and all that reached the disk are the block
    writes of the trace [tr] added to the history. *)
Definition quiet (s s' : fs) : Prop :=
  loglock s' = loglock s /\
  i_valid (inodefile s') = i_valid (inodefile s) /\
  exists tr, events s' = events s ++ tr /\ forallb is_write tr = true /\
             disk s' = crash_disk (disk s) tr.

(** From [s] to [s'] exactly [c] transactions ran, nothing reached the
    disk outside of them, and the log lock is free again. *)
Definition ran_txns (c : nat) (s s' : fs) : Prop :=
  loglock s' = false /\
  i_valid (inodefile s') = i_valid (inodefile s) /\
  exists tr, events s' = events s ++ tr /\ txns false tr = Some c /\
             disk s' = crash_disk (disk s) tr.

(** A write-back that stays inside the running transaction. *)
Definition writeback_ok (wb : list Z -> fs -> outcome unit) : Prop :=
  forall dip s, loglock s = true -> i_valid (inodefile s) <> 0 ->
    post (fun _ s' => quiet s s') (wb dip s).

(** [off] and [tot] after the block step at [off], [tot]. *)
Definition next_pos (n off tot : Z) : Z * Z :=
  let m := cmin (uint32 (n - tot)) (uint32 (BSIZE - off mod BSIZE)) in
  (uint32 (off + m), uint32 (tot + m)).

(** The number of block steps the loop still has to run. *)
Definition steps_left (off0 n off tot : Z) : nat :=
  if tot <? n then Z.to_nat ((off0 + n - 1) / BSIZE - off / BSIZE + 1) else 0.

(* ===================================================================== *)
(** ** Processes: [wait] ([kernel/proc.c]) *)
(* ===================================================================== *)

Inductive procstate : Type :=
| UNUSED | EMBRYO | SLEEPING | RUNNABLE | RUNNING | ZOMBIE.

(** [struct proc], the fields [wait] and its helpers touch.  [parent] is a
    slot of the process table or [None] for the null pointer; [kstack] and
    [vspace] tell whether the kernel stack and the address space are still
    allocated. *)
Record proc : Type := mkproc {
  pid : Z;
  state : procstate;
  parent : option nat;
  chan : Z;
  killed : Z;
  kstack : bool;
  vspace : bool
}.

(** [ptable.proc], and what the machine returns for a read of
    [p->parent->pid] through a null [p->parent]: the [int] found at that
    low address, or [None] when the address is not mapped and the read
    faults.  [findzombiechild] does such reads for every slot that has no
    parent, unused slots included. *)
Record ptable : Type := mkptable {
  procs : list proc;
  at_null : option Z
}.

(** [p->parent->pid] *)
Definition parent_pid (t : ptable) (p : proc) : option Z :=
  match parent p with
  | None => at_null t
  | Some q => pid <$> procs t !! q
  end.

Definition is_zombie (p : proc) : bool :=
  match state p with
  | ZOMBIE => true
  | _ => false
  end.

(** The loop of [findzombiechild] over the slots [ps], the first of which
    is slot [idx].  The result is the return value and the slot stored
    through [pp], if any; [None] is a faulting read. *)
Fixpoint findzombiechild_from (t : ptable) (ps : list proc) (idx : nat)
    (pid0 : Z) (haschild : bool) : option (Z * option nat) :=
  match ps with
  | [] => Some (if negb haschild then -1 else 0, None)
  | p :: r =>
      match parent_pid t p with
      | None => None
      | Some v =>
          if v =? pid0 then
            if is_zombie p then Some (pid p, Some idx)
            else findzombiechild_from t r (S idx) pid0 true
          else findzombiechild_from t r (S idx) pid0 haschild
      end
  end.

(** [findzombiechild(pid, pp)].  The local [bool haschild] has no
    initialiser: [haschild0] is the indeterminate value it starts with. *)
Definition findzombiechild (haschild0 : bool) (pid0 : Z) (t : ptable)
    : option (Z * option nat) :=
  findzombiechild_from t (procs t) 0 pid0 haschild0.

Definition set_procs (t : ptable) (ps : list proc) : ptable :=
  {| procs := ps; at_null := at_null t |}.

(** [freeproc(p)] for slot [i]. *)
Definition freeproc (i : nat) (t : ptable) : ptable :=
  match procs t !! i with
  | None => t
  | Some p =>
      set_procs t (<[i := {| pid := pid p; state := UNUSED; parent := None;
                             chan := chan p; killed := killed p;
                             kstack := false; vspace := false |}]> (procs t))
  end.

(** [sleep(chan, &ptable.lock)] up to the switch to the scheduler, for the
    process in slot [me]. *)
Definition sleep (me : nat) (c : Z) (t : ptable) : ptable :=
  match procs t !! me with
  | None => t
  | Some p =>
      set_procs t (<[me := {| pid := pid p; state := SLEEPING;
                              parent := parent p; chan := c;
                              killed := killed p; kstack := kstack p;
                              vspace := vspace p |}]> (procs t))
  end.

Inductive wait_result : Type :=
| WaitFault : wait_result                   (* a faulting or wild access *)
| WaitReturns : Z -> ptable -> wait_result
| WaitSleeps : Z -> ptable -> wait_result.  (* asleep on this channel *)

(** [wait()] called by the process in slot [me], up to its return or to
    its first [sleep]; after a wakeup the loop calls [findzombiechild]
    again, which is this function on the table of that moment. *)
Definition wait (haschild0 : bool) (me : nat) (t : ptable) : wait_result :=
  match procs t !! me with
  | None => WaitFault
  | Some cur =>
      match findzombiechild haschild0 (pid cur) t with
      | None => WaitFault
      | Some (r, pp) =>
          if r <=? 0 then
            if r =? -1 then WaitReturns (-1) t
            else WaitSleeps (pid cur) (sleep me (pid cur) t)
          else
            match pp with
            | Some i => WaitReturns r (freeproc i t)
            | None => WaitFault
            end
      end
  end.

(** Slot [i] holds a child of the process with pid [pid0]. *)
Definition child_of (t : ptable) (pid0 : Z) (p : proc) : Prop :=
  parent_pid t p = Some pid0.

Definition is_child (t : ptable) (pid0 : Z) (p : proc) : bool :=
  match parent_pid t p with
  | Some v => v =? pid0
  | None => false
  end.

(** No read of [p->parent->pid] faults. *)
Definition parents_readable (t : ptable) : Prop :=
  Forall (fun p => parent_pid t p <> None) (procs t).

(** A table with the caller (pid 1, running) in slot 0 and an unused
    second slot; reads through the null parent pointer return 0. *)
Definition caller_c8 : proc :=
  {| pid := 1; state := RUNNING; parent := None; chan := 0; killed := 0;
     kstack := true; vspace := true |}.

Definition unused_c8 : proc :=
  {| pid := 0; state := UNUSED; parent := None; chan := 0; killed := 0;
     kstack := false; vspace := false |}.

Definition ptable_c8 : ptable :=
  {| procs := [caller_c8; unused_c8]; at_null := Some 0 |}.

(** The same with a zombie child (pid 2) of the caller in slot 1. *)
Definition zombie_c8 : proc :=
  {| pid := 2; state := ZOMBIE; parent := Some 0%nat; chan := 0; killed := 0;
     kstack := true; vspace := true |}.

Definition ptable_c8_zombie : ptable :=
  {| procs := [caller_c8; zombie_c8]; at_null := Some 0 |}.

(* ===================================================================== *)
(** ** Page faults ([kernel/trap.c]) *)
(* ===================================================================== *)

(** [struct vpage_info], the fields the handler reads. *)
Record vpage_info : Type := mkvpi {
  swapped : bool;
  is_cow : bool;
  swap_index : Z
}.

(** What the page-fault branch of [trap] consults.  The address-space
    functions ([va2vregion], [va2vpage_info], [vregionaddmap]) are outside
    the sources at hand and enter as their results.
    - [stack_base], [stack_size]: [va_base] and [size] of
      [regions[VR_USTACK]].
    - [vpi_at addr]: [None] when [va2vregion] finds no region, [Some None]
      when [va2vpage_info] returns null, else the page info.
    - [addmap base size]: the return value of
      [vregionaddmap(stack, base, size, 1, 1)].
    - [swappage_ok], [ppage_ok]: [swappage_copy] and [ppage_copy] did not
      return -1.
    - [has_proc]: [myproc() != 0]. *)
Record pf_env : Type := mkpfenv {
  stack_base : Z;
  stack_size : Z;
  vpi_at : Z -> option (option vpage_info);
  addmap : Z -> Z -> Z;
  swappage_ok : Z -> bool;
  ppage_ok : bool;
  has_proc : bool
}.

Inductive pf_action : Type :=
| PfSwapIn : Z -> pf_action        (* page swapped in, process resumes *)
| PfGrowStack : Z -> Z -> Z -> pf_action
    (* [base], [size] mapped writable for the user; new [stack->size];
       process resumes *)
| PfCow : pf_action                (* private copy made, process resumes *)
| PfKill : pf_action               (* myproc()->killed = 1 *)
| PfPanic : string -> pf_action.

(** [PGROUNDDOWN(a)] *)
Definition PGROUNDDOWN (a : Z) : Z := a - a mod PGSIZE.

(** The swap-in test at the top of the page-fault branch. *)
Definition swapped_user_fault (e : pf_env) (err addr : Z) : option Z :=
  if Z.land err 5 =? 4 then
    match vpi_at e addr with
    | Some (Some vpi) => if swapped vpi then Some (swap_index vpi) else None
    | _ => None
    end
  else None.

(** The [TRAP_PF] branch of [trap(tf)] with [err = tf->err],
    [addr = rcr2()] and [cs = tf->cs]. *)
Definition page_fault (e : pf_env) (err addr cs : Z) : pf_action :=
  match swapped_user_fault e err addr with
  | Some idx =>
      if swappage_ok e idx then PfSwapIn idx
      else PfPanic "cannot allocate new page for swap memory"
  | None =>
      if (Z.land err 1 =? 0) && (addr <? stack_base e)
         && (uint64 (stack_base e - 10 * PGSIZE) <? addr) then
        let base := PGROUNDDOWN addr in
        let size := uint64 (stack_base e - stack_size e - base) in
        if negb (addmap e base size =? size) then
          PfPanic "cannot allocate space in stack"
        else PfGrowStack base size (uint64 (stack_size e + size))
      else if (Z.land err 3 =? 3) then
        match vpi_at e addr with
        | None => PfPanic "cannot get vregion for attempted address"
        | Some None => PfPanic "cannot get vpage_info for attempted address"
        | Some (Some vpi) =>
            if is_cow vpi then
              if ppage_ok e then PfCow
              else PfPanic "cannot allocate new page for copy-on-write memory"
            else if negb (has_proc e) || (Z.land cs 3 =? 0) then PfPanic "trap"
            else PfKill
        end
      else if negb (has_proc e) || (Z.land cs 3 =? 0) then PfPanic "trap"
      else PfKill
  end.

(** A user stack of one page below 2 GiB, nothing swapped, allocation
    succeeding. *)
Definition pf_env_c9 : pf_env :=
  {| stack_base := 2 ^ 31; stack_size := PGSIZE;
     vpi_at := fun _ => None; addmap := fun _ size => size;
     swappage_ok := fun _ => true; ppage_ok := true; has_proc := true |}.

(* ===================================================================== *)
(** ** Open files and the read/write system calls
       ([kernel/file.c], [kernel/sysfile.c]) *)
(* ===================================================================== *)

(** [struct file_info].  [f_lock] is the entry's sleep-lock, held or not by
    the running process; [ip] and [pp] are handles or null. *)
Record file_info : Type := mkfile {
  f_lock : bool;
  ip : option iptr;
  pp : option nat;
  is_pipe : bool;
  ref : Z;
  offset : Z;
  perm : Z
}.

(** The kernel state the two system calls work on: the file system, the
    pipes, [files_global] and [myproc()->files]. *)
Record kernel : Type := mkkernel {
  kfs : fs;
  pipes : list pipe;
  files_global : list file_info;
  files : list (option nat)
}.

(** What the argument fetchers yield for the trapping process:
    [argint(0, &fd)], [argint(2, &n)] ([None] when the fetch fails),
    whether [argptr(1, &buf, size)] accepts the buffer, and the bytes
    found at [buf]. *)
Record sysargs : Type := mkargs {
  arg_fd : option Z;
  arg_n : option Z;
  arg_buf_ok : Z -> bool;
  arg_buf : list Z
}.

Inductive sysres : Type :=
| SysRet : Z -> kernel -> list Z -> sysres  (* value, state, bytes stored at buf *)
| SysSleeps : sysres
| SysStops : outcome unit -> sysres.        (* panic, deadlock, wild access *)

Definition set_kfs (k : kernel) (s : fs) : kernel :=
  {| kfs := s; pipes := pipes k; files_global := files_global k;
     files := files k |}.

Definition set_pipe (k : kernel) (i : nat) (p : pipe) : kernel :=
  {| kfs := kfs k; pipes := <[i := p]> (pipes k);
     files_global := files_global k; files := files k |}.

Definition set_file (k : kernel) (i : nat) (f : file_info) : kernel :=
  {| kfs := kfs k; pipes := pipes k;
     files_global := <[i := f]> (files_global k); files := files k |}.

Definition set_offset_lock (f : file_info) (o : Z) (l : bool) : file_info :=
  {| f_lock := l; ip := ip f; pp := pp f; is_pipe := is_pipe f; ref := ref f;
     offset := o; perm := perm f |}.

(** The outcomes of the file-system layer that are not a return. *)
Definition stops {A : Type} (o : outcome A) : outcome unit :=
  match o with
  | Done _ _ => Undefined
  | Panic m => Panic m
  | Blocked => Blocked
  | Undefined => Undefined
  | OutOfFuel => OutOfFuel
  end.

(** [fileread(fp, buf, n)] for the entry [fi] of [files_global]. *)
Definition fileread `{Config} (fi : nat) (n : Z) (k : kernel) : sysres :=
  match files_global k !! fi with
  | None => SysStops Undefined
  | Some fp =>
      if is_pipe fp then
        match pp fp with
        | None => SysStops Undefined
        | Some pi =>
            match pipes k !! pi with
            | None => SysStops Undefined
            | Some p =>
                match piperead p n with
                | Sleeps => SysSleeps
                | Returns (r, p', out) => SysRet r (set_pipe k pi p') out
                end
            end
        end
      else
        match ip fp with
        | None => SysStops Undefined
        | Some i =>
            match concurrent_readi i (offset fp) (uint32 n) (kfs k) with
            | Done (bytes, out) s =>
                if bytes =? -1 then SysRet (-1) (set_kfs k s) out
                else if f_lock fp then SysStops Blocked
                else
                  SysRet bytes
                    (set_file (set_kfs k s) fi
                       (set_offset_lock fp (uint32 (offset fp + bytes)) false))
                    out
            | o => SysStops (stops o)
            end
        end
  end.

(** [filewrite(fp, buf, n)] for the entry [fi] of [files_global].  On the
    error return the entry's lock stays held. *)
Definition filewrite `{Config} (fi : nat) (src : list Z) (n : Z) (k : kernel)
    : sysres :=
  match files_global k !! fi with
  | None => SysStops Undefined
  | Some fp =>
      if is_pipe fp then
        match pp fp with
        | None => SysStops Undefined
        | Some pi =>
            match pipes k !! pi with
            | None => SysStops Undefined
            | Some p =>
                match pipewrite p src n with
                | Sleeps => SysSleeps
                | Returns (r, p') => SysRet r (set_pipe k pi p') []
                end
            end
        end
      else if f_lock fp then SysStops Blocked
      else
        match ip fp with
        | None => SysStops Undefined
        | Some i =>
            match concurrent_writei i src (offset fp) (uint32 n) (kfs k) with
            | Done bytes s =>
                if bytes =? -1 then
                  SysRet (-1)
                    (set_file (set_kfs k s) fi
                       (set_offset_lock fp (offset fp) true)) []
                else
                  SysRet bytes
                    (set_file (set_kfs k s) fi
                       (set_offset_lock fp (uint32 (offset fp + bytes)) false))
                    []
            | o => SysStops (stops o)
            end
        end
  end.

(** [myproc()->files[fd]] after the range check on [fd]. *)
Definition fd_lookup `{Config} (k : kernel) (fd : Z) : option nat :=
  if (NOFILE <=? fd) || (fd <? 0) then None
  else default None (files k !! Z.to_nat fd).

(** [sys_read()] *)
Definition sys_read `{Config} (a : sysargs) (k : kernel) : sysres :=
  match arg_fd a with
  | None => SysRet (-1) k []
  | Some fd =>
      match arg_n a with
      | None => SysRet (-1) k []
      | Some n =>
          if n <=? 0 then SysRet (-1) k []
          else if negb (arg_buf_ok a n) then SysRet (-1) k []
          else
            match fd_lookup k fd with
            | None => SysRet (-1) k []
            | Some fi =>
                match files_global k !! fi with
                | None => SysStops Undefined
                | Some fp =>
                    if negb (perm fp =? O_RDONLY) && negb (perm fp =? O_RDWR)
                    then SysRet (-1) k []
                    else fileread fi n k
                end
            end
      end
  end.

(** [sys_write()] *)
Definition sys_write `{Config} (a : sysargs) (k : kernel) : sysres :=
  match arg_fd a with
  | None => SysRet (-1) k []
  | Some fd =>
      match arg_n a with
      | None => SysRet (-1) k []
      | Some n =>
          if n <=? 0 then SysRet (-1) k []
          else if negb (arg_buf_ok a n) then SysRet (-1) k []
          else
            match fd_lookup k fd with
            | None => SysRet (-1) k []
            | Some fi =>
                match files_global k !! fi with
                | None => SysStops Undefined
                | Some fp =>
                    if negb (perm fp =? O_WRONLY) && negb (perm fp =? O_RDWR)
                    then SysRet (-1) k []
                    else filewrite fi (arg_buf a) n k
                end
            end
      end
  end.

(** The file offsets of a state. *)
Definition offsets (k : kernel) : list Z := map offset (files_global k).


(* ===================================================================== *)
(** ** Concrete states for the runs *)
(* ===================================================================== *)

(** A block with [bs] at its start, zero-filled to [BSIZE]. *)
Definition block_of (bs : list Z) : list Z :=
  take (Z.to_nat BSIZE) (bs ++ zeros BSIZE).

Definition enc_superblock (x : superblock) : list Z :=
  le_enc 4 (sb_size x) ++ le_enc 4 (sb_nblocks x) ++ le_enc 4 (bmapstart x)
  ++ le_enc 4 (inodestart x) ++ le_enc 4 (swapstart x) ++ le_enc 4 (logstart x).

Definition enc_log_meta (commited nchanges : Z) (blocknos : list Z) : list Z :=
  le_enc 2 commited ++ [0; 0] ++ le_enc 4 nchanges
  ++ flat_map (le_enc 4) blocknos.

(** Layout of the example disk: bitmap in block 2, inode file from block 3,
    log in blocks 40 to 59, data from block 64. *)
Definition sb0 : superblock :=
  {| sb_size := 100000; sb_nblocks := 90000; bmapstart := 2; inodestart := 3;
     swapstart := 1000; logstart := 40 |}.

Definition no_inode : inode :=
  {| i_dev := 0; i_inum := 0; i_ref := 0; i_valid := 0; i_lock := false;
     i_type := 0; i_devid := 0; i_size := 0; i_data := [] |}.

Definition fs_of (d : Z -> list Z) (held : bool) : fs :=
  {| disk := d; bufs := fun _ => None; junk := []; sb := sb0;
     loglock := held; inodefile := no_inode; inodes := [];
     dev_read := fun _ _ => (-1, []); dev_write := fun _ _ _ => -1;
     dev_has := fun _ => (false, false); events := [] |}.

(** A transaction ready to commit: one logged change for home block 70,
    whose shadow block 41 holds 512 bytes [0xAA]; block 70 itself still
    holds zeros on the device and its buffer is not resident. *)
Definition disk_c2 : Z -> list Z :=
  fun b =>
    if b =? 1 then block_of (enc_superblock sb0)
    else if b =? 40 then block_of (enc_log_meta 0 1 [70])
    else if b =? 41 then repeat 170 512
    else zeros BSIZE.

(** A disk after a crash inside an open transaction: the log header says
    not committed, one change logged. *)
Definition disk_c3 : Z -> list Z := disk_c2.

(** The same log, committed. *)
Definition disk_c3_committed : Z -> list Z :=
  upd disk_c2 40 (block_of (enc_log_meta 1 1 [70])).

(** A file of 600 bytes in the extent starting at block 64: block 64 holds
    the bytes 0, 1, ..., 255, 0, 1, ... and block 65 holds sevens. *)
Definition disk_c7 : Z -> list Z :=
  fun b =>
    if b =? 64 then map (fun i => i mod 256) (seqZ 0 BSIZE)
    else if b =? 65 then repeat 7 512
    else zeros BSIZE.

Definition file_c7 : inode :=
  {| i_dev := 1; i_inum := 2; i_ref := 1; i_valid := 1; i_lock := true;
     i_type := 2; i_devid := 0; i_size := 600;
     i_data := [mkextent 64 32; mkextent 0 0; mkextent 0 0; mkextent 0 0;
                mkextent 0 0; mkextent 0 0] |}.

(** A 64-byte dinode image. *)
Definition enc_dinode_of (type size : Z) (es : list extent) : list Z :=
  enc_dinode {| i_dev := 0; i_inum := 0; i_ref := 0; i_valid := 0;
                i_lock := false; i_type := type; i_devid := 0;
                i_size := size; i_data := es |} [].

Definition no_extents (k : nat) : list extent := repeat (mkextent 0 0) k.

(** A small file system: blocks 0 to 95 marked in use in the bitmap; the
    inode file (inum 0) in blocks 3 to 34 with three dinodes; inum 1 the
    root directory; inum 2 an empty regular file owning blocks 64 to 95. *)
Definition disk_c1 : Z -> list Z :=
  fun b =>
    if b =? 1 then block_of (enc_superblock sb0)
    else if b =? 2 then
      block_of (le_enc 4 (2 ^ 32 - 1) ++ le_enc 4 (2 ^ 32 - 1)
                ++ le_enc 4 (2 ^ 32 - 1))
    else if b =? 3 then
      block_of (enc_dinode_of 2 192 (mkextent 3 32 :: no_extents 5)
                ++ enc_dinode_of 1 0 (mkextent 60 4 :: no_extents 5)
                ++ enc_dinode_of 2 0 (mkextent 64 32 :: no_extents 5))
    else zeros BSIZE.

(** The file of inum 2, in slot 0 of the inode cache, locked by the
    caller; the rest of the state as [iinit] leaves it. *)
Definition file_c1 : inode :=
  {| i_dev := 1; i_inum := 2; i_ref := 1; i_valid := 1; i_lock := true;
     i_type := 2; i_devid := 0; i_size := 0;
     i_data := mkextent 64 32 :: no_extents 5 |}.

Definition fs_c1 : fs := set_inodes (iinit 1 (fs_of disk_c1 false)) [file_c1].

(** Two blocks of data: 512 bytes [0x11], then 512 bytes [0x22]. *)
Definition src_c1 : list Z := repeat 17 512 ++ repeat 34 512.

(** A state with the 600-byte file of [file_c7] open read-write as
    descriptor 0, at offset 10. *)
Definition kernel_c10 : kernel :=
  {| kfs := set_inodes (fs_of disk_c7 false) [set_ilock file_c7 false];
     pipes := [];
     files_global := [{| f_lock := false; ip := Some (Icache 0); pp := None;
                         is_pipe := false; ref := 1; offset := 10; perm := 2 |}];
     files := [Some 0%nat] |}.

Definition args_c10 (n : Z) : sysargs :=
  {| arg_fd := Some 0; arg_n := Some n; arg_buf_ok := fun _ => true;
     arg_buf := repeat 65 16 |}.

(* ===================================================================== *)
(** ** Processes: wakeup, kill, lookup, exit ([kernel/proc.c]) *)
(* ===================================================================== *)

Definition set_state (p : proc) (st : procstate) : proc :=
  {| pid := pid p; state := st; parent := parent p; chan := chan p;
     killed := killed p; kstack := kstack p; vspace := vspace p |}.

Definition set_parent (p : proc) (q : option nat) : proc :=
  {| pid := pid p; state := state p; parent := q; chan := chan p;
     killed := killed p; kstack := kstack p; vspace := vspace p |}.

Definition is_sleeping (p : proc) : bool :=
  match state p with
  | SLEEPING => true
  | _ => false
  end.

(** The body of the loop of [wakeup1(chan)] for one slot. *)
Definition wake (c : Z) (p : proc) : proc :=
  if is_sleeping p && (chan p =? c) then set_state p RUNNABLE else p.

(** [wakeup1(chan)]; [wakeup(chan)] is the same between [acquire] and
    [release] of [ptable.lock]. *)
Definition wakeup1 (c : Z) (t : ptable) : ptable :=
  set_procs t (map (wake c) (procs t)).

(** What [kill] does to the slot it picks. *)
Definition mark_killed (p : proc) : proc :=
  {| pid := pid p; state := if is_sleeping p then RUNNABLE else state p;
     parent := parent p; chan := chan p; killed := 1;
     kstack := kstack p; vspace := vspace p |}.

(** The loop of [kill(pid)] over the slots [ps]: the slots afterwards, or
    [None] when the loop runs to its end. *)
Fixpoint kill_from (ps : list proc) (pid0 : Z) : option (list proc) :=
  match ps with
  | [] => None
  | p :: r =>
      if pid p =? pid0 then Some (mark_killed p :: r)
      else cons p <$> kill_from r pid0
  end.

(** [kill(pid)] *)
Definition kill (pid0 : Z) (t : ptable) : Z * ptable :=
  match kill_from (procs t) pid0 with
  | Some ps => (0, set_procs t ps)
  | None => (-1, t)
  end.

(** The loop of [findproc(pid)] over the slots [ps], the first of which is
    slot [idx]. *)
Fixpoint findproc_from (ps : list proc) (idx : nat) (pid0 : Z) : option nat :=
  match ps with
  | [] => None
  | p :: r => if pid p =? pid0 then Some idx else findproc_from r (S idx) pid0
  end.

(** [findproc(pid)]: the slot found, [None] for the null pointer. *)
Definition findproc (pid0 : Z) (t : ptable) : option nat :=
  findproc_from (procs t) 0 pid0.

(** The loop of [exit] that hands the children of the caller to
    [initproc], over the slots with the indices [idxs].  As in
    [findzombiechild], [p->parent->pid] is read for every slot, the ones
    without a parent included; [None] is a faulting read. *)
Fixpoint exit_reparent (idxs : list nat) (mypid : Z) (initproc : option nat)
    (t : ptable) : option ptable :=
  match idxs with
  | [] => Some t
  | i :: r =>
      match procs t !! i with
      | None => None
      | Some p =>
          match parent_pid t p with
          | None => None
          | Some v =>
              exit_reparent r mypid initproc
                (if v =? mypid
                 then set_procs t (<[i := set_parent p initproc]> (procs t))
                 else t)
          end
      end
  end.

(** [exit()] called by the process in slot [me], from the first
    [acquire(&ptable.lock)] up to the final [sched()]: the caller turns
    [ZOMBIE], its children go to [initproc], and the processes asleep on
    the channel [(void * )(uintptr_t)myproc()->parent->pid] are woken.  The
    loop before it, which closes the open files, works on the file table
    and is not part of this function. *)
Definition exit_table (me : nat) (initproc : option nat) (t : ptable)
    : option ptable :=
  match procs t !! me with
  | None => None
  | Some cur =>
      let t := set_procs t (<[me := set_state cur ZOMBIE]> (procs t)) in
      match exit_reparent (seq 0 (length (procs t))) (pid cur) initproc t with
      | None => None
      | Some t =>
          match procs t !! me with
          | None => None
          | Some cur =>
              match parent_pid t cur with
              | None => None
              | Some ppid => Some (wakeup1 (uint64 ppid) t)
              end
          end
      end
  end.

(** Slot [i] holds a process asleep on channel [c]. *)
Definition sleeps_on (c : Z) (p : proc) : Prop :=
  state p = SLEEPING /\ chan p = c.

(** What the loop of [exit] makes of one slot: a child of the process with
    pid [mypid] gets [initproc] as its parent. *)
Definition reparented (t : ptable) (mypid : Z) (initproc : option nat)
    (p : proc) : proc :=
  if is_child t mypid p then set_parent p initproc else p.

(** What [exit] by the process in slot [me] makes of slot [i], which held
    [p]: the caller turns [ZOMBIE], children of the caller are handed to
    [initproc], and sleepers on channel [c] are woken. *)
Definition after_exit (t : ptable) (me : nat) (mypid : Z)
    (initproc : option nat) (c : Z) (i : nat) (p : proc) : proc :=
  wake c (reparented t mypid initproc
            (if decide (i = me) then set_state p ZOMBIE else p)).

(** A table with [initproc] (pid 1) in slot 0, its child (pid 2) asleep in
    [wait] in slot 1, and a running grandchild (pid 3) in slot 2; reads
    through a null parent pointer return 0. *)
Definition ptable_exit : ptable :=
  {| procs :=
       [ {| pid := 1; state := RUNNABLE; parent := None; chan := 0;
            killed := 0; kstack := true; vspace := true |};
         {| pid := 2; state := SLEEPING; parent := Some 0%nat; chan := 2;
            killed := 0; kstack := true; vspace := true |};
         {| pid := 3; state := RUNNING; parent := Some 1%nat; chan := 0;
            killed := 0; kstack := true; vspace := true |} ];
     at_null := Some 0 |}.

(* ===================================================================== *)
(** ** The inode cache: [iget], [idup], [irelease] ([kernel/fs.c]) *)
(* ===================================================================== *)

Definition set_iref (ip : inode) (r : Z) : inode :=
  {| i_dev := i_dev ip; i_inum := i_inum ip; i_ref := r;
     i_valid := i_valid ip; i_lock := i_lock ip; i_type := i_type ip;
     i_devid := i_devid ip; i_size := i_size ip; i_data := i_data ip |}.

Definition set_itype (ip : inode) (ty : Z) : inode :=
  {| i_dev := i_dev ip; i_inum := i_inum ip; i_ref := i_ref ip;
     i_valid := i_valid ip; i_lock := i_lock ip; i_type := ty;
     i_devid := i_devid ip; i_size := i_size ip; i_data := i_data ip |}.

(** [ip->ref > 0 && ip->dev == dev && ip->inum == inum] *)
Definition caches (dev inum : Z) (ip : inode) : bool :=
  (0 <? i_ref ip) && (i_dev ip =? dev) && (i_inum ip =? inum).

(** The loop of [iget] over the slots [ins], the first of which is slot
    [idx]: [inl i] when it returns slot [i] from inside the loop, else
    [inr] of the value of [empty] at the end of the loop. *)
Fixpoint iget_scan (ins : list inode) (idx : nat) (dev inum : Z)
    (empty : option nat) : nat + option nat :=
  match ins with
  | [] => inr empty
  | ip :: r =>
      if caches dev inum ip then inl idx
      else iget_scan r (S idx) dev inum
             (match empty with
              | None => if i_ref ip =? 0 then Some idx else None
              | Some e => Some e
              end)
  end.

(** The assignments of [iget] to a recycled slot. *)
Definition recycle (ip : inode) (dev inum : Z) : inode :=
  {| i_dev := dev; i_inum := inum; i_ref := 1; i_valid := 0;
     i_lock := i_lock ip; i_type := i_type ip; i_devid := i_devid ip;
     i_size := i_size ip; i_data := i_data ip |}.

(** [iget(dev, inum)] *)
Definition iget (dev inum : Z) (s : fs) : outcome iptr :=
  match iget_scan (inodes s) 0 dev inum None with
  | inl i =>
      match inodes s !! i with
      | Some ip =>
          Done (Icache i)
               (set_inodes s (<[i := set_iref ip (int32 (i_ref ip + 1))]>
                                (inodes s)))
      | None => Undefined
      end
  | inr None => Panic "iget: no inodes"
  | inr (Some e) =>
      match inodes s !! e with
      | Some ip =>
          Done (Icache e)
               (set_inodes s (<[e := recycle ip dev inum]> (inodes s)))
      | None => Undefined
      end
  end.

(** [idup(ip)] *)
Definition idup (p : iptr) (s : fs) : outcome iptr :=
  match iget_at s p with
  | None => Undefined
  | Some ip => Done p (iput_at s p (set_iref ip (int32 (i_ref ip + 1))))
  end.

(** [irelease(ip)] *)
Definition irelease (p : iptr) (s : fs) : outcome unit :=
  match iget_at s p with
  | None => Undefined
  | Some ip =>
      let ip := if i_ref ip =? 1 then set_itype ip 0 else ip in
      Done tt (iput_at s p (set_iref ip (int32 (i_ref ip - 1))))
  end.

(** At most one slot in use per [(dev, inum)]. *)
Definition icache_unique (ins : list inode) : Prop :=
  forall i j a b,
    ins !! i = Some a -> ins !! j = Some b ->
    0 < i_ref a -> 0 < i_ref b ->
    i_dev a = i_dev b -> i_inum a = i_inum b -> i = j.

(** Reference counts that are not negative and can still be incremented. *)
Definition refs_ok (ins : list inode) : Prop :=
  Forall (fun ip => 0 <= i_ref ip < 2 ^ 31 - 1) ins.

(** An inode cache of three slots: slot 0 holds inode 7 of device 1 with
    two references, slot 1 is free, slot 2 holds inode 9. *)
Definition icache_x : list inode :=
  [ {| i_dev := 1; i_inum := 7; i_ref := 2; i_valid := 1; i_lock := false;
       i_type := 2; i_devid := 0; i_size := 100; i_data := no_extents 6 |};
    {| i_dev := 1; i_inum := 5; i_ref := 0; i_valid := 1; i_lock := false;
       i_type := 0; i_devid := 0; i_size := 0; i_data := no_extents 6 |};
    {| i_dev := 1; i_inum := 9; i_ref := 1; i_valid := 1; i_lock := false;
       i_type := 2; i_devid := 0; i_size := 10; i_data := no_extents 6 |} ].

Definition fs_icache_x : fs := set_inodes (fs_of disk_c1 false) icache_x.

(* ===================================================================== *)
(** ** Paths: [skipelem] ([kernel/fs.c]) *)
(* ===================================================================== *)

(** A [char] pointer into a string is the list of the bytes found from the
    pointer on; the byte behind the last one of the list is the
    terminating NUL, so [hd 0 path] is what the pointer points at. *)

(** ['/'] *)
Definition slash : Z := 47.

(** The loop [while ( *path == '/') path++;] *)
Fixpoint skip_slashes (path : list Z) : list Z :=
  match path with
  | c :: r => if c =? slash then skip_slashes r else path
  | [] => []
  end.

(** The loop [while ( *path != '/' && *path != 0) path++;] *)
Fixpoint skip_name (path : list Z) : list Z :=
  match path with
  | c :: r =>
      if negb (c =? slash) && negb (c =? 0) then skip_name r else path
  | [] => []
  end.

(** [skipelem(path, name)]: [None] for the return value 0, else the pointer
    returned and the buffer [name] afterwards. *)
Definition skipelem (path name : list Z) : option (list Z * list Z) :=
  let path := skip_slashes path in
  if hd 0 path =? 0 then None
  else
    let s := path in
    let path := skip_name path in
    let len := int32 (Z.of_nat (length s) - Z.of_nat (length path)) in
    let name :=
      if DIRSIZ <=? len then mem_write name 0 s DIRSIZ
      else <[Z.to_nat len := 0]> (mem_write name 0 s len) in
    Some (skip_slashes path, name).

(** A byte of a path element: neither ['/'] nor NUL. *)
Definition name_byte (c : Z) : Prop := c <> slash /\ c <> 0.

(** The string ends or goes on with a ['/'] at this pointer. *)
Definition at_end_or_slash (path : list Z) : Prop :=
  hd 0 path = 0 \/ hd 0 path = slash.

(** The path [a/bb/c] and the path [///a//bb] of the comment above
    [skipelem], and a [name] buffer of [DIRSIZ] bytes [0xFF]. *)
Definition path_a_bb_c : list Z := [97; 47; 98; 98; 47; 99].
Definition path_a_bb : list Z := [47; 47; 47; 97; 47; 47; 98; 98].
Definition name_ff : list Z := repeat 255 14.

(* ===================================================================== *)
(** ** The swap region: [swapread], [swapwrite] ([kernel/fs.c]) *)
(* ===================================================================== *)

(** [block_no = sb.swapstart + swap_index * 8 + i] *)
Definition swap_block (s : fs) (swap_index i : Z) : Z :=
  uint32 (swapstart (sb s) + swap_index * 8 + i).

(** One round of the loop of [swapwrite]: block [i] of the page [page]
    found at [addr]. *)
Definition swapwrite_block (swap_index : Z) (page : list Z) (s : fs) (i : Z)
    : fs :=
  let b := swap_block s swap_index i in
  let s := bset s b (mem_write (bread s b) 0
                               (drop (Z.to_nat (BSIZE * i)) page) BSIZE) in
  bwrite s b.

(** [swapwrite(dev, swap_index, addr)]; the function does not use [dev]. *)
Definition swapwrite (swap_index : Z) (page : list Z) (s : fs) : fs :=
  fold_left (swapwrite_block swap_index page) (seqZ 0 8) s.

(** One round of the loop of [swapread]: block [i] goes to [addr + BSIZE * i]
    of the memory [mem] found at [addr]. *)
Definition swapread_block (swap_index : Z) (s : fs) (mem : list Z) (i : Z)
    : list Z :=
  mem_write mem (BSIZE * i) (bread s (swap_block s swap_index i)) BSIZE.

(** [swapread(dev, swap_index, addr)]: the memory at [addr] afterwards. *)
Definition swapread (swap_index : Z) (mem : list Z) (s : fs) : list Z :=
  fold_left (swapread_block swap_index s) (seqZ 0 8) mem.

(** Block [i] of a page. *)
Definition page_block (page : list Z) (i : Z) : list Z :=
  mem_read page (BSIZE * i) BSIZE.

(** The swap slot [swap_index] lies inside the 32-bit block numbers. *)
Definition swap_slot_ok (s : fs) (swap_index : Z) : Prop :=
  0 <= swapstart (sb s) + swap_index * 8 /\
  swapstart (sb s) + swap_index * 8 + 7 < 2 ^ 32.

(** A page whose byte at offset [o] is [o mod 251]. *)
Definition page_x : list Z := map (fun o => o mod 251) (seqZ 0 4096).

(* ===================================================================== *)
(** ** Descriptors: [sys_dup], [sys_close], [filedup], [fileclose],
       [pipeclose] ([kernel/sysfile.c], [kernel/file.c]) *)
(* ===================================================================== *)

(** Calls out of the state modelled here, in the order they are made. *)
Inductive kcall : Type :=
| Cwakeup : Z -> kcall       (* wakeup(chan) *)
| Ckfree : nat -> kcall.     (* kfree(pipe->buf) for this pipe *)

(** Outcome of a call on the kernel state: the return value (0 for a
    [void] function), the state and the calls made, or the way it stops. *)
Inductive fres : Type :=
| FRet : Z -> kernel -> list kcall -> fres
| FStops : outcome unit -> fres.

Definition set_ref (f : file_info) (r : Z) : file_info :=
  {| f_lock := f_lock f; ip := ip f; pp := pp f; is_pipe := is_pipe f;
     ref := r; offset := offset f; perm := perm f |}.

(** [fp->ip = NULL; fp->offset = 0;] *)
Definition clear_inode (f : file_info) : file_info :=
  {| f_lock := f_lock f; ip := None; pp := pp f; is_pipe := is_pipe f;
     ref := ref f; offset := 0; perm := perm f |}.

(** [myproc()->files[fd] = v] *)
Definition set_fd (k : kernel) (fd : Z) (v : option nat) : kernel :=
  {| kfs := kfs k; pipes := pipes k; files_global := files_global k;
     files := <[Z.to_nat fd := v]> (files k) |}.

Definition set_hasopenread (p : pipe) (b : bool) : pipe :=
  {| buf := buf p; head := head p; tail := tail p;
     hasopenread := b; hasopenwrite := hasopenwrite p |}.

Definition set_hasopenwrite (p : pipe) (b : bool) : pipe :=
  {| buf := buf p; head := head p; tail := tail p;
     hasopenread := hasopenread p; hasopenwrite := b |}.

(** [filedup(fp)] for the entry [fi] of [files_global]. *)
Definition filedup (fi : nat) (k : kernel) : fres :=
  match files_global k !! fi with
  | None => FStops Undefined
  | Some fp =>
      if f_lock fp then FStops Blocked
      else FRet 0 (set_file k fi (set_ref fp (int32 (ref fp + 1)))) []
  end.

(** The loop [for (fd = 0; fd < NOFILE; fd++) if (files[fd] == NULL) break;]
    from [fd] on: the value of [fd] behind the loop. *)
Fixpoint free_fd_from `{Config} (fuel : nat) (fd : Z) (k : kernel) : Z :=
  match fuel with
  | O => fd
  | S fuel' =>
      if fd <? NOFILE then
        match default None (files k !! Z.to_nat fd) with
        | None => fd
        | Some _ => free_fd_from fuel' (fd + 1) k
        end
      else fd
  end.

Definition free_fd `{Config} (k : kernel) : Z :=
  free_fd_from (Z.to_nat NOFILE) 0 k.

(** [sys_dup()] *)
Definition sys_dup `{Config} (a : sysargs) (k : kernel) : fres :=
  match arg_fd a with
  | None => FRet (-1) k []
  | Some fd_old =>
      match fd_lookup k fd_old with
      | None => FRet (-1) k []
      | Some fi =>
          let fd := free_fd k in
          if fd =? NOFILE then FRet (-1) k []
          else
            match filedup fi (set_fd k fd (Some fi)) with
            | FRet _ k' c => FRet fd k' c
            | FStops o => FStops o
            end
      end
  end.

(** [pipeclose(fp)].  The argument of both [wakeup] calls is the flag just
    set to false, converted to a pointer: channel 0. *)
Definition pipeclose `{Config} (fp : file_info) (k : kernel) : fres :=
  match pp fp with
  | None => FStops Undefined
  | Some pi =>
      match pipes k !! pi with
      | None => FStops Undefined
      | Some p =>
          if perm fp =? O_RDONLY then
            let p := set_hasopenread p false in
            FRet 0 (set_pipe k pi p)
                 (Cwakeup 0 :: if negb (hasopenread p) && negb (hasopenwrite p)
                               then [Ckfree pi] else [])
          else if perm fp =? O_WRONLY then
            let p := set_hasopenwrite p false in
            FRet 0 (set_pipe k pi p)
                 (Cwakeup 0 :: if negb (hasopenread p) && negb (hasopenwrite p)
                               then [Ckfree pi] else [])
          else FStops (Panic "permission is neither read or write only")
      end
  end.

(** [fileclose(fp)] for the entry [fi] of [files_global]. *)
Definition fileclose `{Config} (fi : nat) (k : kernel) : fres :=
  match files_global k !! fi with
  | None => FStops Undefined
  | Some fp =>
      if f_lock fp then FStops Blocked
      else
        let fp := set_ref fp (int32 (ref fp - 1)) in
        let k := set_file k fi fp in
        if ref fp =? 0 then
          if is_pipe fp then pipeclose fp k
          else
            match ip fp with
            | None => FStops Undefined           (* irelease(NULL) *)
            | Some i =>
                match irelease i (kfs k) with
                | Done _ s => FRet 0 (set_file (set_kfs k s) fi (clear_inode fp)) []
                | o => FStops (stops o)
                end
            end
        else FRet 0 k []
  end.

(** [sys_close()] *)
Definition sys_close `{Config} (a : sysargs) (k : kernel) : fres :=
  match arg_fd a with
  | None => FRet (-1) k []
  | Some fd =>
      match fd_lookup k fd with
      | None => FRet (-1) k []
      | Some fi =>
          match fileclose fi k with
          | FRet _ k' c => FRet 0 (set_fd k' fd None) c
          | FStops o => FStops o
          end
      end
  end.

(** The descriptor table of the process has [NOFILE] entries. *)
Definition fd_table_ok `{Config} (k : kernel) : Prop :=
  length (files k) = Z.to_nat NOFILE.

(** The arguments of a system call whose first argument is [fd]. *)
Definition args_fd (fd : Z) : sysargs :=
  {| arg_fd := Some fd; arg_n := None; arg_buf_ok := fun _ => false;
     arg_buf := [] |}.

(** The free test that [fileopen] and [pipeopen] apply to an entry of
    [files_global]. *)
Definition entry_free (f : file_info) : bool :=
  match ip f, pp f with
  | None, None => true
  | _, _ => false
  end.

(** A process with three descriptors: 0 is the 600-byte file of [file_c7]
    open read-write, 1 and 2 are the read end and the write end of an empty
    pipe; the other thirteen descriptors are free. *)
Definition kernel_fd : kernel :=
  {| kfs := set_inodes (fs_of disk_c7 false) [set_ilock file_c7 false];
     pipes := [fresh_pipe (repeat 0 4096) 128];
     files_global :=
       [ {| f_lock := false; ip := Some (Icache 0); pp := None;
            is_pipe := false; ref := 1; offset := 10; perm := 2 |};
         {| f_lock := false; ip := None; pp := Some 0%nat;
            is_pipe := true; ref := 1; offset := 0; perm := 0 |};
         {| f_lock := false; ip := None; pp := Some 0%nat;
            is_pipe := true; ref := 1; offset := 0; perm := 1 |} ];
     files := [Some 0%nat; Some 1%nat; Some 2%nat] ++ repeat None 13 |}.

(* ===================================================================== *)
(** ** A transaction around one block, and crashes *)
(* ===================================================================== *)

(** The way [writei] and [addfile] use the log for one block: [begin_tx],
    a store into the buffer [bread] returns for block [b] (leaving it with
    the content [data]), [log_write] of that buffer, [commit_tx]. *)
Definition one_block_tx (b : Z) (data : list Z) (s : fs) : outcome unit :=
  let* (_, s) := begin_tx s in
  let s := bset s b data in
  let* (_, s) := log_write b s in
  commit_tx s.

(** The machine after a crash that let exactly the writes of [tr] reach
    the device: the device as those writes left it and an empty block
    cache.  The other fields are set anew by [iinit] or not used by it. *)
Definition after_crash (s : fs) (tr : list event) : fs :=
  set_disk_bufs s (crash_disk (disk s) tr) (fun _ => None) [].

(** What [one_block_tx] needs of the state: the log lock is free, buffers
    and device blocks have [BSIZE] bytes, the log header and the first
    shadow block have 32-bit block numbers that differ from the home block
    [b] and from the superblock, the superblock on the device is the one in
    memory, and the log on the device is not a committed one. *)
Definition tx_ready (s : fs) (b : Z) : Prop :=
  loglock s = false /\ wf_bufs s /\ wf_disk (disk s) /\
  0 <= logstart (sb s) /\ logstart (sb s) + 1 < 2 ^ 32 /\
  0 <= b < 2 ^ 32 /\
  b <> logstart (sb s) /\ b <> logstart (sb s) + 1 /\
  b <> 1 /\ logstart (sb s) <> 1 /\ logstart (sb s) + 1 <> 1 /\
  decode_superblock (mem_read (disk s 1) 0 sizeof_superblock) = sb s /\
  lm_commited (mem_read (disk s (logstart (sb s))) 0 sizeof_log_meta) <> 1.

(** The log header in memory after [log_write] of block [b] as the first
    change of a transaction, and the same marked committed. *)
Definition tx_log1 (b : Z) : list Z :=
  lm_set_nchanges (lm_set_blockno (zeros sizeof_log_meta) 0 b) 1.

Definition tx_logc (b : Z) : list Z := lm_set_commited (tx_log1 b) 1.

(** The content of the log header block at the four moments it is written
    by [one_block_tx]: cleared by [begin_tx], with the change recorded by
    [log_write], marked committed by [commit_tx], cleared by [commit_tx]. *)
Definition tx_h0 (s : fs) : list Z :=
  mem_write (bread s (logstart (sb s))) 0 (zeros sizeof_log_meta)
            sizeof_log_meta.

Definition tx_h1 (s : fs) (b : Z) : list Z :=
  mem_write (tx_h0 s) 0 (tx_log1 b) sizeof_log_meta.

Definition tx_h1c (s : fs) (b : Z) : list Z :=
  mem_write (tx_h1 s b) 0 (tx_logc b) sizeof_log_meta.

Definition tx_h0' (s : fs) (b : Z) : list Z :=
  mem_write (tx_h1c s b) 0 (zeros sizeof_log_meta) sizeof_log_meta.

(** The trace of [one_block_tx]; the write at index 4 is the commit
    record. *)
Definition tx_trace (s : fs) (b : Z) (data : list Z) : list event :=
  let lb := logstart (sb s) in
  [ Ebegin; Ewrite lb (tx_h0 s); Ewrite (lb + 1) data; Ewrite lb (tx_h1 s b);
    Ewrite lb (tx_h1c s b); Ewrite b data; Ewrite lb (tx_h0' s b); Ecommit ].

(* ===================================================================== *)
(** ** Physical pages ([kernel/kalloc.c]) *)
(* ===================================================================== *)

(** Modelled from the spec: [struct core_map_entry] of [mmu.h], which is
    not part of the sources at hand; the spec lists its fields as
    [available], [user], [va] and [ref].  [va] is assigned a [uint64_t] in
    [mark_user_mem]; the other fields are taken as [int]. *)
Record core_map_entry : Type := mkcme {
  cme_available : Z;
  cme_user : Z;
  cme_va : Z;
  cme_ref : Z
}.

(** The addresses of [memlayout.h] that [kalloc.c] uses, which is not part
    of the sources at hand: [KERNBASE], the offset between a physical
    address and its kernel virtual address ([P2V], [V2P]), and the first
    address after the kernel image. *)
Class MemLayout := {
  KERNBASE : Z;
  kernel_end : Z
}.

(** The allocator's variables: [core_map], [npages], [pages_in_use],
    [free_pages], [kmem.use_lock], the [next] of [rand], and the content of
    every physical page, by page number.  [kmem.lock] is a spin lock and
    carries no data. *)
Record kmem : Type := mkkmem {
  core_map : list core_map_entry;
  npages : Z;
  pages_in_use : Z;
  free_pages : Z;
  use_lock : Z;
  rand_next : Z;
  page_data : Z -> list Z
}.

(** [PGNUM(pa)]: [pa >> PT_SHIFT], with [1 << PT_SHIFT] being [PGSIZE]. *)
Definition PGNUM (pa : Z) : Z := pa / PGSIZE.

Definition P2V `{MemLayout} (pa : Z) : Z := uint64 (pa + KERNBASE).
Definition V2P `{MemLayout} (v : Z) : Z := uint64 (v - KERNBASE).

(** [page2pa(&core_map[i])] *)
Definition page2pa (i : Z) : Z := uint64 (i * PGSIZE).

(** [rand(limit)]: the value returned and the new [next], [None] for the
    division by zero. *)
Definition rand (limit : Z) (next : Z) : option (Z * Z) :=
  let next := uint64 (next * 1103515245 + 12345) in
  if uint32 limit =? 0 then None
  else Some (int32 (uint32 (next / 65536) mod uint32 limit), next).

(** The loop of [get_random_user_page], [x] rounds left: the index of the
    entry returned and the new [next]; [inl] is how it stops otherwise. *)
Fixpoint get_random_user_page_from (x : nat) (m : kmem) (next : Z)
    : outcome unit + (Z * Z) :=
  match x with
  | O => inl (Panic "Tried 100 random indices for random user page, all failed")
  | S x' =>
      match rand (npages m) next with
      | None => inl Undefined
      | Some (idx, next) =>
          if idx <? 0 then inl Undefined
          else
            match core_map m !! Z.to_nat idx with
            | None => inl Undefined
            | Some e =>
                if negb (cme_va e =? 0) then inr (idx, next)
                else get_random_user_page_from x' m next
            end
      end
  end.

(** [get_random_user_page()] *)
Definition get_random_user_page (m : kmem) : outcome unit + (Z * Z) :=
  get_random_user_page_from 100 m (rand_next m).

Definition set_core_map (m : kmem) (cm : list core_map_entry)
    (in_use free : Z) : kmem :=
  {| core_map := cm; npages := npages m; pages_in_use := in_use;
     free_pages := free; use_lock := use_lock m; rand_next := rand_next m;
     page_data := page_data m |}.

Definition set_page_data (m : kmem) (f : Z -> list Z) : kmem :=
  {| core_map := core_map m; npages := npages m;
     pages_in_use := pages_in_use m; free_pages := free_pages m;
     use_lock := use_lock m; rand_next := rand_next m; page_data := f |}.

(** The loop of [kalloc] from entry [i] on, [fuel] rounds at most: the
    first [i] below [npages] with [core_map[i].available == 1]. *)
Fixpoint kalloc_scan (fuel : nat) (i : Z) (m : kmem) : option Z + outcome unit :=
  match fuel with
  | O => inl None
  | S fuel' =>
      if i <? npages m then
        match core_map m !! Z.to_nat i with
        | None => inr Undefined
        | Some e =>
            if cme_available e =? 1 then inl (Some i)
            else kalloc_scan fuel' (int32 (i + 1)) m
        end
      else inl None
  end.

Inductive kalloc_result : Type :=
| KallocPage : Z -> kmem -> kalloc_result   (* the address returned *)
| KallocEvict : kalloc_result               (* goes on to [evictpage(1)] *)
| KallocStops : outcome unit -> kalloc_result.

(** [kalloc()] up to its last statement; what [evictpage(1)] does and
    returns when no page is available is not part of this function. *)
Definition kalloc `{MemLayout} (m : kmem) : kalloc_result :=
  match kalloc_scan (Z.to_nat (npages m)) 0 m with
  | inr o => KallocStops o
  | inl None => KallocEvict
  | inl (Some i) =>
      KallocPage (P2V (page2pa i))
        (set_core_map m
           (<[Z.to_nat i := {| cme_available := 0; cme_user := 0; cme_va := 0;
                               cme_ref := 1 |}]> (core_map m))
           (int32 (pages_in_use m + 1)) (int32 (free_pages m - 1)))
  end.

(** [pa2page(pa)]: the index of the entry, after the range check. *)
Definition pa2page (pa : Z) (m : kmem) : outcome unit + Z :=
  if uint64 (npages m) <=? PGNUM pa
  then inl (Panic "pa2page called with invalid pa")
  else inr (PGNUM pa).

(** [kfree(v)].  The bytes of the page at [v] are kept apart from the core
    map: [memset(v, 2, PGSIZE)] changes [page_data] only, as for every page
    but the ones that hold the core map itself. *)
Definition kfree `{MemLayout} (v : Z) (m : kmem) : outcome unit + kmem :=
  if negb (v mod PGSIZE =? 0) || (v <? kernel_end)
     || (uint64 (int32 (npages m * PGSIZE)) <=? V2P v)
  then inl (Panic "kfree")
  else
    match pa2page (V2P v) m with
    | inl o => inl o
    | inr i =>
        match core_map m !! Z.to_nat i with
        | None => inl Undefined
        | Some e =>
            let r := int32 (cme_ref e - 1) in
            if (use_lock m =? 0) || (r =? 0) then
              inr (set_page_data
                     (set_core_map m
                        (<[Z.to_nat i := {| cme_available := 1; cme_user := 0;
                                            cme_va := 0; cme_ref := 0 |}]>
                           (core_map m))
                        (int32 (pages_in_use m - 1)) (int32 (free_pages m + 1)))
                     (upd (page_data m) i (repeat 2 (Z.to_nat PGSIZE))))
            else
              inr (set_core_map m
                     (<[Z.to_nat i := {| cme_available := cme_available e;
                                         cme_user := cme_user e;
                                         cme_va := cme_va e; cme_ref := r |}]>
                        (core_map m))
                     (pages_in_use m) (free_pages m))
        end
    end.

(** The core map has one entry per page, and the page addresses fit: the
    kernel's window [KERNBASE + pa] does not wrap. *)
Definition kmem_ok `{MemLayout} (m : kmem) : Prop :=
  0 <= npages m /\ length (core_map m) = Z.to_nat (npages m) /\
  npages m * PGSIZE < 2 ^ 31 /\
  0 <= KERNBASE /\ KERNBASE + npages m * PGSIZE < 2 ^ 64 /\
  KERNBASE mod PGSIZE = 0.

(** xk's layout: the kernel window starts at [0xFFFFFFFF80000000]; the
    kernel image is taken to end one megabyte above 1 MiB. *)
Definition xk_layout : MemLayout :=
  {| KERNBASE := 18446744071562067968;
     kernel_end := 18446744071562067968 + 2097152 |}.

(** The entry [kalloc] leaves behind for the page it hands out, and the
    entry [kfree] leaves behind for a page it frees. *)
Definition cme_taken : core_map_entry := mkcme 0 0 0 1.
Definition cme_free : core_map_entry := mkcme 1 0 0 0.

(** Page [i] is the first one whose entry has [available == 1]. *)
Definition first_available (m : kmem) (i : Z) : Prop :=
  0 <= i < npages m /\
  (exists e, core_map m !! Z.to_nat i = Some e /\ cme_available e = 1) /\
  forall k e, 0 <= k < i -> core_map m !! Z.to_nat k = Some e ->
    cme_available e <> 1.

(** No entry has [available == 1]. *)
Definition none_available (m : kmem) : Prop :=
  forall k e, core_map m !! k = Some e -> cme_available e <> 1.

(** An allocator over 1024 pages of which page 600 is the first available
    one, page 601 is available too and page 700 backs a user page that two
    address spaces share. *)
Definition kmem_x : kmem :=
  {| core_map :=
       map (fun i => if (i =? 600) || (i =? 601) then mkcme 1 0 0 0
                     else if i =? 700 then mkcme 0 1 4096 2
                     else mkcme 0 0 0 1) (seqZ 0 1024);
     npages := 1024; pages_in_use := 1022; free_pages := 2; use_lock := 1;
     rand_next := 1; page_data := fun _ => repeat 0 4096 |}.

(* ===================================================================== *)
(** ** Transactions and crashes: states and invariants *)
(* ===================================================================== *)

(** Blocks [logstart] to [logstart + 19]: the log header and its 19 shadow
    blocks. *)
Definition in_log (lb x : Z) : Prop := lb <= x <= lb + 19.

(** A block a transaction may log: a 32-bit block number that is neither
    the superblock nor a block of the log. *)
Definition home_block (lb b : Z) : Prop :=
  0 <= b < 2 ^ 32 /\ b <> 1 /\ ~ in_log lb b.

(** The log header [log] records the blocks [bs], in order, with commit
    flag [c]. *)
Definition log_holds (log : list Z) (bs : list Z) (c : Z) : Prop :=
  length log = Z.to_nat sizeof_log_meta /\
  lm_commited log = c /\
  lm_nchanges log = Z.of_nat (length bs) /\
  forall i b, bs !! i = Some b -> lm_blockno log (Z.of_nat i) = b.

(** The body of a transaction as [writei], [balloc] and [addfile] write
    it: stores into buffers, each followed by [log_write] of that buffer.
    An entry [(b, d)] is a store that leaves the buffer of block [b] with
    the content [d]. *)
Fixpoint log_stores (L : list (Z * list Z)) (s : fs) : outcome unit :=
  match L with
  | [] => Done tt s
  | (b, d) :: r =>
      let* (_, s) := log_write b (bset s b d) in
      log_stores r s
  end.

(** A transaction up to its commit: [begin_tx] and the logged stores
    [L]. *)
Definition open_tx (L : list (Z * list Z)) (s : fs) : outcome unit :=
  let* (_, s) := begin_tx s in
  log_stores L s.

(** The content staged last for block [b] by the logged stores [L]. *)
Fixpoint staged (L : list (Z * list Z)) (b : Z) : option (list Z) :=
  match L with
  | [] => None
  | (b', d) :: r =>
      match staged r b with
      | Some d' => Some d'
      | None => if b' =? b then Some d else None
      end
  end.

(** The device [d0] with every logged block at its staged content. *)
Definition apply_staged (L : list (Z * list Z)) (d0 : Z -> list Z)
    : Z -> list Z :=
  fun x => match staged L x with
           | Some d => d
           | None => d0 x
           end.

(** The logged stores are stores of whole blocks into home blocks. *)
Definition stores_ok (lb : Z) (L : list (Z * list Z)) : Prop :=
  Forall (fun e => home_block lb (fst e) /\
                   length (snd e) = Z.to_nat BSIZE) L.

(** The log lies behind the superblock and within the 32-bit block
    numbers. *)
Definition log_region_ok (lb : Z) : Prop := 1 < lb /\ lb + 19 < 2 ^ 32.

(** The superblock on the device [D] puts the log at [lb]. *)
Definition sb_on (D : Z -> list Z) (lb : Z) : Prop :=
  logstart (decode_superblock (mem_read (D 1) 0 sizeof_superblock)) = lb.

(** No transaction is running: the log lock is free, buffers and blocks
    have [BSIZE] bytes, the superblock in memory is the one on the device,
    and the log header on the device is not a committed one. *)
Definition log_idle (s : fs) : Prop :=
  loglock s = false /\ wf_bufs s /\ wf_disk (disk s) /\
  log_region_ok (logstart (sb s)) /\
  sb_on (disk s) (logstart (sb s)) /\
  lm_commited (mem_read (disk s (logstart (sb s))) 0 sizeof_log_meta) <> 1.

(** The machine that boots from the device [D]: no buffer is resident.
    The other fields are set anew by [iinit] or not used by it. *)
Definition crash_state (s : fs) (D : Z -> list Z) : fs :=
  set_disk_bufs s D (fun _ => None) [].

(** Two devices hold the same outside the log. *)
Definition same_homes (lb : Z) (D D' : Z -> list Z) : Prop :=
  forall x, ~ in_log lb x -> D x = D' x.

(** A device as a crash can leave it while no transaction has reached its
    commit record: the log header says uncommitted, and the blocks outside
    the log are those of [d0]. *)
Definition disk_open (lb : Z) (d0 D : Z -> list Z) : Prop :=
  wf_disk D /\ sb_on D lb /\
  lm_commited (mem_read (D lb) 0 sizeof_log_meta) <> 1 /\
  same_homes lb D d0.

(** A device as a crash can leave it between the commit record of the
    logged stores [L] and the clearing of the log header: the header says
    committed and names the blocks of [L], the shadow blocks hold the
    staged contents, and the blocks outside the log that [L] does not name
    are those of [d0]. *)
Definition disk_committed (lb : Z) (L : list (Z * list Z))
    (d0 D : Z -> list Z) : Prop :=
  wf_disk D /\ sb_on D lb /\ (length L <= 19)%nat /\
  log_holds (mem_read (D lb) 0 sizeof_log_meta) (map fst L) 1 /\
  (forall i b d, L !! i = Some (b, d) -> D (lb + 1 + Z.of_nat i) = d) /\
  (forall x, ~ in_log lb x -> staged L x = None -> D x = d0 x).

(** The state inside a transaction that began on the device [d0] and has
    logged the stores [L]: the log lock is held; the header block, its
    buffer and the shadow blocks record [L]; every logged block's buffer
    holds what was staged last for it; nothing outside the log has reached
    the device. *)
Definition tx_open (lb : Z) (d0 : Z -> list Z) (L : list (Z * list Z))
    (s : fs) : Prop :=
  loglock s = true /\ logstart (sb s) = lb /\ log_region_ok lb /\
  wf_bufs s /\ stores_ok lb L /\ (length L <= 19)%nat /\
  bread s lb = disk s lb /\
  log_holds (mem_read (disk s lb) 0 sizeof_log_meta) (map fst L) 0 /\
  (forall i b d, L !! i = Some (b, d) ->
     disk s (lb + 1 + Z.of_nat i) = d /\ bread s (lb + 1 + Z.of_nat i) = d) /\
  (forall b d, staged L b = Some d -> bread s b = d) /\
  disk_open lb d0 (disk s).

(** The first [sizeof(struct log_meta)] bytes of [d'] followed by the rest
    of [d]: what the copy of [commit_tx] makes of a buffer that held [d]. *)
Definition mix (d' d : list Z) : list Z :=
  take (Z.to_nat sizeof_log_meta) d' ++ drop (Z.to_nat sizeof_log_meta) d.

(** The state after [i] rounds of the loop of [commit_tx] over the logged
    stores [L], which started in the state [s0] with the header buffer
    [hc]: the first [i] home buffers have received the first
    [sizeof(struct log_meta)] bytes of their shadow blocks and have been
    written. *)
Definition commit_inv (lb : Z) (d0 : Z -> list Z) (L : list (Z * list Z))
    (s0 : fs) (hc : list Z) (i : nat) (t : fs) : Prop :=
  sb t = sb s0 /\ loglock t = loglock s0 /\ junk t = junk s0 /\
  inodes t = inodes s0 /\ inodefile t = inodefile s0 /\
  wf_bufs t /\ bread t lb = hc /\
  (forall m b d, L !! m = Some (b, d) -> bread t (lb + 1 + Z.of_nat m) = d) /\
  (forall x d, staged L x = Some d ->
     bread t x = match staged (take i L) x with
                 | Some d' => mix d' d
                 | None => d
                 end) /\
  (forall x d d', staged L x = Some d -> staged (take i L) x = Some d' ->
     disk t x = mix d' d) /\
  (forall x, ~ in_log lb x -> staged (take i L) x = None -> disk t x = d0 x) /\
  disk_committed lb L d0 (disk t) /\
  (exists tr, events t = events s0 ++ tr /\ forallb is_write tr = true /\
              disk t = crash_disk (disk s0) tr /\
              forall j : nat,
                disk_committed lb L d0 (crash_disk (disk s0) (take j tr))).

(** From [s] to [s'] only block writes reached the device, and at every
    moment in between the device satisfied [P]. *)
Definition writes_keep (P : (Z -> list Z) -> Prop) (s s' : fs) : Prop :=
  exists tr, events s' = events s ++ tr /\ forallb is_write tr = true /\
             disk s' = crash_disk (disk s) tr /\
             forall j : nat, P (crash_disk (disk s) (take j tr)).

(** Recovery from the device [D] ends with the blocks outside the log as
    on [Dg]. *)
Definition recovers_to (lb : Z) (D Dg : Z -> list Z) : Prop :=
  forall dev s0,
    same_homes lb (disk (iinit dev (crash_state s0 D))) Dg.

(** The events of a trace up to and including its [m]-th [Ecommit]. *)
Fixpoint upto_commits (m : nat) (evs : list event) : list event :=
  match m, evs with
  | O, _ => []
  | _, [] => []
  | S m', Ecommit :: r => Ecommit :: upto_commits m' r
  | S _, e :: r => e :: upto_commits m r
  end.

(** From [s] to [s'] exactly [c] transactions ran, one after the other,
    and each of them is atomic under a crash: whenever the machine stops,
    after any number [j] of the events in between, recovery leaves the
    blocks outside the log as they are after some whole number [m] of
    those transactions. *)
Definition txns_atomic (lb : Z) (c : nat) (s s' : fs) : Prop :=
  exists tr, events s' = events s ++ tr /\ txns false tr = Some c /\
             disk s' = crash_disk (disk s) tr /\
             forall j : nat, exists m : nat, (m <= c)%nat /\
               recovers_to lb (crash_disk (disk s) (take j tr))
                              (crash_disk (disk s) (upto_commits m tr)).

(** The layout [writei] is verified for: the log lies behind the
    superblock and before the bitmap, the bitmap not behind the inode
    file, and block numbers stay below [2^31]. *)
Definition layout_ok `{Config} (x : superblock) : Prop :=
  1 < logstart x /\ logstart x + 19 < bmapstart x /\
  bmapstart x <= inodestart x /\ inodestart x < 2 ^ 31 /\ FSSIZE <= 2 ^ 31.

(** An extent in use starts behind the log, below [2^31]. *)
Definition extent_ok (x : superblock) (e : extent) : Prop :=
  nblocks e <> 0 -> logstart x + 19 < startblkno e < 2 ^ 31.

(** [struct inode] has six extents, each of them as above. *)
Definition inode_ok (x : superblock) (ip : inode) : Prop :=
  length (i_data ip) = 6%nat /\ Forall (extent_ok x) (i_data ip).

(** The inode file is loaded, and it and every cached inode are as
    above. *)
Definition inodes_ok (s : fs) : Prop :=
  i_valid (inodefile s) <> 0 /\ inode_ok (sb s) (inodefile s) /\
  Forall (inode_ok (sb s)) (inodes s).

(** The state between two transactions of [writei]. *)
Definition idle_fs `{Config} (s : fs) : Prop :=
  log_idle s /\ layout_ok (sb s) /\ inodes_ok s.

(** The state inside a transaction of [writei] that began on the device
    [d0]. *)
Definition in_tx `{Config} (lb : Z) (d0 : Z -> list Z) (s : fs) : Prop :=
  (exists L, tx_open lb d0 L s) /\ layout_ok (sb s) /\ inodes_ok s.

(** From [s] to [s'] the transaction went on: all that reached the device
    are writes into the log that leave it uncommitted. *)
Definition tx_step `{Config} (lb : Z) (d0 : Z -> list Z) (s s' : fs) : Prop :=
  in_tx lb d0 s' /\ sb s' = sb s /\ writes_keep (disk_open lb d0) s s'.

(** A write-back of the dinode that stays inside the running
    transaction. *)
Definition wb_keeps `{Config} (wb : list Z -> fs -> outcome unit) : Prop :=
  forall lb d0 dip s, in_tx lb d0 s ->
    post (fun _ s' => tx_step lb d0 s s') (wb dip s).

(** Layout of a second example disk, with the log in front of the bitmap:
    log in blocks 2 to 21, bitmap in block 22, inode file from block 23,
    data from block 64. *)
Definition sb_log_first : superblock :=
  {| sb_size := 100000; sb_nblocks := 90000; bmapstart := 22; inodestart := 23;
     swapstart := 1000; logstart := 2 |}.

(** The file system of [disk_c1] in that layout: blocks 0 to 95 marked in
    use in the bitmap; the inode file (inum 0) in blocks 23 to 54 with
    three dinodes; inum 1 the root directory; inum 2 an empty regular file
    owning blocks 64 to 95. *)
Definition disk_log_first : Z -> list Z :=
  fun b =>
    if b =? 1 then block_of (enc_superblock sb_log_first)
    else if b =? 22 then
      block_of (le_enc 4 (2 ^ 32 - 1) ++ le_enc 4 (2 ^ 32 - 1)
                ++ le_enc 4 (2 ^ 32 - 1))
    else if b =? 23 then
      block_of (enc_dinode_of 2 192 (mkextent 23 32 :: no_extents 5)
                ++ enc_dinode_of 1 0 (mkextent 60 4 :: no_extents 5)
                ++ enc_dinode_of 2 0 (mkextent 64 32 :: no_extents 5))
    else zeros BSIZE.

(** The state after boot from that disk, with the file of inum 2 in slot 0
    of the inode cache, locked by the caller. *)
Definition fs_log_first : fs :=
  set_inodes (iinit 1 (fs_of disk_log_first false)) [file_c1].

(** Three logged stores, two of them into block 70. *)
Definition stores_c2 : list (Z * list Z) :=
  [(70, repeat 170 512); (71, repeat 187 512); (70, repeat 204 512)].

(* ===================================================================== *)
(** ** The page of a pipe ([kernel/sysfile.c], [kernel/file.c]) *)
(* ===================================================================== *)

(** [sys_pipe] takes one page from [kalloc], keeps [struct pipe] in its
    first [sizeof(struct pipe)] bytes and points [pipe->buf] at that page:
    ring position [i] is byte [i] of that page, and the ring positions
    below [sizeof(struct pipe)] are the bytes of the struct itself.  In
    this second model a pipe is that page, a list of [PGSIZE] bytes, and
    the fields are loaded from it and stored to it.

    Offsets of the fields behind the lock, as [inc/file.h] lays them out
    on x86-64: an 8-byte pointer, two 4-byte [int]s, two 1-byte [bool]s and
    6 bytes of padding, 24 bytes in all at the end of the struct. *)
Definition off_buf `{Config} : Z := sizeof_pipe - 24.
Definition off_head `{Config} : Z := sizeof_pipe - 16.
Definition off_tail `{Config} : Z := sizeof_pipe - 12.
Definition off_hasopenread `{Config} : Z := sizeof_pipe - 8.
Definition off_hasopenwrite `{Config} : Z := sizeof_pipe - 7.

(** [pipe->buf], [pipe->head], [pipe->tail] as the page holds them. *)
Definition pg_buf `{Config} (pg : list Z) : Z := rd pg off_buf 8.
Definition pg_head `{Config} (pg : list Z) : Z := int32 (rd pg off_head 4).
Definition pg_tail `{Config} (pg : list Z) : Z := int32 (rd pg off_tail 4).

(** The assignments of [sys_pipe] to the page [pg] that [kalloc] returned
    at the address [addr].  [head] and [tail] are not assigned but
    incremented: they start from what the page held.  [initlock] stores
    into the bytes of the lock, which lie in front of [off_buf] and which
    nothing below loads. *)
Definition sys_pipe_page `{Config} (addr : Z) (pg : list Z) : list Z :=
  let pg := wr pg off_head 4 (int32 (pg_head pg + sizeof_pipe)) in
  let pg := wr pg off_tail 4 (int32 (pg_tail pg + sizeof_pipe)) in
  let pg := wr pg off_buf 8 addr in
  let pg := wr pg off_hasopenread 1 1 in
  wr pg off_hasopenwrite 1 1.

(** Outcome of a call that works on the page of a pipe. *)
Inductive paged (A : Type) : Type :=
| PSleeps : paged A
| PReturns : A -> paged A
| PWild : paged A.      (* memmove to an address outside the page *)
Arguments PSleeps {A}.
Arguments PReturns {A} _.
Arguments PWild {A}.

(** [pipe->buf + (pipe->tail % buf_size)] does not point into the page at
    [addr]: [pipe->buf] is not [addr], or the offset is negative. *)
Definition wild_tail `{Config} (addr : Z) (pg : list Z) : bool :=
  negb (pg_buf pg =? addr) || (Z.rem (pg_tail pg) buf_size <? 0).

(** [pipewrite(fp, buf, n)] between [acquire] and [release], on the page
    [pg] at the address [addr] that holds the pipe [fp->pp]; [src] is the
    caller's buffer.  Every [pipe->...] is a load from the page at the
    moment the statement runs, and every [memmove] to [pipe->buf + ...]
    stores into the same page.  The result carries the return value and
    the page at the call of [release]. *)
Definition pipewrite_page `{Config} (addr : Z) (pg src : list Z) (n : Z)
    : paged (Z * list Z) :=
  if byte_at pg off_hasopenread =? 0 then PReturns (-1, pg)
  else if int32 (pg_tail pg - pg_head pg) =? buf_size then PSleeps
  else if int32 (buf_size - Z.rem (pg_tail pg) buf_size) <? n then
    (* Case 1: not enough room at the end of the buffer *)
    let start_to_head := Z.rem (pg_head pg) buf_size in
    let tail_to_end := int32 (buf_size - Z.rem (pg_tail pg) buf_size) in
    if wild_tail addr pg then PWild
    else
      let pg := mem_write pg (Z.rem (pg_tail pg) buf_size) src tail_to_end in
      let num_written := tail_to_end in
      let pg := wr pg off_tail 4 (int32 (pg_tail pg + num_written)) in
      let remaining := int32 (n - tail_to_end) in
      if negb (pg_buf pg =? addr) then PWild
      else if remaining <? start_to_head then
        let pg := mem_write pg 0 src remaining in
        let num_written := int32 (num_written + remaining) in
        PReturns (num_written,
                  wr pg off_tail 4 (int32 (pg_tail pg + remaining)))
      else
        let pg := mem_write pg 0 src start_to_head in
        let num_written := int32 (num_written + start_to_head) in
        PReturns (num_written,
                  wr pg off_tail 4 (int32 (pg_tail pg + start_to_head)))
  else if wild_tail addr pg then PWild
  else
    (* Case 2: enough room at the end of the buffer *)
    let pg := mem_write pg (Z.rem (pg_tail pg) buf_size) src n in
    PReturns (n, wr pg off_tail 4 (int32 (pg_tail pg + n))).

(** The counter invariant of the spec, on the page. *)
Definition page_inv `{Config} (pg : list Z) : Prop :=
  0 <= pg_tail pg - pg_head pg <= buf_size.

(** The pipe of the first model that the page [pg] holds. *)
Definition page_pipe `{Config} (pg : list Z) : pipe :=
  {| buf := pg; head := pg_head pg; tail := pg_tail pg;
     hasopenread := negb (byte_at pg off_hasopenread =? 0);
     hasopenwrite := negb (byte_at pg off_hasopenwrite =? 0) |}.

(** A page as [kfree] leaves it: [memset(v, 2, PGSIZE)]. *)
Definition poisoned_page : list Z := repeat 2 (Z.to_nat PGSIZE).

(** A page-aligned kernel address, [KERNBASE + 0x400000]. *)
Definition page_addr_c4 : Z := 18446744071566753792.

(** 2302 bytes [0x41], with the [int]s 5000 and 0 at the offsets of [head]
    and [tail] in a struct of 128 bytes. *)
Definition payload_c4 : list Z :=
  repeat 65 112 ++ le_enc 4 5000 ++ le_enc 4 0 ++ repeat 65 2182.

(* ===================================================================== *)
(** * Theorems *)
(* ===================================================================== *)

(** ** Machine integers *)

Lemma int32_id (z : Z) : - 2 ^ 31 <= z < 2 ^ 31 -> int32 z = z.
Proof. intros Hz. unfold int32. rewrite Z.mod_small by lia. lia. Qed.

Lemma uint32_id (z : Z) : 0 <= z < 2 ^ 32 -> uint32 z = z.
Proof. intros Hz. unfold uint32. now rewrite Z.mod_small. Qed.

Lemma uint64_id (z : Z) : 0 <= z < 2 ^ 64 -> uint64 z = z.
Proof. intros Hz. unfold uint64. now rewrite Z.mod_small. Qed.

Lemma uint32_range (z : Z) : 0 <= uint32 z < 2 ^ 32.
Proof. unfold uint32. apply Z.mod_pos_bound. lia. Qed.

Ltac int32_norm :=
  repeat match goal with
  | |- context [int32 ?z] => rewrite (int32_id z) by lia
  end.

(** ** Pipes *)

Section pipe_facts.
Context `{Config}.

Lemma buf_size_eq : pipe_layout_ok -> buf_size = PGSIZE - sizeof_pipe.
Proof.
  unfold pipe_layout_ok, buf_size, PGSIZE. intros Hl. apply int32_id. lia.
Qed.

Lemma buf_size_bounds : pipe_layout_ok -> 2 <= buf_size <= 4096.
Proof.
  intros Hl. rewrite (buf_size_eq Hl). unfold pipe_layout_ok, PGSIZE in *. lia.
Qed.

Lemma piperead_eof (p : pipe) (n : Z) :
  head p = tail p -> hasopenwrite p = false ->
  piperead p n = Returns (0, p, []).
Proof.
  intros Hht Hw. unfold piperead. rewrite Hw.
  destruct (Z.eqb_spec (head p) (tail p)); [reflexivity | contradiction].
Qed.

Lemma piperead_sleeps (p : pipe) (n : Z) :
  head p = tail p -> hasopenwrite p = true -> piperead p n = Sleeps.
Proof.
  intros Hht Hw. unfold piperead. rewrite Hw.
  destruct (Z.eqb_spec (head p) (tail p)); [reflexivity | contradiction].
Qed.

(** With data in the ring, a read of [n > 0] bytes takes
    [min n (tail - head)] bytes of memory from offset [head % buf_size] of
    [pipe->buf], advances [head] by that count and returns it. *)
Lemma piperead_data (p : pipe) (n : Z) :
  counters_small p -> head p <> tail p -> 0 < n ->
  piperead p n =
    Returns (Z.min n (tail p - head p),
             set_head p (head p + Z.min n (tail p - head p)),
             mem_read (buf p) (Z.rem (head p) buf_size)
                      (Z.min n (tail p - head p))).
Proof.
  intros (Hh & Hht & Ht) Hne Hn. unfold piperead.
  destruct (Z.eqb_spec (head p) (tail p)); [contradiction |].
  rewrite (int32_id (tail p - head p)) by lia.
  destruct (Z.ltb_spec (tail p - head p) n).
  - rewrite Z.min_r by lia. int32_norm. reflexivity.
  - rewrite Z.min_l by lia. int32_norm. reflexivity.
Qed.

Lemma piperead_keeps_inv (p p' : pipe) (n r : Z) (out : list Z) :
  counters_small p -> pipe_inv p -> 0 < n ->
  piperead p n = Returns (r, p', out) -> pipe_inv p'.
Proof.
  intros Hc Hinv Hn Hrd. unfold pipe_inv in *.
  destruct (Z.eq_dec (head p) (tail p)) as [Heq | Hne].
  - unfold piperead in Hrd.
    destruct (Z.eqb_spec (head p) (tail p)); [| contradiction].
    destruct (hasopenwrite p); [discriminate |].
    injection Hrd as _ <- _. lia.
  - rewrite (piperead_data p n Hc Hne Hn) in Hrd.
    injection Hrd as _ <- _. cbn. lia.
Qed.

(** A write that fits between [tail % buf_size] and the end of the ring
    goes through the second branch of [pipewrite]. *)
Lemma pipewrite_fits (p : pipe) (src : list Z) (n : Z) :
  pipe_layout_ok -> counters_small p -> hasopenread p = true ->
  tail p - head p <> buf_size ->
  0 < n <= buf_size - Z.rem (tail p) buf_size ->
  pipewrite p src n =
    Returns (n, set_buf_tail p
                  (mem_write (buf p) (Z.rem (tail p) buf_size) src n)
                  (tail p + n)).
Proof.
  intros Hl (Hh & Hht & Ht) Hr Hfull Hn.
  pose proof (buf_size_bounds Hl) as HB.
  assert (0 <= Z.rem (tail p) buf_size < buf_size)
    by (apply Z.rem_bound_pos; lia).
  unfold pipewrite. rewrite Hr. cbn [negb].
  rewrite (int32_id (tail p - head p)) by lia.
  destruct (Z.eqb_spec (tail p - head p) buf_size); [contradiction |].
  rewrite (int32_id (buf_size - Z.rem (tail p) buf_size)) by lia.
  destruct (Z.ltb_spec (buf_size - Z.rem (tail p) buf_size) n); [lia |].
  int32_norm. reflexivity.
Qed.

(** A write longer than the room up to the end of the ring goes through
    the first branch: it fills the end of the ring, then copies
    [min remaining (head % buf_size)] bytes to the front of the ring, again
    from the start of the source. *)
Lemma pipewrite_wraps (p : pipe) (src : list Z) (n : Z) :
  pipe_layout_ok -> counters_small p -> hasopenread p = true ->
  tail p - head p <> buf_size ->
  buf_size - Z.rem (tail p) buf_size < n < 2 ^ 30 ->
  let tail_to_end := buf_size - Z.rem (tail p) buf_size in
  let k2 := Z.min (n - tail_to_end) (Z.rem (head p) buf_size) in
  pipewrite p src n =
    Returns (tail_to_end + k2,
             set_buf_tail p
               (mem_write
                  (mem_write (buf p) (Z.rem (tail p) buf_size) src tail_to_end)
                  0 src k2)
               (tail p + tail_to_end + k2)).
Proof.
  intros Hl (Hh & Hht & Ht) Hr Hfull Hn.
  pose proof (buf_size_bounds Hl) as HB.
  assert (0 <= Z.rem (tail p) buf_size < buf_size)
    by (apply Z.rem_bound_pos; lia).
  assert (0 <= Z.rem (head p) buf_size < buf_size)
    by (apply Z.rem_bound_pos; lia).
  unfold pipewrite. rewrite Hr. cbn [negb].
  rewrite (int32_id (tail p - head p)) by lia.
  destruct (Z.eqb_spec (tail p - head p) buf_size); [contradiction |].
  rewrite !(int32_id (buf_size - Z.rem (tail p) buf_size)) by lia.
  destruct (Z.ltb_spec (buf_size - Z.rem (tail p) buf_size) n); [| lia].
  cbn zeta.
  rewrite !(int32_id (n - (buf_size - Z.rem (tail p) buf_size))) by lia.
  rewrite !(int32_id (tail p + (buf_size - Z.rem (tail p) buf_size))) by lia.
  destruct (Z.ltb_spec (n - (buf_size - Z.rem (tail p) buf_size))
                       (Z.rem (head p) buf_size)).
  - rewrite Z.min_l by lia. int32_norm. reflexivity.
  - rewrite Z.min_r by lia. int32_norm. reflexivity.
Qed.

End pipe_facts.

(** ** Memory lemmas *)

Lemma mem_write_length (m src : list Z) (pos len : Z) :
  length (mem_write m pos src len) = length m.
Proof. unfold mem_write. apply length_inserts. Qed.

Lemma byte_at_mem_write_in (m src : list Z) (pos len j : Z) :
  0 <= pos -> pos <= j < pos + len ->
  (Z.to_nat j < length m)%nat ->
  (Z.to_nat len <= length src)%nat ->
  byte_at (mem_write m pos src len) j = byte_at src (j - pos).
Proof.
  intros Hpos Hj Hlen Hsrc. unfold byte_at, mem_write.
  rewrite list_lookup_inserts.
  - rewrite lookup_take_lt by lia. f_equal. f_equal. lia.
  - rewrite length_take. lia.
  - lia.
Qed.

Lemma byte_at_mem_write_out (m src : list Z) (pos len j : Z) :
  0 <= pos -> 0 <= j -> j < pos \/ pos + len <= j ->
  byte_at (mem_write m pos src len) j = byte_at m j.
Proof.
  intros Hpos Hj Hout. unfold byte_at, mem_write.
  destruct Hout as [Hlt | Hge].
  - rewrite list_lookup_inserts_lt by lia. reflexivity.
  - destruct (Z.le_gt_cases len 0).
    + replace (Z.to_nat len) with 0%nat by lia. reflexivity.
    + rewrite list_lookup_inserts_ge; [reflexivity |].
      rewrite length_take. lia.
Qed.

Lemma byte_at_mem_read (m : list Z) (pos len i : Z) :
  0 <= pos -> 0 <= i < len ->
  byte_at (mem_read m pos len) i = byte_at m (pos + i).
Proof.
  intros Hpos Hi. unfold byte_at, mem_read.
  rewrite lookup_take_lt by lia. rewrite lookup_drop.
  f_equal. f_equal. lia.
Qed.

(** ** Pipes: where the ring is used as a ring *)

Section pipe_ring.
Context `{Config}.

Lemma ring_pos_no_wrap (c i : Z) :
  pipe_layout_ok -> 0 <= c -> 0 <= i -> Z.rem c buf_size + i < buf_size ->
  ring_pos c i = Z.rem c buf_size + i.
Proof.
  intros Hl Hc Hi Hfit. pose proof (buf_size_bounds Hl) as HB.
  unfold ring_pos. rewrite Z.rem_mod_nonneg in * by lia.
  rewrite <- Z.add_mod_idemp_l by lia.
  apply Z.mod_small.
  assert (0 <= c mod buf_size < buf_size) by (apply Z.mod_pos_bound; lia).
  lia.
Qed.

(** A read that ends before the end of the ring delivers the ring bytes
    from position [head % buf_size] on. *)
Lemma piperead_within_ring (p : pipe) (n : Z) :
  pipe_layout_ok -> counters_small p -> 0 < n ->
  Z.rem (head p) buf_size + Z.min n (tail p - head p) <= buf_size ->
  read_from_ring p
    (mem_read (buf p) (Z.rem (head p) buf_size) (Z.min n (tail p - head p)))
    (Z.min n (tail p - head p)).
Proof.
  intros Hl (Hh & Hht & Ht) Hn Hfit i Hi.
  pose proof (buf_size_bounds Hl) as HB.
  assert (0 <= Z.rem (head p) buf_size)
    by (apply Z.rem_nonneg; lia).
  rewrite byte_at_mem_read by lia.
  rewrite ring_pos_no_wrap by (assumption || lia). reflexivity.
Qed.

(** A write that fits before the end of the ring appends the source bytes
    in order. *)
Lemma pipewrite_fits_in_order (p : pipe) (src : list Z) (n : Z) :
  pipe_layout_ok -> counters_small p ->
  0 < n <= buf_size - Z.rem (tail p) buf_size ->
  (Z.to_nat n <= length src)%nat -> buf_size <= Z.of_nat (length (buf p)) ->
  appended_in_order p
    (set_buf_tail p (mem_write (buf p) (Z.rem (tail p) buf_size) src n)
                  (tail p + n))
    src n.
Proof.
  intros Hl (Hh & Hht & Ht) Hn Hsrc Hbuf i Hi.
  pose proof (buf_size_bounds Hl) as HB.
  assert (0 <= Z.rem (tail p) buf_size)
    by (apply Z.rem_nonneg; lia).
  cbn [buf set_buf_tail].
  rewrite ring_pos_no_wrap by (assumption || lia).
  rewrite byte_at_mem_write_in by lia.
  f_equal. lia.
Qed.

End pipe_ring.

(** ** Pipes: the claims *)

Section pipe_claims.
Context `{Config}.


End pipe_claims.



(** ** The redo log *)

Lemma upd_same {A : Type} (f : Z -> A) (k : Z) (v : A) : upd f k v k = v.
Proof. unfold upd. now rewrite Z.eqb_refl. Qed.

Lemma upd_other {A : Type} (f : Z -> A) (k k' : Z) (v : A) :
  k' <> k -> upd f k v k' = f k'.
Proof. intros Hne. unfold upd. destruct (Z.eqb_spec k' k); congruence. Qed.

(** One round of the loop of [commit_tx]: the home block receives the
    first [sizeof(struct log_meta)] bytes of the shadow block on top of
    what its buffer held. *)
Lemma commit_block_home (log : list Z) (s : fs) (i : Z) :
  disk (commit_block log s i) (lm_blockno log i)
  = mem_write (bread s (lm_blockno log i)) 0
              (bread s (uint32 (logstart (sb s) + 1 + i))) sizeof_log_meta.
Proof.
  unfold commit_block, bwrite. cbn [disk set_disk_bufs].
  rewrite upd_same. unfold bread at 1. cbn [bufs bset set_disk_bufs].
  now rewrite upd_same.
Qed.

Lemma mem_write_self (l : list Z) (n : Z) : mem_write l 0 l n = l.
Proof.
  unfold mem_write. change (Z.to_nat 0) with 0%nat.
  apply list_eq. intros i.
  destruct (decide (i < length (take (Z.to_nat n) l))%nat) as [Hi | Hi].
  - rewrite list_lookup_inserts.
    + rewrite Nat.sub_0_r. apply lookup_take_lt.
      rewrite length_take in Hi. lia.
    + lia.
    + rewrite length_take in Hi. lia.
  - rewrite list_lookup_inserts_ge by lia. reflexivity.
Qed.

(** The short copy goes unnoticed when the home buffer already holds the
    staged block. *)
Lemma commit_block_masked (log : list Z) (s : fs) (i : Z) :
  bread s (lm_blockno log i) = bread s (uint32 (logstart (sb s) + 1 + i)) ->
  disk (commit_block log s i) (lm_blockno log i)
  = bread s (uint32 (logstart (sb s) + 1 + i)).
Proof.
  intros Heq. rewrite commit_block_home, Heq. apply mem_write_self.
Qed.

(** ** Boot recovery *)

Lemma mem_write_whole (old new : list Z) :
  length old = length new ->
  mem_write old 0 new (Z.of_nat (length new)) = new.
Proof.
  intros Hlen. unfold mem_write.
  rewrite Nat2Z.id, firstn_all. change (Z.to_nat 0) with 0%nat.
  rewrite <- (app_nil_r old) at 1.
  rewrite list_inserts_0_r by (symmetry; exact Hlen).
  apply app_nil_r.
Qed.

Lemma mem_write_block (old new : list Z) :
  length old = Z.to_nat BSIZE -> length new = Z.to_nat BSIZE ->
  mem_write old 0 new BSIZE = new.
Proof.
  intros Ho Hn.
  replace BSIZE with (Z.of_nat (length new)) by (rewrite Hn; reflexivity).
  apply mem_write_whole. congruence.
Qed.

Lemma wf_disk_upd (d : Z -> list Z) (b : Z) (v : list Z) :
  wf_disk d -> length v = Z.to_nat BSIZE -> wf_disk (upd d b v).
Proof.
  intros Hd Hv b'. unfold upd. destruct (b' =? b); [exact Hv | apply Hd].
Qed.

Lemma bread_clean (s : fs) (b : Z) : cache_clean s -> bread s b = disk s b.
Proof.
  intros Hc. unfold bread. destruct (bufs s b) as [d |] eqn:E; [| reflexivity].
  now apply Hc.
Qed.

(** One replay round on a clean cache: the home block becomes the shadow
    block, all [BSIZE] bytes of it, and the cache stays clean. *)
Lemma replay_block_disk (log : list Z) (s : fs) (j : Z) :
  cache_clean s -> wf_disk (disk s) ->
  disk (replay_block log s j) = replay_disk (logstart (sb s)) log (disk s) j
  /\ cache_clean (replay_block log s j)
  /\ wf_disk (disk (replay_block log s j))
  /\ sb (replay_block log s j) = sb s
  /\ junk (replay_block log s j) = junk s.
Proof.
  intros Hc Hd.
  assert (Hdata :
    bread (bset s (lm_blockno log j)
             (mem_write (bread s (lm_blockno log j)) 0
                (bread s (uint32 (logstart (sb s) + 1 + j))) BSIZE))
          (lm_blockno log j)
    = disk s (uint32 (logstart (sb s) + 1 + j))).
  { unfold bread at 1. cbn. rewrite upd_same.
    rewrite !bread_clean by assumption. apply mem_write_block; apply Hd. }
  unfold replay_block, bwrite. rewrite Hdata. cbn.
  split; [reflexivity |]. split.
  - intros b d. cbn. unfold upd. destruct (b =? lm_blockno log j).
    + congruence.
    + apply Hc.
  - split; [| split; reflexivity].
    apply wf_disk_upd; [assumption | apply Hd].
Qed.

Lemma replay_fold_disk (log : list Z) (js : list Z) (s : fs) :
  cache_clean s -> wf_disk (disk s) ->
  disk (fold_left (replay_block log) js s)
    = fold_left (replay_disk (logstart (sb s)) log) js (disk s)
  /\ cache_clean (fold_left (replay_block log) js s)
  /\ wf_disk (disk (fold_left (replay_block log) js s))
  /\ sb (fold_left (replay_block log) js s) = sb s
  /\ junk (fold_left (replay_block log) js s) = junk s.
Proof.
  revert s. induction js as [| j js IH]; intros s Hc Hd.
  - cbn. auto.
  - cbn [fold_left].
    destruct (replay_block_disk log s j Hc Hd) as (Hdisk & Hc' & Hd' & Hsb & Hj).
    destruct (IH _ Hc' Hd') as (IH1 & IH2 & IH3 & IH4 & IH5).
    rewrite IH1, Hsb, Hdisk. repeat split; try assumption; congruence.
Qed.

Lemma cache_empty_clean (s : fs) : cache_empty s -> cache_clean s.
Proof. intros He b d Hb. rewrite He in Hb. discriminate. Qed.

(** C3 (amended).  [iinit] reads the superblock and then the log header.
    If the header says committed ([commited == 1]), every logged shadow
    block is copied whole to its home block, in order, and a log block whose
    first [sizeof(struct log_meta)] bytes are zero is written.  Otherwise
    [iinit] writes nothing: the disk, log header included, stays as it
    was. *)
Theorem iinit_recovery (dev : Z) (s : fs) :
  cache_empty s -> wf_disk (disk s) ->
  let lb := logstart (decode_superblock (mem_read (disk s 1) 0 sizeof_superblock)) in
  let log := mem_read (disk s lb) 0 sizeof_log_meta in
  (lm_commited log = 1 ->
     (forall b, b <> lb ->
        disk (iinit dev s) b
        = fold_left (replay_disk lb (log ++ junk s))
                    (seqZ 0 (lm_nchanges log)) (disk s) b)
     /\ mem_read (disk (iinit dev s) lb) 0 sizeof_log_meta
        = zeros sizeof_log_meta)
  /\ (lm_commited log <> 1 ->
        disk (iinit dev s) = disk s /\ events (iinit dev s) = events s).
Proof.
  intros He Hd lb log.
  assert (Hc : cache_clean s) by now apply cache_empty_clean.
  assert (Hb1 : bread s 1 = disk s 1) by now apply bread_clean.
  unfold iinit.
  set (s1 := set_loglock _ _ _).
  assert (Hs1 : disk s1 = disk s /\ bufs s1 = bufs s /\ junk s1 = junk s
                /\ events s1 = events s) by (cbn; auto).
  destruct Hs1 as (Hdisk1 & Hbufs1 & Hjunk1 & Hev1).
  assert (Hsb1 : logstart (sb s1) = lb).
  { cbn. unfold bread. cbn. rewrite He. reflexivity. }
  assert (Hc1 : cache_clean s1).
  { intros b d. rewrite Hbufs1, Hdisk1. apply Hc. }
  assert (Hd1 : wf_disk (disk s1)) by (rewrite Hdisk1; exact Hd).
  rewrite Hsb1.
  assert (Hlog : mem_read (bread s1 lb) 0 sizeof_log_meta = log).
  { rewrite bread_clean by assumption. rewrite Hdisk1. reflexivity. }
  rewrite Hlog.
  split.
  - intros Hcom. rewrite Hcom. cbn [Z.eqb Pos.eqb].
    destruct (replay_fold_disk (log ++ junk s1) (seqZ 0 (lm_nchanges log)) s1
                Hc1 Hd1) as (Hf & Hcf & Hdf & Hsbf & Hjf).
    set (s2 := fold_left _ _ s1) in *.
    split.
    + intros b Hb. unfold bwrite. cbn. rewrite upd_other by assumption.
      rewrite Hf, Hsb1, Hjunk1, Hdisk1. reflexivity.
    + unfold bwrite. cbn [disk set_disk_bufs]. rewrite upd_same.
      unfold bread at 1. cbn [bufs bset set_disk_bufs]. rewrite upd_same.
      assert (Hlen : length (bread s2 lb) = Z.to_nat BSIZE).
      { rewrite bread_clean by assumption. apply Hdf. }
      revert Hlen. generalize (bread s2 lb) as old. intros old Hlen.
      unfold mem_read, mem_write, zeros. change (Z.to_nat 0) with 0%nat.
      rewrite drop_0.
      apply list_eq. intros i.
      destruct (decide (i < Z.to_nat sizeof_log_meta)%nat) as [Hi | Hi].
      * rewrite lookup_take_lt by assumption.
        rewrite list_lookup_inserts.
        -- rewrite Nat.sub_0_r. rewrite lookup_take_lt.
           ++ rewrite lookup_app_l by (rewrite repeat_length; lia).
              reflexivity.
           ++ unfold sizeof_log_meta, BSIZE in *. lia.
        -- rewrite length_take, length_app, repeat_length.
           unfold sizeof_log_meta, BSIZE in *. lia.
        -- rewrite Hlen. unfold sizeof_log_meta, BSIZE in *. lia.
      * rewrite lookup_take_ge by lia.
        symmetry. apply lookup_ge_None_2. rewrite repeat_length. lia.
  - intros Hcom.
    destruct (Z.eqb_spec (lm_commited log) 1); [contradiction |].
    split; assumption.
Qed.

Lemma wf_disk_c2 : wf_disk disk_c2.
Proof.
  intros b. unfold disk_c2.
  destruct (b =? 1); [reflexivity |].
  destruct (b =? 40); [reflexivity |].
  destruct (b =? 41); reflexivity.
Qed.

(** C3, the claim as stated fails: with a log header that says not
    committed and one change, [iinit] leaves the header on disk as it is
    (one change still recorded), it does not clear it. *)
Lemma iinit_keeps_uncommitted_log_meta :
  let s := fs_of disk_c3 false in
  lm_commited (mem_read (disk s 40) 0 sizeof_log_meta) = 0 /\
  logstart (sb (iinit 1 s)) = 40 /\
  lm_nchanges (mem_read (disk (iinit 1 s) 40) 0 sizeof_log_meta) = 1 /\
  mem_read (disk (iinit 1 s) 40) 0 sizeof_log_meta <> zeros sizeof_log_meta.
Proof.
  cbv zeta. split; [reflexivity |]. split; [reflexivity |].
  split; [reflexivity |]. vm_compute. discriminate.
Qed.

Lemma iinit_recovery_witness :
  let s := fs_of disk_c3_committed false in
  cache_empty s /\ wf_disk (disk s) /\
  let lb := logstart (decode_superblock (mem_read (disk s 1) 0 sizeof_superblock)) in
  let log := mem_read (disk s lb) 0 sizeof_log_meta in
  (lm_commited log = 1 ->
     (forall b, b <> lb ->
        disk (iinit 1 s) b
        = fold_left (replay_disk lb (log ++ junk s))
                    (seqZ 0 (lm_nchanges log)) (disk s) b)
     /\ mem_read (disk (iinit 1 s) lb) 0 sizeof_log_meta
        = zeros sizeof_log_meta)
  /\ (lm_commited log <> 1 ->
        disk (iinit 1 s) = disk s /\ events (iinit 1 s) = events s).
Proof.
  intros s.
  assert (He : cache_empty s) by (intros b; reflexivity).
  assert (Hd : wf_disk (disk s)).
  { apply wf_disk_upd; [apply wf_disk_c2 | reflexivity]. }
  split; [exact He |]. split; [exact Hd |].
  exact (iinit_recovery 1 s He Hd).
Defined.

(** The committed log of the example is replayed in full: home block 70
    ends as the 512 bytes of its shadow block. *)
Lemma iinit_replays_whole_block :
  disk (iinit 1 (fs_of disk_c3_committed false)) 70 = repeat 170 512.
Proof. vm_compute. reflexivity. Qed.

(** ** Inode reads *)

Lemma capacity_nonneg es : wf_extents es -> 0 <= capacity es.
Proof.
  induction 1 as [| e r He Hr IH]; cbn; [lia |].
  destruct (Z.ltb_spec 0 (nblocks e)); lia.
Qed.

Lemma ext_at_drop ip extno :
  0 <= extno -> (Z.to_nat extno < length (i_data ip))%nat ->
  drop (Z.to_nat extno) (i_data ip)
  = ext_at ip extno :: drop (Z.to_nat (extno + 1)) (i_data ip).
Proof.
  intros H0 Hlt. unfold ext_at.
  destruct (lookup_lt_is_Some_2 (i_data ip) (Z.to_nat extno) Hlt) as [e He].
  rewrite He. cbn. replace (Z.to_nat (extno + 1)) with (S (Z.to_nat extno)) by lia.
  now apply drop_S.
Qed.

Lemma wf_extents_drop es k : wf_extents es -> wf_extents (drop k es).
Proof. apply Forall_drop. Qed.

Lemma ext_at_wf ip extno :
  wf_extents (i_data ip) ->
  0 <= startblkno (ext_at ip extno) /\ 0 <= nblocks (ext_at ip extno) /\
  startblkno (ext_at ip extno) + nblocks (ext_at ip extno) < 2 ^ 32.
Proof.
  intros Hwf. unfold ext_at.
  destruct (i_data ip !! Z.to_nat extno) as [e |] eqn:E; cbn; [| lia].
  unfold wf_extents in Hwf. rewrite Forall_lookup in Hwf. exact (Hwf _ _ E).
Qed.

(** The extent bookkeeping at the top of one round: where the loop stands
    after its "move on to the next extent" test. *)
Lemma extent_step ip extno extoff foff d :
  wf_extents (i_data ip) -> length (i_data ip) = 6%nat ->
  0 <= extno <= 5 -> 0 <= extoff <= nblocks (ext_at ip extno) -> 0 <= d ->
  extoff + d < capacity (drop (Z.to_nat extno) (i_data ip)) ->
  (forall fb, 0 <= fb ->
     block_of_extents (i_data ip) (foff + fb)
     = block_of_extents (drop (Z.to_nat extno) (i_data ip)) (extoff + fb)) ->
  let moved := nblocks (ext_at ip extno) <=? extoff in
  let extno' := if moved then extno + 1 else extno in
  let extoff' := if moved then 0 else extoff in
  0 < nblocks (ext_at ip extno) /\
  (moved = true -> extno < 5) /\
  0 <= extno' <= 5 /\
  0 <= extoff' < nblocks (ext_at ip extno') /\
  extoff' + d < capacity (drop (Z.to_nat extno') (i_data ip)) /\
  (forall fb, 0 <= fb ->
     block_of_extents (i_data ip) (foff + fb)
     = block_of_extents (drop (Z.to_nat extno') (i_data ip)) (extoff' + fb)) /\
  block_of_extents (i_data ip) foff = startblkno (ext_at ip extno') + extoff'.
Proof.
  intros Hwf Hlen Hno Hoff Hd Hcap Hblk moved extno' extoff'.
  pose proof (ext_at_drop ip extno ltac:(lia) ltac:(lia)) as Hdrop.
  assert (Hnb : 0 < nblocks (ext_at ip extno)).
  { rewrite Hdrop in Hcap. cbn in Hcap.
    destruct (Z.ltb_spec 0 (nblocks (ext_at ip extno))); lia. }
  split; [exact Hnb |].
  subst moved extno' extoff'.
  destruct (Z.leb_spec (nblocks (ext_at ip extno)) extoff) as [Hmv | Hst].
  - (* the extent is used up: the next one is entered at its first block *)
    assert (Heq : extoff = nblocks (ext_at ip extno)) by lia.
    assert (Hcap' : d < capacity (drop (Z.to_nat (extno + 1)) (i_data ip))).
    { rewrite Hdrop in Hcap. cbn in Hcap.
      destruct (Z.ltb_spec 0 (nblocks (ext_at ip extno))); lia. }
    assert (Hlt5 : extno < 5).
    { destruct (Z.eq_dec extno 5) as [-> |]; [| lia].
      rewrite drop_ge in Hcap' by (rewrite Hlen; cbn; lia). cbn in Hcap'. lia. }
    pose proof (ext_at_drop ip (extno + 1) ltac:(lia) ltac:(lia)) as Hdrop'.
    assert (Hnb' : 0 < nblocks (ext_at ip (extno + 1))).
    { rewrite Hdrop' in Hcap'. cbn in Hcap'.
      destruct (Z.ltb_spec 0 (nblocks (ext_at ip (extno + 1)))); lia. }
    assert (Hblk' : forall fb, 0 <= fb ->
       block_of_extents (i_data ip) (foff + fb)
       = block_of_extents (drop (Z.to_nat (extno + 1)) (i_data ip)) (0 + fb)).
    { intros fb Hfb. rewrite (Hblk fb Hfb), Hdrop. cbn [block_of_extents].
      destruct (Z.ltb_spec (extoff + fb) (nblocks (ext_at ip extno))); [lia |].
      f_equal. lia. }
    repeat split; try lia; try assumption.
    specialize (Hblk' 0 ltac:(lia)). rewrite Z.add_0_r in Hblk'.
    rewrite Hblk', Hdrop'. cbn [block_of_extents].
    destruct (Z.ltb_spec (0 + 0) (nblocks (ext_at ip (extno + 1)))); lia.
  - repeat split; try lia; try assumption; try discriminate.
    specialize (Hblk 0 ltac:(lia)). rewrite !Z.add_0_r in Hblk.
    rewrite Hblk, Hdrop. cbn [block_of_extents].
    destruct (Z.ltb_spec extoff (nblocks (ext_at ip extno))); lia.
Qed.

Lemma byte_at_app_l (a b : list Z) (i : Z) :
  0 <= i -> (Z.to_nat i < length a)%nat -> byte_at (a ++ b) i = byte_at a i.
Proof. intros. unfold byte_at. now rewrite lookup_app_l. Qed.

Lemma byte_at_app_r (a b : list Z) (i : Z) :
  (length a <= Z.to_nat i)%nat ->
  byte_at (a ++ b) i = byte_at b (i - Z.of_nat (length a)).
Proof.
  intros. unfold byte_at. rewrite lookup_app_r by assumption.
  do 2 f_equal. lia.
Qed.

Lemma mem_read_length (m : list Z) (pos len : Z) :
  0 <= pos -> 0 <= len -> pos + len <= Z.of_nat (length m) ->
  length (mem_read m pos len) = Z.to_nat len.
Proof.
  intros. unfold mem_read. rewrite length_take, length_drop. lia.
Qed.

Lemma readi_loop_spec (s : fs) (ip : inode) (n off0 : Z) :
  wf_bufs s -> wf_extents (i_data ip) -> length (i_data ip) = 6%nat ->
  0 <= off0 -> 0 < n -> off0 + n < 2 ^ 32 ->
  forall fuel extno extoff foff off tot dst,
    0 <= tot <= n -> off = off0 + tot ->
    0 <= foff -> (tot < n -> foff <= off / BSIZE) ->
    (0 < tot < n -> off mod BSIZE = 0 /\ foff = off / BSIZE) ->
    0 <= extno <= 5 -> 0 <= extoff <= nblocks (ext_at ip extno) ->
    (tot < n ->
       extoff + ((off0 + n - 1) / BSIZE - foff)
       < capacity (drop (Z.to_nat extno) (i_data ip))) ->
    (forall fb, 0 <= fb ->
       block_of_extents (i_data ip) (foff + fb)
       = block_of_extents (drop (Z.to_nat extno) (i_data ip)) (extoff + fb)) ->
    length dst = Z.to_nat tot ->
    (forall i, 0 <= i < tot -> byte_at dst i = file_byte s ip (off0 + i)) ->
    (off / BSIZE - foff) + (n - tot) <= Z.of_nat fuel ->
    exists dst',
      readi_loop fuel s ip n extno extoff foff off tot dst = Done dst' s /\
      length dst' = Z.to_nat n /\
      forall i, 0 <= i < n -> byte_at dst' i = file_byte s ip (off0 + i).
Proof.
  intros Hbufs Hwf Hlen Hoff0 Hn Hsum.
  induction fuel as [| fuel IH];
    intros extno extoff foff off tot dst Htot Hoff Hfoff0 Hfoff Hal Hno Hxo Hcap
           Hblk Hdl Hdst Hfuel.
  - (* no fuel: the loop must be over *)
    assert (tot = n).
    { destruct (Z.lt_ge_cases tot n) as [Hlt |]; [| lia].
      specialize (Hfoff Hlt). lia. }
    subst tot. cbn. destruct (Z.ltb_spec n n); [lia |]. cbn. eauto.
  - cbn [readi_loop].
    destruct (Z.ltb_spec tot n) as [Hlt | Hge]; cbn [negb].
    2:{ assert (tot = n) by lia. subst tot. eauto. }
    specialize (Hfoff Hlt).
    assert (Hlast : foff <= (off0 + n - 1) / BSIZE).
    { transitivity (off / BSIZE); [lia |].
      apply Z.div_le_mono; unfold BSIZE; lia. }
    destruct (extent_step ip extno extoff foff ((off0 + n - 1) / BSIZE - foff)
                Hwf Hlen Hno Hxo ltac:(lia) (Hcap Hlt) Hblk)
      as (Hnb & Hmv & Hno' & Hxo' & Hcap' & Hblk' & Hhere).
    destruct (Z.ltb_spec 0 (nblocks (ext_at ip extno))) as [_ | ?]; [| lia].
    cbn [negb].
    set (moved := nblocks (ext_at ip extno) <=? extoff) in *.
    set (extno' := if moved then extno + 1 else extno) in *.
    set (extoff' := if moved then 0 else extoff) in *.
    assert (Hguard : moved && negb (extno <? 5) = false).
    { destruct moved; [| reflexivity]. cbn.
      specialize (Hmv eq_refl). destruct (Z.ltb_spec extno 5); [reflexivity | lia]. }
    rewrite Hguard.
    pose proof (ext_at_wf ip extno' Hwf) as (Hs0 & Hn0 & Hs32).
    rewrite (uint32_id (extoff' + 1)) by lia.
    rewrite (uint32_id (foff + 1)) by (unfold BSIZE in *; Z.div_mod_to_equations; lia).
    destruct (Z.leb_spec (off / BSIZE) foff) as [Hrd | Hskip].
    + (* this round copies from file block [foff] *)
      assert (Hfo : foff = off / BSIZE) by lia.
      rewrite (uint32_id (startblkno (ext_at ip extno') + extoff')) by lia.
      rewrite <- Hhere.
      rewrite (uint32_id (n - tot)) by lia.
      assert (Hmod : 0 <= off mod BSIZE < BSIZE)
        by (apply Z.mod_pos_bound; unfold BSIZE; lia).
      rewrite (uint32_id (BSIZE - off mod BSIZE)) by (unfold BSIZE in *; lia).
      set (m := cmin (n - tot) (BSIZE - off mod BSIZE)).
      assert (Hm : 0 < m <= n - tot /\ m <= BSIZE - off mod BSIZE /\
                   (m < n - tot -> m = BSIZE - off mod BSIZE)).
      { subst m. unfold cmin.
        destruct (Z.ltb_spec (n - tot) (BSIZE - off mod BSIZE)); lia. }
      rewrite (uint32_id (off + m)) by lia.
      rewrite (uint32_id (tot + m)) by lia.
      set (data := bread s (block_of_extents (i_data ip) foff)).
      assert (Hdata : length data = Z.to_nat BSIZE) by apply Hbufs.
      apply IH.
      * lia.
      * lia.
      * lia.
      * intros Htm. assert (m = BSIZE - off mod BSIZE) by lia.
        unfold BSIZE in *. Z.div_mod_to_equations. lia.
      * intros Htm. assert (m = BSIZE - off mod BSIZE) by lia.
        unfold BSIZE in *. Z.div_mod_to_equations. lia.
      * exact Hno'.
      * lia.
      * intros _. lia.
      * intros fb Hfb. replace (foff + 1 + fb) with (foff + (1 + fb)) by lia.
        rewrite Hblk' by lia. f_equal. lia.
      * rewrite length_app, mem_read_length; lia.
      * intros i Hi. destruct (Z.lt_ge_cases i tot) as [Hil | Hir].
        -- rewrite byte_at_app_l by lia. apply Hdst. lia.
        -- rewrite byte_at_app_r by lia. rewrite Hdl, Z2Nat.id by lia.
           rewrite byte_at_mem_read by lia.
           unfold file_byte.
           assert (Hq : (off0 + i) / BSIZE = foff /\
                        (off0 + i) mod BSIZE = off mod BSIZE + (i - tot)).
           { unfold BSIZE in *. Z.div_mod_to_equations. lia. }
           destruct Hq as [Hq1 Hq2]. rewrite Hq1, Hq2. reflexivity.
      * unfold BSIZE in *. Z.div_mod_to_equations. lia.
    + (* a round before the first block of the read *)
      assert (Ht0 : tot = 0).
      { destruct (Z.eq_dec tot 0); [assumption |]. destruct Hal; lia. }
      apply IH; try assumption; try lia.
      intros fb Hfb. replace (foff + 1 + fb) with (foff + (1 + fb)) by lia.
      rewrite Hblk' by lia. f_equal. lia.
Qed.

(** C7.  [readi] on an inode that is not a device: a read that starts
    beyond the file size, or whose [off + n] overflows, returns -1 and
    stores nothing; otherwise it returns [min n (size - off)], the count
    clipped to the file size, and the destination receives the file
    contents at offsets [off, off + count). *)
Theorem readi_spec `{Config} (s : fs) (ip : inode) (off n : Z) :
  i_lock ip = true -> i_type ip <> T_DEV ->
  wf_inode ip -> wf_bufs s ->
  0 <= off < 2 ^ 32 -> 0 <= n < 2 ^ 32 ->
  (i_size ip < off \/ 2 ^ 32 <= off + n ->
     readi ip off n s = Done (-1, []) s)
  /\ (off <= i_size ip -> off + n < 2 ^ 32 ->
      let k := Z.min n (i_size ip - off) in
      exists dst,
        readi ip off n s = Done (k, dst) s /\
        length dst = Z.to_nat k /\
        forall i, 0 <= i < k -> byte_at dst i = file_byte s ip (off + i)).
Proof.
  intros Hlock Hty (Hlen & Hwf & Hsize & Hint) Hbufs Hoff Hn.
  unfold readi. rewrite Hlock. cbn [negb].
  destruct (Z.eqb_spec (i_type ip) T_DEV) as [| _]; [contradiction |].
  split.
  - intros Hbad.
    destruct (Z.ltb_spec (i_size ip) off) as [| Hle]; [reflexivity |].
    cbn [orb]. destruct Hbad as [| Hov]; [lia |].
    assert (Hw : uint32 (off + n) = off + n - 2 ^ 32).
    { unfold uint32. symmetry. apply (Z.mod_unique_pos _ _ 1); lia. }
    rewrite Hw. destruct (Z.ltb_spec (off + n - 2 ^ 32) off); [reflexivity | lia].
  - intros Hle Hsum. set (k := Z.min n (i_size ip - off)).
    destruct (Z.ltb_spec (i_size ip) off) as [| _]; [lia |].
    rewrite (uint32_id (off + n)) by lia.
    destruct (Z.ltb_spec (off + n) off) as [| _]; [lia |].
    cbn [orb].
    assert (Hk : (if i_size ip <? off + n then uint32 (i_size ip - off) else n) = k).
    { subst k. destruct (Z.ltb_spec (i_size ip) (off + n)).
      - rewrite uint32_id by lia. lia.
      - lia. }
    rewrite Hk.
    assert (Hk0 : 0 <= k < 2 ^ 31) by lia.
    rewrite (int32_id k) by lia.
    destruct (Z.eq_dec k 0) as [Hz | Hnz].
    + rewrite Hz. exists []. cbn.
      destruct (Z.to_nat (off / BSIZE + 0 + 1)); cbn;
        (split; [reflexivity | split; [reflexivity | intros; lia]]).
    + destruct (readi_loop_spec s ip k off Hbufs Hwf Hlen ltac:(lia) ltac:(lia)
                  ltac:(lia) (Z.to_nat (off / BSIZE + k + 1)) 0 0 0 off 0 [])
        as (dst & Hrun & Hdl & Hbytes); try lia.
      * intros _. apply Z.div_pos; unfold BSIZE; lia.
      * pose proof (ext_at_wf ip 0 Hwf). lia.
      * intros _. change (Z.to_nat 0) with 0%nat. rewrite drop_0.
        assert ((off + k - 1) / BSIZE < capacity (i_data ip)).
        { apply Z.div_lt_upper_bound; unfold BSIZE in *; lia. }
        lia.
      * intros fb _. reflexivity.
      * reflexivity.
      * exists dst. rewrite Hrun. cbn. auto.
Qed.

Lemma wf_disk_c7 : wf_disk disk_c7.
Proof.
  intros b. unfold disk_c7.
  destruct (b =? 64); [reflexivity |].
  destruct (b =? 65); reflexivity.
Qed.

Lemma wf_file_c7 : wf_inode file_c7.
Proof.
  unfold wf_inode, wf_extents.
  split; [reflexivity |]. split.
  - repeat constructor; cbn; lia.
  - cbn. unfold BSIZE. lia.
Qed.

Lemma readi_spec_witness :
  let s := fs_of disk_c7 false in
  i_lock file_c7 = true /\ i_type file_c7 <> @T_DEV xk_config /\
  wf_inode file_c7 /\ wf_bufs s /\
  0 <= 510 < 2 ^ 32 /\ 0 <= 1000 < 2 ^ 32 /\
  ((i_size file_c7 < 510 \/ 2 ^ 32 <= 510 + 1000 ->
      @readi xk_config file_c7 510 1000 s = Done (-1, []) s)
   /\ (510 <= i_size file_c7 -> 510 + 1000 < 2 ^ 32 ->
       let k := Z.min 1000 (i_size file_c7 - 510) in
       exists dst,
         @readi xk_config file_c7 510 1000 s = Done (k, dst) s /\
         length dst = Z.to_nat k /\
         forall i, 0 <= i < k ->
           byte_at dst i = file_byte s file_c7 (510 + i))).
Proof.
  intros s.
  assert (H1 : i_lock file_c7 = true) by reflexivity.
  assert (H2 : i_type file_c7 <> @T_DEV xk_config) by (cbn; lia).
  assert (H3 : wf_bufs s) by (intros b; apply wf_disk_c7).
  assert (H4 : 0 <= 510 < 2 ^ 32) by lia.
  assert (H5 : 0 <= 1000 < 2 ^ 32) by lia.
  repeat (split; [assumption || exact wf_file_c7 |]).
  exact (@readi_spec xk_config s file_c7 510 1000 H1 H2 wf_file_c7 H3 H4 H5).
Defined.

(** A read across the block boundary, clipped at the file size. *)
Example readi_c7_run :
  @readi xk_config file_c7 510 4 (fs_of disk_c7 false)
    = Done (4, [254; 255; 7; 7]) (fs_of disk_c7 false)
  /\ @readi xk_config file_c7 598 100 (fs_of disk_c7 false)
    = Done (2, [7; 7]) (fs_of disk_c7 false)
  /\ @readi xk_config file_c7 601 1 (fs_of disk_c7 false)
    = Done (-1, []) (fs_of disk_c7 false).
Proof. repeat split; vm_compute; reflexivity. Qed.

(** ** Inode writes and transactions *)

Lemma post_bind {A B : Type} (P : A -> fs -> Prop) (Q : B -> fs -> Prop)
    (m : outcome A) (k : A -> fs -> outcome B) :
  post P m -> (forall a s, P a s -> post Q (k a s)) -> post Q (bind m k).
Proof. destruct m; cbn; auto. Qed.

Lemma post_weaken {A : Type} (P Q : A -> fs -> Prop) (m : outcome A) :
  post P m -> (forall a s, P a s -> Q a s) -> post Q m.
Proof. destruct m; cbn; auto. Qed.

Lemma crash_disk_app d tr1 tr2 :
  crash_disk d (tr1 ++ tr2) = crash_disk (crash_disk d tr1) tr2.
Proof. unfold crash_disk. apply fold_left_app. Qed.

Lemma quiet_refl s : quiet s s.
Proof.
  split; [reflexivity |]. split; [reflexivity |].
  exists []. rewrite app_nil_r. auto.
Qed.

Lemma quiet_trans s1 s2 s3 : quiet s1 s2 -> quiet s2 s3 -> quiet s1 s3.
Proof.
  intros (Hl1 & Hv1 & tr1 & He1 & Hw1 & Hd1) (Hl2 & Hv2 & tr2 & He2 & Hw2 & Hd2).
  split; [congruence |]. split; [congruence |].
  exists (tr1 ++ tr2). rewrite He2, He1, <- app_assoc. split; [reflexivity |].
  split.
  - rewrite forallb_app, Hw1, Hw2. reflexivity.
  - rewrite crash_disk_app, <- Hd1. exact Hd2.
Qed.

(** Steps that leave the log lock, the events and the inode file's [valid]
    alone. *)
Lemma quiet_same s s' :
  loglock s' = loglock s -> i_valid (inodefile s') = i_valid (inodefile s) ->
  events s' = events s -> disk s' = disk s -> quiet s s'.
Proof.
  intros Hl Hv He Hd. split; [assumption |]. split; [assumption |].
  exists []. rewrite app_nil_r. auto.
Qed.

Lemma quiet_bset s b d : quiet s (bset s b d).
Proof. now apply quiet_same. Qed.

Lemma quiet_bwrite s b : quiet s (bwrite s b).
Proof.
  split; [reflexivity |]. split; [reflexivity |].
  eexists. split; [reflexivity |]. split; reflexivity.
Qed.

Lemma log_write_quiet b s : post (fun _ s' => quiet s s') (log_write b s).
Proof.
  unfold log_write. destruct (loglock s); cbn [negb]; [| exact I].
  destruct (19 <=? _); [exact I |]. cbn [post].
  eapply quiet_trans; [apply quiet_bset |].
  eapply quiet_trans; [apply quiet_bwrite |].
  eapply quiet_trans; [apply quiet_bset |]. apply quiet_bwrite.
Qed.

Lemma begin_tx_spec s :
  post (fun _ s' => loglock s = false /\ loglock s' = true /\
                    i_valid (inodefile s') = i_valid (inodefile s) /\
                    exists w, events s' = events s ++ [Ebegin; w] /\
                              is_write w = true /\
                              disk s' = crash_disk (disk s) [Ebegin; w])
       (begin_tx s).
Proof.
  unfold begin_tx. destruct (loglock s) eqn:E; [exact I |]. cbn.
  repeat split. eexists. rewrite <- app_assoc.
  split; [reflexivity |]. split; reflexivity.
Qed.

Lemma commit_fold_quiet log js s :
  quiet s (fold_left (commit_block log) js s).
Proof.
  revert s. induction js as [| j js IH]; intros s; cbn [fold_left].
  - apply quiet_refl.
  - eapply quiet_trans; [| apply IH].
    unfold commit_block.
    eapply quiet_trans; [apply quiet_bset | apply quiet_bwrite].
Qed.

Lemma commit_tx_spec s :
  post (fun _ s' => loglock s' = false /\
                    i_valid (inodefile s') = i_valid (inodefile s) /\
                    exists tr, events s' = events s ++ tr ++ [Ecommit] /\
                               forallb is_write tr = true /\
                               disk s' = crash_disk (disk s) tr)
       (commit_tx s).
Proof.
  unfold commit_tx. destruct (loglock s); cbn [negb]; [| exact I].
  cbn [post].
  match goal with
  | |- context [set_loglock ?s1 false _] =>
      assert (Hq : quiet s s1)
  end.
  { eapply quiet_trans; [apply quiet_bset |].
    eapply quiet_trans; [apply quiet_bwrite |].
    eapply quiet_trans; [apply commit_fold_quiet |].
    eapply quiet_trans; [apply quiet_bset | apply quiet_bwrite]. }
  destruct Hq as (_ & Hv & tr & He & Hw & Hd).
  split; [reflexivity |]. split; [exact Hv |].
  exists tr. cbn [events disk set_loglock]. rewrite He, app_assoc. auto.
Qed.

Lemma quiet_iput s p ip :
  (p = Inodefile -> i_valid ip = i_valid (inodefile s)) ->
  quiet s (iput_at s p ip).
Proof.
  intros Hv. destruct p; cbn; apply quiet_same; cbn; auto.
Qed.

Lemma acquire_ilock_quiet p s :
  post (fun _ s' => quiet s s') (acquire_ilock p s).
Proof.
  unfold acquire_ilock. destruct (iget_at s p) as [ip |] eqn:E; [| exact I].
  destruct (i_ref ip <? 1); [exact I |]. destruct (i_lock ip); [exact I |].
  cbn. apply quiet_iput. intros ->. cbn in E. now injection E as <-.
Qed.

Lemma unlocki_quiet p s : post (fun _ s' => quiet s s') (unlocki p s).
Proof.
  unfold unlocki. destruct (iget_at s p) as [ip |] eqn:E; [| exact I].
  destruct (_ || _); [exact I |].
  cbn. apply quiet_iput. intros ->. cbn in E. now injection E as <-.
Qed.

Section writei_quiet.
Context `{Config}.

Lemma locki_inodefile_quiet s :
  i_valid (inodefile s) <> 0 ->
  post (fun _ s' => quiet s s') (locki_inodefile s).
Proof.
  intros Hv. unfold locki_inodefile.
  eapply post_bind; [apply acquire_ilock_quiet |].
  intros ? s1 Hq. destruct Hq as (Hl & Hv1 & Htr).
  destruct (Z.eqb_spec (i_valid (inodefile s1)) 0) as [E | _]; [congruence |].
  cbn. split; [assumption |]. split; assumption.
Qed.

Lemma balloc_scan_quiet bs s :
  post (fun _ s' => quiet s s') (balloc_scan bs s).
Proof.
  induction bs as [| b r IH]; cbn [balloc_scan]; [exact I |].
  destruct (find_zero_word (bread s b)) as [i |]; [| exact IH].
  eapply post_bind; [apply log_write_quiet |].
  intros ? s1 Hq.
  destruct (negb _); [exact I |]. destruct (negb _); [exact I |].
  cbn. eapply quiet_trans; [apply quiet_bset | exact Hq].
Qed.

Lemma balloc_quiet s : post (fun _ s' => quiet s s') (balloc s).
Proof. apply balloc_scan_quiet. Qed.

Lemma writeback_inodefile_quiet dip s :
  post (fun _ s' => quiet s s') (writeback_inodefile dip s).
Proof.
  unfold writeback_inodefile.
  eapply post_weaken; [apply log_write_quiet |].
  intros ? s1 Hq. eapply quiet_trans; [apply quiet_bset | exact Hq].
Qed.

Lemma writei_block_quiet wb p src n oldoff ip extno extoff off tot s :
  writeback_ok wb ->
  loglock s = true -> i_valid (inodefile s) <> 0 ->
  (p = Inodefile -> i_valid ip = i_valid (inodefile s)) ->
  post (fun ot s' => ot = next_pos n off tot /\ quiet s s')
       (writei_block wb p src n oldoff ip extno extoff off tot s).
Proof.
  intros Hwb Hl Hv Hip. unfold writei_block.
  eapply (post_bind (fun ip' s1 => quiet s s1 /\ i_valid ip' = i_valid ip)).
  { destruct (nblocks (ext_at ip extno) =? 0).
    - destruct (extno =? 5); [exact I |].
      eapply post_bind; [apply balloc_quiet |].
      intros addr s1 Hq. cbn. auto.
    - cbn. split; [apply quiet_refl | reflexivity]. }
  intros ip1 s1 [Hq1 Hv1]. cbv zeta.
  eapply post_bind; [apply log_write_quiet |].
  intros ? s2 Hq2.
  assert (Hq02 : quiet s s2).
  { eapply quiet_trans; [exact Hq1 |].
    eapply quiet_trans; [apply quiet_bset | exact Hq2]. }
  set (ip2 := if i_size ip1 <? _ then _ else ip1).
  assert (Hv2 : i_valid ip2 = i_valid ip).
  { subst ip2. destruct (i_size ip1 <? _); cbn; assumption. }
  assert (Hq3 : quiet s (iput_at s2 p ip2)).
  { eapply quiet_trans; [exact Hq02 |]. apply quiet_iput.
    intros Hp. destruct Hq02 as (_ & Hvv & _). rewrite Hv2, Hvv. auto. }
  eapply post_bind.
  { apply Hwb.
    - destruct Hq3 as (Hl3 & _). congruence.
    - destruct Hq3 as (_ & Hv3 & _). congruence. }
  intros ? s4 Hq4. cbn. split; [reflexivity |].
  eapply quiet_trans; [exact Hq3 | exact Hq4].
Qed.
End writei_quiet.

Lemma txns_writes ws r :
  forallb is_write ws = true -> txns true (ws ++ r) = txns true r.
Proof.
  induction ws as [| e ws IH]; cbn; [reflexivity |].
  destruct e; cbn; try discriminate. exact IH.
Qed.

Lemma ran_txns_0 s : loglock s = false -> ran_txns 0 s s.
Proof.
  intros Hl. split; [assumption |]. split; [reflexivity |].
  exists []. rewrite app_nil_r. auto.
Qed.

Lemma txns_app a b tr1 tr2 :
  txns false tr1 = Some a -> txns false tr2 = Some b ->
  txns false (tr1 ++ tr2) = Some (a + b)%nat.
Proof.
  assert (Hgen : forall tr1 inside a,
            txns inside tr1 = Some a -> txns false tr2 = Some b ->
            txns inside (tr1 ++ tr2) = Some (a + b)%nat).
  { clear. induction tr1 as [| e tr1 IH]; intros inside a H1 H2.
    - destruct inside; cbn in H1; [discriminate |].
      injection H1 as <-. exact H2.
    - destruct e, inside; cbn in H1 |- *; try discriminate; eauto.
      destruct (txns false tr1) as [a' |] eqn:E; cbn in H1; [| discriminate].
      injection H1 as <-. rewrite (IH false a' E H2). reflexivity. }
  apply Hgen.
Qed.

Lemma ran_txns_trans a b s1 s2 s3 :
  ran_txns a s1 s2 -> ran_txns b s2 s3 -> ran_txns (a + b) s1 s3.
Proof.
  intros (Hl1 & Hv1 & tr1 & He1 & Ht1 & Hd1) (Hl2 & Hv2 & tr2 & He2 & Ht2 & Hd2).
  split; [assumption |]. split; [congruence |].
  exists (tr1 ++ tr2). rewrite He2, He1, <- app_assoc. split; [reflexivity |].
  split; [now apply txns_app |].
  rewrite crash_disk_app, <- Hd1. exact Hd2.
Qed.

Section writei_steps.
Context `{Config}.

Lemma writei_step_started wb p src n oldoff ip extno extoff off tot s :
  writeback_ok wb ->
  loglock s = true -> i_valid (inodefile s) <> 0 ->
  (p = Inodefile -> i_valid ip = i_valid (inodefile s)) ->
  post (fun ot s' => ot = next_pos n off tot /\ quiet s s')
       (writei_step wb p src n oldoff true ip extno extoff off tot s).
Proof.
  intros Hwb Hl Hv Hip. unfold writei_step.
  destruct (6 <=? extno); [exact I |]. cbn [bind].
  eapply post_bind; [now apply writei_block_quiet |].
  intros ot s1 [Hot Hq]. cbn. auto.
Qed.

Lemma writei_step_txn wb p src n oldoff ip extno extoff off tot s :
  writeback_ok wb ->
  i_valid (inodefile s) <> 0 ->
  (p = Inodefile -> i_valid ip = i_valid (inodefile s)) ->
  post (fun ot s' => ot = next_pos n off tot /\ ran_txns 1 s s')
       (writei_step wb p src n oldoff false ip extno extoff off tot s).
Proof.
  intros Hwb Hv Hip. unfold writei_step.
  destruct (6 <=? extno); [exact I |].
  eapply post_bind; [apply begin_tx_spec |].
  intros ? s1 (Hl0 & Hl1 & Hv1 & w & He1 & Hw & Hd1).
  eapply post_bind.
  { apply writei_block_quiet; try assumption; [congruence |].
    intros Hp. rewrite Hv1. auto. }
  intros ot s2 (Hot & Hl2 & Hv2 & tr2 & He2 & Hw2 & Hd2).
  eapply post_bind; [apply commit_tx_spec |].
  intros ? s3 (Hl3 & Hv3 & tr3 & He3 & Hw3 & Hd3).
  cbn. split; [assumption |]. split; [assumption |].
  split; [congruence |].
  exists ([Ebegin; w] ++ tr2 ++ tr3 ++ [Ecommit]).
  split; [| split].
  - rewrite He3, He2, He1. rewrite <- !app_assoc. reflexivity.
  - cbn. destruct w; try discriminate.
    rewrite txns_writes by assumption. rewrite txns_writes by assumption.
    reflexivity.
  - rewrite !crash_disk_app, <- Hd1, <- Hd2, <- Hd3. reflexivity.
Qed.

Section loop.
Variables (G : nat -> fs -> fs -> Prop) (Pre : fs -> Prop).
Variables (wb : list Z -> fs -> outcome unit) (p : iptr) (src : list Z).
Variables (n off0 : Z) (started : bool).
Hypothesis G_refl : forall s, Pre s -> G 0 s s.
Hypothesis G_trans : forall a b s1 s2 s3,
  G a s1 s2 -> G b s2 s3 -> G (a + b) s1 s3.
Hypothesis G_pre : forall c s s', Pre s -> G c s s' -> Pre s'.
Hypothesis G_step : forall ip extno extoff off tot s,
  Pre s -> iget_at s p = Some ip ->
  post (fun ot s' => ot = next_pos n off tot /\ G 1 s s')
       (writei_step wb p src n off0 started ip extno extoff off tot s).
Hypothesis Hoff0 : 0 <= off0.
Hypothesis Hsum : off0 + n < 2 ^ 32.

Lemma writei_loop_post :
  forall fuel extno extoff foff off tot s,
    Pre s -> 0 <= tot <= n -> off = off0 + tot -> 0 <= foff ->
    (tot < n -> foff <= off / BSIZE) ->
    (off / BSIZE - foff) + (n - tot) <= Z.of_nat fuel ->
    post (fun _ s' => G (steps_left off0 n off tot) s s')
         (writei_loop fuel wb p src n off0 started extno extoff foff off tot s).
Proof.
  induction fuel as [| fuel IH];
    intros extno extoff foff off tot s Hpre Htot Hoff Hfoff0 Hfoff Hfuel.
  - assert (tot = n).
    { destruct (Z.lt_ge_cases tot n) as [Hlt |]; [| lia].
      specialize (Hfoff Hlt). lia. }
    subst tot. cbn. unfold steps_left.
    destruct (Z.ltb_spec n n); [lia |]. cbn. now apply G_refl.
  - cbn [writei_loop]. unfold steps_left.
    destruct (Z.ltb_spec tot n) as [Hlt | Hge]; cbn [negb].
    2:{ cbn. now apply G_refl. }
    specialize (Hfoff Hlt).
    destruct (iget_at s p) as [ip |] eqn:Eip; [| exact I].
    destruct (6 <=? extno); [exact I |].
    match goal with
    | |- context [writei_step _ _ _ _ _ _ _ ?a ?b _ _ _] =>
        set (extno' := a); set (extoff' := b)
    end.
    assert (Hmod : 0 <= off mod BSIZE < BSIZE)
      by (apply Z.mod_pos_bound; unfold BSIZE; lia).
    rewrite (uint32_id (foff + 1))
      by (unfold BSIZE in *; Z.div_mod_to_equations; lia).
    destruct (Z.leb_spec (off / BSIZE) foff) as [Hrd | Hskip].
    + eapply post_bind; [apply (G_step ip extno' extoff' off tot s Hpre Eip) |].
      intros ot s1 [Hot HG1]. subst ot. unfold next_pos. cbn [fst snd].
      rewrite (uint32_id (n - tot)) by lia.
      rewrite (uint32_id (BSIZE - off mod BSIZE)) by (unfold BSIZE in *; lia).
      set (m := cmin (n - tot) (BSIZE - off mod BSIZE)).
      assert (Hm : 0 < m <= n - tot /\ m <= BSIZE - off mod BSIZE /\
                   (m < n - tot -> m = BSIZE - off mod BSIZE)).
      { subst m. unfold cmin.
        destruct (Z.ltb_spec (n - tot) (BSIZE - off mod BSIZE)); lia. }
      rewrite (uint32_id (off + m)) by lia.
      rewrite (uint32_id (tot + m)) by lia.
      eapply post_weaken.
      * apply IH; try lia.
        -- eapply G_pre; eassumption.
        -- intros Htm. assert (m = BSIZE - off mod BSIZE) by lia.
           unfold BSIZE in *. Z.div_mod_to_equations. lia.
        -- unfold BSIZE in *. Z.div_mod_to_equations. lia.
      * intros ? s2 HG2. cbn beta in HG2.
        replace (Z.to_nat ((off0 + n - 1) / BSIZE - off / BSIZE + 1))
          with (1 + steps_left off0 n (off + m) (tot + m))%nat.
        { eapply G_trans; eassumption. }
        unfold steps_left.
        destruct (Z.ltb_spec (tot + m) n) as [Hmore | Hdone].
        -- assert (m = BSIZE - off mod BSIZE) by lia.
           unfold BSIZE in *. Z.div_mod_to_equations. lia.
        -- unfold BSIZE in *. Z.div_mod_to_equations. lia.
    + eapply post_weaken.
      * apply IH; try eassumption; try lia.
      * intros ? s2 HG2. cbn beta in HG2. unfold steps_left in HG2.
        destruct (Z.ltb_spec tot n); [exact HG2 | lia].
Qed.
End loop.
End writei_steps.

Section writei_call.
Context `{Config}.

(** What [writei] does before its loop: it returns at once without
    touching the state, or the range check has passed. *)
Lemma writei_entry_cases ip src off n s :
  0 <= off < 2 ^ 32 -> 0 <= n < 2 ^ 32 ->
  match writei_entry ip src off n s with
  | Some r => post (fun _ s' => s' = s) r
  | None => i_lock ip = true /\ off <= i_size ip /\ off + n < 2 ^ 32
  end.
Proof.
  intros Hoff Hn. unfold writei_entry.
  destruct (i_lock ip); cbn [negb]; [| exact I].
  destruct (i_type ip =? T_DEV).
  { destruct (_ || _); reflexivity. }
  destruct (Z.ltb_spec (i_size ip) off); cbn [orb]; [reflexivity |].
  destruct (Z.ltb_spec (uint32 (off + n)) off) as [| Hno]; [reflexivity |].
  split; [reflexivity |]. split; [lia |].
  destruct (Z.lt_ge_cases (off + n) (2 ^ 32)) as [| Hov]; [assumption |].
  assert (uint32 (off + n) = off + n - 2 ^ 32).
  { unfold uint32. symmetry. apply (Z.mod_unique_pos _ _ 1); lia. }
  lia.
Qed.

Lemma writei_inodefile_quiet src off n s :
  loglock s = true -> i_valid (inodefile s) <> 0 ->
  0 <= off < 2 ^ 32 -> 0 <= n < 2 ^ 32 ->
  post (fun _ s' => quiet s s') (writei_inodefile src off n s).
Proof.
  intros Hl Hv Hoff Hn. unfold writei_inodefile.
  pose proof (writei_entry_cases (inodefile s) src off n s Hoff Hn) as Hent.
  destruct (writei_entry (inodefile s) src off n s) as [r |].
  { eapply post_weaken; [exact Hent |]. intros ? s' ->. apply quiet_refl. }
  destruct Hent as (_ & _ & Hsum).
  eapply post_bind.
  { rewrite Hl.
    apply (writei_loop_post (fun _ => quiet)
             (fun s => loglock s = true /\ i_valid (inodefile s) <> 0)
             writeback_inodefile Inodefile src n off true).
    - intros s0 _. apply quiet_refl.
    - intros _ _ s1 s2 s3. apply quiet_trans.
    - intros _ s0 s1 [Hl0 Hv0] (Hl1 & Hv1 & _). split; congruence.
    - intros ip extno extoff off1 tot s0 [Hl0 Hv0] Hip.
      apply writei_step_started; try assumption.
      + intros dip s1 _ _. apply writeback_inodefile_quiet.
      + intros _. cbn in Hip. now injection Hip as <-.
    - lia.
    - lia.
    - auto.
    - lia.
    - lia.
    - lia.
    - intros _. apply Z.div_pos; unfold BSIZE; lia.
    - assert (0 <= off / BSIZE) by (apply Z.div_pos; unfold BSIZE; lia). lia. }
  intros ? s1 Hq. exact Hq.
Qed.

Lemma writeback_other_ok inum : writeback_ok (writeback_other inum).
Proof.
  intros dip s Hl Hv. unfold writeback_other.
  change (locki Inodefile s) with (locki_inodefile s).
  eapply post_bind; [now apply locki_inodefile_quiet |].
  intros ? s1 Hq1.
  eapply post_bind.
  { apply writei_inodefile_quiet.
    - destruct Hq1 as (Hl1 & _). congruence.
    - destruct Hq1 as (_ & Hv1 & _). congruence.
    - apply uint32_range.
    - unfold sizeof_dinode. lia. }
  intros ? s2 Hq2.
  eapply post_weaken; [apply unlocki_quiet |].
  intros ? s3 Hq3.
  eapply quiet_trans; [exact Hq1 |].
  eapply quiet_trans; [exact Hq2 | exact Hq3].
Qed.

Lemma steps_left_start off n :
  steps_left off n off 0 = Z.to_nat (blocks_touched off n).
Proof.
  unfold steps_left, blocks_touched.
  destruct (Z.ltb_spec 0 n), (Z.leb_spec n 0); try lia; reflexivity.
Qed.

(** Whatever the layout of the disk: a call of [writei] on a cached inode
    that is not a device, made while the caller does not hold the log
    lock, with the inode locked and the range valid, ends, and when it
    returns it returns [n] and has run one transaction per file block it
    touched: the trace it adds is that many sequences of [begin_tx], block
    writes, [commit_tx], with no write outside of them, and the log lock
    is free again. *)
Lemma writei_one_txn_per_block (i : nat) (ip : inode) (src : list Z)
    (off n : Z) (s : fs) :
  inodes s !! i = Some ip ->
  i_type ip <> T_DEV -> i_lock ip = true ->
  loglock s = false ->
  i_valid (inodefile s) <> 0 ->
  0 <= off <= i_size ip -> 0 <= n -> off + n < 2 ^ 32 ->
  writei (Icache i) src off n s <> OutOfFuel /\
  forall r s', writei (Icache i) src off n s = Done r s' ->
    r = int32 n /\ ran_txns (Z.to_nat (blocks_touched off n)) s s'.
Proof.
  intros Hip Hty Hlock Hl Hv Hoff Hn Hsum.
  assert (Hpost : post (fun r s' => r = int32 n /\
                          ran_txns (Z.to_nat (blocks_touched off n)) s s')
                       (writei (Icache i) src off n s)).
  { unfold writei. cbn [iget_at]. rewrite Hip.
    assert (Hent : writei_entry ip src off n s = None).
    { unfold writei_entry. rewrite Hlock. cbn [negb].
      destruct (Z.eqb_spec (i_type ip) T_DEV); [contradiction |].
      destruct (Z.ltb_spec (i_size ip) off); [lia |].
      rewrite uint32_id by lia.
      destruct (Z.ltb_spec (off + n) off); [lia | reflexivity]. }
    rewrite Hent.
    eapply post_bind.
    { rewrite Hl.
      apply (writei_loop_post ran_txns
               (fun s => loglock s = false /\ i_valid (inodefile s) <> 0)
               (writeback_other (i_inum ip)) (Icache i) src n off false).
      - intros s0 [Hl0 _]. now apply ran_txns_0.
      - apply ran_txns_trans.
      - intros c s0 s1 [Hl0 Hv0] (Hl1 & Hv1 & _). split; congruence.
      - intros ip0 extno extoff off1 tot s0 [Hl0 Hv0] Hip0.
        apply writei_step_txn; try assumption.
        + apply writeback_other_ok.
        + discriminate.
      - lia.
      - lia.
      - auto.
      - lia.
      - lia.
      - lia.
      - intros _. apply Z.div_pos; unfold BSIZE; lia.
      - assert (0 <= off / BSIZE) by (apply Z.div_pos; unfold BSIZE; lia). lia. }
    intros ? s1 Hr. cbn. split; [reflexivity |].
    rewrite <- steps_left_start. exact Hr. }
  split.
  - intros Hf. rewrite Hf in Hpost. exact Hpost.
  - intros r s' Hrun. rewrite Hrun in Hpost. exact Hpost.
Qed.
End writei_call.


(** ** [wait] *)

Lemma is_child_spec (t : ptable) (pid0 : Z) (p : proc) :
  is_child t pid0 p = true <-> child_of t pid0 p.
Proof.
  unfold is_child, child_of. destruct (parent_pid t p) as [v |].
  - destruct (Z.eqb_spec v pid0); split; congruence.
  - split; discriminate.
Qed.

(** Without a zombie child among the slots, the scan ends with the flag:
    the value [haschild] started with, or true once a child was seen. *)
Lemma findzombiechild_no_zombie (t : ptable) (pid0 : Z) :
  forall ps idx hc,
    Forall (fun p => parent_pid t p <> None) ps ->
    Forall (fun p => child_of t pid0 p -> is_zombie p = false) ps ->
    findzombiechild_from t ps idx pid0 hc
    = Some (if negb (hc || existsb (is_child t pid0) ps) then -1 else 0, None).
Proof.
  induction ps as [| p r IH]; intros idx hc Hrd Hnz.
  - cbn. now rewrite orb_false_r.
  - inversion Hrd as [| ? ? Hp Hr]; subst.
    inversion Hnz as [| ? ? Hz Hn]; subst.
    cbn [findzombiechild_from existsb]. unfold is_child at 1.
    destruct (parent_pid t p) as [v |] eqn:E; [| contradiction].
    destruct (Z.eqb_spec v pid0) as [-> | Hne].
    + rewrite (Hz E). rewrite IH by assumption.
      cbn. now rewrite orb_true_r.
    + rewrite IH by assumption. reflexivity.
Qed.

Lemma findzombiechild_no_child (t : ptable) (pid0 : Z) (hc : bool) :
  forall ps idx,
    Forall (fun p => parent_pid t p <> None) ps ->
    Forall (fun p => ~ child_of t pid0 p) ps ->
    findzombiechild_from t ps idx pid0 hc
    = Some (if negb hc then -1 else 0, None).
Proof.
  intros ps idx Hrd Hno.
  rewrite findzombiechild_no_zombie; try assumption.
  - replace (existsb (is_child t pid0) ps) with false;
      [now rewrite orb_false_r |].
    symmetry. apply not_true_is_false. intros Hex.
    apply existsb_exists in Hex. destruct Hex as (p & Hin & Hc).
    rewrite Forall_forall in Hno. apply (Hno p).
    + now apply list_elem_of_In.
    + now apply is_child_spec.
  - eapply Forall_impl; [exact Hno |]. intros p Hp Hc. contradiction.
Qed.

(** With a child but no zombie child among the slots the scan returns 0,
    whatever [haschild] started as. *)
Lemma findzombiechild_live_child (t : ptable) (pid0 : Z) :
  forall ps idx hc,
    Forall (fun p => parent_pid t p <> None) ps ->
    Forall (fun p => child_of t pid0 p -> is_zombie p = false) ps ->
    Exists (child_of t pid0) ps ->
    findzombiechild_from t ps idx pid0 hc = Some (0, None).
Proof.
  intros ps idx hc Hrd Hnz Hex.
  rewrite findzombiechild_no_zombie by assumption.
  replace (existsb (is_child t pid0) ps) with true;
    [now rewrite orb_true_r |].
  symmetry. apply existsb_exists.
  apply Exists_exists in Hex. destruct Hex as (p & Hin & Hc).
  exists p. split; [now apply list_elem_of_In | now apply is_child_spec].
Qed.

(** The first zombie child in table order is the one reported. *)
Lemma findzombiechild_zombie (t : ptable) (pid0 : Z) (z : proc) :
  forall pre post idx hc,
    Forall (fun p => parent_pid t p <> None) (pre ++ z :: post) ->
    Forall (fun p => child_of t pid0 p -> is_zombie p = false) pre ->
    child_of t pid0 z -> is_zombie z = true ->
    findzombiechild_from t (pre ++ z :: post) idx pid0 hc
    = Some (pid z, Some (idx + length pre)%nat).
Proof.
  induction pre as [| p r IH]; intros post idx hc Hrd Hnz Hc Hz.
  - cbn. unfold child_of in Hc. rewrite Hc, Z.eqb_refl, Hz.
    do 3 f_equal. lia.
  - inversion Hrd as [| ? ? Hp Hr]; subst.
    inversion Hnz as [| ? ? Hzp Hn]; subst.
    cbn [app findzombiechild_from].
    destruct (parent_pid t p) as [v |] eqn:E; [| contradiction].
    replace (idx + length (p :: r))%nat with (S idx + length r)%nat
      by (cbn; lia).
    destruct (Z.eqb_spec v pid0) as [-> | Hne].
    + rewrite (Hzp E). now apply IH.
    + now apply IH.
Qed.

(** [wait] with a zombie child: the first one in table order is freed (its
    slot becomes [UNUSED], kernel stack and address space released) and
    its pid is returned. *)
Lemma wait_reaps_zombie (hc : bool) (me : nat) (t : ptable) (cur z : proc)
    (pre post : list proc) :
  procs t !! me = Some cur ->
  procs t = pre ++ z :: post ->
  parents_readable t ->
  Forall (fun p => child_of t (pid cur) p -> is_zombie p = false) pre ->
  child_of t (pid cur) z -> is_zombie z = true -> 0 < pid z ->
  wait hc me t = WaitReturns (pid z) (freeproc (length pre) t)
  /\ procs (freeproc (length pre) t) !! length pre
     = Some {| pid := pid z; state := UNUSED; parent := None; chan := chan z;
               killed := killed z; kstack := false; vspace := false |}.
Proof.
  intros Hme Hps Hrd Hnz Hc Hz Hpid.
  assert (Hlk : procs t !! length pre = Some z).
  { rewrite Hps. now rewrite list_lookup_middle. }
  split.
  - unfold wait, findzombiechild. rewrite Hme, Hps.
    rewrite (findzombiechild_zombie t (pid cur) z pre post 0 hc);
      try assumption.
    + destruct (Z.leb_spec (pid z) 0); [lia |]. cbn [Nat.add]. reflexivity.
    + unfold parents_readable in Hrd. now rewrite Hps in Hrd.
  - unfold freeproc. rewrite Hlk. cbn.
    apply list_lookup_insert_eq. apply lookup_lt_is_Some. eauto.
Qed.

(** [wait] with children none of which is a zombie: the caller goes to
    sleep on its own pid. *)
Lemma wait_sleeps_on_live_children (hc : bool) (me : nat) (t : ptable)
    (cur : proc) :
  procs t !! me = Some cur ->
  parents_readable t ->
  Forall (fun p => child_of t (pid cur) p -> is_zombie p = false) (procs t) ->
  Exists (child_of t (pid cur)) (procs t) ->
  wait hc me t = WaitSleeps (pid cur) (sleep me (pid cur) t).
Proof.
  intros Hme Hrd Hnz Hex. unfold wait, findzombiechild. rewrite Hme.
  rewrite findzombiechild_live_child by assumption. reflexivity.
Qed.

(** [wait] without children returns -1 if the uninitialised [haschild]
    happened to start as false. *)
Lemma wait_no_children_flag_clear (me : nat) (t : ptable) (cur : proc) :
  procs t !! me = Some cur ->
  parents_readable t ->
  Forall (fun p => ~ child_of t (pid cur) p) (procs t) ->
  wait false me t = WaitReturns (-1) t.
Proof.
  intros Hme Hrd Hno. unfold wait, findzombiechild. rewrite Hme.
  rewrite findzombiechild_no_child by assumption. reflexivity.
Qed.

(** C8.  [findzombiechild] reads [haschild] without ever having set it
    when the caller has no child.  For a caller without children [wait]
    returns -1 only if that indeterminate value is false; if it is true,
    [findzombiechild] returns 0 and [wait] goes to sleep on the caller's
    pid, with no child left to wake it. *)
Theorem wait_without_children_reads_garbage :
  procs ptable_c8 !! 0%nat = Some caller_c8 /\
  Forall (fun p => ~ child_of ptable_c8 (pid caller_c8) p) (procs ptable_c8) /\
  findzombiechild true (pid caller_c8) ptable_c8 = Some (0, None) /\
  wait true 0 ptable_c8 = WaitSleeps 1 (sleep 0 1 ptable_c8) /\
  wait false 0 ptable_c8 = WaitReturns (-1) ptable_c8.
Proof.
  split; [reflexivity |]. split.
  - repeat constructor; unfold child_of; cbn; discriminate.
  - repeat split; reflexivity.
Qed.

Example wait_zombie_run :
  wait true 0 ptable_c8_zombie
    = WaitReturns 2 (freeproc 1 ptable_c8_zombie)
  /\ wait false 0 ptable_c8_zombie
    = WaitReturns 2 (freeproc 1 ptable_c8_zombie)
  /\ map state (procs (freeproc 1 ptable_c8_zombie)) = [RUNNING; UNUSED].
Proof. repeat split; reflexivity. Qed.

(** ** Page faults *)

Lemma uint64_small (z : Z) : 0 <= z < 2 ^ 64 -> uint64 z = z.
Proof. apply uint64_id. Qed.

(** C9 (amended).  For a fault that is not taken by the swap-in test, on
    a page at or below the bottom of the stack, with the mapping call
    succeeding: the handler grows the stack down to the faulting page,
    and resumes, exactly when the fault is a not-present fault (bit 0 of
    the error code clear) at an address strictly between
    [va_base - 10 * PGSIZE] and [va_base].  The write bit of the error
    code plays no part. *)
Theorem page_fault_grows_stack (e : pf_env) (err addr cs : Z) :
  10 * PGSIZE <= stack_base e < 2 ^ 64 -> 0 <= stack_size e -> 0 <= addr ->
  swapped_user_fault e err addr = None ->
  PGROUNDDOWN addr <= stack_base e - stack_size e ->
  addmap e (PGROUNDDOWN addr) (stack_base e - stack_size e - PGROUNDDOWN addr)
    = stack_base e - stack_size e - PGROUNDDOWN addr ->
  (Z.land err 1 = 0 /\ stack_base e - 10 * PGSIZE < addr < stack_base e)
  <->
  page_fault e err addr cs
    = PfGrowStack (PGROUNDDOWN addr)
                  (stack_base e - stack_size e - PGROUNDDOWN addr)
                  (stack_base e - PGROUNDDOWN addr).
Proof.
  intros Hbase Hsize Haddr Hsw Hbelow Hmap.
  assert (Hrd : 0 <= PGROUNDDOWN addr <= addr).
  { unfold PGROUNDDOWN, PGSIZE. Z.div_mod_to_equations. lia. }
  unfold page_fault. rewrite Hsw.
  rewrite (uint64_id (stack_base e - 10 * PGSIZE)) by (unfold PGSIZE in *; lia).
  rewrite (uint64_id (stack_base e - stack_size e - PGROUNDDOWN addr)) by lia.
  rewrite Hmap, Z.eqb_refl. cbn [negb].
  rewrite uint64_id by lia.
  replace (stack_size e + (stack_base e - stack_size e - PGROUNDDOWN addr))
    with (stack_base e - PGROUNDDOWN addr) by lia.
  destruct (Z.eqb_spec (Z.land err 1) 0) as [Hnp | Hp]; cbn [andb].
  - destruct (Z.ltb_spec addr (stack_base e)) as [Hlt | Hge]; cbn [andb].
    + destruct (Z.ltb_spec (stack_base e - 10 * PGSIZE) addr) as [Hin | Hout].
      * split; [reflexivity | intros _; lia].
      * split; [intros; lia |].
        destruct (Z.land err 3 =? 3);
          [destruct (vpi_at e addr) as [[vpi |] |];
             [destruct (is_cow vpi); [destruct (ppage_ok e) |] | |] |];
          repeat destruct (_ || _); discriminate.
    + split; [intros; lia |].
      destruct (Z.land err 3 =? 3);
        [destruct (vpi_at e addr) as [[vpi |] |];
           [destruct (is_cow vpi); [destruct (ppage_ok e) |] | |] |];
        repeat destruct (_ || _); discriminate.
  - split; [intros [? _]; contradiction |].
    destruct (Z.land err 3 =? 3);
      [destruct (vpi_at e addr) as [[vpi |] |];
         [destruct (is_cow vpi); [destruct (ppage_ok e) |] | |] |];
      repeat destruct (_ || _); discriminate.
Qed.

Lemma page_fault_grows_stack_witness :
  let e := pf_env_c9 in
  let addr := 2 ^ 31 - 3 * PGSIZE + 8 in
  10 * PGSIZE <= stack_base e < 2 ^ 64 /\ 0 <= stack_size e /\ 0 <= addr /\
  swapped_user_fault e 6 addr = None /\
  PGROUNDDOWN addr <= stack_base e - stack_size e /\
  addmap e (PGROUNDDOWN addr) (stack_base e - stack_size e - PGROUNDDOWN addr)
    = stack_base e - stack_size e - PGROUNDDOWN addr /\
  ((Z.land 6 1 = 0 /\ stack_base e - 10 * PGSIZE < addr < stack_base e)
   <->
   page_fault e 6 addr 3
     = PfGrowStack (PGROUNDDOWN addr)
                   (stack_base e - stack_size e - PGROUNDDOWN addr)
                   (stack_base e - PGROUNDDOWN addr)).
Proof.
  intros e addr.
  assert (H1 : 10 * PGSIZE <= stack_base e < 2 ^ 64)
    by (subst e; unfold pf_env_c9, PGSIZE; cbn; lia).
  assert (H2 : 0 <= stack_size e)
    by (subst e; unfold pf_env_c9, PGSIZE; cbn; lia).
  assert (H3 : 0 <= addr) by (subst addr; unfold PGSIZE; lia).
  assert (H4 : swapped_user_fault e 6 addr = None) by reflexivity.
  assert (H5 : PGROUNDDOWN addr <= stack_base e - stack_size e)
    by (vm_compute; discriminate).
  assert (H6 : addmap e (PGROUNDDOWN addr)
                 (stack_base e - stack_size e - PGROUNDDOWN addr)
               = stack_base e - stack_size e - PGROUNDDOWN addr)
    by reflexivity.
  repeat (split; [assumption |]).
  exact (page_fault_grows_stack e 6 addr 3 H1 H2 H3 H4 H5 H6).
Defined.

(** C9, the claim as stated fails: a user-mode read of a page that is not
    present (error code 4: user bit set, write bit and present bit clear)
    two pages below the stack grows the stack as well. *)
Lemma page_fault_read_grows_stack :
  let addr := 2 ^ 31 - 3 * PGSIZE + 8 in
  Z.land 4 2 = 0 /\ Z.land 4 1 = 0 /\ Z.land 4 4 = 4 /\
  swapped_user_fault pf_env_c9 4 addr = None /\
  page_fault pf_env_c9 4 addr 3
    = PfGrowStack (2 ^ 31 - 3 * PGSIZE) (2 * PGSIZE) (3 * PGSIZE).
Proof. repeat split; vm_compute; reflexivity. Qed.

(** ** The read and write system calls *)

(** C10.  [sys_read] and [sys_write] reject a length of zero like any
    length that is not positive: they return -1, leave the whole state
    (file offsets included) as it was, and store no byte. *)
Theorem sys_read_write_reject_zero_length `{Config} (k : kernel)
    (fd : option Z) (ok : Z -> bool) (b : list Z) (n : Z) :
  n <= 0 ->
  sys_read (mkargs fd (Some n) ok b) k = SysRet (-1) k [] /\
  sys_write (mkargs fd (Some n) ok b) k = SysRet (-1) k [].
Proof.
  intros Hn. unfold sys_read, sys_write. cbn [arg_fd arg_n].
  destruct (Z.leb_spec n 0); [| lia].
  destruct fd; split; reflexivity.
Qed.

Lemma sys_read_write_reject_zero_length_witness :
  0 <= 0 /\
  @sys_read xk_config (mkargs (Some 0) (Some 0) (fun _ => true) (repeat 65 16))
            kernel_c10 = SysRet (-1) kernel_c10 [] /\
  @sys_write xk_config (mkargs (Some 0) (Some 0) (fun _ => true) (repeat 65 16))
             kernel_c10 = SysRet (-1) kernel_c10 [].
Proof.
  assert (H0 : 0 <= 0) by lia.
  split; [exact H0 |].
  exact (@sys_read_write_reject_zero_length xk_config kernel_c10 (Some 0)
           (fun _ => true) (repeat 65 16) 0 H0).
Defined.

(** The same descriptor with a positive length does transfer bytes and
    moves the offset. *)
Example sys_read_c10_run :
  exists k' out,
    @sys_read xk_config (args_c10 4) kernel_c10 = SysRet 4 k' out /\
    out = [10; 11; 12; 13] /\ offsets k' = [14] /\
    offsets kernel_c10 = [10].
Proof. eexists _, _. repeat split; vm_compute; reflexivity. Qed.

(* ===================================================================== *)
(** ** [wakeup1], [kill], [findproc], [exit] *)
(* ===================================================================== *)

Lemma wake_not_sleeping c p : ~ sleeps_on c (wake c p).
Proof.
  unfold wake, sleeps_on, is_sleeping.
  destruct (state p) eqn:E; cbn; try (rewrite E; intros [? ?]; discriminate).
  destruct (Z.eqb_spec (chan p) c); cbn.
  - intros [? ?]; discriminate.
  - rewrite E. intros [_ ?]. contradiction.
Qed.

Lemma wake_other c p : ~ sleeps_on c p -> wake c p = p.
Proof.
  unfold wake, sleeps_on, is_sleeping. intros H.
  destruct (state p) eqn:E; cbn; try reflexivity.
  destruct (Z.eqb_spec (chan p) c); cbn; [| reflexivity].
  exfalso. apply H. split; [reflexivity | assumption].
Qed.

Lemma wake_sleeper c p : sleeps_on c p -> wake c p = set_state p RUNNABLE.
Proof.
  unfold wake, sleeps_on, is_sleeping. intros [Hs Hc].
  rewrite Hs, Hc, Z.eqb_refl. reflexivity.
Qed.

(** X1.  [wakeup1(chan)] wakes exactly the sleepers on [chan]: afterwards
    no slot is [SLEEPING] on [chan]; a slot that was is the same slot with
    state [RUNNABLE] (its [chan] stays); every other slot is untouched; and
    a second call changes nothing. *)
Theorem wakeup1_leaves_no_sleeper (c : Z) (t : ptable) :
  Forall (fun p => ~ sleeps_on c p) (procs (wakeup1 c t)) /\
  (forall i p, procs t !! i = Some p ->
     procs (wakeup1 c t) !! i = Some (wake c p) /\
     (sleeps_on c p -> wake c p = set_state p RUNNABLE) /\
     (~ sleeps_on c p -> wake c p = p)) /\
  wakeup1 c (wakeup1 c t) = wakeup1 c t.
Proof.
  split; [| split].
  - cbn. apply Forall_fmap. apply Forall_forall. intros p _. apply wake_not_sleeping.
  - intros i p Hp. split; [| split].
    + cbn. rewrite list_lookup_fmap, Hp. reflexivity.
    + apply wake_sleeper.
    + apply wake_other.
  - unfold wakeup1, set_procs. cbn. f_equal.
    rewrite <- list_fmap_compose. apply list_fmap_ext. intros i p _. cbn.
    apply wake_other. apply wake_not_sleeping.
Qed.

(** X2.  A process put to sleep on channel [c] by [sleep] is made
    [RUNNABLE] by [wakeup1] on the same channel and stays [SLEEPING] under
    [wakeup1] on any other channel; its other fields are as [sleep] left
    them. *)
Theorem sleep_then_wakeup1 (me : nat) (c c' : Z) (t : ptable) (p : proc) :
  procs t !! me = Some p ->
  procs (wakeup1 c' (sleep me c t)) !! me
  = Some {| pid := pid p; state := if c =? c' then RUNNABLE else SLEEPING;
            parent := parent p; chan := c; killed := killed p;
            kstack := kstack p; vspace := vspace p |}.
Proof.
  intros Hp. unfold sleep. rewrite Hp. cbn.
  rewrite list_lookup_fmap, list_lookup_insert_eq
    by (apply lookup_lt_is_Some; eauto).
  cbn. unfold wake, is_sleeping. cbn.
  destruct (c =? c'); reflexivity.
Qed.

Lemma findproc_from_spec (pid0 : Z) :
  forall ps idx,
    match findproc_from ps idx pid0 with
    | Some i =>
        exists p, (idx <= i)%nat /\ ps !! (i - idx)%nat = Some p /\ pid p = pid0 /\
          forall j q, (j < i - idx)%nat -> ps !! j = Some q -> pid q <> pid0
    | None => forall j q, ps !! j = Some q -> pid q <> pid0
    end.
Proof.
  induction ps as [| p r IH]; intros idx; cbn.
  - intros j q Hj. rewrite lookup_nil in Hj. discriminate.
  - destruct (Z.eqb_spec (pid p) pid0) as [E | E].
    + exists p. rewrite Nat.sub_diag. cbn. repeat split; auto. intros; lia.
    + specialize (IH (S idx)). destruct (findproc_from r (S idx) pid0) as [i |].
      * destruct IH as (q & Hle & Hq & Hpid & Hfirst).
        exists q. replace (i - idx)%nat with (S (i - S idx)) by lia.
        cbn. repeat split; auto; try lia.
        intros [| j] q' Hj Hq'; cbn in Hq'.
        -- congruence.
        -- apply (Hfirst j q'); [lia | assumption].
      * intros [| j] q Hq; cbn in Hq; [congruence | eauto].
Qed.

(** X3.  [findproc(pid)] returns the first slot of the table whose
    [pid] field is [pid], whatever the state of that slot, and the null
    pointer exactly when no slot carries that pid. *)
Theorem findproc_first (pid0 : Z) (t : ptable) :
  match findproc pid0 t with
  | Some i =>
      exists p, procs t !! i = Some p /\ pid p = pid0 /\
        forall j q, (j < i)%nat -> procs t !! j = Some q -> pid q <> pid0
  | None => forall j q, procs t !! j = Some q -> pid q <> pid0
  end.
Proof.
  unfold findproc. pose proof (findproc_from_spec pid0 (procs t) 0) as H.
  destruct (findproc_from (procs t) 0 pid0) as [i |]; [| exact H].
  destruct H as (p & _ & Hp & Hpid & Hfirst). rewrite Nat.sub_0_r in *.
  exists p. auto.
Qed.

Lemma kill_from_findproc (pid0 : Z) :
  forall ps idx,
    kill_from ps pid0
    = match findproc_from ps idx pid0 with
      | Some i => Some (alter mark_killed (i - idx)%nat ps)
      | None => None
      end.
Proof.
  induction ps as [| p r IH]; intros idx; cbn; [reflexivity |].
  destruct (Z.eqb_spec (pid p) pid0) as [E | E].
  - rewrite Nat.sub_diag. reflexivity.
  - rewrite (IH (S idx)).
    pose proof (findproc_from_spec pid0 r (S idx)) as H.
    destruct (findproc_from r (S idx) pid0) as [i |]; [| reflexivity].
    destruct H as (_ & Hle & _). cbn.
    replace (i - idx)%nat with (S (i - S idx)) by lia. reflexivity.
Qed.

(** X4.  [kill(pid)] acts on exactly the slot that [findproc(pid)]
    returns: it sets [killed], turns [SLEEPING] into [RUNNABLE], leaves all
    other slots alone and returns 0; when no slot carries the pid it
    returns -1 and leaves the table as it was.  The state of the slot is
    not looked at. *)
Theorem kill_marks_first_match (pid0 : Z) (t : ptable) :
  kill pid0 t = match findproc pid0 t with
                | Some i => (0, set_procs t (alter mark_killed i (procs t)))
                | None => (-1, t)
                end.
Proof.
  unfold kill, findproc. rewrite (kill_from_findproc pid0 (procs t) 0).
  destruct (findproc_from (procs t) 0 pid0) as [i |]; [| reflexivity].
  now rewrite Nat.sub_0_r.
Qed.

Lemma parent_pid_ext (t1 t2 : ptable) (p : proc) :
  map pid (procs t1) = map pid (procs t2) -> at_null t1 = at_null t2 ->
  parent_pid t1 p = parent_pid t2 p.
Proof.
  intros Hm Ha. unfold parent_pid. destruct (parent p) as [q |]; [| exact Ha].
  rewrite <- !list_lookup_fmap.
  change (fmap pid (procs t1)) with (map pid (procs t1)).
  change (fmap pid (procs t2)) with (map pid (procs t2)).
  now rewrite Hm.
Qed.

Lemma map_pid_insert (ps : list proc) (i : nat) (p p' : proc) :
  ps !! i = Some p -> pid p' = pid p -> map pid (<[i := p']> ps) = map pid ps.
Proof.
  intros Hp Hpid. change (map pid) with (fmap (M := list) pid).
  rewrite list_fmap_insert. rewrite Hpid.
  apply list_insert_id. now rewrite list_lookup_fmap, Hp.
Qed.

Lemma exit_reparent_spec (t0 : ptable) (mypid : Z) (initproc : option nat) :
  forall idxs t,
    NoDup idxs ->
    map pid (procs t) = map pid (procs t0) -> at_null t = at_null t0 ->
    (forall i, i ∈ idxs ->
       procs t !! i = procs t0 !! i /\
       exists p, procs t0 !! i = Some p /\ parent_pid t0 p <> None) ->
    exists t',
      exit_reparent idxs mypid initproc t = Some t' /\
      map pid (procs t') = map pid (procs t0) /\ at_null t' = at_null t0 /\
      forall i, procs t' !! i
                = if decide (i ∈ idxs)
                  then reparented t0 mypid initproc <$> procs t0 !! i
                  else procs t !! i.
Proof.
  induction idxs as [| k r IH]; intros t Hnd Hpid Hnull Hin.
  - exists t. cbn. repeat split; auto.
  - inversion Hnd as [| ? ? Hk Hr]; subst.
    destruct (Hin k) as (Hk0 & p & Hp & Hrd); [left |].
    cbn [exit_reparent]. rewrite Hk0, Hp.
    rewrite (parent_pid_ext t t0 p Hpid Hnull).
    destruct (parent_pid t0 p) as [v |] eqn:Ev; [| contradiction].
    set (t1 := if v =? mypid
               then set_procs t (<[k := set_parent p initproc]> (procs t))
               else t).
    assert (Hpid1 : map pid (procs t1) = map pid (procs t0)).
    { subst t1. destruct (v =? mypid); [| exact Hpid]. cbn.
      rewrite (map_pid_insert (procs t) k p); auto. now rewrite Hk0. }
    assert (Hnull1 : at_null t1 = at_null t0).
    { subst t1. destruct (v =? mypid); auto. }
    assert (Hother : forall i, i <> k -> procs t1 !! i = procs t !! i).
    { intros i Hne. subst t1. destruct (v =? mypid); [| reflexivity]. cbn.
      now rewrite list_lookup_insert_ne by congruence. }
    assert (Hat : procs t1 !! k = Some (reparented t0 mypid initproc p)).
    { subst t1. unfold reparented, is_child. rewrite Ev.
      destruct (v =? mypid); cbn.
      - apply list_lookup_insert_eq. apply lookup_lt_is_Some.
        rewrite Hk0, Hp. eauto.
      - now rewrite Hk0. }
    destruct (IH t1 Hr Hpid1 Hnull1) as (t' & Hex & Hpid' & Hnull' & Hlk).
    { intros i Hi. destruct (Hin i) as (Hi0 & Hi1); [now right |].
      split; [| exact Hi1]. rewrite Hother; [exact Hi0 |].
      intros ->. contradiction. }
    exists t'. repeat split; auto.
    intros i. rewrite Hlk. destruct (decide (i = k)) as [-> | Hne].
    + rewrite decide_False by assumption. rewrite decide_True by left.
      now rewrite Hat, Hp.
    + destruct (decide (i ∈ r)) as [Hir | Hir].
      * rewrite decide_True by now right. reflexivity.
      * rewrite decide_False; [now apply Hother |].
        intros Hc. apply elem_of_cons in Hc. destruct Hc; contradiction.
Qed.

Lemma first_such {A : Type} (P : A -> bool) (l : list A) :
  Exists (fun x => P x = true) l ->
  exists pre z post, l = pre ++ z :: post /\ P z = true /\
                     Forall (fun x => P x = false) pre.
Proof.
  induction l as [| a l IH]; intros Hex; [inversion Hex |].
  destruct (P a) eqn:Ea.
  - exists [], a, l. repeat split; auto.
  - inversion Hex as [? ? Ha | ? ? Hl]; subst; [congruence |].
    destruct (IH Hl) as (pre & z & post & -> & Hz & Hpre).
    exists (a :: pre), z, post. repeat split; auto.
Qed.

Lemma wake_pid c p : pid (wake c p) = pid p.
Proof. unfold wake. now destruct (_ && _). Qed.

Lemma wake_parent c p : parent (wake c p) = parent p.
Proof. unfold wake. now destruct (_ && _). Qed.

Lemma wake_zombie c p : is_zombie (wake c p) = is_zombie p.
Proof.
  unfold wake, is_sleeping, is_zombie. destruct (state p) eqn:E; cbn; rewrite ?E; auto.
  destruct (chan p =? c); cbn; now rewrite ?E.
Qed.

Lemma reparented_pid t m ip p : pid (reparented t m ip p) = pid p.
Proof. unfold reparented. now destruct (is_child _ _ _). Qed.

Lemma reparented_state t m ip p : state (reparented t m ip p) = state p.
Proof. unfold reparented. now destruct (is_child _ _ _). Qed.

Lemma reparented_parent t m ip p :
  parent (reparented t m ip p) = if is_child t m p then ip else parent p.
Proof. unfold reparented. now destruct (is_child _ _ _). Qed.

(** The table [exit] leaves, slot by slot. *)
Lemma exit_table_slots (me i0 : nat) (t : ptable) (cur par : proc) (pa : nat) :
  procs t !! me = Some cur -> procs t !! pa = Some par ->
  parent cur = Some pa -> pid par <> pid cur ->
  (i0 < length (procs t))%nat ->
  parents_readable t ->
  exists t1,
    exit_table me (Some i0) t = Some t1 /\
    at_null t1 = at_null t /\
    map pid (procs t1) = map pid (procs t) /\
    forall i, procs t1 !! i
              = after_exit t me (pid cur) (Some i0) (uint64 (pid par)) i
                <$> procs t !! i.
Proof.
  intros Hme Hpa Hpar Hne Hi0 Hrd.
  set (tz := set_procs t (<[me := set_state cur ZOMBIE]> (procs t))).
  assert (Hlen : length (procs tz) = length (procs t))
    by (cbn; apply length_insert).
  assert (Hpidz : map pid (procs tz) = map pid (procs t)).
  { cbn. now apply (map_pid_insert (procs t) me cur). }
  assert (Hslot : forall i, procs tz !! i
            = (fun p => if decide (i = me) then set_state p ZOMBIE else p)
              <$> procs t !! i).
  { intros i. cbn. destruct (decide (i = me)) as [-> | Hd].
    - rewrite list_lookup_insert_eq by (apply lookup_lt_is_Some; eauto).
      now rewrite Hme.
    - rewrite list_lookup_insert_ne by congruence.
      destruct (procs t !! i); reflexivity. }
  assert (Hpp : forall p, parent_pid tz p = parent_pid t p).
  { intros p. now apply parent_pid_ext. }
  destruct (exit_reparent_spec tz (pid cur) (Some i0)
              (seq 0 (length (procs tz))) tz) as (tr & Hex & Hpidr & Hnullr & Hlk);
    try reflexivity.
  { apply NoDup_seq. }
  { intros i Hi. split; [reflexivity |].
    apply elem_of_seq in Hi. rewrite Hlen in Hi.
    destruct (lookup_lt_is_Some_2 (procs t) i) as [p Hp]; [lia |].
    rewrite Hslot, Hp. cbn. eexists. split; [reflexivity |].
    rewrite Hpp. unfold parents_readable in Hrd.
    rewrite Forall_forall in Hrd.
    assert (Hin : p ∈ procs t) by (eapply list_elem_of_lookup_2; eauto).
    specialize (Hrd p Hin).
    destruct (decide (i = me)); [| exact Hrd].
    unfold parent_pid in *. exact Hrd. }
  assert (Hlk' : forall i, procs tr !! i
            = reparented tz (pid cur) (Some i0) <$> procs tz !! i).
  { intros i. rewrite Hlk. destruct (decide (i ∈ seq 0 (length (procs tz)))) as [| Hn];
      [reflexivity |].
    rewrite elem_of_seq in Hn.
    rewrite (lookup_ge_None_2 (procs tz) i) by lia. reflexivity. }
  assert (Hchild : forall p, is_child tz (pid cur) p = is_child t (pid cur) p).
  { intros p. unfold is_child. now rewrite Hpp. }
  assert (Hmer : procs tr !! me = Some (set_state cur ZOMBIE)).
  { rewrite Hlk', Hslot, Hme. cbn. rewrite decide_True by reflexivity.
    unfold reparented. rewrite Hchild. unfold is_child, parent_pid. cbn.
    rewrite Hpar, Hpa. cbn.
    destruct (Z.eqb_spec (pid par) (pid cur)); [contradiction | reflexivity]. }
  assert (Hppr : parent_pid tr (set_state cur ZOMBIE) = Some (pid par)).
  { rewrite (parent_pid_ext tr t); [| now rewrite Hpidr | now rewrite Hnullr].
    unfold parent_pid. cbn. now rewrite Hpar, Hpa. }
  exists (wakeup1 (uint64 (pid par)) tr).
  split; [| split; [| split]].
  - unfold exit_table. rewrite Hme. fold tz. rewrite Hex, Hmer, Hppr. reflexivity.
  - cbn. now rewrite Hnullr.
  - cbn. rewrite <- Hpidz, <- Hpidr.
    rewrite map_map. apply map_ext. intros p. apply wake_pid.
  - intros i. cbn. rewrite list_lookup_fmap, Hlk', Hslot.
    unfold after_exit. destruct (procs t !! i) as [p |]; cbn; [| reflexivity].
    unfold reparented. now rewrite Hchild.
Qed.

Lemma reparented_chan t m ip p : chan (reparented t m ip p) = chan p.
Proof. unfold reparented. now destruct (is_child _ _ _). Qed.

Lemma after_exit_pid t me m ip c i p : pid (after_exit t me m ip c i p) = pid p.
Proof.
  unfold after_exit. rewrite wake_pid, reparented_pid. now destruct (decide _).
Qed.

Lemma after_exit_zombie t me m ip c i p :
  is_zombie (after_exit t me m ip c i p)
  = if decide (i = me) then true else is_zombie p.
Proof.
  unfold after_exit. rewrite wake_zombie. unfold is_zombie.
  rewrite reparented_state. now destruct (decide _).
Qed.

Lemma after_exit_parent t me m ip c i p :
  parent (after_exit t me m ip c i p) = parent p \/
  parent (after_exit t me m ip c i p) = ip.
Proof.
  unfold after_exit. rewrite wake_parent, reparented_parent.
  destruct (is_child _ _ _); [now right | left].
  now destruct (decide _).
Qed.

(** X5.  [exit] followed by the parent's [wait].  When a process
    whose parent is the process in slot [pa] calls [exit], it is left as a
    [ZOMBIE] with the same parent, and a parent asleep on its own pid (as
    [wait] leaves it) is made [RUNNABLE].  The next round of the parent's
    [wait] on that table does not sleep and does not return -1, whatever
    the uninitialised [haschild] holds: it returns the pid of the first
    zombie child in table order and frees that slot.
    Assumed: the parent's pid differs from the caller's and fits a pointer,
    pids of the caller and of zombies are positive, [initproc] is a slot of
    the table and no read of [p->parent->pid] faults. *)
Theorem exit_then_wait_reaps (hc : bool) (me pa i0 : nat) (t : ptable)
    (cur par : proc) :
  procs t !! me = Some cur -> procs t !! pa = Some par ->
  parent cur = Some pa -> pid par <> pid cur ->
  0 <= pid par < 2 ^ 64 -> 0 < pid cur ->
  (i0 < length (procs t))%nat ->
  parents_readable t ->
  Forall (fun p => is_zombie p = true -> 0 < pid p) (procs t) ->
  exists t1 i z,
    exit_table me (Some i0) t = Some t1 /\
    procs t1 !! me = Some (set_state cur ZOMBIE) /\
    (sleeps_on (pid par) par ->
     exists par1, procs t1 !! pa = Some par1 /\ pid par1 = pid par /\
                  state par1 = RUNNABLE) /\
    wait hc pa t1 = WaitReturns (pid z) (freeproc i t1) /\
    procs t1 !! i = Some z /\ 0 < pid z /\ is_zombie z = true /\
    child_of t1 (pid par) z /\
    (forall j q, (j < i)%nat -> procs t1 !! j = Some q ->
       child_of t1 (pid par) q -> is_zombie q = false).
Proof.
  intros Hme Hpa Hpar Hne Hrange Hpos Hi0 Hrd Hzpos.
  destruct (exit_table_slots me i0 t cur par pa) as (t1 & Hex & Hnull & Hpid & Hlk);
    try assumption.
  assert (Hu : uint64 (pid par) = pid par) by (apply uint64_id; lia).
  rewrite Hu in Hlk.
  assert (Hmepa : me <> pa) by (intros ->; congruence).
  assert (Hpp : forall p, parent_pid t1 p = parent_pid t p)
    by (intros p; now apply parent_pid_ext).
  assert (Hchild_par : forall p, parent p = Some pa -> parent_pid t p = Some (pid par)).
  { intros p Hp. unfold parent_pid. now rewrite Hp, Hpa. }
  assert (Hnc : is_child t (pid cur) cur = false).
  { unfold is_child. rewrite (Hchild_par cur Hpar).
    destruct (Z.eqb_spec (pid par) (pid cur)); [contradiction | reflexivity]. }
  (* the caller's slot *)
  assert (Hme1 : procs t1 !! me = Some (set_state cur ZOMBIE)).
  { rewrite Hlk, Hme. cbn. unfold after_exit. rewrite decide_True by reflexivity.
    unfold reparented.
    replace (is_child t (pid cur) (set_state cur ZOMBIE)) with false
      by (symmetry; exact Hnc).
    unfold wake. reflexivity. }
  (* the parent's slot *)
  assert (Hpa1 : exists par1, procs t1 !! pa = Some par1 /\ pid par1 = pid par).
  { rewrite Hlk, Hpa. cbn. eexists. split; [reflexivity |]. apply after_exit_pid. }
  destruct Hpa1 as (par1 & Hpa1 & Hpidpar1).
  (* every read of a parent's pid succeeds *)
  assert (Hrd1 : parents_readable t1).
  { unfold parents_readable. apply Forall_forall. intros p1 Hin.
    apply list_elem_of_lookup in Hin. destruct Hin as [i Hi].
    rewrite Hlk in Hi. destruct (procs t !! i) as [p |] eqn:Ep; [| discriminate].
    cbn in Hi. injection Hi as <-. rewrite Hpp.
    unfold parents_readable in Hrd. rewrite Forall_forall in Hrd.
    assert (Hp : parent_pid t p <> None)
      by (apply Hrd; eapply list_elem_of_lookup_2; eauto).
    destruct (after_exit_parent t me (pid cur) (Some i0) (pid par) i p) as [E | E];
      unfold parent_pid in *; rewrite E; [exact Hp |].
    destruct (lookup_lt_is_Some_2 (procs t) i0 Hi0) as [q ->]. discriminate. }
  (* the caller is a zombie child of its parent *)
  assert (Hex1 : Exists (fun p => is_child t1 (pid par) p && is_zombie p = true)
                        (procs t1)).
  { apply Exists_exists. exists (set_state cur ZOMBIE). split.
    - eapply list_elem_of_lookup_2; eauto.
    - unfold is_child. rewrite Hpp.
      replace (parent_pid t (set_state cur ZOMBIE)) with (Some (pid par))
        by (symmetry; now apply Hchild_par).
      now rewrite Z.eqb_refl. }
  destruct (first_such _ _ Hex1) as (pre & z & post & Hsplit & Hz & Hpre).
  apply andb_prop in Hz. destruct Hz as [Hzc Hzz].
  apply is_child_spec in Hzc.
  assert (Hzi : procs t1 !! length pre = Some z)
    by (rewrite Hsplit; now rewrite list_lookup_middle).
  assert (Hzpid : 0 < pid z).
  { rewrite Hlk in Hzi. destruct (procs t !! length pre) as [p |] eqn:Ep;
      [| discriminate].
    cbn in Hzi. injection Hzi as <-.
    rewrite after_exit_pid. rewrite after_exit_zombie in Hzz.
    destruct (decide (length pre = me)) as [E | E].
    - rewrite E in Ep. congruence.
    - rewrite Forall_forall in Hzpos. apply Hzpos; [| exact Hzz].
      eapply list_elem_of_lookup_2; eauto. }
  assert (Hpre' : Forall (fun p => child_of t1 (pid par) p -> is_zombie p = false) pre).
  { eapply Forall_impl; [exact Hpre |]. intros p Hp Hc. cbn in Hp.
    apply is_child_spec in Hc. rewrite Hc in Hp. exact Hp. }
  destruct (wait_reaps_zombie hc pa t1 par1 z pre post) as [Hw _];
    try assumption; try (now rewrite Hpidpar1).
  exists t1, (length pre), z. repeat split; try assumption.
  - intros [Hs Hc]. exists par1. split; [assumption |]. split; [assumption |].
    rewrite Hlk, Hpa in Hpa1. cbn in Hpa1. injection Hpa1 as <-.
    unfold after_exit. rewrite decide_False by congruence.
    unfold wake, is_sleeping. rewrite reparented_state, Hs.
    rewrite reparented_chan, Hc, Z.eqb_refl. reflexivity.
  - intros j q Hj Hq Hc. rewrite Forall_forall in Hpre'.
    apply Hpre'; [| exact Hc].
    rewrite Hsplit in Hq. rewrite lookup_app_l in Hq by lia.
    eapply list_elem_of_lookup_2; eauto.
Qed.

Lemma sleep_then_wakeup1_witness :
  procs (wakeup1 2 (sleep 2 2 ptable_exit)) !! 2%nat
  = Some {| pid := 3; state := RUNNABLE; parent := Some 1%nat; chan := 2;
            killed := 0; kstack := true; vspace := true |}.
Proof.
  exact (sleep_then_wakeup1 2 2 2 ptable_exit _ eq_refl).
Defined.

Lemma exit_then_wait_reaps_witness :
  exists t1 i z,
    exit_table 2 (Some 0%nat) ptable_exit = Some t1 /\
    procs t1 !! 2%nat = Some (set_state
         {| pid := 3; state := RUNNING; parent := Some 1%nat; chan := 0;
            killed := 0; kstack := true; vspace := true |} ZOMBIE) /\
    (sleeps_on 2 {| pid := 2; state := SLEEPING; parent := Some 0%nat;
                    chan := 2; killed := 0; kstack := true; vspace := true |} ->
     exists par1, procs t1 !! 1%nat = Some par1 /\ pid par1 = 2 /\
                  state par1 = RUNNABLE) /\
    wait true 1 t1 = WaitReturns (pid z) (freeproc i t1) /\
    procs t1 !! i = Some z /\ 0 < pid z /\ is_zombie z = true /\
    child_of t1 2 z /\
    (forall j q, (j < i)%nat -> procs t1 !! j = Some q ->
       child_of t1 2 q -> is_zombie q = false).
Proof.
  apply (exit_then_wait_reaps true 2 1 0 ptable_exit
           {| pid := 3; state := RUNNING; parent := Some 1%nat; chan := 0;
              killed := 0; kstack := true; vspace := true |}
           {| pid := 2; state := SLEEPING; parent := Some 0%nat; chan := 2;
              killed := 0; kstack := true; vspace := true |}).
  - reflexivity.
  - reflexivity.
  - reflexivity.
  - cbn. lia.
  - cbn. lia.
  - cbn. lia.
  - cbn. lia.
  - repeat constructor; discriminate.
  - repeat constructor; cbn; intros; (discriminate || lia).
Defined.

(** The run on the example table: the grandchild's exit wakes its parent,
    whose [wait] then returns pid 3 and frees slot 2. *)
Example exit_wait_run :
  exists t1, exit_table 2 (Some 0%nat) ptable_exit = Some t1 /\
    map state (procs t1) = [RUNNABLE; RUNNABLE; ZOMBIE] /\
    wait false 1 t1 = WaitReturns 3 (freeproc 2 t1) /\
    map state (procs (freeproc 2 t1)) = [RUNNABLE; RUNNABLE; UNUSED].
Proof. eexists. repeat split; reflexivity. Qed.

(* ===================================================================== *)
(** ** The inode cache *)
(* ===================================================================== *)

Section icache.
Variables dev inum : Z.

Lemma iget_scan_spec :
  forall ins idx e,
    match iget_scan ins idx dev inum e with
    | inl i =>
        exists ip, (idx <= i)%nat /\ ins !! (i - idx)%nat = Some ip /\
          caches dev inum ip = true /\
          forall j q, (j < i - idx)%nat -> ins !! j = Some q ->
                      caches dev inum q = false
    | inr e' =>
        (forall j q, ins !! j = Some q -> caches dev inum q = false) /\
        match e with
        | Some x => e' = Some x
        | None =>
            match e' with
            | Some k =>
                exists ip, (idx <= k)%nat /\ ins !! (k - idx)%nat = Some ip /\
                  i_ref ip = 0 /\
                  forall j q, (j < k - idx)%nat -> ins !! j = Some q ->
                              i_ref q <> 0
            | None => forall j q, ins !! j = Some q -> i_ref q <> 0
            end
        end
    end.
Proof.
  induction ins as [| a r IH]; intros idx e; cbn [iget_scan].
  - split; [intros j q H; rewrite lookup_nil in H; discriminate |].
    destruct e; [reflexivity |].
    intros j q H; rewrite lookup_nil in H; discriminate.
  - destruct (caches dev inum a) eqn:Ea.
    + exists a. rewrite Nat.sub_diag. repeat split; auto. intros; lia.
    + set (e1 := match e with
                 | None => if i_ref a =? 0 then Some idx else None
                 | Some e0 => Some e0
                 end).
      specialize (IH (S idx) e1).
      destruct (iget_scan r (S idx) dev inum e1) as [i | e'].
      * destruct IH as (ip & Hle & Hip & Hc & Hfirst).
        exists ip. replace (i - idx)%nat with (S (i - S idx)) by lia.
        repeat split; auto; try lia.
        intros [| j] q Hj Hq; cbn in Hq; [congruence |].
        apply (Hfirst j q); [lia | assumption].
      * destruct IH as (Hnone & He).
        split.
        { intros [| j] q Hq; cbn in Hq; [congruence | eauto]. }
        destruct e as [x |]; [exact He |]. subst e1.
        destruct (Z.eqb_spec (i_ref a) 0) as [E0 | E0].
        -- subst e'. exists a. rewrite Nat.sub_diag. repeat split; auto.
           intros; lia.
        -- destruct e' as [k |].
           ++ destruct He as (ip & Hle & Hip & Hr & Hfirst).
              exists ip. replace (k - idx)%nat with (S (k - S idx)) by lia.
              repeat split; auto; try lia.
              intros [| j] q Hj Hq; cbn in Hq; [congruence |].
              apply (Hfirst j q); [lia | assumption].
           ++ intros [| j] q Hq; cbn in Hq; [congruence | eauto].
Qed.

Lemma iget_scan_hit :
  forall ins idx e i ip,
    ins !! i = Some ip -> caches dev inum ip = true ->
    (forall j q, (j < i)%nat -> ins !! j = Some q -> caches dev inum q = false) ->
    iget_scan ins idx dev inum e = inl (idx + i)%nat.
Proof.
  induction ins as [| a r IH]; intros idx e i ip Hi Hc Hfirst.
  - rewrite lookup_nil in Hi. discriminate.
  - cbn [iget_scan]. destruct i as [| i]; cbn in Hi.
    + injection Hi as ->. rewrite Hc. f_equal. lia.
    + assert (Ha : caches dev inum a = false) by (apply (Hfirst 0%nat a); [lia | reflexivity]). rewrite Ha.
      replace (idx + S i)%nat with (S idx + i)%nat by lia.
      apply (IH (S idx) _ i ip); auto.
      intros j q Hj Hq. apply (Hfirst (S j) q); [lia | exact Hq].
Qed.

End icache.

Lemma caches_true dev inum ip :
  caches dev inum ip = true <-> 0 < i_ref ip /\ i_dev ip = dev /\ i_inum ip = inum.
Proof.
  unfold caches. rewrite !andb_true_iff, Z.ltb_lt, !Z.eqb_eq. tauto.
Qed.

Lemma set_inodes_same (s : fs) : set_inodes s (inodes s) = s.
Proof. now destruct s. Qed.

Lemma insert_lookup_inv {A : Type} (l : list A) (i : nat) (ip ip' : A)
    (a : nat) (x : A) :
  l !! i = Some ip -> <[i := ip']> l !! a = Some x ->
  (a = i /\ x = ip') \/ (a <> i /\ l !! a = Some x).
Proof.
  intros Hi Ha. destruct (decide (a = i)) as [-> | Hne].
  - left. rewrite list_lookup_insert_eq in Ha
      by (apply lookup_lt_is_Some; eauto).
    split; congruence.
  - right. rewrite list_lookup_insert_ne in Ha by congruence. auto.
Qed.

(** What [iget] returns, case by case. *)
Lemma iget_cases (dev inum : Z) (s : fs) (p : iptr) (s' : fs) :
  iget dev inum s = Done p s' ->
  exists i ip,
    p = Icache i /\ inodes s !! i = Some ip /\
    (forall j q, (j < i)%nat -> inodes s !! j = Some q ->
                 caches dev inum q = false) /\
    ((caches dev inum ip = true /\
      s' = set_inodes s (<[i := set_iref ip (int32 (i_ref ip + 1))]> (inodes s)))
     \/
     ((forall j q, inodes s !! j = Some q -> caches dev inum q = false) /\
      i_ref ip = 0 /\
      s' = set_inodes s (<[i := recycle ip dev inum]> (inodes s)))).
Proof.
  unfold iget. intros H.
  pose proof (iget_scan_spec dev inum (inodes s) 0 None) as Hs.
  destruct (iget_scan (inodes s) 0 dev inum None) as [i | [e |]].
  - destruct Hs as (ip & _ & Hip & Hc & Hfirst). rewrite Nat.sub_0_r in *.
    rewrite Hip in H. injection H as <- <-.
    exists i, ip. repeat split; auto.
  - destruct Hs as (Hnone & ip & _ & Hip & Hr & Hfirst).
    rewrite Nat.sub_0_r in *. rewrite Hip in H. injection H as <- <-.
    exists e, ip. repeat split; eauto.
  - discriminate.
Qed.

(** X6.  [iget] keeps the inode cache free of duplicates: if no two slots
    in use hold the same [(dev, inum)] before the call, none do after it.
    The slot returned holds [(dev, inum)] with a positive reference count,
    and no other slot is changed.
    Assumed: reference counts are not negative and below [INT_MAX]. *)
Theorem iget_keeps_unique (dev inum : Z) (s s' : fs) (p : iptr) :
  icache_unique (inodes s) -> refs_ok (inodes s) ->
  iget dev inum s = Done p s' ->
  icache_unique (inodes s') /\
  exists i ip,
    p = Icache i /\ inodes s' !! i = Some ip /\
    i_dev ip = dev /\ i_inum ip = inum /\ 0 < i_ref ip /\
    forall j, j <> i -> inodes s' !! j = inodes s !! j.
Proof.
  intros Hu Hr H. destruct (iget_cases dev inum s p s' H)
    as (i & ip & -> & Hip & Hfirst & Hcase).
  assert (Hlt : (i < length (inodes s))%nat)
    by (apply lookup_lt_is_Some; eauto).
  assert (Hrip : 0 <= i_ref ip < 2 ^ 31 - 1).
  { unfold refs_ok in Hr. rewrite Forall_forall in Hr. apply Hr.
    eapply list_elem_of_lookup_2; eauto. }
  destruct Hcase as [(Hc & ->) | (Hnone & Hz & ->)].
  - apply caches_true in Hc. destruct Hc as (Hpos & Hd & Hn).
    assert (Hi32 : int32 (i_ref ip + 1) = i_ref ip + 1) by (apply int32_id; lia).
    split.
    + cbn. intros a b x y Ha Hb Hxa Hxb Hdev Hnum.
      destruct (insert_lookup_inv _ _ _ _ _ _ Hip Ha) as [[-> ->] | [Hai Ha']],
               (insert_lookup_inv _ _ _ _ _ _ Hip Hb) as [[-> ->] | [Hbi Hb']];
        cbn in *.
      * reflexivity.
      * apply (Hu i b ip y); auto.
      * apply (Hu a i x ip); auto.
      * apply (Hu a b x y); auto.
    + exists i, (set_iref ip (int32 (i_ref ip + 1))). cbn.
      rewrite list_lookup_insert_eq by assumption.
      repeat split; auto; try lia.
      intros j Hj. now rewrite list_lookup_insert_ne by congruence.
  - split.
    + cbn. intros a b x y Ha Hb Hxa Hxb Hdev Hnum.
      destruct (insert_lookup_inv _ _ _ _ _ _ Hip Ha) as [[-> ->] | [Hai Ha']],
               (insert_lookup_inv _ _ _ _ _ _ Hip Hb) as [[-> ->] | [Hbi Hb']];
        cbn in *.
      * reflexivity.
      * specialize (Hnone b y Hb').
        assert (caches dev inum y = true) by (apply caches_true; auto).
        congruence.
      * specialize (Hnone a x Ha').
        assert (caches dev inum x = true) by (apply caches_true; auto).
        congruence.
      * apply (Hu a b x y); auto.
    + exists i, (recycle ip dev inum). cbn.
      rewrite list_lookup_insert_eq by assumption.
      repeat split; auto; try lia.
      intros j Hj. now rewrite list_lookup_insert_ne by congruence.
Qed.

(** X7.  A second [iget] of the same [(dev, inum)] returns the slot the
    first one returned and adds one more reference to it; it does not take
    another slot.
    Assumed: reference counts are not negative and below [INT_MAX]. *)
Theorem iget_twice_same_slot (dev inum : Z) (s s1 : fs) (p : iptr) :
  refs_ok (inodes s) ->
  iget dev inum s = Done p s1 ->
  exists i ip1,
    p = Icache i /\ inodes s1 !! i = Some ip1 /\
    iget dev inum s1
    = Done p (set_inodes s1 (<[i := set_iref ip1 (int32 (i_ref ip1 + 1))]>
                               (inodes s1))).
Proof.
  intros Hr H. destruct (iget_cases dev inum s p s1 H)
    as (i & ip & -> & Hip & Hfirst & Hcase).
  assert (Hlt : (i < length (inodes s))%nat)
    by (apply lookup_lt_is_Some; eauto).
  assert (Hrip : 0 <= i_ref ip < 2 ^ 31 - 1).
  { unfold refs_ok in Hr. rewrite Forall_forall in Hr. apply Hr.
    eapply list_elem_of_lookup_2; eauto. }
  assert (Hgen : forall ip', caches dev inum ip' = true ->
            s1 = set_inodes s (<[i := ip']> (inodes s)) ->
            exists i0 ip1, Icache i = Icache i0 /\ inodes s1 !! i0 = Some ip1 /\
              iget dev inum s1
              = Done (Icache i)
                  (set_inodes s1 (<[i0 := set_iref ip1 (int32 (i_ref ip1 + 1))]>
                                    (inodes s1)))).
  { intros ip' Hc ->. exists i, ip'. cbn.
    assert (Hl : <[i := ip']> (inodes s) !! i = Some ip')
      by now apply list_lookup_insert_eq.
    repeat split; [exact Hl |].
    unfold iget. cbn [inodes set_inodes].
    rewrite (iget_scan_hit dev inum _ 0 None i ip' Hl Hc).
    - cbn [Nat.add]. rewrite Hl. reflexivity.
    - intros j q Hj Hq. rewrite list_lookup_insert_ne in Hq by lia. eauto. }
  destruct Hcase as [(Hc & E) | (Hnone & Hz & E)].
  - apply (Hgen (set_iref ip (int32 (i_ref ip + 1)))); [| exact E].
    apply caches_true in Hc. apply caches_true. cbn.
    rewrite int32_id by lia. repeat split; try tauto. lia.
  - apply (Hgen (recycle ip dev inum)); [| exact E].
    apply caches_true. cbn. repeat split; lia.
Qed.

(** X8.  [irelease] undoes [iget]: after [iget] followed by
    [irelease] of the slot returned every slot has the reference count it
    had before, and when the inode was cached already the whole state is
    as before.
    Assumed: reference counts are not negative and below [INT_MAX]. *)
Theorem iget_irelease_restores_refs (dev inum : Z) (s s1 : fs) (p : iptr) :
  refs_ok (inodes s) ->
  iget dev inum s = Done p s1 ->
  exists s2,
    irelease p s1 = Done tt s2 /\
    map i_ref (inodes s2) = map i_ref (inodes s) /\
    (forall ip, iget_at s p = Some ip -> 0 < i_ref ip -> s2 = s).
Proof.
  intros Hr H. destruct (iget_cases dev inum s p s1 H)
    as (i & ip & -> & Hip & Hfirst & Hcase).
  assert (Hlt : (i < length (inodes s))%nat)
    by (apply lookup_lt_is_Some; eauto).
  assert (Hrip : 0 <= i_ref ip < 2 ^ 31 - 1).
  { unfold refs_ok in Hr. rewrite Forall_forall in Hr. apply Hr.
    eapply list_elem_of_lookup_2; eauto. }
  unfold irelease. cbn [iget_at iput_at].
  destruct Hcase as [(Hc & ->) | (Hnone & Hz & ->)]; cbn [inodes set_inodes];
    rewrite list_lookup_insert_eq by assumption; cbn [i_ref set_iref recycle].
  - apply caches_true in Hc. destruct Hc as (Hpos & _).
    rewrite (int32_id (i_ref ip + 1)) by lia.
    destruct (Z.eqb_spec (i_ref ip + 1) 1); [lia |].
    cbn [i_ref set_iref].
    replace (i_ref ip + 1 - 1) with (i_ref ip) by lia.
    rewrite (int32_id (i_ref ip)) by lia.
    eexists. split; [reflexivity |]. cbn.
    rewrite list_insert_insert_eq.
    assert (E : set_iref (set_iref ip (i_ref ip + 1)) (i_ref ip) = ip)
      by now destruct ip.
    rewrite E, list_insert_id by assumption.
    split; [reflexivity |]. intros _ _ _. now destruct s.
  - cbn. eexists. split; [reflexivity |]. cbn.
    rewrite list_insert_insert_eq.
    split.
    + change (map i_ref) with (fmap (M := list) i_ref).
      rewrite list_fmap_insert. cbn. apply list_insert_id.
      rewrite list_lookup_fmap, Hip. cbn. f_equal. rewrite Hz. reflexivity.
    + intros ip0 Hip0 Hpos. rewrite Hip in Hip0. injection Hip0 as <-. lia.
Qed.

(** X9.  [iget] panics with [iget: no inodes] exactly when no slot in
    use holds [(dev, inum)] and no slot has reference count 0. *)
Theorem iget_panics_iff_full (dev inum : Z) (s : fs) :
  iget dev inum s = Panic "iget: no inodes" <->
  (forall j q, inodes s !! j = Some q ->
               caches dev inum q = false /\ i_ref q <> 0).
Proof.
  unfold iget.
  pose proof (iget_scan_spec dev inum (inodes s) 0 None) as Hs.
  destruct (iget_scan (inodes s) 0 dev inum None) as [i | [e |]].
  - destruct Hs as (ip & _ & Hip & Hc & _). rewrite Nat.sub_0_r in *.
    rewrite Hip. split; [discriminate |].
    intros Hall. destruct (Hall i ip Hip). congruence.
  - destruct Hs as (_ & ip & _ & Hip & Hz & _). rewrite Nat.sub_0_r in *.
    rewrite Hip. split; [discriminate |].
    intros Hall. destruct (Hall e ip Hip). congruence.
  - destruct Hs as (Hnone & Hfull). split; [| reflexivity].
    intros _ j q Hq. split; eauto.
Qed.

Lemma icache_x_unique : icache_unique icache_x.
Proof.
  intros i j a b Ha Hb Hra Hrb Hd Hn.
  destruct i as [| [| [| i]]], j as [| [| [| j]]]; cbn in Ha, Hb;
    try discriminate; try reflexivity;
    injection Ha as <-; injection Hb as <-; cbn in *; lia.
Defined.

Lemma icache_x_refs_ok : refs_ok icache_x.
Proof. repeat constructor; cbn; lia. Defined.

Lemma iget_keeps_unique_witness :
  exists p s',
    iget 1 5 fs_icache_x = Done p s' /\
    icache_unique (inodes s') /\
    exists i ip,
      p = Icache i /\ inodes s' !! i = Some ip /\
      i_dev ip = 1 /\ i_inum ip = 5 /\ 0 < i_ref ip /\
      forall j, j <> i -> inodes s' !! j = inodes fs_icache_x !! j.
Proof.
  eexists _, _. split; [reflexivity |].
  apply (iget_keeps_unique 1 5 fs_icache_x _ _ icache_x_unique icache_x_refs_ok
           eq_refl).
Defined.

Lemma iget_twice_same_slot_witness :
  exists p s1 i ip1,
    iget 1 7 fs_icache_x = Done p s1 /\
    p = Icache i /\ inodes s1 !! i = Some ip1 /\
    iget 1 7 s1
    = Done p (set_inodes s1 (<[i := set_iref ip1 (int32 (i_ref ip1 + 1))]>
                               (inodes s1))).
Proof.
  eexists _, _.
  destruct (iget_twice_same_slot 1 7 fs_icache_x _ _ icache_x_refs_ok eq_refl)
    as (i & ip1 & H1 & H2 & H3).
  exists i, ip1. split; [reflexivity |]. auto.
Defined.

Lemma iget_irelease_restores_refs_witness :
  exists p s1 s2,
    iget 1 7 fs_icache_x = Done p s1 /\
    irelease p s1 = Done tt s2 /\
    map i_ref (inodes s2) = map i_ref (inodes fs_icache_x) /\
    (forall ip, iget_at fs_icache_x p = Some ip -> 0 < i_ref ip ->
                s2 = fs_icache_x).
Proof.
  eexists _, _.
  destruct (iget_irelease_restores_refs 1 7 fs_icache_x _ _ icache_x_refs_ok
              eq_refl) as (s2 & H1 & H2 & H3).
  exists s2. split; [reflexivity |]. auto.
Defined.

Example iget_run :
  (exists s1, iget 1 7 fs_icache_x = Done (Icache 0) s1 /\
              map i_ref (inodes s1) = [3; 0; 1]) /\
  (exists s1, iget 1 5 fs_icache_x = Done (Icache 1) s1 /\
              map i_ref (inodes s1) = [2; 1; 1] /\
              map i_valid (inodes s1) = [1; 0; 1]).
Proof. split; eexists; repeat split; reflexivity. Qed.

(* ===================================================================== *)
(** ** Paths *)
(* ===================================================================== *)

Lemma skip_slashes_spec (path : list Z) :
  exists k, path = repeat slash k ++ skip_slashes path /\
            hd 0 (skip_slashes path) <> slash.
Proof.
  induction path as [| c r IH]; cbn.
  - exists 0%nat. split; [reflexivity | discriminate].
  - destruct (Z.eqb_spec c slash) as [-> | Hne].
    + destruct IH as (k & Hk & Hh). exists (S k). cbn. split; [congruence | exact Hh].
    + exists 0%nat. cbn. split; [reflexivity | exact Hne].
Qed.

Lemma skip_slashes_length (path : list Z) :
  (length (skip_slashes path) <= length path)%nat.
Proof.
  induction path as [| c r IH]; cbn; [lia |].
  destruct (c =? slash); cbn; lia.
Qed.

Lemma skip_slashes_repeat (k : nat) (rest : list Z) :
  hd 0 rest <> slash -> skip_slashes (repeat slash k ++ rest) = rest.
Proof.
  intros Hr. induction k as [| k IH]; cbn.
  - destruct rest as [| c r]; cbn; [reflexivity |].
    cbn in Hr. destruct (Z.eqb_spec c slash); [contradiction | reflexivity].
  - exact IH.
Qed.

Lemma skip_name_spec (path : list Z) :
  exists elem, path = elem ++ skip_name path /\ Forall name_byte elem /\
               at_end_or_slash (skip_name path).
Proof.
  induction path as [| c r IH]; cbn.
  - exists []. repeat split; [constructor | now left].
  - destruct (Z.eqb_spec c slash) as [-> | Hs]; cbn.
    + exists []. repeat split; [constructor | now right].
    + destruct (Z.eqb_spec c 0) as [-> | Hz]; cbn.
      * exists []. repeat split; [constructor | now left].
      * destruct IH as (elem & He & Hf & Hend).
        exists (c :: elem). cbn. repeat split; auto; [congruence |].
        constructor; [split; assumption | exact Hf].
Qed.

Lemma list_inserts_0 {A : Type} (k l : list A) :
  (length k <= length l)%nat -> list_inserts 0 k l = k ++ drop (length k) l.
Proof.
  revert l. induction k as [| x k IH]; intros l Hl; cbn.
  - now rewrite drop_0.
  - destruct l as [| y l]; cbn in Hl; [lia |].
    rewrite list_inserts_cons. cbn. f_equal.
    apply IH. lia.
Qed.

(** X10.  [skipelem] returns 0 exactly when the path holds nothing but
    slashes up to its terminating NUL (the empty path included). *)
Theorem skipelem_none_iff (path name : list Z) :
  skipelem path name = None <->
  exists k rest, path = repeat slash k ++ rest /\ hd 0 rest = 0.
Proof.
  unfold skipelem. destruct (skip_slashes_spec path) as (k & Hk & Hh).
  destruct (Z.eqb_spec (hd 0 (skip_slashes path)) 0) as [E | E].
  - split; [| reflexivity]. intros _. exists k, (skip_slashes path). auto.
  - split; [discriminate |]. intros (k' & rest & Hp & Hr). exfalso. apply E.
    rewrite Hp. rewrite skip_slashes_repeat; [exact Hr |].
    rewrite Hr. discriminate.
Qed.

(** X11.  When [skipelem] returns a pointer, the path is some slashes,
    then a non-empty element without ['/'] and NUL, then the rest.  The
    pointer returned is the rest with its leading slashes skipped, so it
    does not point at a ['/'] and is strictly shorter than the path.  The
    buffer [name] holds the element followed by a NUL when the element has
    fewer than [DIRSIZ] bytes (the bytes of [name] behind the NUL are kept),
    and the first [DIRSIZ] bytes of the element with no NUL otherwise.
    Assumed: [name] has [DIRSIZ] bytes and the path is shorter than 2^31
    bytes. *)
Theorem skipelem_component (path name rest name' : list Z) :
  length name = Z.to_nat DIRSIZ -> Z.of_nat (length path) < 2 ^ 31 ->
  skipelem path name = Some (rest, name') ->
  exists k elem tl,
    path = repeat slash k ++ elem ++ tl /\
    elem <> [] /\ Forall name_byte elem /\ at_end_or_slash tl /\
    rest = skip_slashes tl /\ hd 0 rest <> slash /\
    (length rest < length path)%nat /\
    name' = if DIRSIZ <=? Z.of_nat (length elem)
            then take (Z.to_nat DIRSIZ) elem
            else elem ++ 0 :: drop (S (length elem)) name.
Proof.
  intros Hname Hlen. unfold skipelem.
  destruct (skip_slashes_spec path) as (k & Hk & Hh).
  set (sp := skip_slashes path) in *.
  destruct (Z.eqb_spec (hd 0 sp) 0) as [E | E]; [discriminate |].
  destruct (skip_name_spec sp) as (elem & He & Hf & Hend).
  set (tl := skip_name sp) in *.
  assert (Hne : elem <> []).
  { intros ->. cbn in He. destruct Hend as [H0 | Hs]; rewrite <- He in *;
      contradiction. }
  assert (Hl : length sp = (length elem + length tl)%nat)
    by (rewrite He at 1; apply length_app).
  assert (Hpl : length path = (k + length sp)%nat)
    by (rewrite Hk at 1; rewrite length_app, repeat_length; reflexivity).
  assert (Hlen' : int32 (Z.of_nat (length sp) - Z.of_nat (length tl))
                  = Z.of_nat (length elem)).
  { rewrite int32_id; lia. }
  rewrite Hlen'. intros H. injection H as <- <-.
  exists k, elem, tl.
  destruct (skip_slashes_spec tl) as (k2 & Hk2 & Hh2).
  assert (Hel : (0 < length elem)%nat) by (destruct elem; [contradiction | cbn; lia]).
  pose proof (skip_slashes_length tl) as Hsl.
  split; [now rewrite <- He |].
  repeat split; try assumption; try lia.
  unfold mem_write. change (Z.to_nat 0) with 0%nat.
  unfold DIRSIZ in *. change (Z.to_nat 14) with 14%nat in *.
  destruct (Z.leb_spec 14 (Z.of_nat (length elem))) as [Hge | Hlt].
  - rewrite He, take_app_le by lia.
    rewrite list_inserts_0 by (rewrite length_take; lia).
    rewrite length_take, drop_ge by lia. now rewrite app_nil_r.
  - rewrite Nat2Z.id. rewrite He, take_app_length.
    rewrite list_inserts_0 by lia.
    rewrite insert_app_r_alt by lia. rewrite Nat.sub_diag.
    f_equal. destruct (drop (length elem) name) as [| x r] eqn:Ed.
    + apply (f_equal length) in Ed. rewrite length_drop in Ed. cbn in Ed. lia.
    + cbn. f_equal.
      replace (S (length elem)) with (length elem + 1)%nat by lia.
      rewrite <- drop_drop, Ed. reflexivity.
Qed.

Lemma skipelem_component_witness :
  exists k elem tl,
    path_a_bb_c = repeat slash k ++ elem ++ tl /\
    elem <> [] /\ Forall name_byte elem /\ at_end_or_slash tl /\
    [98; 98; 47; 99] = skip_slashes tl /\ hd 0 [98; 98; 47; 99] <> slash /\
    (length [98; 98; 47; 99] < length path_a_bb_c)%nat /\
    97 :: 0 :: repeat 255 12
    = if DIRSIZ <=? Z.of_nat (length elem)
      then take (Z.to_nat DIRSIZ) elem
      else elem ++ 0 :: drop (S (length elem)) name_ff.
Proof.
  apply (skipelem_component path_a_bb_c name_ff [98; 98; 47; 99]
           (97 :: 0 :: repeat 255 12)).
  - reflexivity.
  - reflexivity.
  - reflexivity.
Defined.

(** The examples of the comment above [skipelem] in the source. *)
Example skipelem_examples :
  skipelem path_a_bb_c name_ff
    = Some ([98; 98; 47; 99], 97 :: 0 :: repeat 255 12) /\
  skipelem path_a_bb name_ff = Some ([98; 98], 97 :: 0 :: repeat 255 12) /\
  skipelem [97] name_ff = Some ([], 97 :: 0 :: repeat 255 12) /\
  skipelem [] name_ff = None /\
  skipelem [47; 47; 47; 47] name_ff = None /\
  skipelem (repeat 120 20) name_ff = Some ([], repeat 120 14).
Proof. repeat split; reflexivity. Qed.

(* ===================================================================== *)
(** ** The swap region *)
(* ===================================================================== *)

Lemma mem_write_chunk (old src : list Z) (pos : Z) :
  length old = Z.to_nat BSIZE ->
  0 <= pos -> pos + BSIZE <= Z.of_nat (length src) ->
  mem_write old 0 (drop (Z.to_nat pos) src) BSIZE = mem_read src pos BSIZE.
Proof.
  intros Ho Hp Hs. unfold mem_write, mem_read. change (Z.to_nat 0) with 0%nat.
  assert (Hl : length (take (Z.to_nat BSIZE) (drop (Z.to_nat pos) src))
               = Z.to_nat BSIZE).
  { rewrite length_take, length_drop. unfold BSIZE in *. lia. }
  rewrite list_inserts_0 by (rewrite Hl, Ho; reflexivity).
  rewrite Hl, (drop_ge old) by (rewrite Ho; reflexivity). apply app_nil_r.
Qed.

Lemma page_block_length (page : list Z) (i : Z) :
  length page = Z.to_nat PGSIZE -> 0 <= i < 8 ->
  length (page_block page i) = Z.to_nat BSIZE.
Proof.
  intros Hp Hi. unfold page_block. apply mem_read_length; unfold BSIZE, PGSIZE in *; lia.
Qed.

Lemma swap_block_eq (idx : Z) (s : fs) (i : Z) :
  swap_slot_ok s idx -> 0 <= i < 8 ->
  swap_block s idx i = swapstart (sb s) + idx * 8 + i.
Proof.
  intros [H0 H1] Hi. unfold swap_block. apply uint32_id. lia.
Qed.

Section swap.
Variables (idx : Z) (page : list Z).
Hypothesis Hpage : length page = Z.to_nat PGSIZE.

Lemma swapwrite_block_spec (s : fs) (i : Z) :
  wf_bufs s -> 0 <= i < 8 ->
  let b := swap_block s idx i in
  let s' := swapwrite_block idx page s i in
  sb s' = sb s /\ loglock s' = loglock s /\ wf_bufs s' /\
  (forall b', bread s' b' = if b' =? b then page_block page i else bread s b') /\
  (forall b', disk s' b' = if b' =? b then page_block page i else disk s b') /\
  events s' = events s ++ [Ewrite b (page_block page i)].
Proof.
  intros Hwf Hi b s'. subst s'. unfold swapwrite_block. fold b.
  assert (Hd : mem_write (bread s b) 0 (drop (Z.to_nat (BSIZE * i)) page) BSIZE
               = page_block page i).
  { apply mem_write_chunk; [apply Hwf | unfold BSIZE; lia |].
    rewrite Hpage. unfold BSIZE, PGSIZE. lia. }
  rewrite Hd.
  assert (Hb : bread (bset s b (page_block page i)) b = page_block page i).
  { unfold bread, bset. cbn. now rewrite upd_same. }
  unfold bwrite. rewrite Hb.
  assert (Hbr : forall b', bread (set_disk_bufs (bset s b (page_block page i))
                  (upd (disk (bset s b (page_block page i))) b (page_block page i))
                  (upd (bufs (bset s b (page_block page i))) b (Some (page_block page i)))
                  (events (bset s b (page_block page i)) ++ [Ewrite b (page_block page i)])) b'
                = if b' =? b then page_block page i else bread s b').
  { intros b'. unfold bread. cbn. unfold upd.
    destruct (b' =? b); reflexivity. }
  repeat split; try reflexivity.
  - intros b'. rewrite Hbr. destruct (b' =? b); [| apply Hwf].
    now apply page_block_length.
  - exact Hbr.
Qed.

Lemma swapwrite_fold (l : list Z) :
  forall s,
    wf_bufs s -> swap_slot_ok s idx ->
    Forall (fun i => 0 <= i < 8) l -> NoDup l ->
    let s' := fold_left (swapwrite_block idx page) l s in
    sb s' = sb s /\ loglock s' = loglock s /\ wf_bufs s' /\
    (forall i, i ∈ l ->
       bread s' (swap_block s idx i) = page_block page i /\
       disk s' (swap_block s idx i) = page_block page i) /\
    (forall b, (forall i, i ∈ l -> b <> swap_block s idx i) ->
       bread s' b = bread s b /\ disk s' b = disk s b) /\
    events s' = events s
                ++ map (fun i => Ewrite (swap_block s idx i) (page_block page i)) l.
Proof.
  induction l as [| a r IH]; intros s Hwf Hok Hall Hnd; cbn [fold_left].
  - cbn. rewrite app_nil_r.
    split; [reflexivity |]. split; [reflexivity |]. split; [exact Hwf |].
    split; [| split; [| reflexivity]].
    + intros i Hi. apply elem_of_nil in Hi. contradiction.
    + intros b _. split; reflexivity.
  - inversion Hall as [| ? ? Ha Hr]; subst.
    inversion Hnd as [| ? ? Hnotin Hnd']; subst.
    destruct (swapwrite_block_spec s a Hwf Ha)
      as (Hsb1 & Hll1 & Hwf1 & Hbr1 & Hdk1 & Hev1).
    set (s1 := swapwrite_block idx page s a) in *.
    assert (Hblk : forall i, swap_block s1 idx i = swap_block s idx i)
      by (intros i; unfold swap_block; now rewrite Hsb1).
    assert (Hok1 : swap_slot_ok s1 idx) by (unfold swap_slot_ok; now rewrite Hsb1).
    destruct (IH s1 Hwf1 Hok1 Hr Hnd') as (Hsb & Hll & Hwf' & Hin & Hout & Hev).
    set (s' := fold_left (swapwrite_block idx page) r s1) in *.
    assert (Hdist : forall i, i ∈ r -> swap_block s idx a <> swap_block s idx i).
    { intros i Hi. rewrite Forall_forall in Hr.
      rewrite !swap_block_eq by auto.
      intros E. assert (a = i) by lia. subst. contradiction. }
    split; [congruence |]. split; [congruence |]. split; [exact Hwf' |].
    split; [| split].
    + intros i Hi. apply elem_of_cons in Hi. destruct Hi as [-> | Hi].
      * destruct (Hout (swap_block s idx a)) as [-> ->].
        { intros j Hj. rewrite Hblk. now apply Hdist. }
        rewrite Hbr1, Hdk1, Z.eqb_refl. split; reflexivity.
      * rewrite <- Hblk. now apply Hin.
    + intros b Hb. destruct (Hout b) as [-> ->].
      { intros j Hj. rewrite Hblk. apply Hb. now right. }
      rewrite Hbr1, Hdk1.
      destruct (Z.eqb_spec b (swap_block s idx a)) as [E | E];
        [| split; reflexivity].
      exfalso. apply (Hb a); [now left | exact E].
    + rewrite Hev, Hev1. rewrite <- app_assoc. reflexivity.
Qed.

Lemma swapread_fold (f : Z -> list Z) (mem : list Z) :
  length mem = Z.to_nat PGSIZE ->
  forall n : nat,
    (n <= 8)%nat ->
    (forall i, 0 <= i < Z.of_nat n -> f i = page_block page i) ->
    fold_left (fun m i => mem_write m (BSIZE * i) (f i) BSIZE)
              (seqZ 0 (Z.of_nat n)) mem
    = take (512 * n) page ++ drop (512 * n) mem.
Proof.
  intros Hmem. induction n as [| n IH]; intros Hn Hf.
  - cbn. now rewrite drop_0.
  - rewrite seqZ_S, fold_left_app. cbn [fold_left].
    rewrite IH by (try lia; intros; apply Hf; lia).
    rewrite Z.add_0_l, Hf by lia.
    unfold mem_write, page_block, mem_read. rewrite take_take, Nat.min_id.
    assert (E : Z.to_nat (BSIZE * Z.of_nat n) = (512 * n)%nat)
      by (unfold BSIZE; lia).
    rewrite E. change (Z.to_nat BSIZE) with 512%nat.
    assert (Hl : length (take (512 * n) page) = (512 * n)%nat).
    { rewrite length_take, Hpage. unfold PGSIZE. lia. }
    replace (list_inserts (512 * n)) with
      (list_inserts (A := Z) (length (take (512 * n) page) + 0))
      by (rewrite Hl, Nat.add_0_r; reflexivity).
    rewrite list_inserts_app_r.
    assert (Hl2 : length (take 512 (drop (512 * n) page)) = 512%nat).
    { rewrite length_take, length_drop, Hpage. unfold PGSIZE. lia. }
    rewrite list_inserts_0 by (rewrite Hl2, length_drop, Hmem; unfold PGSIZE; lia).
    rewrite Hl2, drop_drop, app_assoc, take_take_drop.
    f_equal; f_equal; lia.
Qed.

End swap.

Lemma fold_left_ext_in {A B : Type} (f g : A -> B -> A) (l : list B) :
  (forall a b, b ∈ l -> f a b = g a b) ->
  forall a, fold_left f l a = fold_left g l a.
Proof.
  induction l as [| x r IH]; intros H a; cbn; [reflexivity |].
  rewrite H by left. apply IH. intros a' b Hb. apply H. now right.
Qed.

(** X12.  [swapread] returns the page [swapwrite] stored in the same
    slot.  After [swapwrite] the eight blocks of the slot hold the page on
    the device itself, block [i] of the page in block
    [swapstart + 8 * swap_index + i]: each block is written at once with
    [bwrite], outside the log (the trace gains eight block writes and no
    transaction bracket, the log lock is not touched).
    Assumed: the page and the destination have [PGSIZE] bytes, cached
    buffers have [BSIZE] bytes and the block numbers of the slot fit 32
    bits. *)
Theorem swapwrite_then_swapread (idx : Z) (page mem : list Z) (s : fs) :
  length page = Z.to_nat PGSIZE -> length mem = Z.to_nat PGSIZE ->
  wf_bufs s -> swap_slot_ok s idx ->
  swapread idx mem (swapwrite idx page s) = page /\
  (forall i, 0 <= i < 8 ->
     disk (swapwrite idx page s) (swap_block s idx i) = page_block page i) /\
  events (swapwrite idx page s)
  = events s ++ map (fun i => Ewrite (swap_block s idx i) (page_block page i))
                    (seqZ 0 8) /\
  loglock (swapwrite idx page s) = loglock s.
Proof.
  intros Hpage Hmem Hwf Hok.
  destruct (swapwrite_fold idx page Hpage (seqZ 0 8) s Hwf Hok)
    as (Hsb & Hll & Hwf' & Hin & Hout & Hev).
  { apply Forall_seqZ. intros; lia. }
  { apply NoDup_seqZ. }
  fold (swapwrite idx page s) in *.
  split; [| split; [| split]]; try assumption.
  - unfold swapread.
    rewrite (fold_left_ext_in _
               (fun m i => mem_write m (BSIZE * i) (page_block page i) BSIZE)).
    + change 8 with (Z.of_nat 8).
      rewrite (swapread_fold page Hpage (page_block page) mem Hmem 8); auto.
      change (512 * 8)%nat with (Z.to_nat PGSIZE).
      rewrite <- Hpage at 1. rewrite firstn_all.
      rewrite <- Hmem, drop_all. apply app_nil_r.
    + intros m i Hi. unfold swapread_block.
      assert (E : swap_block (swapwrite idx page s) idx i = swap_block s idx i)
        by (unfold swap_block; now rewrite Hsb).
      rewrite E. destruct (Hin i Hi) as [-> _]. reflexivity.
  - intros i Hi. apply Hin. apply elem_of_seqZ. lia.
Qed.

(** X13.  [swapwrite] to one swap slot does not change what [swapread]
    returns for any other slot.
    Assumed: the page has [PGSIZE] bytes, cached buffers have [BSIZE] bytes
    and the block numbers of both slots fit 32 bits. *)
Theorem swapwrite_other_slot (idx idx' : Z) (page mem : list Z) (s : fs) :
  length page = Z.to_nat PGSIZE ->
  wf_bufs s -> swap_slot_ok s idx -> swap_slot_ok s idx' -> idx <> idx' ->
  swapread idx' mem (swapwrite idx page s) = swapread idx' mem s.
Proof.
  intros Hpage Hwf Hok Hok' Hne.
  destruct (swapwrite_fold idx page Hpage (seqZ 0 8) s Hwf Hok)
    as (Hsb & Hll & Hwf' & Hin & Hout & Hev).
  { apply Forall_seqZ. intros; lia. }
  { apply NoDup_seqZ. }
  fold (swapwrite idx page s) in *.
  unfold swapread. apply fold_left_ext_in. intros m j Hj.
  unfold swapread_block.
  assert (E : swap_block (swapwrite idx page s) idx' j = swap_block s idx' j)
    by (unfold swap_block; now rewrite Hsb).
  rewrite E. destruct (Hout (swap_block s idx' j)) as [-> _]; [| reflexivity].
  intros i Hi. apply elem_of_seqZ in Hi, Hj.
  rewrite (swap_block_eq idx' s j), (swap_block_eq idx s i) by (auto; lia).
  lia.
Qed.

Lemma swapwrite_then_swapread_witness :
  swapread 3 (repeat 0 4096) (swapwrite 3 page_x (fs_of disk_c1 false)) = page_x /\
  (forall i, 0 <= i < 8 ->
     disk (swapwrite 3 page_x (fs_of disk_c1 false))
          (swap_block (fs_of disk_c1 false) 3 i) = page_block page_x i) /\
  events (swapwrite 3 page_x (fs_of disk_c1 false))
  = events (fs_of disk_c1 false)
    ++ map (fun i => Ewrite (swap_block (fs_of disk_c1 false) 3 i)
                            (page_block page_x i)) (seqZ 0 8) /\
  loglock (swapwrite 3 page_x (fs_of disk_c1 false)) = loglock (fs_of disk_c1 false).
Proof.
  apply (swapwrite_then_swapread 3 page_x (repeat 0 4096) (fs_of disk_c1 false)).
  - reflexivity.
  - reflexivity.
  - intros b. unfold bread, fs_of, disk_c1. cbn.
    repeat (destruct (_ =? _); [reflexivity |]). reflexivity.
  - unfold swap_slot_ok. cbn. lia.
Defined.

Lemma swapwrite_other_slot_witness :
  swapread 4 (repeat 0 4096) (swapwrite 3 page_x (fs_of disk_c1 false))
  = swapread 4 (repeat 0 4096) (fs_of disk_c1 false).
Proof.
  apply (swapwrite_other_slot 3 4 page_x (repeat 0 4096) (fs_of disk_c1 false)).
  - reflexivity.
  - intros b. unfold bread, fs_of, disk_c1. cbn.
    repeat (destruct (_ =? _); [reflexivity |]). reflexivity.
  - unfold swap_slot_ok. cbn. lia.
  - unfold swap_slot_ok. cbn. lia.
  - lia.
Defined.

(* ===================================================================== *)
(** ** Descriptors *)
(* ===================================================================== *)

Section fdtable.
Context `{Config}.

Lemma free_fd_from_spec (k : kernel) :
  forall fuel fd,
    0 <= fd -> fd + Z.of_nat fuel = NOFILE ->
    let r := free_fd_from fuel fd k in
    fd <= r <= NOFILE /\
    (forall j, fd <= j < r -> default None (files k !! Z.to_nat j) <> None) /\
    (r < NOFILE -> default None (files k !! Z.to_nat r) = None).
Proof.
  induction fuel as [| fuel IH]; intros fd Hfd Hsum; cbn [free_fd_from].
  - cbn. split; [lia |]. split; intros; lia.
  - destruct (Z.ltb_spec fd NOFILE) as [Hlt | Hge]; [| lia].
    destruct (default None (files k !! Z.to_nat fd)) as [fi |] eqn:E.
    + destruct (IH (fd + 1)) as (Hr & Hused & Hfree); [lia | lia |].
      split; [lia |]. split; [| exact Hfree].
      intros j Hj. destruct (Z.eq_dec j fd) as [-> | Hne].
      * rewrite E. discriminate.
      * apply Hused. lia.
    + cbn. split; [lia |]. split; [intros; lia | intros _; exact E].
Qed.

Lemma free_fd_spec (k : kernel) :
  0 <= NOFILE ->
  0 <= free_fd k <= NOFILE /\
  (forall j, 0 <= j < free_fd k -> default None (files k !! Z.to_nat j) <> None) /\
  (free_fd k < NOFILE -> default None (files k !! Z.to_nat (free_fd k)) = None).
Proof.
  intros Hn. unfold free_fd. apply free_fd_from_spec; lia.
Qed.

Lemma set_file_same (k : kernel) (fi : nat) (fp : file_info) :
  files_global k !! fi = Some fp -> set_file k fi fp = k.
Proof.
  intros Hfp. unfold set_file. rewrite list_insert_id by assumption.
  now destruct k.
Qed.

Lemma sys_dup_run (k : kernel) (fd_old : Z) (fi : nat) (fp : file_info) :
  fd_lookup k fd_old = Some fi ->
  files_global k !! fi = Some fp -> f_lock fp = false ->
  free_fd k <> NOFILE ->
  sys_dup (args_fd fd_old) k
  = FRet (free_fd k)
         (set_file (set_fd k (free_fd k) (Some fi)) fi
                   (set_ref fp (int32 (ref fp + 1)))) [].
Proof.
  intros Hfd Hfp Hlock Hfree.
  unfold sys_dup. cbn [arg_fd args_fd]. rewrite Hfd.
  destruct (Z.eqb_spec (free_fd k) NOFILE); [contradiction |].
  unfold filedup. cbn [files_global set_fd]. now rewrite Hfp, Hlock.
Qed.

(** X14.  [sys_dup] of an open descriptor, with a free descriptor left
    and the entry's lock free, returns the lowest free descriptor.  That
    descriptor then names the same entry of [files_global] as the old one,
    whose [ref] went up by one; no other descriptor, no other entry, no
    inode and no pipe is changed.
    Assumed: the descriptor table has [NOFILE] entries. *)
Theorem sys_dup_lowest_free (k : kernel) (fd_old : Z) (fi : nat)
    (fp : file_info) :
  fd_table_ok k -> 0 <= NOFILE ->
  fd_lookup k fd_old = Some fi ->
  files_global k !! fi = Some fp -> f_lock fp = false ->
  free_fd k < NOFILE ->
  exists k',
    sys_dup (args_fd fd_old) k = FRet (free_fd k) k' [] /\
    fd_lookup k (free_fd k) = None /\
    (forall j, 0 <= j < free_fd k -> fd_lookup k j <> None) /\
    fd_lookup k' (free_fd k) = Some fi /\
    (forall j, j <> free_fd k -> fd_lookup k' j = fd_lookup k j) /\
    files_global k' !! fi = Some (set_ref fp (int32 (ref fp + 1))) /\
    (forall j, j <> fi -> files_global k' !! j = files_global k !! j) /\
    kfs k' = kfs k /\ pipes k' = pipes k.
Proof.
  intros Hok Hn Hfd Hfp Hlock Hfree.
  destruct (free_fd_spec k Hn) as (Hr & Hused & Hnone).
  specialize (Hnone Hfree).
  set (fd := free_fd k) in *.
  assert (Hlen : (Z.to_nat fd < length (files k))%nat)
    by (unfold fd_table_ok in Hok; lia).
  eexists. split; [apply (sys_dup_run k fd_old fi fp); auto; lia |].
  fold fd.
  assert (Hlk : forall j, fd_lookup (set_fd k fd (Some fi)) j
                          = if j =? fd then
                              (if (NOFILE <=? j) || (j <? 0) then None else Some fi)
                            else fd_lookup k j).
  { intros j. unfold fd_lookup. cbn [files set_fd].
    destruct ((NOFILE <=? j) || (j <? 0)) eqn:Er.
    - now destruct (j =? fd).
    - apply orb_false_elim in Er. destruct Er as [E1 E2].
      apply Z.leb_gt in E1. apply Z.ltb_ge in E2.
      destruct (Z.eqb_spec j fd) as [-> | Hne].
      + now rewrite list_lookup_insert_eq.
      + rewrite list_lookup_insert_ne by lia. reflexivity. }
  repeat split.
  - unfold fd_lookup. destruct ((NOFILE <=? fd) || (fd <? 0)); [reflexivity |].
    exact Hnone.
  - intros j Hj. unfold fd_lookup.
    destruct (Z.leb_spec NOFILE j); [lia |].
    destruct (Z.ltb_spec j 0); [lia |]. cbn. now apply Hused.
  - change (fd_lookup (set_fd k fd (Some fi)) fd = Some fi).
    rewrite Hlk, Z.eqb_refl.
    destruct (Z.leb_spec NOFILE fd); [lia |].
    destruct (Z.ltb_spec fd 0); [lia |]. reflexivity.
  - intros j Hj. change (fd_lookup (set_fd k fd (Some fi)) j = fd_lookup k j).
    rewrite Hlk. destruct (Z.eqb_spec j fd); [contradiction | reflexivity].
  - cbn. apply list_lookup_insert_eq. apply lookup_lt_is_Some. eauto.
  - intros j Hj. cbn. now rewrite list_lookup_insert_ne by congruence.
Qed.

(** X15.  [sys_close] of the descriptor that [sys_dup] returned brings
    the kernel state back to what it was before the [sys_dup].
    Assumed: the descriptor is open, a free descriptor is left, the entry's
    lock is free and its [ref] is at least 1 and below [INT_MAX]. *)
Theorem sys_dup_then_close (k : kernel) (fd_old : Z) (fi : nat)
    (fp : file_info) :
  fd_table_ok k -> 0 <= NOFILE ->
  fd_lookup k fd_old = Some fi ->
  files_global k !! fi = Some fp -> f_lock fp = false ->
  1 <= ref fp < 2 ^ 31 - 1 ->
  free_fd k < NOFILE ->
  exists k1,
    sys_dup (args_fd fd_old) k = FRet (free_fd k) k1 [] /\
    sys_close (args_fd (free_fd k)) k1 = FRet 0 k [].
Proof.
  intros Hok Hn Hfd Hfp Hlock Href Hfree.
  eexists. split; [apply (sys_dup_run k fd_old fi fp); auto; lia |].
  destruct (free_fd_spec k Hn) as (Hr & Hused & Hnone).
  specialize (Hnone Hfree).
  set (fd := free_fd k) in *.
  assert (Hlen : (Z.to_nat fd < length (files k))%nat)
    by (unfold fd_table_ok in Hok; lia).
  assert (Hslot : files k !! Z.to_nat fd = Some None).
  { destruct (lookup_lt_is_Some_2 _ _ Hlen) as [v Hv]. rewrite Hv in *.
    cbn in Hnone. now subst. }
  assert (Hfil : (fi < length (files_global k))%nat)
    by (apply lookup_lt_is_Some; eauto).
  unfold sys_close. cbn [arg_fd args_fd].
  assert (Hnew : fd_lookup (set_file (set_fd k fd (Some fi)) fi
                              (set_ref fp (int32 (ref fp + 1)))) fd = Some fi).
  { unfold fd_lookup. cbn [files set_file set_fd].
    destruct (Z.leb_spec NOFILE fd); [lia |].
    destruct (Z.ltb_spec fd 0); [lia |]. cbn.
    now rewrite list_lookup_insert_eq. }
  rewrite Hnew. unfold fileclose. cbn [files_global set_file set_fd].
  rewrite list_lookup_insert_eq by assumption.
  cbn [f_lock ref set_ref is_pipe]. rewrite Hlock.
  rewrite (int32_id (ref fp + 1)) by lia.
  replace (ref fp + 1 - 1) with (ref fp) by lia.
  rewrite (int32_id (ref fp)) by lia.
  destruct (Z.eqb_spec (ref fp) 0); [lia |].
  f_equal. unfold set_fd, set_file. cbn.
  rewrite !list_insert_insert_eq.
  assert (E : set_ref (set_ref fp (ref fp + 1)) (ref fp) = fp) by now destruct fp.
  rewrite E, !list_insert_id by assumption.
  now destruct k.
Qed.

Lemma fileclose_files (fi : nat) (k k1 : kernel) (r : Z) (c : list kcall) :
  fileclose fi k = FRet r k1 c -> files k1 = files k.
Proof.
  unfold fileclose, pipeclose.
  destruct (files_global k !! fi) as [fp |]; [| discriminate].
  destruct (f_lock fp); [discriminate |].
  cbn [ref set_ref is_pipe ip pp perm pipes set_file kfs].
  destruct (int32 (ref fp - 1) =? 0).
  - destruct (is_pipe fp).
    + destruct (pp fp) as [pi |]; [| discriminate].
      destruct (pipes k !! pi) as [p |]; [| discriminate].
      destruct (perm fp =? O_RDONLY); [intros E; injection E as <- <- <-; reflexivity |].
      destruct (perm fp =? O_WRONLY); [intros E; injection E as <- <- <-; reflexivity |].
      discriminate.
    + destruct (ip fp) as [i |]; [| discriminate].
      destruct (irelease i (kfs k)); try discriminate.
      intros E; injection E as <- <- <-; reflexivity.
  - intros E; injection E as <- <- <-; reflexivity.
Qed.

(** X16.  After a successful [sys_close(fd)] the descriptor is closed:
    [sys_read], [sys_write], [sys_dup] and a second [sys_close] on it all
    return -1 and change nothing.  The other descriptors are as before.
    Assumed: the descriptor table has [NOFILE] entries. *)
Theorem sys_close_then_closed (k k' : kernel) (fd : Z) (c : list kcall)
    (a : sysargs) :
  fd_table_ok k ->
  sys_close (args_fd fd) k = FRet 0 k' c ->
  arg_fd a = Some fd ->
  fd_lookup k' fd = None /\
  (forall j, j <> fd -> fd_lookup k' j = fd_lookup k j) /\
  sys_read a k' = SysRet (-1) k' [] /\
  sys_write a k' = SysRet (-1) k' [] /\
  sys_dup a k' = FRet (-1) k' [] /\
  sys_close a k' = FRet (-1) k' [].
Proof.
  intros Hok Hc Ha. unfold sys_close in Hc. cbn [arg_fd args_fd] in Hc.
  destruct (fd_lookup k fd) as [fi |] eqn:Hfd; [| discriminate].
  destruct (fileclose fi k) as [r k1 c1 |] eqn:Hfc; [| discriminate].
  injection Hc as <- <-.
  pose proof (fileclose_files fi k k1 r c1 Hfc) as Hfiles.
  assert (Hrange : 0 <= fd < NOFILE).
  { unfold fd_lookup in Hfd. destruct (Z.leb_spec NOFILE fd); [discriminate |].
    destruct (Z.ltb_spec fd 0); [discriminate | lia]. }
  assert (Hnone : fd_lookup (set_fd k1 fd None) fd = None).
  { unfold fd_lookup. cbn [files set_fd].
    destruct ((NOFILE <=? fd) || (fd <? 0)); [reflexivity |].
    rewrite list_lookup_insert_eq; [reflexivity |].
    rewrite Hfiles. unfold fd_table_ok in Hok. lia. }
  split; [exact Hnone |]. split.
  { intros j Hj. unfold fd_lookup. cbn [files set_fd]. rewrite Hfiles.
    destruct ((NOFILE <=? j) || (j <? 0)) eqn:Er; [reflexivity |].
    apply orb_false_elim in Er. destruct Er as [E1 E2].
    apply Z.leb_gt in E1. apply Z.ltb_ge in E2.
    rewrite list_lookup_insert_ne by lia. reflexivity. }
  unfold sys_read, sys_write, sys_dup, sys_close. rewrite Ha, Hnone.
  repeat split.
  - destruct (arg_n a) as [n |]; [| reflexivity].
    destruct (n <=? 0); [reflexivity |]. now destruct (arg_buf_ok a n).
  - destruct (arg_n a) as [n |]; [| reflexivity].
    destruct (n <=? 0); [reflexivity |]. now destruct (arg_buf_ok a n).
Qed.

(** X17.  [sys_close] of the last descriptor of a regular file (entry
    [ref] 1) releases the inode: the inode's reference count goes down by
    one (and its type is zeroed when that was its last reference), and the
    entry of [files_global] ends with [ref] 0, offset 0 and no inode, which
    is what [fileopen] and [pipeopen] take for a free entry.
    Assumed: the entry's lock is free and its inode pointer is a slot of the
    inode cache. *)
Theorem sys_close_last_reference (k : kernel) (fd : Z) (fi : nat)
    (fp : file_info) (i : iptr) (ino : inode) :
  fd_lookup k fd = Some fi -> files_global k !! fi = Some fp ->
  f_lock fp = false -> ref fp = 1 -> is_pipe fp = false -> pp fp = None ->
  ip fp = Some i -> iget_at (kfs k) i = Some ino ->
  exists k',
    sys_close (args_fd fd) k = FRet 0 k' [] /\
    (exists fp', files_global k' !! fi = Some fp' /\
       ref fp' = 0 /\ offset fp' = 0 /\ entry_free fp' = true) /\
    (exists ino', iget_at (kfs k') i = Some ino' /\
       i_ref ino' = int32 (i_ref ino - 1) /\
       i_type ino' = if i_ref ino =? 1 then 0 else i_type ino) /\
    pipes k' = pipes k.
Proof.
  intros Hfd Hfp Hlock Href Hpipe Hpp Hip Hino.
  assert (Hfil : (fi < length (files_global k))%nat)
    by (apply lookup_lt_is_Some; eauto).
  unfold sys_close. cbn [arg_fd args_fd]. rewrite Hfd.
  unfold fileclose. rewrite Hfp, Hlock.
  cbn [ref set_ref is_pipe ip]. rewrite Href, Hpipe, Hip. cbn [Z.sub].
  change (int32 (1 - 1) =? 0) with true. cbn match.
  unfold irelease. cbn [kfs set_file]. rewrite Hino.
  eexists. split; [reflexivity |]. cbn [files_global set_fd set_file set_kfs kfs pipes].
  repeat split.
  - eexists. split.
    + rewrite list_insert_insert_eq. now apply list_lookup_insert_eq.
    + cbn. rewrite Hpp. repeat split.
  - destruct i as [| j]; cbn [iget_at iput_at inodefile inodes set_inodefile set_inodes] in *.
    + eexists. split; [reflexivity |]. cbn. split; [| now destruct (i_ref ino =? 1)].
      now destruct (i_ref ino =? 1).
    + eexists. split.
      * apply list_lookup_insert_eq. apply lookup_lt_is_Some. eauto.
      * cbn. split; now destruct (i_ref ino =? 1).
Qed.

(** X18.  Closing the last descriptor of the write end of a pipe clears
    [hasopenwrite], so that from then on [piperead] never goes to sleep and
    returns 0 on the empty pipe.  The only [wakeup] made is on channel 0,
    and the pipe's page is freed if the read end is closed already.  The
    entry of [files_global] keeps its pipe pointer, so it fails
    the free test of [pipeopen] and [fileopen].
    Assumed: the entry's lock is free, its [ref] is 1, its [perm] is
    [O_WRONLY], and [O_RDONLY] and [O_WRONLY] differ. *)
Theorem close_write_end_gives_eof (k : kernel) (fd : Z) (fi pi : nat)
    (fp : file_info) (p : pipe) :
  fd_lookup k fd = Some fi -> files_global k !! fi = Some fp ->
  f_lock fp = false -> ref fp = 1 -> is_pipe fp = true ->
  pp fp = Some pi -> pipes k !! pi = Some p ->
  perm fp = O_WRONLY -> O_RDONLY <> O_WRONLY ->
  exists k' c,
    sys_close (args_fd fd) k = FRet 0 k' c /\
    pipes k' !! pi = Some (set_hasopenwrite p false) /\
    c = Cwakeup 0 :: (if hasopenread p then [] else [Ckfree pi]) /\
    (forall n, piperead (set_hasopenwrite p false) n <> Sleeps) /\
    (forall n, head p = tail p ->
       piperead (set_hasopenwrite p false) n
       = Returns (0, set_hasopenwrite p false, [])) /\
    (exists fp', files_global k' !! fi = Some fp' /\ ref fp' = 0 /\
                 entry_free fp' = false).
Proof.
  intros Hfd Hfp Hlock Href Hpipe Hpp Hp Hperm Hne.
  assert (Hfil : (fi < length (files_global k))%nat)
    by (apply lookup_lt_is_Some; eauto).
  unfold sys_close. cbn [arg_fd args_fd]. rewrite Hfd.
  unfold fileclose. rewrite Hfp, Hlock.
  cbn [ref set_ref is_pipe]. rewrite Href, Hpipe.
  change (int32 (1 - 1) =? 0) with true. cbn match.
  unfold pipeclose. cbn [pp set_ref perm pipes set_file]. rewrite Hpp, Hp, Hperm.
  destruct (Z.eqb_spec O_WRONLY O_RDONLY) as [E | _]; [congruence |].
  rewrite Z.eqb_refl.
  eexists _, _. split; [reflexivity |].
  cbn [pipes set_fd set_pipe files_global set_file hasopenread hasopenwrite
       set_hasopenwrite].
  split; [apply list_lookup_insert_eq; apply lookup_lt_is_Some; eauto |].
  split; [now destruct (hasopenread p) |].
  split; [| split].
  - intros n. unfold piperead. cbn.
    destruct (head p =? tail p); [discriminate |].
    destruct (_ <? n); discriminate.
  - intros n Heq. unfold piperead. cbn. apply Z.eqb_eq in Heq. now rewrite Heq.
  - eexists. split; [now apply list_lookup_insert_eq |].
    split; [reflexivity |]. unfold entry_free. cbn [ip pp set_ref].
    rewrite Hpp. now destruct (ip fp).
Qed.

(** X19.  Closing the last descriptor of the read end of a pipe clears
    [hasopenread], so that [pipewrite] returns -1 from then on and leaves
    the pipe alone.
    Assumed: the entry's lock is free, its [ref] is 1 and its [perm] is
    [O_RDONLY]. *)
Theorem close_read_end_fails_writes (k : kernel) (fd : Z) (fi pi : nat)
    (fp : file_info) (p : pipe) (src : list Z) (n : Z) :
  fd_lookup k fd = Some fi -> files_global k !! fi = Some fp ->
  f_lock fp = false -> ref fp = 1 -> is_pipe fp = true ->
  pp fp = Some pi -> pipes k !! pi = Some p ->
  perm fp = O_RDONLY ->
  exists k' c,
    sys_close (args_fd fd) k = FRet 0 k' c /\
    pipes k' !! pi = Some (set_hasopenread p false) /\
    c = Cwakeup 0 :: (if hasopenwrite p then [] else [Ckfree pi]) /\
    pipewrite (set_hasopenread p false) src n
    = Returns (-1, set_hasopenread p false).
Proof.
  intros Hfd Hfp Hlock Href Hpipe Hpp Hp Hperm.
  assert (Hfil : (fi < length (files_global k))%nat)
    by (apply lookup_lt_is_Some; eauto).
  unfold sys_close. cbn [arg_fd args_fd]. rewrite Hfd.
  unfold fileclose. rewrite Hfp, Hlock.
  cbn [ref set_ref is_pipe]. rewrite Href, Hpipe.
  change (int32 (1 - 1) =? 0) with true. cbn match.
  unfold pipeclose. cbn [pp set_ref perm pipes set_file]. rewrite Hpp, Hp, Hperm.
  rewrite Z.eqb_refl.
  eexists _, _. split; [reflexivity |].
  cbn [pipes set_fd set_pipe files_global set_file hasopenread hasopenwrite
       set_hasopenread].
  split; [apply list_lookup_insert_eq; apply lookup_lt_is_Some; eauto |].
  split; [now destruct (hasopenwrite p) |].
  reflexivity.
Qed.

End fdtable.

Lemma sys_dup_lowest_free_witness :
  exists k',
    @sys_dup xk_config (args_fd 0) kernel_fd
    = FRet (@free_fd xk_config kernel_fd) k' [] /\
    @fd_lookup xk_config kernel_fd (@free_fd xk_config kernel_fd) = None /\
    (forall j, 0 <= j < @free_fd xk_config kernel_fd ->
               @fd_lookup xk_config kernel_fd j <> None) /\
    @fd_lookup xk_config k' (@free_fd xk_config kernel_fd) = Some 0%nat /\
    (forall j, j <> @free_fd xk_config kernel_fd ->
               @fd_lookup xk_config k' j = @fd_lookup xk_config kernel_fd j) /\
    files_global k' !! 0%nat
    = Some (set_ref {| f_lock := false; ip := Some (Icache 0); pp := None;
                       is_pipe := false; ref := 1; offset := 10; perm := 2 |}
                    (int32 (1 + 1))) /\
    (forall j, j <> 0%nat -> files_global k' !! j = files_global kernel_fd !! j) /\
    kfs k' = kfs kernel_fd /\ pipes k' = pipes kernel_fd.
Proof.
  apply (@sys_dup_lowest_free xk_config kernel_fd 0 0
           {| f_lock := false; ip := Some (Icache 0); pp := None;
              is_pipe := false; ref := 1; offset := 10; perm := 2 |}).
  - reflexivity.
  - cbn. lia.
  - reflexivity.
  - reflexivity.
  - reflexivity.
  - vm_compute. reflexivity.
Defined.

Lemma sys_dup_then_close_witness :
  exists k1,
    @sys_dup xk_config (args_fd 0) kernel_fd
    = FRet (@free_fd xk_config kernel_fd) k1 [] /\
    @sys_close xk_config (args_fd (@free_fd xk_config kernel_fd)) k1
    = FRet 0 kernel_fd [].
Proof.
  apply (@sys_dup_then_close xk_config kernel_fd 0 0
           {| f_lock := false; ip := Some (Icache 0); pp := None;
              is_pipe := false; ref := 1; offset := 10; perm := 2 |}).
  - reflexivity.
  - cbn. lia.
  - reflexivity.
  - reflexivity.
  - reflexivity.
  - cbn. lia.
  - vm_compute. reflexivity.
Defined.

Lemma sys_close_then_closed_witness :
  exists k' c,
    @sys_close xk_config (args_fd 0) kernel_fd = FRet 0 k' c /\
    @fd_lookup xk_config k' 0 = None /\
    (forall j, j <> 0 -> @fd_lookup xk_config k' j
                         = @fd_lookup xk_config kernel_fd j) /\
    @sys_read xk_config (args_c10 4) k' = SysRet (-1) k' [] /\
    @sys_write xk_config (args_c10 4) k' = SysRet (-1) k' [] /\
    @sys_dup xk_config (args_c10 4) k' = FRet (-1) k' [] /\
    @sys_close xk_config (args_c10 4) k' = FRet (-1) k' [].
Proof.
  eexists _, _. split; [reflexivity |].
  eapply (@sys_close_then_closed xk_config kernel_fd _ 0 _ (args_c10 4));
    reflexivity.
Defined.

Lemma sys_close_last_reference_witness :
  exists k',
    @sys_close xk_config (args_fd 0) kernel_fd = FRet 0 k' [] /\
    (exists fp', files_global k' !! 0%nat = Some fp' /\
       ref fp' = 0 /\ offset fp' = 0 /\ entry_free fp' = true) /\
    (exists ino', iget_at (kfs k') (Icache 0) = Some ino' /\
       i_ref ino' = int32 (i_ref (set_ilock file_c7 false) - 1) /\
       i_type ino' = if i_ref (set_ilock file_c7 false) =? 1 then 0
                     else i_type (set_ilock file_c7 false)) /\
    pipes k' = pipes kernel_fd.
Proof.
  apply (@sys_close_last_reference xk_config kernel_fd 0 0
           {| f_lock := false; ip := Some (Icache 0); pp := None;
              is_pipe := false; ref := 1; offset := 10; perm := 2 |}
           (Icache 0) (set_ilock file_c7 false)); reflexivity.
Defined.

Lemma close_write_end_gives_eof_witness :
  exists k' c,
    @sys_close xk_config (args_fd 2) kernel_fd = FRet 0 k' c /\
    pipes k' !! 0%nat
    = Some (set_hasopenwrite (fresh_pipe (repeat 0 4096) 128) false) /\
    c = Cwakeup 0 :: (if hasopenread (fresh_pipe (repeat 0 4096) 128)
                      then [] else [Ckfree 0]) /\
    (forall n, @piperead xk_config
                 (set_hasopenwrite (fresh_pipe (repeat 0 4096) 128) false) n
               <> Sleeps) /\
    (forall n, head (fresh_pipe (repeat 0 4096) 128)
               = tail (fresh_pipe (repeat 0 4096) 128) ->
       @piperead xk_config
         (set_hasopenwrite (fresh_pipe (repeat 0 4096) 128) false) n
       = Returns (0, set_hasopenwrite (fresh_pipe (repeat 0 4096) 128) false,
                  [])) /\
    (exists fp', files_global k' !! 2%nat = Some fp' /\ ref fp' = 0 /\
                 entry_free fp' = false).
Proof.
  apply (@close_write_end_gives_eof xk_config kernel_fd 2 2 0
           {| f_lock := false; ip := None; pp := Some 0%nat;
              is_pipe := true; ref := 1; offset := 0; perm := 1 |}
           (fresh_pipe (repeat 0 4096) 128)); try reflexivity.
  cbn. lia.
Defined.

Lemma close_read_end_fails_writes_witness :
  exists k' c,
    @sys_close xk_config (args_fd 1) kernel_fd = FRet 0 k' c /\
    pipes k' !! 0%nat
    = Some (set_hasopenread (fresh_pipe (repeat 0 4096) 128) false) /\
    c = Cwakeup 0 :: (if hasopenwrite (fresh_pipe (repeat 0 4096) 128)
                      then [] else [Ckfree 0]) /\
    @pipewrite xk_config
      (set_hasopenread (fresh_pipe (repeat 0 4096) 128) false) [1; 2; 3] 3
    = Returns (-1, set_hasopenread (fresh_pipe (repeat 0 4096) 128) false).
Proof.
  apply (@close_read_end_fails_writes xk_config kernel_fd 1 1 0
           {| f_lock := false; ip := None; pp := Some 0%nat;
              is_pipe := true; ref := 1; offset := 0; perm := 0 |}
           (fresh_pipe (repeat 0 4096) 128) [1; 2; 3] 3); reflexivity.
Defined.

(* ===================================================================== *)
(** ** A transaction around one block *)
(* ===================================================================== *)

Lemma mem_read_mem_write_prefix (m x : list Z) (n : Z) :
  length x = Z.to_nat n -> (Z.to_nat n <= length m)%nat ->
  mem_read (mem_write m 0 x n) 0 n = x.
Proof.
  intros Hx Hm. unfold mem_read, mem_write. change (Z.to_nat 0) with 0%nat.
  rewrite drop_0. rewrite <- Hx, firstn_all.
  rewrite list_inserts_0 by lia.
  now rewrite take_app_length.
Qed.

(** A buffer store followed by [bwrite] of that buffer. *)
Lemma put_block_spec (s : fs) (x : Z) (d : list Z) :
  let s' := bwrite (bset s x d) x in
  sb s' = sb s /\ loglock s' = loglock s /\ junk s' = junk s /\
  events s' = events s ++ [Ewrite x d] /\
  (forall y, bread s' y = if y =? x then d else bread s y) /\
  (forall y, disk s' y = if y =? x then d else disk s y).
Proof.
  cbn zeta. unfold bwrite.
  assert (Hb : bread (bset s x d) x = d)
    by (unfold bread, bset; cbn; now rewrite upd_same).
  rewrite Hb. cbn. repeat split.
  - intros y. unfold bread. cbn. unfold upd. destruct (y =? x); reflexivity.
Qed.

Lemma bread_bset (s : fs) (x : Z) (d : list Z) (y : Z) :
  bread (bset s x d) y = if y =? x then d else bread s y.
Proof. unfold bread, bset. cbn. unfold upd. now destruct (y =? x). Qed.

Lemma bread_set_loglock (s : fs) (l : bool) (e : list event) (y : Z) :
  bread (set_loglock s l e) y = bread s y.
Proof. reflexivity. Qed.

Lemma le_dec_le_enc4 (b : Z) :
  0 <= b < 2 ^ 32 -> le_dec (le_enc 4 b) = b.
Proof.
  intros Hb. cbn [le_enc le_dec].
  change (2 ^ 32) with 4294967296 in Hb.
  Z.div_mod_to_equations. lia.
Qed.

Lemma zeros_log_fields :
  lm_commited (zeros sizeof_log_meta) = 0 /\
  lm_nchanges (zeros sizeof_log_meta) = 0.
Proof. split; reflexivity. Qed.

Section one_block.
Variables (s : fs) (b : Z) (data : list Z).
Hypothesis Hready : tx_ready s b.
Hypothesis Hdata : length data = Z.to_nat BSIZE.

Lemma log1_fields :
  length (tx_log1 b) = Z.to_nat sizeof_log_meta /\
  lm_commited (tx_log1 b) = 0 /\ lm_nchanges (tx_log1 b) = 1 /\
  length (tx_logc b) = Z.to_nat sizeof_log_meta /\
  lm_commited (tx_logc b) = 1 /\ lm_nchanges (tx_logc b) = 1 /\
  forall tl, lm_blockno (tx_logc b ++ tl) 0 = b.
Proof.
  destruct Hready as (_ & _ & _ & _ & _ & Hb & _).
  repeat split; try reflexivity.
  intros tl. unfold lm_blockno, rd.
  transitivity (le_dec (le_enc 4 b)); [reflexivity | now apply le_dec_le_enc4].
Qed.

Lemma header_lengths :
  length (tx_h0 s) = Z.to_nat BSIZE /\ length (tx_h1 s b) = Z.to_nat BSIZE /\
  length (tx_h1c s b) = Z.to_nat BSIZE /\ length (tx_h0' s b) = Z.to_nat BSIZE.
Proof.
  destruct Hready as (_ & Hwf & _).
  unfold tx_h0', tx_h1c, tx_h1, tx_h0. rewrite !mem_write_length.
  repeat split; apply Hwf.
Qed.

Lemma header_reads :
  mem_read (tx_h0 s) 0 sizeof_log_meta = zeros sizeof_log_meta /\
  mem_read (tx_h1 s b) 0 sizeof_log_meta = tx_log1 b /\
  mem_read (tx_h1c s b) 0 sizeof_log_meta = tx_logc b /\
  mem_read (tx_h0' s b) 0 sizeof_log_meta = zeros sizeof_log_meta.
Proof.
  destruct header_lengths as (L0 & L1 & L1c & L0').
  destruct Hready as (_ & Hwf & _).
  destruct log1_fields as (Ll1 & _ & _ & Llc & _).
  assert (H84 : (Z.to_nat sizeof_log_meta <= Z.to_nat BSIZE)%nat)
    by (unfold sizeof_log_meta, BSIZE; lia).
  repeat split; apply mem_read_mem_write_prefix;
    rewrite ?Hwf, ?L0, ?L1, ?L1c; try exact H84; try assumption; reflexivity.
Qed.

Lemma one_block_tx_run :
  exists s4,
    one_block_tx b data s = Done tt s4 /\
    events s4 = events s ++ tx_trace s b data /\
    loglock s4 = false /\ sb s4 = sb s /\
    (forall y, disk s4 y
               = if y =? logstart (sb s) then tx_h0' s b
                 else if y =? b then data
                 else if y =? logstart (sb s) + 1 then data
                 else disk s y) /\
    (forall y, bread s4 y
               = if y =? logstart (sb s) then tx_h0' s b
                 else if y =? b then data
                 else if y =? logstart (sb s) + 1 then data
                 else bread s y).
Proof.
  destruct Hready as (Hlock & Hwf & Hwd & Hlb0 & Hlb1 & Hb & Hblb & Hblb1 & _).
  destruct header_lengths as (L0 & L1 & L1c & L0').
  destruct header_reads as (R0 & R1 & R1c & R0').
  destruct log1_fields as (Ll1 & C1 & N1 & Llc & Cc & Nc & Bc).
  unfold one_block_tx, begin_tx. rewrite Hlock. cbn [bind].
  (* begin_tx *)
  set (sa := set_loglock s true (events s ++ [Ebegin])).
  change (logstart (sb sa)) with (logstart (sb s)). change (bread sa (logstart (sb s))) with (bread s (logstart (sb s))).
  fold (tx_h0 s).
  destruct (put_block_spec sa (logstart (sb s)) (tx_h0 s)) as (Hsb1 & Hl1 & Hj1 & He1 & Hbr1 & Hd1).
  set (s1 := bwrite (bset sa (logstart (sb s)) (tx_h0 s)) (logstart (sb s))) in *.
  (* the store into the buffer of [b] *)
  set (s2 := bset s1 b data).
  assert (Hbr2 : forall y, bread s2 y = if y =? b then data
                                        else if y =? (logstart (sb s)) then tx_h0 s else bread s y).
  { intros y. subst s2. rewrite bread_bset, Hbr1. reflexivity. }
  (* log_write *)
  unfold log_write. change (loglock s2) with (loglock s1). rewrite Hl1. cbn [negb loglock sa set_loglock].
  change (logstart (sb s2)) with (logstart (sb s1)). rewrite Hsb1.
  change (logstart (sb sa)) with (logstart (sb s)).
  rewrite (Hbr2 (logstart (sb s))). destruct (Z.eqb_spec (logstart (sb s)) b) as [E | _]; [congruence |].
  rewrite Z.eqb_refl, R0.
  change (19 <=? lm_nchanges (zeros sizeof_log_meta)) with false. cbn match.
  change (lm_nchanges (zeros sizeof_log_meta)) with 0.
  change (uint32 (lm_nchanges (lm_set_blockno (zeros sizeof_log_meta) 0 b) + 1))
    with 1.
  fold (tx_log1 b). rewrite N1.
  rewrite (uint32_id ((logstart (sb s)) + 1)) by lia.
  rewrite (Hbr2 ((logstart (sb s)) + 1)), (Hbr2 b), Z.eqb_refl.
  destruct (Z.eqb_spec ((logstart (sb s)) + 1) b) as [E | _]; [congruence |].
  destruct (Z.eqb_spec ((logstart (sb s)) + 1) (logstart (sb s))) as [E | _]; [lia |].
  rewrite (mem_write_block (bread s ((logstart (sb s)) + 1)) data) by (auto; apply Hwf).
  destruct (put_block_spec s2 ((logstart (sb s)) + 1) data) as (Hsb3 & Hl3 & Hj3 & He3 & Hbr3 & Hd3).
  set (s3 := bwrite (bset s2 ((logstart (sb s)) + 1) data) ((logstart (sb s)) + 1)) in *.
  rewrite (Hbr3 (logstart (sb s))). destruct (Z.eqb_spec (logstart (sb s)) ((logstart (sb s)) + 1)) as [E | _]; [lia |].
  rewrite (Hbr2 (logstart (sb s))). destruct (Z.eqb_spec (logstart (sb s)) b) as [E | _]; [congruence |].
  rewrite Z.eqb_refl. fold (tx_h1 s b).
  destruct (put_block_spec s3 (logstart (sb s)) (tx_h1 s b)) as (Hsb4 & Hl4 & Hj4 & He4 & Hbr4 & Hd4).
  set (s4 := bwrite (bset s3 (logstart (sb s)) (tx_h1 s b)) (logstart (sb s))) in *.
  cbn [bind].
  (* commit_tx *)
  unfold commit_tx.
  assert (Hl4' : loglock s4 = true) by (rewrite Hl4, Hl3; exact Hl1).
  assert (Hsb4' : sb s4 = sb s) by (rewrite Hsb4, Hsb3; exact Hsb1).
  rewrite Hl4'. cbn [negb]. rewrite Hsb4'.
  rewrite (Hbr4 (logstart (sb s))), Z.eqb_refl, R1. fold (tx_logc b). fold (tx_h1c s b).
  destruct (put_block_spec s4 (logstart (sb s)) (tx_h1c s b)) as (Hsb5 & Hl5 & Hj5 & He5 & Hbr5 & Hd5).
  set (s5 := bwrite (bset s4 (logstart (sb s)) (tx_h1c s b)) (logstart (sb s))) in *.
  rewrite Nc. change (seqZ 0 1) with [0]. cbn [fold_left].
  unfold commit_block. rewrite Bc.
  assert (Hsb5' : sb s5 = sb s) by (rewrite Hsb5; exact Hsb4').
  rewrite Hsb5'. rewrite Z.add_0_r, (uint32_id ((logstart (sb s)) + 1)) by lia.
  assert (Hb5b : bread s5 b = data).
  { rewrite Hbr5. destruct (Z.eqb_spec b (logstart (sb s))); [congruence |].
    rewrite Hbr4. destruct (Z.eqb_spec b (logstart (sb s))); [congruence |].
    rewrite Hbr3. destruct (Z.eqb_spec b ((logstart (sb s)) + 1)); [congruence |].
    rewrite Hbr2. now rewrite Z.eqb_refl. }
  assert (Hb5l : bread s5 ((logstart (sb s)) + 1) = data).
  { rewrite Hbr5. destruct (Z.eqb_spec ((logstart (sb s)) + 1) (logstart (sb s))); [lia |].
    rewrite Hbr4. destruct (Z.eqb_spec ((logstart (sb s)) + 1) (logstart (sb s))); [lia |].
    rewrite Hbr3. now rewrite Z.eqb_refl. }
  rewrite Hb5b, Hb5l, mem_write_self.
  destruct (put_block_spec s5 b data) as (Hsb6 & Hl6 & Hj6 & He6 & Hbr6 & Hd6).
  set (s6 := bwrite (bset s5 b data) b) in *.
  assert (Hb6 : bread s6 (logstart (sb s)) = tx_h1c s b).
  { rewrite Hbr6. destruct (Z.eqb_spec (logstart (sb s)) b); [congruence |].
    rewrite Hbr5. now rewrite Z.eqb_refl. }
  rewrite Hb6. fold (tx_h0' s b).
  destruct (put_block_spec s6 (logstart (sb s)) (tx_h0' s b)) as (Hsb7 & Hl7 & Hj7 & He7 & Hbr7 & Hd7).
  set (s7 := bwrite (bset s6 (logstart (sb s)) (tx_h0' s b)) (logstart (sb s))) in *.
  eexists. split; [reflexivity |].
  cbn [events loglock sb disk set_loglock].
  split.
  { rewrite He7, He6, He5, He4, He3. change (events s2) with (events s1).
    rewrite He1. subst sa. cbn [events set_loglock]. unfold tx_trace.
    rewrite <- !app_assoc. reflexivity. }
  split; [reflexivity |].
  split; [rewrite Hsb7, Hsb6; exact Hsb5' |].
  split.
  - intros y. rewrite Hd7.
    destruct (Z.eqb_spec y (logstart (sb s))) as [-> | Hy]; [reflexivity |].
    rewrite Hd6. destruct (y =? b); [reflexivity |].
    rewrite Hd5, Hd4, Hd3.
    destruct (Z.eqb_spec y (logstart (sb s))); [contradiction |].
    destruct (y =? logstart (sb s) + 1); [reflexivity |].
    change (disk s2 y) with (disk s1 y). rewrite Hd1.
    destruct (Z.eqb_spec y (logstart (sb s))); [contradiction |]. reflexivity.
  - intros y. rewrite bread_set_loglock, Hbr7.
    destruct (Z.eqb_spec y (logstart (sb s))) as [-> | Hy]; [reflexivity |].
    rewrite Hbr6. destruct (y =? b) eqn:Eb; [reflexivity |].
    rewrite Hbr5, Hbr4, Hbr3.
    destruct (Z.eqb_spec y (logstart (sb s))); [contradiction |].
    destruct (y =? logstart (sb s) + 1); [reflexivity |].
    rewrite Hbr2, Eb.
    destruct (Z.eqb_spec y (logstart (sb s))); [contradiction |]. reflexivity.
Qed.

End one_block.

(** What [iinit] leaves on the device, by the commit flag of the log
    header found there. *)
Lemma iinit_disk_cases (dev : Z) (s : fs) :
  cache_empty s -> wf_disk (disk s) ->
  let lb := logstart (decode_superblock (mem_read (disk s 1) 0 sizeof_superblock)) in
  let log := mem_read (disk s lb) 0 sizeof_log_meta in
  (lm_commited log <> 1 -> disk (iinit dev s) = disk s) /\
  (lm_commited log = 1 ->
     forall y, y <> lb ->
       disk (iinit dev s) y
       = fold_left (replay_disk lb (log ++ junk s))
                   (seqZ 0 (lm_nchanges log)) (disk s) y).
Proof.
  intros He Hd lb log.
  assert (Hc : cache_clean s) by now apply cache_empty_clean.
  unfold iinit.
  set (s1 := set_loglock _ _ _).
  assert (Hs1 : disk s1 = disk s /\ bufs s1 = bufs s /\ junk s1 = junk s)
    by (cbn; auto).
  destruct Hs1 as (Hdisk1 & Hbufs1 & Hjunk1).
  assert (Hsb1 : logstart (sb s1) = lb).
  { cbn. unfold bread. cbn. rewrite He. reflexivity. }
  assert (Hc1 : cache_clean s1).
  { intros b d. rewrite Hbufs1, Hdisk1. apply Hc. }
  assert (Hd1 : wf_disk (disk s1)) by (rewrite Hdisk1; exact Hd).
  rewrite Hsb1.
  assert (Hlog : mem_read (bread s1 lb) 0 sizeof_log_meta = log).
  { rewrite bread_clean by assumption. rewrite Hdisk1. reflexivity. }
  rewrite Hlog.
  split.
  - intros Hcom.
    destruct (Z.eqb_spec (lm_commited log) 1); [contradiction | assumption].
  - intros Hcom y Hy. rewrite Hcom. cbn [Z.eqb Pos.eqb].
    destruct (replay_fold_disk (log ++ junk s1) (seqZ 0 (lm_nchanges log)) s1
                Hc1 Hd1) as (Hf & _).
    set (s2 := fold_left _ _ s1) in *.
    unfold bwrite. cbn. rewrite upd_other by assumption.
    rewrite Hf, Hsb1, Hjunk1, Hdisk1. reflexivity.
Qed.

Section crash.
Variables (dev : Z) (s : fs) (b : Z) (data : list Z).
Hypothesis Hready : tx_ready s b.
Hypothesis Hdata : length data = Z.to_nat BSIZE.

Lemma recover_from (D : Z -> list Z) :
  wf_disk D -> D 1 = disk s 1 ->
  let s0 := set_disk_bufs s D (fun _ => None) [] in
  (lm_commited (mem_read (D (logstart (sb s))) 0 sizeof_log_meta) <> 1 ->
   disk (iinit dev s0) = D) /\
  (mem_read (D (logstart (sb s))) 0 sizeof_log_meta = tx_logc b ->
   D (logstart (sb s) + 1) = data ->
   forall y, y <> logstart (sb s) ->
     disk (iinit dev s0) y = if y =? b then data else D y).
Proof.
  intros HD H1 s0.
  destruct Hready as (_ & _ & _ & Hlb0 & Hlb1 & Hb & _ & _ & _ & _ & _ & Hsb & _).
  assert (He : cache_empty s0) by (intros y; reflexivity).
  destruct (iinit_disk_cases dev s0 He HD) as (Hno & Hyes).
  cbn [disk s0 set_disk_bufs junk] in Hno, Hyes.
  rewrite H1, Hsb in Hno, Hyes.
  split; [exact Hno |].
  intros Hlog Hshadow y Hy.
  destruct (log1_fields s b Hready) as (_ & _ & _ & _ & Cc & Nc & Bc).
  rewrite Hlog in Hyes. rewrite (Hyes Cc y Hy), Nc.
  change (seqZ 0 1) with [0]. cbn [fold_left]. unfold replay_disk.
  rewrite Bc, Z.add_0_r, (uint32_id (logstart (sb s) + 1)) by lia.
  rewrite Hshadow. unfold upd. reflexivity.
Qed.

Lemma recover_prefix (j : nat) :
  let rec := iinit dev (after_crash s (take j (tx_trace s b data))) in
  disk rec b = (if (j <=? 4)%nat then disk s b else data) /\
  (forall y, y <> logstart (sb s) -> y <> logstart (sb s) + 1 -> y <> b ->
             disk rec y = disk s y).
Proof.
  pose proof Hready as
    (_ & _ & Hwd & Hlb0 & Hlb1 & Hb & Hblb & Hblb1 & Hb1 & Hl1 & Hl11 & Hsb & Hnc).
  destruct (header_lengths s b Hready) as (L0 & L1 & L1c & L0').
  destruct (header_reads s b data Hready Hdata) as (R0 & R1 & R1c & R0').
  destruct (log1_fields s b Hready) as (_ & C1 & _ & _ & Cc & _ & _).
  destruct zeros_log_fields as (C0 & _).
  unfold after_crash, tx_trace.
  set (lb := logstart (sb s)) in *.
  set (D2 := upd (disk s) lb (tx_h0 s)).
  set (D3 := upd D2 (lb + 1) data).
  set (D4 := upd D3 lb (tx_h1 s b)).
  set (D5 := upd D4 lb (tx_h1c s b)).
  set (D6 := upd D5 b data).
  set (D7 := upd D6 lb (tx_h0' s b)).
  assert (W2 : wf_disk D2) by (apply wf_disk_upd; assumption).
  assert (W3 : wf_disk D3) by (apply wf_disk_upd; assumption).
  assert (W4 : wf_disk D4) by (apply wf_disk_upd; assumption).
  assert (W5 : wf_disk D5) by (apply wf_disk_upd; assumption).
  assert (W6 : wf_disk D6) by (apply wf_disk_upd; assumption).
  assert (W7 : wf_disk D7) by (apply wf_disk_upd; assumption).
  assert (Hupd : forall (D : Z -> list Z) x v y, y <> x -> upd D x v y = D y)
    by (intros; now apply upd_other).
  assert (Hsame : forall (D : Z -> list Z) x v, upd D x v x = v)
    by (intros; apply upd_same).
  destruct j as [| [| [| [| [| [| [| j']]]]]]]; cbn [take crash_disk fold_left Nat.leb].
  - destruct (recover_from (disk s) Hwd eq_refl) as [Hno _].
    rewrite (Hno Hnc). split; [reflexivity | auto].
  - destruct (recover_from (disk s) Hwd eq_refl) as [Hno _].
    rewrite (Hno Hnc). split; [reflexivity | auto].
  - fold D2. destruct (recover_from D2 W2) as [Hno _].
    { subst D2. now rewrite Hupd by auto. }
    rewrite Hno.
    + subst D2. split; [now rewrite Hupd by auto |].
      intros y Hy1 Hy2 Hy3. now rewrite Hupd by auto.
    + subst D2. fold lb. rewrite Hsame, R0, C0. discriminate.
  - fold D2 D3. destruct (recover_from D3 W3) as [Hno _].
    { subst D3 D2. now rewrite !Hupd by auto. }
    rewrite Hno.
    + subst D3 D2. split; [now rewrite !Hupd by auto |].
      intros y Hy1 Hy2 Hy3. now rewrite !Hupd by auto.
    + subst D3 D2. fold lb. rewrite Hupd, Hsame, R0, C0 by lia. discriminate.
  - fold D2 D3 D4. destruct (recover_from D4 W4) as [Hno _].
    { subst D4 D3 D2. now rewrite !Hupd by auto. }
    rewrite Hno.
    + subst D4 D3 D2. split; [now rewrite !Hupd by auto |].
      intros y Hy1 Hy2 Hy3. now rewrite !Hupd by auto.
    + subst D4. fold lb. rewrite Hsame, R1, C1. discriminate.
  - fold D2 D3 D4 D5. destruct (recover_from D5 W5) as [_ Hyes].
    { subst D5 D4 D3 D2. now rewrite !Hupd by auto. }
    fold lb in Hyes.
    assert (Hl : mem_read (D5 lb) 0 sizeof_log_meta = tx_logc b)
      by (subst D5; now rewrite Hsame).
    assert (Hs5 : D5 (lb + 1) = data).
    { subst D5 D4 D3. rewrite !Hupd by lia. apply Hsame. }
    specialize (Hyes Hl Hs5). split.
    + rewrite Hyes by auto. now rewrite Z.eqb_refl.
    + intros y Hy1 Hy2 Hy3. rewrite Hyes by auto.
      destruct (Z.eqb_spec y b); [contradiction |].
      subst D5 D4 D3 D2. now rewrite !Hupd by auto.
  - fold D2 D3 D4 D5 D6. destruct (recover_from D6 W6) as [_ Hyes].
    { subst D6 D5 D4 D3 D2. now rewrite !Hupd by auto. }
    fold lb in Hyes.
    assert (Hl : mem_read (D6 lb) 0 sizeof_log_meta = tx_logc b).
    { subst D6 D5. rewrite Hupd by auto. now rewrite Hsame. }
    assert (Hs6 : D6 (lb + 1) = data).
    { subst D6 D5 D4 D3. rewrite !Hupd by (auto; lia). apply Hsame. }
    specialize (Hyes Hl Hs6). split.
    + rewrite Hyes by auto. now rewrite Z.eqb_refl.
    + intros y Hy1 Hy2 Hy3. rewrite Hyes by auto.
      destruct (Z.eqb_spec y b); [contradiction |].
      subst D6 D5 D4 D3 D2. now rewrite !Hupd by auto.
  - assert (E : crash_disk D7 (take j' [Ecommit]) = D7).
    { destruct j'; cbn; [reflexivity |].
      now rewrite take_nil. }
    fold D2 D3 D4 D5 D6 D7.
    change (fold_left _ (take j' [Ecommit]) D7)
      with (crash_disk D7 (take j' [Ecommit])).
    rewrite E.
    destruct (recover_from D7 W7) as [Hno _].
    { subst D7 D6 D5 D4 D3 D2. now rewrite !Hupd by auto. }
    rewrite Hno.
    + subst D7 D6. split.
      * rewrite Hupd by auto. apply Hsame.
      * intros y Hy1 Hy2 Hy3. subst D5 D4 D3 D2. now rewrite !Hupd by auto.
    + subst D7. fold lb. rewrite Hsame, R0', C0. discriminate.
Qed.

End crash.

(** X20.  A transaction around one block: [begin_tx], a store into the
    buffer of block [b], [log_write] of that buffer and [commit_tx] run to
    the end, as one transaction of the trace.  Afterwards block [b] holds
    the new content on the device and in its buffer, the log header on the
    device is cleared, the log lock is free, and no block other than [b],
    the log header and the first shadow block has changed.
    Assumed: the log lock is free, blocks and buffers have [BSIZE] bytes,
    [b] is a 32-bit block number other than the superblock, the log header
    and the first shadow block, the superblock on the device is the one in
    memory, the log on the device is not committed, and the new content has
    [BSIZE] bytes. *)
Theorem one_block_tx_installs (s : fs) (b : Z) (data : list Z) :
  tx_ready s b -> length data = Z.to_nat BSIZE ->
  exists s4 tr,
    one_block_tx b data s = Done tt s4 /\
    events s4 = events s ++ tr /\ txns false tr = Some 1%nat /\
    loglock s4 = false /\
    disk s4 b = data /\ bread s4 b = data /\
    mem_read (disk s4 (logstart (sb s))) 0 sizeof_log_meta
    = zeros sizeof_log_meta /\
    (forall y, y <> logstart (sb s) -> y <> logstart (sb s) + 1 -> y <> b ->
               disk s4 y = disk s y).
Proof.
  intros Hready Hdata.
  destruct (one_block_tx_run s b data Hready Hdata)
    as (s4 & Hrun & Hev & Hlock & Hsb & Hdisk & Hbread).
  destruct (header_reads s b data Hready Hdata) as (_ & _ & _ & R0').
  destruct Hready as (_ & _ & _ & _ & _ & _ & Hblb & Hblb1 & _).
  exists s4, (tx_trace s b data).
  split; [exact Hrun |]. split; [exact Hev |]. split; [reflexivity |].
  split; [exact Hlock |].
  assert (E1 : (b =? logstart (sb s)) = false) by now apply Z.eqb_neq.
  split; [| split; [| split]].
  - now rewrite Hdisk, E1, Z.eqb_refl.
  - now rewrite Hbread, E1, Z.eqb_refl.
  - now rewrite Hdisk, Z.eqb_refl.
  - intros y H1 H2 H3. rewrite Hdisk.
    destruct (Z.eqb_spec y (logstart (sb s))); [contradiction |].
    destruct (Z.eqb_spec y b); [contradiction |].
    destruct (Z.eqb_spec y (logstart (sb s) + 1)); [contradiction |].
    reflexivity.
Qed.

(** X21.  The same transaction is atomic under a crash.  Let the
    machine stop after any number [j] of the events of the transaction and
    run [iinit] on the device as it is then, with an empty block cache.
    The home block then holds its old content if the crash came before the
    commit record reached the device (the fifth event, [j <= 4]), and the
    complete new content if it came later: never a mixture.  Blocks outside
    the log are not touched by the recovery.
    Assumed: as for the transaction without a crash. *)
Theorem one_block_tx_crash_atomic (dev : Z) (s : fs) (b : Z) (data : list Z) :
  tx_ready s b -> length data = Z.to_nat BSIZE ->
  exists s4 tr,
    one_block_tx b data s = Done tt s4 /\
    events s4 = events s ++ tr /\
    forall j : nat,
      let rec := iinit dev (after_crash s (take j tr)) in
      disk rec b = (if (j <=? 4)%nat then disk s b else data) /\
      (forall y, y <> logstart (sb s) -> y <> logstart (sb s) + 1 -> y <> b ->
                 disk rec y = disk s y).
Proof.
  intros Hready Hdata.
  destruct (one_block_tx_run s b data Hready Hdata) as (s4 & Hrun & Hev & _).
  exists s4, (tx_trace s b data).
  split; [exact Hrun |]. split; [exact Hev |].
  intros j. apply recover_prefix; assumption.
Qed.

Lemma wf_disk_c1 : wf_disk disk_c1.
Proof.
  intros b. unfold disk_c1.
  destruct (b =? 1); [reflexivity |].
  destruct (b =? 2); [reflexivity |].
  destruct (b =? 3); reflexivity.
Defined.

Lemma tx_ready_c1 : tx_ready (fs_of disk_c1 false) 70.
Proof.
  unfold tx_ready. cbn [loglock fs_of sb disk logstart sb0].
  split; [reflexivity |].
  split; [intros b; apply wf_disk_c1 |].
  split; [apply wf_disk_c1 |].
  repeat split; try lia; try reflexivity.
  vm_compute. discriminate.
Defined.

Lemma one_block_tx_installs_witness :
  exists s4 tr,
    one_block_tx 70 (repeat 170 512) (fs_of disk_c1 false) = Done tt s4 /\
    events s4 = events (fs_of disk_c1 false) ++ tr /\
    txns false tr = Some 1%nat /\
    loglock s4 = false /\
    disk s4 70 = repeat 170 512 /\ bread s4 70 = repeat 170 512 /\
    mem_read (disk s4 (logstart (sb (fs_of disk_c1 false)))) 0 sizeof_log_meta
    = zeros sizeof_log_meta /\
    (forall y, y <> logstart (sb (fs_of disk_c1 false)) ->
               y <> logstart (sb (fs_of disk_c1 false)) + 1 -> y <> 70 ->
               disk s4 y = disk (fs_of disk_c1 false) y).
Proof.
  apply (one_block_tx_installs (fs_of disk_c1 false) 70 (repeat 170 512)
           tx_ready_c1 eq_refl).
Defined.

Lemma one_block_tx_crash_atomic_witness :
  exists s4 tr,
    one_block_tx 70 (repeat 170 512) (fs_of disk_c1 false) = Done tt s4 /\
    events s4 = events (fs_of disk_c1 false) ++ tr /\
    forall j : nat,
      let rec := iinit 1 (after_crash (fs_of disk_c1 false) (take j tr)) in
      disk rec 70 = (if (j <=? 4)%nat then disk (fs_of disk_c1 false) 70
                     else repeat 170 512) /\
      (forall y, y <> logstart (sb (fs_of disk_c1 false)) ->
                 y <> logstart (sb (fs_of disk_c1 false)) + 1 -> y <> 70 ->
                 disk rec y = disk (fs_of disk_c1 false) y).
Proof.
  apply (one_block_tx_crash_atomic 1 (fs_of disk_c1 false) 70 (repeat 170 512)
           tx_ready_c1 eq_refl).
Defined.

(* ===================================================================== *)
(** ** A pipe written, then read *)
(* ===================================================================== *)

Lemma list_inserts_split {A : Type} (i : nat) (k l : list A) :
  (i + length k <= length l)%nat ->
  list_inserts i k l = take i l ++ k ++ drop (i + length k) l.
Proof.
  intros Hl. rewrite <- (take_drop i l) at 1.
  assert (Hi : length (take i l) = i) by (rewrite length_take; lia).
  replace (list_inserts i) with (list_inserts (A := A) (length (take i l) + 0))
    by (rewrite Hi, Nat.add_0_r; reflexivity).
  rewrite list_inserts_app_r. f_equal.
  rewrite list_inserts_0 by (rewrite length_drop; lia).
  now rewrite drop_drop.
Qed.

Lemma mem_read_mem_write_same (m src : list Z) (pos n k : Z) :
  0 <= pos -> 0 <= k <= n -> n <= Z.of_nat (length src) ->
  pos + n <= Z.of_nat (length m) ->
  mem_read (mem_write m pos src n) pos k = take (Z.to_nat k) src.
Proof.
  intros Hpos Hk Hn Hm. unfold mem_read, mem_write.
  assert (Hlen : length (take (Z.to_nat n) src) = Z.to_nat n)
    by (rewrite length_take; lia).
  rewrite list_inserts_split by (rewrite Hlen; lia).
  assert (Hp : length (take (Z.to_nat pos) m) = Z.to_nat pos)
    by (rewrite length_take; lia).
  rewrite <- Hp at 1. rewrite drop_app_length.
  rewrite take_app_le by (rewrite Hlen; lia).
  rewrite take_take. f_equal. lia.
Qed.

Section pipe_round_trip.
Context `{Config}.

(** X22.  What is written to an empty pipe is what is read from it.  A
    [pipewrite] of [n] bytes that fits before the end of the ring returns
    [n]; a [piperead] of [m] bytes after it returns [min m n], delivers the
    first [min m n] bytes of what was written, in order, and leaves
    [n - min m n] bytes in the pipe.
    Assumed: the write starts at a ring position behind the struct, that
    is, at or after [sizeof(struct pipe)], so that it stores none of its
    bytes over the struct that [sys_pipe] keeps at the start of the ring;
    the read end is open, the counters are below 2^30, the ring has at
    least two bytes and lies inside the modelled memory, the source holds
    [n] bytes, and [n] and [m] are positive. *)
Theorem pipe_write_then_read (p : pipe) (src : list Z) (n m : Z) :
  pipe_layout_ok -> counters_small p -> tail p + n < 2 ^ 30 ->
  head p = tail p -> hasopenread p = true ->
  sizeof_pipe <= Z.rem (tail p) buf_size ->
  0 < n <= buf_size - Z.rem (tail p) buf_size ->
  n <= Z.of_nat (length src) -> buf_size <= Z.of_nat (length (buf p)) ->
  0 < m ->
  exists p1 p2,
    pipewrite p src n = Returns (n, p1) /\
    piperead p1 m = Returns (Z.min m n, p2, take (Z.to_nat (Z.min m n)) src) /\
    tail p2 - head p2 = n - Z.min m n /\
    hasopenread p2 = hasopenread p /\ hasopenwrite p2 = hasopenwrite p.
Proof.
  intros Hl Hc Hsmall Hempty Hr Hbehind Hn Hsrc Hbuf Hm.
  pose proof (buf_size_bounds Hl) as HB.
  assert (Hrem : 0 <= Z.rem (tail p) buf_size < buf_size)
    by (destruct Hc as (? & ? & ?); apply Z.rem_bound_pos; lia).
  assert (Hfull : tail p - head p <> buf_size) by lia.
  rewrite (pipewrite_fits p src n Hl Hc Hr Hfull Hn).
  set (p1 := set_buf_tail p _ _).
  assert (Hc1 : counters_small p1)
    by (destruct Hc as (? & ? & ?); unfold counters_small; cbn; lia).
  assert (Hne : head p1 <> tail p1) by (cbn; lia).
  exists p1, (set_head p1 (head p1 + Z.min m (tail p1 - head p1))).
  split; [reflexivity |].
  rewrite (piperead_data p1 m Hc1 Hne Hm).
  cbn [head tail p1 set_buf_tail buf set_head hasopenread hasopenwrite].
  replace (tail p + n - head p) with n by lia.
  rewrite Hempty.
  rewrite mem_read_mem_write_same by lia.
  repeat split. lia.
Qed.

End pipe_round_trip.

Lemma pipe_write_then_read_witness :
  exists p1 p2,
    @pipewrite xk_config (fresh_pipe (repeat 0 4096) 128) [104; 101; 108; 108; 111] 5
    = Returns (5, p1) /\
    @piperead xk_config p1 3
    = Returns (Z.min 3 5, p2, take (Z.to_nat (Z.min 3 5)) [104; 101; 108; 108; 111]) /\
    tail p2 - head p2 = 5 - Z.min 3 5 /\
    hasopenread p2 = hasopenread (fresh_pipe (repeat 0 4096) 128) /\
    hasopenwrite p2 = hasopenwrite (fresh_pipe (repeat 0 4096) 128).
Proof.
  apply (@pipe_write_then_read xk_config (fresh_pipe (repeat 0 4096) 128)
           [104; 101; 108; 108; 111] 5 3).
  - unfold pipe_layout_ok, PGSIZE. cbn. lia.
  - unfold counters_small. cbn. lia.
  - cbn. lia.
  - reflexivity.
  - reflexivity.
  - vm_compute. discriminate.
  - vm_compute. split; [reflexivity | discriminate].
  - cbn. lia.
  - vm_compute. discriminate.
  - lia.
Defined.

(* ===================================================================== *)
(** ** Reading a regular file through a descriptor *)
(* ===================================================================== *)

Section read_path.
Context `{Config}.

(** [readi] inside the file: the count clipped to the size, and the
    bytes of the file. *)
Lemma readi_returns (s : fs) (ip : inode) (off n : Z) :
  i_lock ip = true -> i_type ip <> T_DEV ->
  wf_inode ip -> wf_bufs s ->
  0 <= off <= i_size ip -> 0 <= n -> off + n < 2 ^ 32 ->
  exists dst,
    readi ip off n s = Done (Z.min n (i_size ip - off), dst) s /\
    length dst = Z.to_nat (Z.min n (i_size ip - off)) /\
    forall i, 0 <= i < Z.min n (i_size ip - off) ->
              byte_at dst i = file_byte s ip (off + i).
Proof.
  intros Hlock Hty (Hlen & Hwf & Hsize & Hint) Hbufs Hoff Hn Hsum.
  unfold readi. rewrite Hlock. cbn [negb].
  destruct (Z.eqb_spec (i_type ip) T_DEV) as [| _]; [contradiction |].
  set (k := Z.min n (i_size ip - off)).
  destruct (Z.ltb_spec (i_size ip) off) as [| _]; [lia |].
  rewrite (uint32_id (off + n)) by lia.
  destruct (Z.ltb_spec (off + n) off) as [| _]; [lia |].
  cbn [orb].
  assert (Hk : (if i_size ip <? off + n then uint32 (i_size ip - off) else n) = k).
  { subst k. destruct (Z.ltb_spec (i_size ip) (off + n)).
    - rewrite uint32_id by lia. lia.
    - lia. }
  rewrite Hk.
  assert (Hk0 : 0 <= k < 2 ^ 31) by lia.
  rewrite (int32_id k) by lia.
  destruct (Z.eq_dec k 0) as [Hz | Hnz].
  - rewrite Hz. exists []. cbn.
    destruct (Z.to_nat (off / BSIZE + 0 + 1)); cbn;
      (split; [reflexivity | split; [reflexivity | intros; lia]]).
  - destruct (readi_loop_spec s ip k off Hbufs Hwf Hlen ltac:(lia) ltac:(lia)
                ltac:(lia) (Z.to_nat (off / BSIZE + k + 1)) 0 0 0 off 0 [])
      as (dst & Hrun & Hdl & Hbytes); try lia.
    + intros _. apply Z.div_pos; unfold BSIZE; lia.
    + pose proof (ext_at_wf ip 0 Hwf). lia.
    + intros _. change (Z.to_nat 0) with 0%nat. rewrite drop_0.
      assert ((off + k - 1) / BSIZE < capacity (i_data ip)).
      { apply Z.div_lt_upper_bound; unfold BSIZE in *; lia. }
      lia.
    + intros fb _. reflexivity.
    + reflexivity.
    + exists dst. rewrite Hrun. cbn. auto.
Qed.

Lemma set_kfs_same (k : kernel) : set_kfs k (kfs k) = k.
Proof. now destruct k. Qed.

(** [concurrent_readi] on a cached inode that is loaded and not locked:
    [readi] under the inode's lock, and the state as it was. *)
Lemma concurrent_readi_returns (s : fs) (i : nat) (ino : inode) (off n : Z) :
  inodes s !! i = Some ino -> 1 <= i_ref ino -> i_lock ino = false ->
  i_valid ino <> 0 -> i_type ino <> T_DEV ->
  wf_inode ino -> wf_bufs s ->
  0 <= off <= i_size ino -> 0 <= n -> off + n < 2 ^ 32 ->
  exists dst,
    concurrent_readi (Icache i) off n s
    = Done (Z.min n (i_size ino - off), dst) s /\
    length dst = Z.to_nat (Z.min n (i_size ino - off)) /\
    forall j, 0 <= j < Z.min n (i_size ino - off) ->
              byte_at dst j = file_byte s ino (off + j).
Proof.
  intros Hi Href Hlock Hvalid Hty Hwf Hbufs Hoff Hn Hsum.
  assert (Hlt : (i < length (inodes s))%nat) by (apply lookup_lt_is_Some; eauto).
  unfold concurrent_readi, locki, acquire_ilock. cbn [iget_at iput_at].
  rewrite Hi. destruct (Z.ltb_spec (i_ref ino) 1); [lia |]. rewrite Hlock.
  cbn [bind inodes set_inodes].
  rewrite list_lookup_insert_eq by assumption.
  cbn [i_valid set_ilock].
  destruct (Z.eqb_spec (i_valid ino) 0); [contradiction |].
  cbn [bind iget_at inodes set_inodes].
  rewrite list_lookup_insert_eq by assumption.
  set (s1 := set_inodes s (<[i := set_ilock ino true]> (inodes s))).
  assert (Hbufs1 : wf_bufs s1) by (intros b; apply Hbufs).
  destruct (readi_returns s1 (set_ilock ino true) off n) as (dst & Hrd & Hl & Hb);
    try assumption; try reflexivity.
  exists dst. cbn [i_size set_ilock] in Hrd. rewrite Hrd. cbn [bind].
  unfold unlocki. cbn [iget_at iput_at s1 inodes set_inodes].
  rewrite list_lookup_insert_eq by assumption.
  cbn [i_lock i_ref set_ilock negb orb].
  destruct (Z.ltb_spec (i_ref ino) 1); [lia |]. cbn [bind].
  split; [| split; [exact Hl | exact Hb]].
  f_equal. rewrite list_insert_insert_eq.
  assert (E : set_ilock (set_ilock ino true) false = ino)
    by (destruct ino; cbn in *; now subst).
  rewrite E, list_insert_id by assumption. now destruct s.
Qed.

(** X23.  [sys_read] of [n > 0] bytes on a descriptor open for reading
    on a regular file, at an offset inside the file: it returns
    [min n (size - offset)] (0 at the end of the file), the buffer receives
    the bytes of the file from the offset on, and the offset of the entry
    advances by the count returned.  Nothing else changes: the inode is
    unlocked again and nothing is written.
    Assumed: [n] is below 2^31 and the user buffer is valid, the entry's
    lock and the inode's lock are free, the inode is loaded ([valid]), is
    not a device, has well-formed extents, and cached buffers have [BSIZE]
    bytes. *)
Theorem sys_read_regular_file (k : kernel) (a : sysargs) (fd n : Z)
    (fi i : nat) (fp : file_info) (ino : inode) :
  arg_fd a = Some fd -> arg_n a = Some n -> 0 < n < 2 ^ 31 ->
  arg_buf_ok a n = true ->
  fd_lookup k fd = Some fi -> files_global k !! fi = Some fp ->
  is_pipe fp = false -> f_lock fp = false -> ip fp = Some (Icache i) ->
  perm fp = O_RDONLY \/ perm fp = O_RDWR ->
  inodes (kfs k) !! i = Some ino -> 1 <= i_ref ino -> i_lock ino = false ->
  i_valid ino <> 0 -> i_type ino <> T_DEV ->
  wf_inode ino -> wf_bufs (kfs k) ->
  0 <= offset fp <= i_size ino ->
  let c := Z.min n (i_size ino - offset fp) in
  exists out,
    sys_read a k
    = SysRet c (set_file k fi (set_offset_lock fp (offset fp + c) false)) out /\
    length out = Z.to_nat c /\
    forall j, 0 <= j < c -> byte_at out j = file_byte (kfs k) ino (offset fp + j).
Proof.
  intros Hafd Han Hn Hbuf Hfd Hfp Hpipe Hflock Hip Hperm Hino Href Hilock
         Hvalid Hty Hwf Hbufs Hoff c.
  pose proof Hwf as (_ & _ & Hsz & Hint).
  unfold sys_read. rewrite Hafd, Han.
  destruct (Z.leb_spec n 0); [lia |]. rewrite Hbuf. cbn [negb].
  rewrite Hfd, Hfp.
  assert (Hp : negb (perm fp =? O_RDONLY) && negb (perm fp =? O_RDWR) = false).
  { destruct Hperm as [-> | ->]; rewrite Z.eqb_refl; cbn;
      [reflexivity | apply andb_false_r]. }
  rewrite Hp. unfold fileread. rewrite Hfp, Hpipe, Hip.
  rewrite (uint32_id n) by lia.
  destruct (concurrent_readi_returns (kfs k) i ino (offset fp) n)
    as (out & Hrd & Hl & Hb); try assumption; try lia.
  fold c in Hrd, Hl, Hb. rewrite Hrd.
  destruct (Z.eqb_spec c (-1)); [subst c; lia |].
  rewrite Hflock. rewrite set_kfs_same.
  rewrite (uint32_id (offset fp + c)) by (subst c; lia).
  exists out. auto.
Qed.

End read_path.

Lemma sys_read_regular_file_witness :
  exists out,
    @sys_read xk_config (args_c10 4) kernel_c10
    = SysRet (Z.min 4 (600 - 10))
        (set_file kernel_c10 0
           (set_offset_lock
              {| f_lock := false; ip := Some (Icache 0); pp := None;
                 is_pipe := false; ref := 1; offset := 10; perm := 2 |}
              (10 + Z.min 4 (600 - 10)) false)) out /\
    length out = Z.to_nat (Z.min 4 (600 - 10)) /\
    forall j, 0 <= j < Z.min 4 (600 - 10) ->
      byte_at out j
      = file_byte (kfs kernel_c10) (set_ilock file_c7 false) (10 + j).
Proof.
  apply (@sys_read_regular_file xk_config kernel_c10 (args_c10 4) 0 4 0 0
           {| f_lock := false; ip := Some (Icache 0); pp := None;
              is_pipe := false; ref := 1; offset := 10; perm := 2 |}
           (set_ilock file_c7 false)); try reflexivity;
    first [ lia | now right | exact wf_file_c7
          | (intros b; apply wf_disk_c7) | (cbn; lia) | (cbn; discriminate) ].
Defined.

(* ===================================================================== *)
(** ** Physical pages: [rand], [get_random_user_page], [kalloc], [kfree] *)
(* ===================================================================== *)


Lemma rand_bounds (limit next : Z) :
  0 < limit < 2 ^ 31 ->
  exists r next',
    rand limit next = Some (r, next') /\ 0 <= r < limit /\
    next' = uint64 (next * 1103515245 + 12345).
Proof.
  intros Hl. unfold rand.
  rewrite (uint32_id limit) by lia.
  destruct (Z.eqb_spec limit 0); [lia |].
  eexists _, _. split; [reflexivity |]. split; [| reflexivity].
  set (x := uint32 _).
  assert (Hx : 0 <= x mod limit < limit) by (apply Z.mod_pos_bound; lia).
  rewrite int32_id; lia.
Qed.

Lemma get_random_user_page_from_spec (m : kmem) :
  0 < npages m < 2 ^ 31 -> length (core_map m) = Z.to_nat (npages m) ->
  forall x next,
    match get_random_user_page_from x m next with
    | inr (idx, _) =>
        0 <= idx < npages m /\
        exists e, core_map m !! Z.to_nat idx = Some e /\ cme_va e <> 0
    | inl o =>
        o = Panic "Tried 100 random indices for random user page, all failed"
    end.
Proof.
  intros Hn Hlen. induction x as [| x IH]; intros next; cbn [get_random_user_page_from].
  - reflexivity.
  - destruct (rand_bounds (npages m) next Hn) as (r & next' & -> & Hr & _).
    destruct (Z.ltb_spec r 0); [lia |].
    destruct (lookup_lt_is_Some_2 (core_map m) (Z.to_nat r)) as [e He]; [lia |].
    rewrite He. destruct (Z.eqb_spec (cme_va e) 0) as [E | E]; cbn [negb].
    + apply IH.
    + split; [exact Hr |]. exists e. auto.
Qed.

(** X24.  With between 1 and 2^31 - 1 pages and a core map of that many
    entries, [rand(npages)] returns a value in [[0, npages)] whatever its
    state, and [get_random_user_page] either returns an entry inside the
    core map whose [va] is not 0 or panics after its 100 draws; it never
    indexes outside the core map. *)
Theorem get_random_user_page_in_bounds (m : kmem) :
  0 < npages m < 2 ^ 31 -> length (core_map m) = Z.to_nat (npages m) ->
  (forall next, exists r next',
     rand (npages m) next = Some (r, next') /\ 0 <= r < npages m) /\
  match get_random_user_page m with
  | inr (idx, _) =>
      0 <= idx < npages m /\
      exists e, core_map m !! Z.to_nat idx = Some e /\ cme_va e <> 0
  | inl o =>
      o = Panic "Tried 100 random indices for random user page, all failed"
  end.
Proof.
  intros Hn Hlen. split.
  - intros next. destruct (rand_bounds (npages m) next Hn) as (r & n' & E & Hr & _).
    eauto.
  - apply get_random_user_page_from_spec; assumption.
Qed.

Lemma get_random_user_page_in_bounds_witness :
  (forall next, exists r next',
     rand (npages kmem_x) next = Some (r, next') /\ 0 <= r < npages kmem_x) /\
  match get_random_user_page kmem_x with
  | inr (idx, _) =>
      0 <= idx < npages kmem_x /\
      exists e, core_map kmem_x !! Z.to_nat idx = Some e /\ cme_va e <> 0
  | inl o =>
      o = Panic "Tried 100 random indices for random user page, all failed"
  end.
Proof.
  apply (get_random_user_page_in_bounds kmem_x).
  - cbn. lia.
  - reflexivity.
Defined.


Lemma kalloc_scan_spec (m : kmem) :
  length (core_map m) = Z.to_nat (npages m) -> npages m < 2 ^ 31 ->
  forall fuel i,
    0 <= i -> Z.of_nat fuel >= npages m - i ->
    match kalloc_scan fuel i m with
    | inl (Some j) =>
        i <= j < npages m /\
        (exists e, core_map m !! Z.to_nat j = Some e /\ cme_available e = 1) /\
        forall k e, i <= k < j -> core_map m !! Z.to_nat k = Some e ->
          cme_available e <> 1
    | inl None =>
        forall k e, i <= k -> core_map m !! Z.to_nat k = Some e ->
          cme_available e <> 1
    | inr _ => False
    end.
Proof.
  intros Hlen Hn. induction fuel as [| fuel IH]; intros i Hi Hf;
    cbn [kalloc_scan].
  - intros k e Hk He. apply lookup_lt_Some in He. lia.
  - destruct (Z.ltb_spec i (npages m)) as [Hlt | Hge].
    + destruct (lookup_lt_is_Some_2 (core_map m) (Z.to_nat i)) as [e He];
        [lia |].
      rewrite He. destruct (Z.eqb_spec (cme_available e) 1) as [E | E].
      * split; [lia |]. split; [eauto |]. intros; lia.
      * rewrite int32_id by lia.
        specialize (IH (i + 1) ltac:(lia) ltac:(lia)).
        destruct (kalloc_scan fuel (i + 1) m) as [[j |] | o]; [| | exact IH].
        -- destruct IH as (Hj & Hav & Hbefore). split; [lia |].
           split; [exact Hav |]. intros k e' Hk He'.
           destruct (Z.eq_dec k i) as [-> | Hne].
           ++ congruence.
           ++ apply (Hbefore k e'); [lia | exact He'].
        -- intros k e' Hk He'. destruct (Z.eq_dec k i) as [-> | Hne].
           ++ congruence.
           ++ apply (IH k e'); [lia | exact He'].
    + intros k e Hk He. apply lookup_lt_Some in He. lia.
Qed.

Section alloc.
Context `{MemLayout}.

Lemma kalloc_cases (m : kmem) :
  kmem_ok m ->
  (exists i, first_available m i /\
     kalloc m =
       KallocPage (KERNBASE + i * PGSIZE)
         (set_core_map m (<[Z.to_nat i := cme_taken]> (core_map m))
            (int32 (pages_in_use m + 1)) (int32 (free_pages m - 1)))) \/
  (none_available m /\ kalloc m = KallocEvict).
Proof.
  intros (Hn0 & Hlen & Hn & Hk0 & Hk & Hal).
  assert (Hn31 : npages m < 2 ^ 31) by (unfold PGSIZE in *; lia).
  pose proof (kalloc_scan_spec m Hlen Hn31 (Z.to_nat (npages m)) 0
                ltac:(lia) ltac:(lia)) as Hs.
  unfold kalloc. destruct (kalloc_scan _ 0 m) as [[j |] | o]; [| | tauto].
  - left. exists j. destruct Hs as (Hj & Hav & Hb). split.
    + split; [lia |]. split; [exact Hav |]. exact Hb.
    + f_equal. unfold P2V, page2pa. unfold PGSIZE in *.
      rewrite (uint64_id (j * 4096)) by lia. rewrite uint64_id by lia. lia.
  - right. split; [| reflexivity]. intros k e He.
    apply (Hs (Z.of_nat k) e); [lia | now rewrite Nat2Z.id].
Qed.


Lemma kfree_index (m : kmem) (i : Z) :
  kmem_ok m -> 0 <= i < npages m ->
  let v := KERNBASE + i * PGSIZE in
  v mod PGSIZE = 0 /\ V2P v = i * PGSIZE /\
  (uint64 (int32 (npages m * PGSIZE)) <=? V2P v) = false /\
  pa2page (V2P v) m = inr i.
Proof.
  intros (Hn0 & Hlen & Hn & Hk0 & Hk & Hal) Hi v.
  assert (Hv : V2P v = i * PGSIZE).
  { unfold V2P, v. replace (KERNBASE + i * PGSIZE - KERNBASE) with (i * PGSIZE) by lia.
    apply uint64_id. unfold PGSIZE in *. lia. }
  split.
  { unfold v. rewrite Z.add_mod by (unfold PGSIZE; lia).
    rewrite Hal, Z.mod_mul by (unfold PGSIZE; lia). reflexivity. }
  split; [exact Hv |]. rewrite Hv. split.
  - rewrite int32_id by (unfold PGSIZE in *; lia).
    rewrite uint64_id by (unfold PGSIZE in *; lia).
    apply Z.leb_gt. unfold PGSIZE. lia.
  - unfold pa2page, PGNUM. rewrite Z.div_mul by (unfold PGSIZE; lia).
    rewrite uint64_id by (unfold PGSIZE in *; lia).
    destruct (Z.leb_spec (npages m) i); [lia | reflexivity].
Qed.

Lemma kfree_run (m : kmem) (i : Z) (e : core_map_entry) :
  kmem_ok m -> 0 <= i < npages m ->
  kernel_end <= KERNBASE + i * PGSIZE ->
  core_map m !! Z.to_nat i = Some e ->
  kfree (KERNBASE + i * PGSIZE) m =
    inr (if (use_lock m =? 0) || (int32 (cme_ref e - 1) =? 0)
         then set_page_data
                (set_core_map m (<[Z.to_nat i := cme_free]> (core_map m))
                   (int32 (pages_in_use m - 1)) (int32 (free_pages m + 1)))
                (upd (page_data m) i (repeat 2 (Z.to_nat PGSIZE)))
         else set_core_map m
                (<[Z.to_nat i := mkcme (cme_available e) (cme_user e) (cme_va e)
                                   (int32 (cme_ref e - 1))]> (core_map m))
                (pages_in_use m) (free_pages m)).
Proof.
  intros Hok Hi Hend He.
  destruct (kfree_index m i Hok Hi) as (Hal & Hv & Hup & Hpa).
  unfold kfree. rewrite Hal, Hup, Hpa, He. cbn [Z.eqb negb orb].
  destruct (Z.ltb_spec (KERNBASE + i * PGSIZE) kernel_end); [lia |].
  cbn [orb]. destruct (_ || _); reflexivity.
Qed.

End alloc.

Section alloc_thms.
Context `{MemLayout}.

(** X25.  [kalloc] hands out the first page whose entry is available: it
    returns the kernel address [KERNBASE + i * PGSIZE] of that page, leaves
    the entry as [available = 0, user = 0, va = 0, ref = 1], counts one
    page more in use and one less free, and leaves the page's bytes alone.
    It goes on to [evictpage] exactly when no entry is available.
    Assumed: the core map has [npages] entries and the addresses of all
    pages fit ([npages * PGSIZE] below 2^31, [KERNBASE] page aligned,
    [KERNBASE + npages * PGSIZE] below 2^64). *)
Theorem kalloc_first_available (m : kmem) :
  kmem_ok m ->
  match kalloc m with
  | KallocPage v m' =>
      exists i, first_available m i /\ v = KERNBASE + i * PGSIZE /\
        core_map m' = <[Z.to_nat i := cme_taken]> (core_map m) /\
        pages_in_use m' = int32 (pages_in_use m + 1) /\
        free_pages m' = int32 (free_pages m - 1) /\
        page_data m' = page_data m
  | KallocEvict => none_available m
  | KallocStops _ => False
  end.
Proof.
  intros Hok. destruct (kalloc_cases m Hok) as [(i & Hi & ->) | (Hno & ->)].
  - exists i. cbn. repeat (split; [try reflexivity; assumption |]). reflexivity.
  - exact Hno.
Qed.

(** X26.  [kfree] of the page [kalloc] has just returned undoes the
    allocation: both counters are back at their values, the entry of the
    page is available again with [ref = 0], every other entry is as
    before, the page is filled with the byte 2, and the next [kalloc]
    returns the same address.
    Assumed: the core map has [npages] entries and page addresses fit, the
    counters do not overflow, and the page lies above the end of the kernel
    image. *)
Theorem kalloc_then_kfree (m : kmem) (v : Z) (m1 : kmem) :
  kmem_ok m ->
  - 2 ^ 31 <= pages_in_use m < 2 ^ 31 - 1 ->
  - 2 ^ 31 < free_pages m < 2 ^ 31 ->
  kalloc m = KallocPage v m1 ->
  kernel_end <= v ->
  exists m2 m3,
    kfree v m1 = inr m2 /\
    pages_in_use m2 = pages_in_use m /\ free_pages m2 = free_pages m /\
    (forall k e, core_map m !! k = Some e ->
       core_map m2 !! k =
         Some (if decide (Z.of_nat k = (v - KERNBASE) / PGSIZE) then cme_free
               else e)) /\
    page_data m2 ((v - KERNBASE) / PGSIZE) = repeat 2 (Z.to_nat PGSIZE) /\
    kalloc m2 = KallocPage v m3.
Proof.
  intros Hok Hpu Hfp Hk Hend.
  destruct (kalloc_cases m Hok) as [(i & Hi & E) | (_ & E)];
    rewrite E in Hk; [| discriminate].
  injection Hk as <- <-. destruct Hi as (Hir & (e & He & Hav) & Hbefore).
  set (m1 := set_core_map m _ _ _).
  assert (Hok1 : kmem_ok m1).
  { destruct Hok as (? & Hlen & ?). split; [assumption |]. split; [| assumption].
    cbn. now rewrite length_insert. }
  assert (He1 : core_map m1 !! Z.to_nat i = Some cme_taken).
  { cbn. apply list_lookup_insert_eq. apply lookup_lt_Some in He. exact He. }
  pose proof (kfree_run m1 i cme_taken Hok1 Hir Hend He1) as Hf.
  cbn [cme_taken cme_ref] in Hf. change (int32 (1 - 1) =? 0) with true in Hf.
  rewrite orb_true_r in Hf.
  assert (Hidx : (KERNBASE + i * PGSIZE - KERNBASE) / PGSIZE = i).
  { replace (KERNBASE + i * PGSIZE - KERNBASE) with (i * PGSIZE) by lia.
    apply Z.div_mul. unfold PGSIZE. lia. }
  rewrite Hidx.
  set (m2 := set_page_data _ _) in Hf.
  assert (Hcm2 : core_map m2 = <[Z.to_nat i := cme_free]> (core_map m)).
  { cbn. apply list_insert_insert_eq. }
  assert (Hok2 : kmem_ok m2).
  { destruct Hok as (? & Hlen & ?). split; [assumption |]. split; [| assumption].
    rewrite Hcm2. now rewrite length_insert. }
  assert (Hfirst : first_available m2 i).
  { split; [exact Hir |]. split.
    - exists cme_free. split; [| reflexivity]. rewrite Hcm2.
      apply list_lookup_insert_eq. apply lookup_lt_Some in He. exact He.
    - intros k e' Hk He'. rewrite Hcm2 in He'.
      rewrite list_lookup_insert_ne in He' by lia. eauto. }
  destruct (kalloc_cases m2 Hok2) as [(j & Hj & E2) | (Hno & _)].
  - assert (j = i) as ->.
    { destruct Hj as (Hjr & (ej & Hej & Havj) & Hbj).
      destruct Hfirst as (_ & (ei & Hei & Havi) & Hbi).
      destruct (Z.lt_trichotomy j i) as [Hlt | [Heq | Hgt]]; [| exact Heq |].
      - exfalso. apply (Hbi j ej); [lia | exact Hej | exact Havj].
      - exfalso. apply (Hbj i ei); [lia | exact Hei | exact Havi]. }
    eexists m2, _. split; [exact Hf |].
    split; [cbn; rewrite (int32_id (pages_in_use m + 1)) by lia;
            rewrite int32_id; lia |].
    split; [cbn; rewrite (int32_id (free_pages m - 1)) by lia;
            rewrite int32_id; lia |].
    split.
    { intros k e' He'. rewrite Hcm2. destruct (decide (Z.of_nat k = i)) as [Ek | Ek].
      - subst i. rewrite Nat2Z.id. apply list_lookup_insert_eq.
        apply lookup_lt_Some in He'. exact He'.
      - rewrite list_lookup_insert_ne by lia. exact He'. }
    split; [cbn; apply upd_same |]. exact E2.
  - exfalso. destruct Hfirst as (_ & (ei & Hei & Havi) & _).
    apply (Hno _ _ Hei Havi).
Qed.

(** X27.  Two [kalloc] calls in a row never return the same page: the
    second address is above the first.
    Assumed: the core map has [npages] entries and page addresses fit. *)
Theorem kalloc_twice_increasing (m : kmem) (v1 v2 : Z) (m1 m2 : kmem) :
  kmem_ok m ->
  kalloc m = KallocPage v1 m1 -> kalloc m1 = KallocPage v2 m2 ->
  v1 < v2.
Proof.
  intros Hok K1 K2.
  destruct (kalloc_cases m Hok) as [(i & Hi & E) | (_ & E)];
    rewrite E in K1; [| discriminate].
  injection K1 as <- <-. destruct Hi as (Hir & (e & He & Hav) & Hbefore).
  set (m1 := set_core_map m _ _ _) in *.
  assert (Hok1 : kmem_ok m1).
  { destruct Hok as (? & Hlen & ?). split; [assumption |]. split; [| assumption].
    cbn. now rewrite length_insert. }
  destruct (kalloc_cases m1 Hok1) as [(j & Hj & E1) | (_ & E1)];
    rewrite E1 in K2; [| discriminate].
  injection K2 as <- _. destruct Hj as (Hjr & (ej & Hej & Havj) & _).
  assert (i < j); [| unfold PGSIZE; lia].
  destruct (Z.lt_trichotomy j i) as [Hlt | [Heq | Hgt]]; [| | exact Hgt].
  - exfalso. cbn in Hej. rewrite list_lookup_insert_ne in Hej by lia.
    apply (Hbefore j ej); [lia | exact Hej | exact Havj].
  - exfalso. subst j. cbn in Hej. rewrite list_lookup_insert_eq in Hej
      by (apply lookup_lt_Some in He; exact He).
    injection Hej as <-. discriminate.
Qed.

(** X28.  [kfree(v)] panics with "kfree" exactly when [v] is not page
    aligned, lies below the end of the kernel image, or lies outside the
    window [[KERNBASE, KERNBASE + npages * PGSIZE)]; on every other address
    it returns.
    Assumed: the core map has [npages] entries, page addresses fit, and [v]
    is a 64-bit address. *)
Theorem kfree_panics_iff (m : kmem) (v : Z) :
  kmem_ok m -> 0 <= v < 2 ^ 64 ->
  (kfree v m = inl (Panic "kfree") <->
   v mod PGSIZE <> 0 \/ v < kernel_end \/
   ~ (KERNBASE <= v < KERNBASE + npages m * PGSIZE)) /\
  (kfree v m <> inl (Panic "kfree") -> exists m', kfree v m = inr m').
Proof.
  intros Hok Hv.
  destruct (Z.eq_dec (v mod PGSIZE) 0) as [Hal | Hal].
  2:{ unfold kfree. destruct (Z.eqb_spec (v mod PGSIZE) 0); [contradiction |].
      cbn. split; [tauto | congruence]. }
  destruct (Z_lt_le_dec v kernel_end) as [Hlt | Hge].
  { unfold kfree. destruct (Z.ltb_spec v kernel_end); [| lia].
    rewrite orb_true_r. cbn. split; [tauto | congruence]. }
  destruct (Z_le_dec KERNBASE v) as [Hkb | Hkb].
  2:{ assert (Hup : (uint64 (int32 (npages m * PGSIZE)) <=? V2P v) = true).
      { destruct Hok as (Hn0 & Hlen & Hn & Hk0 & Hk & _).
        rewrite int32_id by (unfold PGSIZE in *; lia).
        rewrite uint64_id by (unfold PGSIZE in *; lia).
        apply Z.leb_le. unfold V2P, uint64.
        replace ((v - KERNBASE) mod 2 ^ 64) with (v - KERNBASE + 2 ^ 64).
        - lia.
        - unfold PGSIZE in *. apply Z.mod_unique with (-1); lia. }
      unfold kfree. rewrite Hup, orb_true_r. split; [split; auto; lia | congruence]. }
  destruct (Z_lt_le_dec v (KERNBASE + npages m * PGSIZE)) as [Hin | Hout].
  - set (i := (v - KERNBASE) / PGSIZE).
    assert (Hvi : v = KERNBASE + i * PGSIZE).
    { destruct Hok as (_ & _ & _ & _ & _ & Hkal). unfold i.
      assert ((v - KERNBASE) mod PGSIZE = 0).
      { rewrite Zminus_mod, Hal, Hkal. reflexivity. }
      pose proof (Z.div_mod (v - KERNBASE) PGSIZE ltac:(unfold PGSIZE; lia)). lia. }
    assert (Hi : 0 <= i < npages m).
    { unfold i. split.
      - apply Z.div_pos; unfold PGSIZE; lia.
      - apply Z.div_lt_upper_bound; unfold PGSIZE in *; lia. }
    destruct (lookup_lt_is_Some_2 (core_map m) (Z.to_nat i)) as [e He].
    { destruct Hok as (_ & Hlen & _). lia. }
    rewrite Hvi in Hge. pose proof (kfree_run m i e Hok Hi Hge He) as Hf.
    rewrite <- Hvi in Hf. rewrite Hf. split.
    + split; [discriminate |]. intros [? | [? | ?]]; [contradiction | lia | lia].
    + intros _. eauto.
  - assert (Hup : (uint64 (int32 (npages m * PGSIZE)) <=? V2P v) = true).
    { destruct Hok as (Hn0 & Hlen & Hn & Hk0 & Hk & _).
      rewrite int32_id by (unfold PGSIZE in *; lia).
      rewrite uint64_id by (unfold PGSIZE in *; lia).
      apply Z.leb_le. unfold V2P. rewrite uint64_id by lia. lia. }
    unfold kfree. rewrite Hup, orb_true_r. split; [split; auto; lia | congruence].
Qed.

(** X29.  With the lock in use, [kfree] counts references: it lowers
    [ref] of the page by one, and only when that was the last reference
    does it mark the entry available, fill the page with the byte 2 and
    move the counters; a page that is still referenced keeps its bytes,
    its [va] and [user] marks, and the counters stay.  No other page or
    entry changes.
    Assumed: the core map has [npages] entries, page addresses fit, the page
    lies above the end of the kernel image and [ref] does not underflow. *)
Theorem kfree_counts_references (m : kmem) (i : Z) (e : core_map_entry) :
  kmem_ok m -> 0 <= i < npages m ->
  kernel_end <= KERNBASE + i * PGSIZE ->
  core_map m !! Z.to_nat i = Some e ->
  use_lock m <> 0 -> - 2 ^ 31 < cme_ref e < 2 ^ 31 ->
  exists m',
    kfree (KERNBASE + i * PGSIZE) m = inr m' /\
    (forall k, k <> Z.to_nat i -> core_map m' !! k = core_map m !! k) /\
    (forall k, k <> i -> page_data m' k = page_data m k) /\
    if cme_ref e =? 1
    then core_map m' !! Z.to_nat i = Some cme_free /\
         page_data m' i = repeat 2 (Z.to_nat PGSIZE) /\
         pages_in_use m' = int32 (pages_in_use m - 1) /\
         free_pages m' = int32 (free_pages m + 1)
    else core_map m' !! Z.to_nat i =
           Some (mkcme (cme_available e) (cme_user e) (cme_va e) (cme_ref e - 1)) /\
         page_data m' i = page_data m i /\
         pages_in_use m' = pages_in_use m /\ free_pages m' = free_pages m.
Proof.
  intros Hok Hi Hend He Hlock Href.
  rewrite (kfree_run m i e Hok Hi Hend He).
  destruct (Z.eqb_spec (use_lock m) 0); [contradiction |]. cbn [orb].
  rewrite int32_id by lia.
  assert (Hlt : (Z.to_nat i < length (core_map m))%nat)
    by (apply lookup_lt_Some in He; exact He).
  destruct (Z.eqb_spec (cme_ref e) 1) as [E | E].
  - rewrite E. change (1 - 1 =? 0) with true. cbn iota. eexists. split; [reflexivity |].
    split; [intros k Hk; cbn; now rewrite list_lookup_insert_ne by lia |].
    split; [intros k Hk; cbn; now rewrite upd_other by lia |].
    split; [cbn; now apply list_lookup_insert_eq |].
    split; [cbn; apply upd_same |]. split; reflexivity.
  - destruct (Z.eqb_spec (cme_ref e - 1) 0); [lia |].
    eexists. split; [reflexivity |].
    split; [intros k Hk; cbn [core_map set_core_map];
            now rewrite list_lookup_insert_ne by lia |].
    split; [intros k Hk; reflexivity |].
    split; [cbn [core_map set_core_map]; now apply list_lookup_insert_eq |].
    split; [reflexivity |]. split; reflexivity.
Qed.

End alloc_thms.


Lemma kmem_x_ok : @kmem_ok xk_layout kmem_x.
Proof.
  unfold kmem_ok. cbn [npages kmem_x KERNBASE xk_layout core_map].
  split; [lia |]. split; [reflexivity |]. unfold PGSIZE.
  split; [lia |]. split; [lia |]. split; [lia | reflexivity].
Defined.

Lemma kalloc_first_available_witness :
  match @kalloc xk_layout kmem_x with
  | KallocPage v m' =>
      exists i, first_available kmem_x i /\
        v = @KERNBASE xk_layout + i * PGSIZE /\
        core_map m' = <[Z.to_nat i := cme_taken]> (core_map kmem_x) /\
        pages_in_use m' = int32 (pages_in_use kmem_x + 1) /\
        free_pages m' = int32 (free_pages kmem_x - 1) /\
        page_data m' = page_data kmem_x
  | KallocEvict => none_available kmem_x
  | KallocStops _ => False
  end.
Proof. exact (@kalloc_first_available xk_layout kmem_x kmem_x_ok). Defined.

Lemma kalloc_then_kfree_witness :
  exists v m1,
    @kalloc xk_layout kmem_x = KallocPage v m1 /\
    exists m2 m3,
      @kfree xk_layout v m1 = inr m2 /\
      pages_in_use m2 = pages_in_use kmem_x /\
      free_pages m2 = free_pages kmem_x /\
      (forall k e, core_map kmem_x !! k = Some e ->
         core_map m2 !! k =
           Some (if decide (Z.of_nat k = (v - @KERNBASE xk_layout) / PGSIZE)
                 then cme_free else e)) /\
      page_data m2 ((v - @KERNBASE xk_layout) / PGSIZE) =
        repeat 2 (Z.to_nat PGSIZE) /\
      @kalloc xk_layout m2 = KallocPage v m3.
Proof.
  eexists _, _. split; [vm_compute; reflexivity |].
  eapply (@kalloc_then_kfree xk_layout kmem_x).
  - exact kmem_x_ok.
  - cbn. lia.
  - cbn. lia.
  - vm_compute. reflexivity.
  - cbn. lia.
Defined.

Lemma kalloc_twice_increasing_witness :
  exists v1 v2 m1 m2,
    @kalloc xk_layout kmem_x = KallocPage v1 m1 /\
    @kalloc xk_layout m1 = KallocPage v2 m2 /\ v1 < v2.
Proof.
  eexists _, _, _, _. split; [vm_compute; reflexivity |].
  split; [vm_compute; reflexivity |].
  eapply (@kalloc_twice_increasing xk_layout kmem_x).
  - exact kmem_x_ok.
  - vm_compute. reflexivity.
  - vm_compute. reflexivity.
Defined.

Lemma kfree_panics_iff_witness :
  let v := @KERNBASE xk_layout + 600 * PGSIZE + 8 in
  (@kfree xk_layout v kmem_x = inl (Panic "kfree") <->
   v mod PGSIZE <> 0 \/ v < @kernel_end xk_layout \/
   ~ (@KERNBASE xk_layout <= v < @KERNBASE xk_layout + npages kmem_x * PGSIZE)) /\
  (@kfree xk_layout v kmem_x <> inl (Panic "kfree") ->
   exists m', @kfree xk_layout v kmem_x = inr m').
Proof.
  apply (@kfree_panics_iff xk_layout kmem_x).
  - exact kmem_x_ok.
  - unfold PGSIZE. cbn [KERNBASE xk_layout]. lia.
Defined.

Lemma kfree_counts_references_witness :
  exists m',
    @kfree xk_layout (@KERNBASE xk_layout + 700 * PGSIZE) kmem_x = inr m' /\
    (forall k, k <> Z.to_nat 700 -> core_map m' !! k = core_map kmem_x !! k) /\
    (forall k, k <> 700 -> page_data m' k = page_data kmem_x k) /\
    core_map m' !! Z.to_nat 700 = Some (mkcme 0 1 4096 1) /\
    page_data m' 700 = page_data kmem_x 700 /\
    pages_in_use m' = pages_in_use kmem_x /\
    free_pages m' = free_pages kmem_x.
Proof.
  apply (@kfree_counts_references xk_layout kmem_x 700 (mkcme 0 1 4096 2)).
  - exact kmem_x_ok.
  - cbn. lia.
  - unfold PGSIZE. cbn [KERNBASE kernel_end xk_layout]. lia.
  - reflexivity.
  - cbn. lia.
  - cbn. lia.
Defined.

(* ===================================================================== *)
(** ** Transactions: what a commit installs and what a crash leaves *)
(* ===================================================================== *)

(* ---- lemmas ---- *)
Lemma le_enc_length (w : nat) (z : Z) : length (le_enc w z) = w.
Proof. revert z. induction w as [| w IH]; intros z; cbn; [reflexivity |]. now rewrite IH. Qed.

Lemma le_dec_le_enc (w : nat) (z : Z) :
  le_dec (le_enc w z) = z mod 256 ^ Z.of_nat w.
Proof.
  revert z. induction w as [| w IH]; intros z.
  - cbn. now rewrite Z.mod_1_r.
  - cbn [le_enc le_dec]. rewrite IH.
    rewrite Nat2Z.inj_succ, Z.pow_succ_r by lia.
    assert (H256 : 0 < 256 ^ Z.of_nat w) by (apply Z.pow_pos_nonneg; lia).
    rewrite (Z.rem_mul_r z 256 (256 ^ Z.of_nat w)) by lia. lia.
Qed.

Lemma mem_read_mem_write_other (m src : list Z) (pos len q k : Z) :
  0 <= pos -> 0 <= q -> 0 <= k ->
  q + k <= pos \/ pos + Z.of_nat (length (take (Z.to_nat len) src)) <= q ->
  mem_read (mem_write m pos src len) q k = mem_read m q k.
Proof.
  intros Hpos Hq Hk Hdis. unfold mem_read, mem_write.
  apply list_eq. intros i.
  destruct (decide (i < Z.to_nat k)%nat) as [Hi | Hi].
  - rewrite !lookup_take_lt by assumption. rewrite !lookup_drop.
    destruct Hdis as [Hd | Hd].
    + apply list_lookup_inserts_lt. lia.
    + apply list_lookup_inserts_ge. lia.
  - now rewrite !lookup_take_ge by lia.
Qed.

Lemma mem_read_app_l (l j : list Z) (q k : Z) :
  0 <= q -> 0 <= k -> q + k <= Z.of_nat (length l) ->
  mem_read (l ++ j) q k = mem_read l q k.
Proof.
  intros Hq Hk Hl. unfold mem_read.
  rewrite drop_app_le by lia. rewrite take_app_le; [reflexivity |].
  rewrite length_drop. lia.
Qed.

Lemma rd_wr_same (m : list Z) (p : Z) (w : nat) (z : Z) :
  0 <= p -> p + Z.of_nat w <= Z.of_nat (length m) ->
  rd (wr m p w z) p w = z mod 256 ^ Z.of_nat w.
Proof.
  intros Hp Hl. unfold rd, wr.
  rewrite mem_read_mem_write_same; try lia.
  - rewrite Nat2Z.id, <- (le_enc_length w z) at 1. rewrite firstn_all.
    apply le_dec_le_enc.
  - rewrite le_enc_length. lia.
Qed.

Lemma rd_wr_other (m : list Z) (p q : Z) (w w' : nat) (z : Z) :
  0 <= p -> 0 <= q ->
  q + Z.of_nat w' <= p \/ p + Z.of_nat w <= q ->
  rd (wr m p w z) q w' = rd m q w'.
Proof.
  intros Hp Hq Hdis. unfold rd, wr. f_equal.
  apply mem_read_mem_write_other; try lia.
  rewrite Nat2Z.id, <- (le_enc_length w z) at 1. rewrite firstn_all, le_enc_length.
  lia.
Qed.

Lemma wr_length (m : list Z) (p : Z) (w : nat) (z : Z) :
  length (wr m p w z) = length m.
Proof. apply mem_write_length. Qed.

Lemma rd_app_l (l j : list Z) (q : Z) (w : nat) :
  0 <= q -> q + Z.of_nat w <= Z.of_nat (length l) ->
  rd (l ++ j) q w = rd l q w.
Proof. intros. unfold rd. f_equal. apply mem_read_app_l; lia. Qed.

Lemma log_holds_zeros : log_holds (zeros sizeof_log_meta) [] 0.
Proof.
  split; [reflexivity |]. split; [reflexivity |]. split; [reflexivity |].
  intros i b Hi. discriminate.
Qed.

Lemma log_holds_add (log : list Z) (bs : list Z) (b : Z) :
  log_holds log bs 0 -> (length bs < 19)%nat -> 0 <= b < 2 ^ 32 ->
  let log1 := lm_set_blockno log (lm_nchanges log) b in
  log_holds (lm_set_nchanges log1 (uint32 (lm_nchanges log1 + 1)))
            (bs ++ [b]) 0.
Proof.
  intros (Hlen & Hc & Hn & Hb) Hk Hbr log1.
  subst log1. rewrite Hn. set (log1 := lm_set_blockno log _ b).
  assert (H84 : Z.of_nat (length log) = 84) by (rewrite Hlen; reflexivity).
  assert (Hlen1 : length log1 = length log) by apply wr_length.
  assert (Hn1 : lm_nchanges log1 = Z.of_nat (length bs)).
  { unfold log1, lm_nchanges, lm_set_blockno.
    rewrite rd_wr_other by lia. exact Hn. }
  rewrite Hn1.
  rewrite uint32_id by lia.
  split; [unfold lm_set_nchanges; rewrite wr_length; congruence |].
  split.
  { unfold lm_commited, lm_set_nchanges, log1, lm_set_blockno.
    rewrite !rd_wr_other by lia. exact Hc. }
  split.
  { unfold lm_nchanges at 1, lm_set_nchanges.
    rewrite rd_wr_same by lia. rewrite length_app. cbn [length].
    change (256 ^ Z.of_nat 4) with 4294967296. rewrite Z.mod_small; lia. }
  intros i x Hi. unfold lm_blockno, lm_set_nchanges.
  rewrite rd_wr_other by lia. unfold log1, lm_set_blockno.
  destruct (decide (i = length bs)) as [-> | Hne].
  - rewrite lookup_app_r in Hi by lia. rewrite Nat.sub_diag in Hi.
    injection Hi as <-. rewrite rd_wr_same by lia.
    change (256 ^ Z.of_nat 4) with 4294967296. change (2 ^ 32) with 4294967296 in Hbr.
    apply Z.mod_small. lia.
  - assert (Hlt : (i < length bs)%nat).
    { apply lookup_lt_Some in Hi. rewrite length_app in Hi. cbn in Hi. lia. }
    rewrite lookup_app_l in Hi by assumption.
    rewrite rd_wr_other by lia. apply (Hb i x Hi).
Qed.

Lemma int16_small (v : Z) : - 2 ^ 15 <= v < 2 ^ 15 -> int16 (v mod 256 ^ Z.of_nat 2) = v.
Proof.
  intros Hv. unfold int16. change (256 ^ Z.of_nat 2) with 65536.
  change (2 ^ 16) with 65536. change (2 ^ 15) with 32768 in *.
  Z.div_mod_to_equations. lia.
Qed.

Lemma log_holds_commit (log : list Z) (bs : list Z) (c v : Z) :
  log_holds log bs c -> - 2 ^ 15 <= v < 2 ^ 15 ->
  log_holds (lm_set_commited log v) bs v.
Proof.
  intros (Hlen & Hc & Hn & Hb) Hv.
  assert (H84 : Z.of_nat (length log) = 84) by (rewrite Hlen; reflexivity).
  split; [unfold lm_set_commited; rewrite wr_length; congruence |].
  split.
  { unfold lm_commited, lm_set_commited. rewrite rd_wr_same by lia.
    now apply int16_small. }
  split.
  { unfold lm_nchanges, lm_set_commited. rewrite rd_wr_other by lia. exact Hn. }
  intros i x Hi. unfold lm_blockno, lm_set_commited.
  rewrite rd_wr_other by lia. apply (Hb i x Hi).
Qed.

Lemma log_holds_junk (log : list Z) (bs : list Z) (c : Z) (junk : list Z) :
  log_holds log bs c -> (length bs <= 19)%nat ->
  forall i b, bs !! i = Some b -> lm_blockno (log ++ junk) (Z.of_nat i) = b.
Proof.
  intros (Hlen & Hc & Hn & Hb) Hk i b Hi.
  assert (H84 : Z.of_nat (length log) = 84) by (rewrite Hlen; reflexivity).
  pose proof (lookup_lt_Some _ _ _ Hi) as Hlt.
  unfold lm_blockno. rewrite rd_app_l by lia. apply (Hb i b Hi).
Qed.

(** *** Staged contents *)

Lemma staged_snoc (L : list (Z * list Z)) (b' : Z) (d : list Z) (b : Z) :
  staged (L ++ [(b', d)]) b = if b' =? b then Some d else staged L b.
Proof.
  induction L as [| [b0 d0] L IH]; cbn [staged app].
  - reflexivity.
  - rewrite IH. destruct (b' =? b); [reflexivity |].
    destruct (staged L b); reflexivity.
Qed.

Lemma staged_in (L : list (Z * list Z)) (b : Z) (d : list Z) :
  staged L b = Some d -> exists i, L !! i = Some (b, d).
Proof.
  induction L as [| [b0 d0] L IH]; cbn [staged]; [discriminate |].
  destruct (staged L b) as [d' |] eqn:E.
  - intros [= <-]. destruct (IH eq_refl) as [i Hi]. now exists (S i).
  - destruct (Z.eqb_spec b0 b) as [-> |]; [| discriminate].
    intros [= <-]. now exists 0%nat.
Qed.

Lemma staged_none (L : list (Z * list Z)) (b : Z) :
  staged L b = None -> forall i d, L !! i <> Some (b, d).
Proof.
  induction L as [| [b0 d0] L IH]; cbn [staged]; intros Hn i d Hi.
  - discriminate.
  - destruct (staged L b) eqn:E; [discriminate |].
    destruct (Z.eqb_spec b0 b) as [-> | Hne]; [discriminate |].
    destruct i as [| i]; cbn in Hi.
    + injection Hi as -> _. contradiction.
    + exact (IH eq_refl i d Hi).
Qed.

Lemma stores_ok_lookup (lb : Z) (L : list (Z * list Z)) i b d :
  stores_ok lb L -> L !! i = Some (b, d) ->
  home_block lb b /\ length d = Z.to_nat BSIZE.
Proof.
  intros Hok Hi. unfold stores_ok in Hok. rewrite Forall_lookup in Hok.
  exact (Hok i (b, d) Hi).
Qed.

Lemma staged_home (lb : Z) (L : list (Z * list Z)) b d :
  stores_ok lb L -> staged L b = Some d ->
  home_block lb b /\ length d = Z.to_nat BSIZE.
Proof.
  intros Hok Hs. destruct (staged_in L b d Hs) as [i Hi].
  exact (stores_ok_lookup lb L i b d Hok Hi).
Qed.

Lemma shadow_in_log (lb : Z) (i : nat) :
  (i < 19)%nat -> in_log lb (lb + 1 + Z.of_nat i).
Proof. unfold in_log. lia. Qed.

(** *** Traces *)

Lemma crash_disk_write (D : Z -> list Z) (x : Z) (v : list Z) :
  crash_disk D [Ewrite x v] = upd D x v.
Proof. reflexivity. Qed.

Lemma writes_keep_refl (P : (Z -> list Z) -> Prop) (s : fs) :
  P (disk s) -> writes_keep P s s.
Proof.
  intros HP. exists []. rewrite app_nil_r. repeat split.
  intros j. now rewrite take_nil.
Qed.

Lemma writes_keep_trans (P : (Z -> list Z) -> Prop) (s1 s2 s3 : fs) :
  writes_keep P s1 s2 -> writes_keep P s2 s3 -> writes_keep P s1 s3.
Proof.
  intros (tr1 & He1 & Hw1 & Hd1 & Hp1) (tr2 & He2 & Hw2 & Hd2 & Hp2).
  exists (tr1 ++ tr2). rewrite He2, He1, <- app_assoc.
  split; [reflexivity |]. split; [now rewrite forallb_app, Hw1, Hw2 |].
  split; [rewrite crash_disk_app, <- Hd1; exact Hd2 |].
  intros j. rewrite take_app.
  rewrite crash_disk_app.
  destruct (decide (j <= length tr1)%nat) as [Hj | Hj].
  - replace (j - length tr1)%nat with 0%nat by lia.
    rewrite take_0. cbn. apply Hp1.
  - rewrite take_ge by lia. rewrite <- Hd1. apply Hp2.
Qed.

Lemma writes_keep_same (P : (Z -> list Z) -> Prop) (s s' : fs) :
  P (disk s) -> events s' = events s -> disk s' = disk s ->
  writes_keep P s s'.
Proof.
  intros HP He Hd. exists []. rewrite app_nil_r. repeat split; auto.
  intros j. now rewrite take_nil.
Qed.

Lemma bwrite_bset_disk (s : fs) (x : Z) (d : list Z) :
  disk (bwrite (bset s x d) x) = upd (disk s) x d.
Proof.
  unfold bwrite.
  assert (Hb : bread (bset s x d) x = d)
    by (unfold bread, bset; cbn; now rewrite upd_same).
  rewrite Hb. reflexivity.
Qed.

Lemma writes_keep_put (P : (Z -> list Z) -> Prop) (s : fs) (x : Z) (d : list Z) :
  P (disk s) -> P (upd (disk s) x d) ->
  writes_keep P s (bwrite (bset s x d) x).
Proof.
  intros H0 H1.
  destruct (put_block_spec s x d) as (_ & _ & _ & He & _ & Hd).
  exists [Ewrite x d]. split; [exact He |]. split; [reflexivity |].
  split.
  - apply bwrite_bset_disk.
  - intros [| j]; cbn; [exact H0 |]. rewrite take_nil. exact H1.
Qed.

(** *** Inside a transaction *)

Lemma sizes_84_512 :
  (Z.to_nat sizeof_log_meta <= Z.to_nat BSIZE)%nat.
Proof. unfold sizeof_log_meta, BSIZE. lia. Qed.

Lemma header_read (old log : list Z) :
  length old = Z.to_nat BSIZE -> length log = Z.to_nat sizeof_log_meta ->
  mem_read (mem_write old 0 log sizeof_log_meta) 0 sizeof_log_meta = log.
Proof.
  intros Ho Hl. apply mem_read_mem_write_prefix; [exact Hl |].
  rewrite Ho. apply sizes_84_512.
Qed.

Lemma disk_open_upd_log (lb : Z) (d0 D : Z -> list Z) (x : Z) (v : list Z) :
  log_region_ok lb -> disk_open lb d0 D ->
  in_log lb x -> length v = Z.to_nat BSIZE ->
  (x = lb -> lm_commited (mem_read v 0 sizeof_log_meta) <> 1) ->
  disk_open lb d0 (upd D x v).
Proof.
  intros [Hlb1 Hlb2] (Hwf & Hsb & Hun & Hsame) Hx Hv Hc.
  split; [now apply wf_disk_upd |].
  split.
  { unfold sb_on. rewrite upd_other; [exact Hsb |]. unfold in_log in Hx. lia. }
  split.
  { unfold upd. destruct (Z.eqb_spec lb x) as [E | E]; [| exact Hun].
    apply Hc. congruence. }
  intros y Hy. rewrite upd_other; [now apply Hsame |]. congruence.
Qed.

Lemma tx_open_frame (lb : Z) (d0 : Z -> list Z) (L : list (Z * list Z))
    (s s' : fs) :
  tx_open lb d0 L s ->
  disk s' = disk s -> bufs s' = bufs s -> sb s' = sb s ->
  loglock s' = loglock s ->
  tx_open lb d0 L s'.
Proof.
  intros H Hd Hb Hsb Hl.
  assert (Hbr : forall y, bread s' y = bread s y)
    by (intros y; unfold bread; now rewrite Hb, Hd).
  destruct H as (H1 & H2 & H3 & H4 & H5 & H5' & H6 & H7 & H8 & H9 & H10).
  split; [congruence |]. split; [congruence |]. split; [exact H3 |].
  split; [intros y; rewrite Hbr; apply H4 |].
  split; [exact H5 |]. split; [exact H5' |].
  split; [rewrite Hbr, Hd; exact H6 |].
  split; [rewrite Hd; exact H7 |].
  split; [intros i b d Hi; rewrite Hbr, Hd; exact (H8 i b d Hi) |].
  split; [intros b d Hs; rewrite Hbr; now apply H9 |].
  rewrite Hd. exact H10.
Qed.

Lemma begin_tx_opens (s : fs) :
  log_idle s ->
  exists s1 h0,
    begin_tx s = Done tt s1 /\
    tx_open (logstart (sb s)) (disk s) [] s1 /\
    events s1 = events s ++ [Ebegin; Ewrite (logstart (sb s)) h0] /\
    disk s1 = upd (disk s) (logstart (sb s)) h0 /\
    disk_open (logstart (sb s)) (disk s) (disk s) /\
    inodes s1 = inodes s /\ inodefile s1 = inodefile s /\ sb s1 = sb s /\
    junk s1 = junk s.
Proof.
  intros (Hl & Hwf & Hwd & Hreg & Hsb & Hun).
  set (lb := logstart (sb s)) in *.
  assert (Hopen0 : disk_open lb (disk s) (disk s)).
  { split; [exact Hwd |]. split; [exact Hsb |]. split; [exact Hun |].
    intros x _. reflexivity. }
  unfold begin_tx. rewrite Hl.
  set (sa := set_loglock s true (events s ++ [Ebegin])).
  change (logstart (sb sa)) with lb.
  change (bread sa lb) with (bread s lb).
  set (h0 := mem_write (bread s lb) 0 (zeros sizeof_log_meta) sizeof_log_meta).
  assert (Hh0 : length h0 = Z.to_nat BSIZE)
    by (unfold h0; rewrite mem_write_length; apply Hwf).
  destruct (put_block_spec sa lb h0) as (Hsb1 & Hl1 & Hj1 & He1 & Hbr1 & Hd1).
  pose proof (bwrite_bset_disk sa lb h0) as Hdisk1.
  set (s1 := bwrite (bset sa lb h0) lb) in *.
  exists s1, h0. split; [reflexivity |].
  assert (Hread : mem_read h0 0 sizeof_log_meta = zeros sizeof_log_meta).
  { unfold h0. apply header_read; [apply Hwf | reflexivity]. }
  assert (Hopen1 : disk_open lb (disk s) (disk s1)).
  { rewrite Hdisk1. change (disk sa) with (disk s).
    apply disk_open_upd_log; try assumption.
    - destruct Hreg. unfold in_log. lia.
    - intros _. rewrite Hread. discriminate. }
  split.
  { split; [exact Hl1 |]. split; [rewrite Hsb1; reflexivity |].
    split; [exact Hreg |].
    split.
    { intros y. rewrite Hbr1. destruct (y =? lb); [exact Hh0 | apply Hwf]. }
    split; [constructor |]. split; [cbn; lia |].
    split.
    { rewrite Hbr1, Hd1, Z.eqb_refl. reflexivity. }
    split.
    { rewrite Hd1, Z.eqb_refl, Hread. apply log_holds_zeros. }
    split; [intros i b d Hi; discriminate |].
    split; [intros b d Hs; discriminate |].
    exact Hopen1. }
  split.
  { rewrite He1. subst sa. cbn [events set_loglock].
    now rewrite <- app_assoc. }
  split; [exact Hdisk1 |].
  split; [exact Hopen0 |].
  repeat split; first [reflexivity | exact Hsb1].
Qed.

Lemma log_write_logs (lb : Z) (d0 : Z -> list Z) (L : list (Z * list Z))
    (s : fs) (b : Z) (d : list Z) :
  tx_open lb d0 L s -> home_block lb b -> length d = Z.to_nat BSIZE ->
  ((19 <= length L)%nat -> log_write b (bset s b d) = Undefined) /\
  ((length L < 19)%nat ->
   exists s',
     log_write b (bset s b d) = Done tt s' /\
     tx_open lb d0 (L ++ [(b, d)]) s' /\
     writes_keep (disk_open lb d0) s s' /\
     inodes s' = inodes s /\ inodefile s' = inodefile s /\ sb s' = sb s /\
     junk s' = junk s).
Proof.
  intros (Hl & Hlb & Hreg & Hwf & Hok & Hk19 & Hhb & Hlog & Hsh & Hst & Hopen)
         Hhome Hd.
  pose proof Hreg as [Hlb1 Hlb2].
  pose proof Hhome as (Hb32 & Hb1 & Hbl).
  pose proof Hlog as (Hlen & Hc & Hn & Hbn).
  assert (HbL : b <> lb) by (intros ->; apply Hbl; unfold in_log; lia).
  set (s1 := bset s b d).
  assert (Hbr1 : forall y, bread s1 y = if y =? b then d else bread s y)
    by (intros y; apply bread_bset).
  unfold log_write. change (loglock s1) with (loglock s). rewrite Hl.
  cbn [negb]. change (logstart (sb s1)) with (logstart (sb s)). rewrite Hlb.
  rewrite (Hbr1 lb). destruct (Z.eqb_spec lb b) as [E | _]; [congruence |].
  rewrite Hhb.
  set (log := mem_read (disk s lb) 0 sizeof_log_meta) in *.
  rewrite Hn, length_map.
  split.
  { intros Hfull. destruct (Z.leb_spec 19 (Z.of_nat (length L))); [reflexivity | lia]. }
  intros Hk. destruct (Z.leb_spec 19 (Z.of_nat (length L))); [lia |].
  pose proof (log_holds_add log (map fst L) b Hlog
                ltac:(rewrite length_map; exact Hk) Hb32) as Hlog'.
  cbv zeta in Hlog'. rewrite Hn, length_map in Hlog'.
  set (log1 := lm_set_blockno log (Z.of_nat (length L)) b) in *.
  assert (Hn1 : lm_nchanges log1 = Z.of_nat (length L)).
  { unfold log1, lm_nchanges, lm_set_blockno. rewrite rd_wr_other by lia.
    fold (lm_nchanges log). rewrite Hn, length_map. reflexivity. }
  rewrite Hn1 in Hlog' |- *. rewrite (uint32_id (Z.of_nat (length L) + 1)) in Hlog' |- * by lia.
  set (log2 := lm_set_nchanges log1 (Z.of_nat (length L) + 1)) in *.
  assert (Hn2 : lm_nchanges log2 = Z.of_nat (length L) + 1).
  { destruct Hlog' as (_ & _ & Hn2 & _). rewrite Hn2, length_app, length_map.
    cbn. lia. }
  rewrite Hn2.
  set (db := lb + 1 + Z.of_nat (length L)).
  replace (lb + (Z.of_nat (length L) + 1)) with db by (unfold db; lia).
  rewrite (uint32_id db) by (unfold db; lia).
  assert (Hdb : in_log lb db) by (unfold in_log, db; lia).
  assert (HdbL : db <> lb) by (unfold db; lia).
  assert (Hdbb : db <> b) by (intros E; apply Hbl; rewrite <- E; exact Hdb).
  rewrite (Hbr1 db), (Hbr1 b), Z.eqb_refl.
  destruct (Z.eqb_spec db b) as [E | _]; [contradiction |].
  rewrite (mem_write_block (bread s db) d) by (auto; apply Hwf).
  destruct (put_block_spec s1 db d) as (Hsb2 & Hl2 & Hj2 & He2 & Hbr2 & Hd2).
  pose proof (writes_keep_put (disk_open lb d0) s1 db d) as Hwk2.
  pose proof (bwrite_bset_disk s1 db d) as Hdisk2.
  set (s2 := bwrite (bset s1 db d) db) in *.
  rewrite (Hbr2 lb). destruct (Z.eqb_spec lb db) as [E | _]; [congruence |].
  rewrite (Hbr1 lb). destruct (Z.eqb_spec lb b) as [E | _]; [congruence |].
  rewrite Hhb.
  set (h := mem_write (disk s lb) 0 log2 sizeof_log_meta).
  assert (Hhlen : length h = Z.to_nat BSIZE).
  { unfold h. rewrite mem_write_length. destruct Hopen as (Hwd & _). apply Hwd. }
  assert (Hhread : mem_read h 0 sizeof_log_meta = log2).
  { unfold h. apply header_read.
    - destruct Hopen as (Hwd & _). apply Hwd.
    - destruct Hlog' as (Hl2' & _). exact Hl2'. }
  destruct (put_block_spec s2 lb h) as (Hsb3 & Hl3 & Hj3 & He3 & Hbr3 & Hd3).
  pose proof (writes_keep_put (disk_open lb d0) s2 lb h) as Hwk3.
  pose proof (bwrite_bset_disk s2 lb h) as Hdisk3.
  set (s3 := bwrite (bset s2 lb h) lb) in *.
  assert (Hopen2 : disk_open lb d0 (upd (disk s) db d)).
  { apply disk_open_upd_log; try assumption. intros E. contradiction. }
  assert (Hopen3 : disk_open lb d0 (upd (upd (disk s) db d) lb h)).
  { apply disk_open_upd_log; try assumption.
    - unfold in_log. lia.
    - intros _. rewrite Hhread. destruct Hlog' as (_ & Hc2 & _).
      rewrite Hc2. discriminate. }
  exists s3. split; [reflexivity |].
  assert (Hbr : forall y, bread s3 y
                = if y =? lb then h else if y =? db then d
                  else if y =? b then d else bread s y).
  { intros y. rewrite Hbr3. destruct (y =? lb); [reflexivity |].
    rewrite Hbr2. destruct (y =? db); [reflexivity |]. apply Hbr1. }
  assert (Hdk : forall y, disk s3 y
                = if y =? lb then h else if y =? db then d else disk s y).
  { intros y. rewrite Hd3. destruct (y =? lb); [reflexivity |].
    rewrite Hd2. destruct (y =? db); reflexivity. }
  split.
  { split; [rewrite Hl3, Hl2; exact Hl |].
    split; [rewrite Hsb3, Hsb2; exact Hlb |].
    split; [exact Hreg |].
    split.
    { intros y. rewrite Hbr. destruct (y =? lb); [exact Hhlen |].
      destruct (y =? db); [exact Hd |]. destruct (y =? b); [exact Hd | apply Hwf]. }
    split.
    { apply Forall_app. split; [exact Hok |]. constructor; [| constructor].
      split; assumption. }
    split; [rewrite length_app; cbn; lia |].
    split.
    { rewrite Hbr, Hdk, Z.eqb_refl. reflexivity. }
    split.
    { rewrite Hdk, Z.eqb_refl, Hhread. rewrite map_app. exact Hlog'. }
    split.
    { intros i b' d' Hi.
      assert (Hilt : (i < S (length L))%nat).
      { apply lookup_lt_Some in Hi. rewrite length_app in Hi. cbn in Hi. lia. }
      rewrite Hbr, Hdk.
      destruct (Z.eqb_spec (lb + 1 + Z.of_nat i) lb) as [E | _]; [lia |].
      destruct (decide (i = length L)) as [-> | Hne].
      - fold db. rewrite Z.eqb_refl.
        rewrite lookup_app_r in Hi by lia. rewrite Nat.sub_diag in Hi.
        injection Hi as <- <-. split; reflexivity.
      - assert (Hlt : (i < length L)%nat) by lia.
        rewrite lookup_app_l in Hi by assumption.
        destruct (Z.eqb_spec (lb + 1 + Z.of_nat i) db) as [E | _];
          [unfold db in E; lia |].
        destruct (Z.eqb_spec (lb + 1 + Z.of_nat i) b) as [E | _].
        { exfalso. apply Hbl. rewrite <- E. apply shadow_in_log. lia. }
        apply (Hsh i b' d' Hi). }
    split.
    { intros x dx. rewrite staged_snoc.
      destruct (Z.eqb_spec b x) as [<- | Hne].
      - intros [= <-]. rewrite Hbr.
        destruct (Z.eqb_spec b lb); [contradiction |].
        destruct (Z.eqb_spec b db); [congruence |].
        now rewrite Z.eqb_refl.
      - intros Hs. destruct (staged_home lb L x dx Hok Hs) as ((_ & _ & Hxl) & _).
        rewrite Hbr.
        destruct (Z.eqb_spec x lb) as [-> |];
          [exfalso; apply Hxl; unfold in_log; lia |].
        destruct (Z.eqb_spec x db) as [-> |]; [contradiction |].
        destruct (Z.eqb_spec x b); [congruence |].
        now apply Hst. }
    rewrite Hdisk3, Hdisk2. exact Hopen3. }
  split.
  { eapply writes_keep_trans; [| eapply writes_keep_trans].
    - apply (writes_keep_same _ s s1); [exact Hopen | reflexivity | reflexivity].
    - apply Hwk2; [exact Hopen | exact Hopen2].
    - apply Hwk3; rewrite Hdisk2; [exact Hopen2 | exact Hopen3]. }
  repeat split; first [reflexivity | (rewrite Hsb3, Hsb2; reflexivity)].
Qed.

(** *** The commit *)

Lemma writes_keep_weaken (P Q : (Z -> list Z) -> Prop) (s s' : fs) :
  (forall D, P D -> Q D) -> writes_keep P s s' -> writes_keep Q s s'.
Proof.
  intros HPQ (tr & He & Hw & Hd & Hp). exists tr. repeat split; auto.
Qed.

Lemma mem_write_mix (old new : list Z) :
  length old = Z.to_nat BSIZE -> length new = Z.to_nat BSIZE ->
  mem_write old 0 new sizeof_log_meta = mix new old.
Proof.
  intros Ho Hn. unfold mem_write, mix. change (Z.to_nat 0) with 0%nat.
  pose proof sizes_84_512 as H84.
  assert (Hl : length (take (Z.to_nat sizeof_log_meta) new)
               = Z.to_nat sizeof_log_meta) by (rewrite length_take; lia).
  rewrite list_inserts_split by (rewrite Hl; lia).
  rewrite take_0, Hl. reflexivity.
Qed.

Lemma mix_length (d' d : list Z) :
  length d' = Z.to_nat BSIZE -> length d = Z.to_nat BSIZE ->
  length (mix d' d) = Z.to_nat BSIZE.
Proof.
  intros H1 H2. unfold mix. pose proof sizes_84_512.
  rewrite length_app, length_take, length_drop. lia.
Qed.

Lemma mix_drop (d' d : list Z) :
  length d' = Z.to_nat BSIZE ->
  drop (Z.to_nat sizeof_log_meta) (mix d' d) = drop (Z.to_nat sizeof_log_meta) d.
Proof.
  intros H1. unfold mix. pose proof sizes_84_512.
  rewrite drop_app_length'; [reflexivity |]. rewrite length_take. lia.
Qed.

Lemma mix_mix (d'' d' d : list Z) :
  length d' = Z.to_nat BSIZE -> mix d'' (mix d' d) = mix d'' d.
Proof.
  intros H1. unfold mix at 1. rewrite mix_drop by assumption. reflexivity.
Qed.

Lemma mix_self (d : list Z) : mix d d = d.
Proof. apply take_drop. Qed.

Lemma staged_lookup (L : list (Z * list Z)) i b d :
  L !! i = Some (b, d) -> exists dfin, staged L b = Some dfin.
Proof.
  revert i. induction L as [| [b0 d0] L IH]; intros i Hi; [discriminate |].
  cbn [staged]. destruct (staged L b) as [d' |] eqn:E; [eauto |].
  destruct i as [| i]; cbn in Hi.
  - injection Hi as -> ->. rewrite Z.eqb_refl. eauto.
  - destruct (IH i Hi) as [dfin Hd]. congruence.
Qed.

Lemma staged_take_some (L : list (Z * list Z)) (i : nat) b d :
  staged (take i L) b = Some d -> exists dfin, staged L b = Some dfin.
Proof.
  intros Hs. destruct (staged_in _ _ _ Hs) as [m Hm].
  apply lookup_take_Some in Hm as [Hm _]. eapply staged_lookup; eassumption.
Qed.

Lemma disk_committed_upd_home (lb : Z) (L : list (Z * list Z))
    (d0 D : Z -> list Z) (b : Z) (v dfin : list Z) :
  disk_committed lb L d0 D -> home_block lb b -> staged L b = Some dfin ->
  length v = Z.to_nat BSIZE ->
  disk_committed lb L d0 (upd D b v).
Proof.
  intros (Hwf & Hsb & Hk & Hlog & Hsh & Hrest) (Hb32 & Hb1 & Hbl) Hst Hv.
  assert (HbL : b <> lb) by (intros ->; apply Hbl; unfold in_log; lia).
  split; [now apply wf_disk_upd |].
  split; [unfold sb_on; rewrite upd_other by auto; exact Hsb |].
  split; [exact Hk |].
  split; [rewrite upd_other by auto; exact Hlog |].
  split.
  - intros i b' d' Hi.
    assert (Hlt : (i < length L)%nat) by (eapply lookup_lt_Some; eassumption).
    destruct (Z.eq_dec (lb + 1 + Z.of_nat i) b) as [E | E].
    + (* a shadow block is not a home block *)
      exfalso. apply Hbl. rewrite <- E. apply shadow_in_log. lia.
    + rewrite upd_other by exact E. exact (Hsh i b' d' Hi).
  - intros x Hx Hnone. rewrite upd_other; [now apply Hrest | congruence].
Qed.

Section commit.
Variables (lb : Z) (d0 : Z -> list Z) (L : list (Z * list Z)) (s : fs).
Hypothesis Hopen : tx_open lb d0 L s.

Lemma commit_round (sb0 : fs) (hc : list Z) (log : list Z) (i : nat) (t : fs)
    (b : Z) (d : list Z) :
  log_holds log (map fst L) 1 ->
  L !! i = Some (b, d) ->
  commit_inv lb d0 L sb0 hc i t -> logstart (sb sb0) = lb ->
  commit_inv lb d0 L sb0 hc (S i) (commit_block (log ++ junk sb0) t (Z.of_nat i)).
Proof.
  intros Hlog Hi (Hsb & Hl & Hj & Hin & Hif & Hwf & Hh & Hsh & Hhome & Hdh & Hrest
                  & Hdc & Hwk) Hlb0.
  destruct Hopen as (_ & _ & Hreg & _ & Hok & Hk19 & _).
  pose proof Hreg as [Hlb1 Hlb2].
  assert (Hlt : (i < length L)%nat) by (eapply lookup_lt_Some; eassumption).
  destruct (stores_ok_lookup lb L i b d Hok Hi) as (Hbh & Hdlen).
  pose proof Hbh as (Hb32 & Hb1 & Hbl).
  assert (HbL : b <> lb) by (intros ->; apply Hbl; unfold in_log; lia).
  destruct (staged_lookup L i b d Hi) as [dfin Hfin].
  destruct (staged_home lb L b dfin Hok Hfin) as (_ & Hfinlen).
  unfold commit_block.
  assert (Hbno : lm_blockno (log ++ junk sb0) (Z.of_nat i) = b).
  { apply (log_holds_junk log (map fst L) 1 (junk sb0) Hlog).
    - rewrite length_map. exact Hk19.
    - rewrite list_lookup_fmap, Hi. reflexivity. }
  rewrite Hbno, Hsb, Hlb0.
  rewrite (uint32_id (lb + 1 + Z.of_nat i)) by lia.
  rewrite (Hsh i b d Hi).
  assert (Hcur : length (bread t b) = Z.to_nat BSIZE) by apply Hwf.
  rewrite (mem_write_mix (bread t b) d Hcur Hdlen).
  assert (Hv : mix d (bread t b) = mix d dfin).
  { rewrite (Hhome b dfin Hfin).
    destruct (staged (take i L) b) as [d' |] eqn:E; [| reflexivity].
    apply mix_mix.
    destruct (staged_in _ _ _ E) as [m Hm].
    apply lookup_take_Some in Hm as [Hm _].
    apply (stores_ok_lookup lb L m b d' Hok Hm). }
  rewrite Hv.
  assert (Hvlen : length (mix d dfin) = Z.to_nat BSIZE)
    by (apply mix_length; assumption).
  destruct (put_block_spec t b (mix d dfin)) as (Hsb' & Hl' & Hj' & He' & Hbr' & Hd').
  pose proof (writes_keep_put (disk_committed lb L d0) t b (mix d dfin)) as Hwk'.
  pose proof (bwrite_bset_disk t b (mix d dfin)) as Hdisk'.
  set (t' := bwrite (bset t b (mix d dfin)) b) in *.
  assert (Htake : take (S i) L = take i L ++ [(b, d)])
    by (now apply take_S_r).
  assert (Hdc' : disk_committed lb L d0 (upd (disk t) b (mix d dfin))).
  { eapply disk_committed_upd_home; eassumption. }
  split; [congruence |]. split; [congruence |]. split; [congruence |].
  split; [exact Hin |]. split; [exact Hif |].
  split.
  { intros y. rewrite Hbr'. destruct (y =? b); [exact Hvlen | apply Hwf]. }
  split.
  { rewrite Hbr'. destruct (Z.eqb_spec lb b); [congruence | exact Hh]. }
  split.
  { intros m b' d' Hm. rewrite Hbr'.
    destruct (Z.eqb_spec (lb + 1 + Z.of_nat m) b) as [E | _]; [| now apply (Hsh m b' d')].
    exfalso. apply Hbl. rewrite <- E. apply shadow_in_log.
    apply lookup_lt_Some in Hm. lia. }
  split.
  { intros x dx Hx. rewrite Htake, staged_snoc, Hbr'.
    rewrite (Z.eqb_sym x b).
    destruct (Z.eqb_spec b x) as [<- | Hne]; [congruence |].
    now apply Hhome. }
  split.
  { intros x dx dx' Hx. rewrite Htake, staged_snoc, Hd'.
    rewrite (Z.eqb_sym x b).
    destruct (Z.eqb_spec b x) as [<- | Hne].
    - intros [= <-]. congruence.
    - intros Hs. now apply Hdh. }
  split.
  { intros x Hx. rewrite Htake, staged_snoc, Hd'. rewrite (Z.eqb_sym x b).
    destruct (Z.eqb_spec b x); [discriminate |]. now apply Hrest. }
  split; [rewrite Hdisk'; exact Hdc' |].
  eapply writes_keep_trans; [exact Hwk |].
  apply Hwk'; [exact Hdc | exact Hdc'].
Qed.

Lemma commit_rounds (sb0 : fs) (hc : list Z) (log : list Z) :
  log_holds log (map fst L) 1 -> logstart (sb sb0) = lb ->
  commit_inv lb d0 L sb0 hc 0 sb0 ->
  forall i : nat, (i <= length L)%nat ->
    commit_inv lb d0 L sb0 hc i
      (fold_left (commit_block (log ++ junk sb0)) (seqZ 0 (Z.of_nat i)) sb0).
Proof.
  intros Hlog Hlb0 H0. induction i as [| i IH]; intros Hi.
  - exact H0.
  - rewrite seqZ_S, fold_left_app. cbn [fold_left]. rewrite Z.add_0_l.
    destruct (lookup_lt_is_Some_2 L i ltac:(lia)) as [[b d] Hbd].
    eapply commit_round; try eassumption. apply IH. lia.
Qed.

End commit.

Lemma commit_tx_closes (lb : Z) (d0 : Z -> list Z) (L : list (Z * list Z))
    (s : fs) :
  tx_open lb d0 L s ->
  exists s' trc,
    commit_tx s = Done tt s' /\
    events s' = events s ++ trc ++ [Ecommit] /\
    forallb is_write trc = true /\
    disk s' = crash_disk (disk s) trc /\
    (forall j : nat,
       let D := crash_disk (disk s) (take j trc) in
       disk_open lb d0 D \/ disk_committed lb L d0 D \/
       disk_open lb (apply_staged L d0) D) /\
    log_idle s' /\ sb s' = sb s /\ junk s' = junk s /\
    inodes s' = inodes s /\ inodefile s' = inodefile s /\
    same_homes lb (disk s') (apply_staged L d0) /\
    (forall b d, staged L b = Some d -> disk s' b = d /\ bread s' b = d) /\
    (forall i b d, L !! i = Some (b, d) ->
       disk s' (lb + 1 + Z.of_nat i) = d).
Proof.
  intros Hopen.
  pose proof Hopen as (Hl & Hlb & Hreg & Hwf & Hok & Hk19 & Hhb & Hlog & Hsh & Hst
                       & Hdo).
  pose proof Hreg as [Hlb1 Hlb2].
  pose proof Hdo as (Hwd & Hsbon & Hun & Hsame).
  set (P := fun D => disk_open lb d0 D \/ disk_committed lb L d0 D \/
                     disk_open lb (apply_staged L d0) D).
  unfold commit_tx. rewrite Hl. cbn [negb]. rewrite Hlb, Hhb.
  set (log := mem_read (disk s lb) 0 sizeof_log_meta) in *.
  pose proof (log_holds_commit log (map fst L) 0 1 Hlog ltac:(lia)) as Hlogc.
  set (logc := lm_set_commited log 1) in *.
  set (hc := mem_write (disk s lb) 0 logc sizeof_log_meta).
  assert (Hhclen : length hc = Z.to_nat BSIZE)
    by (unfold hc; rewrite mem_write_length; apply Hwd).
  assert (Hhcread : mem_read hc 0 sizeof_log_meta = logc).
  { unfold hc. apply header_read; [apply Hwd |]. now destruct Hlogc. }
  destruct (put_block_spec s lb hc) as (Hsb1 & Hl1 & Hj1 & He1 & Hbr1 & Hd1).
  pose proof (bwrite_bset_disk s lb hc) as Hdisk1.
  pose proof (writes_keep_put P s lb hc) as Hwk1.
  set (s1 := bwrite (bset s lb hc) lb) in *.
  assert (Hnc : lm_nchanges logc = Z.of_nat (length L)).
  { destruct Hlogc as (_ & _ & Hn & _). now rewrite Hn, length_map. }
  rewrite Hnc.
  (* the device right after the commit record *)
  assert (Hdc1 : disk_committed lb L d0 (upd (disk s) lb hc)).
  { split; [now apply wf_disk_upd |].
    split; [unfold sb_on; rewrite upd_other by lia; exact Hsbon |].
    split; [exact Hk19 |].
    split; [rewrite upd_same, Hhcread; exact Hlogc |].
    split.
    - intros i b d Hi. rewrite upd_other by lia. apply (Hsh i b d Hi).
    - intros x Hx _. rewrite upd_other; [now apply Hsame |].
      intros ->. apply Hx. unfold in_log. lia. }
  assert (Hinv0 : commit_inv lb d0 L s1 hc 0 s1).
  { split; [reflexivity |]. split; [reflexivity |]. split; [reflexivity |].
    split; [reflexivity |]. split; [reflexivity |].
    split.
    { intros y. rewrite Hbr1. destruct (y =? lb); [exact Hhclen | apply Hwf]. }
    split; [rewrite Hbr1, Z.eqb_refl; reflexivity |].
    split.
    { intros m b d Hm. rewrite Hbr1.
      destruct (Z.eqb_spec (lb + 1 + Z.of_nat m) lb); [lia |].
      apply (Hsh m b d Hm). }
    split.
    { intros x d Hx. rewrite take_0. cbn [staged]. rewrite Hbr1.
      destruct (staged_home lb L x d Hok Hx) as ((_ & _ & Hxl) & _).
      destruct (Z.eqb_spec x lb) as [-> |]; [| now apply Hst].
      exfalso. apply Hxl. unfold in_log. lia. }
    split; [intros x d d' _; rewrite take_0; discriminate |].
    split.
    { intros x Hx _. rewrite Hd1.
      destruct (Z.eqb_spec x lb) as [-> |]; [| now apply Hsame].
      exfalso. apply Hx. unfold in_log. lia. }
    split; [rewrite Hdisk1; exact Hdc1 |].
    apply (writes_keep_refl (disk_committed lb L d0)).
    rewrite Hdisk1. exact Hdc1. }
  pose proof (commit_rounds lb d0 L s Hopen s1 hc logc Hlogc
                ltac:(rewrite Hsb1; exact Hlb) Hinv0 (length L) (le_n _))
    as (Hsb2 & Hl2 & Hj2 & Hin2 & Hif2 & Hwf2 & Hh2 & Hsh2 & Hhome2 & Hdh2
        & Hrest2 & Hdc2 & Hwk2).
  set (s2 := fold_left (commit_block (logc ++ junk s1))
                       (seqZ 0 (Z.of_nat (length L))) s1) in *.
  rewrite firstn_all in Hhome2, Hdh2, Hrest2.
  rewrite Hh2.
  set (hz := mem_write hc 0 (zeros sizeof_log_meta) sizeof_log_meta).
  assert (Hhzlen : length hz = Z.to_nat BSIZE)
    by (unfold hz; rewrite mem_write_length; exact Hhclen).
  assert (Hhzread : mem_read hz 0 sizeof_log_meta = zeros sizeof_log_meta).
  { unfold hz. apply header_read; [exact Hhclen | reflexivity]. }
  destruct (put_block_spec s2 lb hz) as (Hsb3 & Hl3 & Hj3 & He3 & Hbr3 & Hd3).
  pose proof (bwrite_bset_disk s2 lb hz) as Hdisk3.
  pose proof (writes_keep_put P s2 lb hz) as Hwk3.
  set (s3 := bwrite (bset s2 lb hz) lb) in *.
  (* the blocks outside the log when the loop is over *)
  assert (Hfin : forall x, ~ in_log lb x -> disk s2 x = apply_staged L d0 x).
  { intros x Hx. unfold apply_staged.
    destruct (staged L x) as [d |] eqn:E.
    - rewrite (Hdh2 x d d E E). apply mix_self.
    - now apply Hrest2. }
  assert (Hdo3 : disk_open lb (apply_staged L d0) (upd (disk s2) lb hz)).
  { destruct Hdc2 as (Hwd2 & Hsbon2 & _).
    split; [now apply wf_disk_upd |].
    split; [unfold sb_on; rewrite upd_other by lia; exact Hsbon2 |].
    split; [rewrite upd_same, Hhzread; discriminate |].
    intros x Hx. rewrite upd_other; [now apply Hfin |].
    intros ->. apply Hx. unfold in_log. lia. }
  assert (Hwk : writes_keep P s s3).
  { eapply writes_keep_trans; [| eapply writes_keep_trans].
    - apply Hwk1; [left; exact Hdo | right; left; exact Hdc1].
    - eapply writes_keep_weaken; [| exact Hwk2]. intros D HD. right. now left.
    - apply Hwk3; [right; left; exact Hdc2 | right; right; exact Hdo3]. }
  destruct Hwk as (trc & Hev & Hwr & Hdk & Hpre).
  eexists. exists trc. split; [reflexivity |].
  cbn [events disk sb junk inodes inodefile set_loglock].
  split; [rewrite Hev, <- app_assoc; reflexivity |].
  split; [exact Hwr |]. split; [exact Hdk |]. split; [exact Hpre |].
  assert (Hsb3' : sb s3 = sb s) by (rewrite Hsb3, Hsb2; exact Hsb1).
  split.
  { split; [reflexivity |].
    split.
    { intros y. rewrite bread_set_loglock, Hbr3.
      destruct (y =? lb); [exact Hhzlen | apply Hwf2]. }
    cbn [disk sb set_loglock]. rewrite Hsb3', Hlb, Hdisk3.
    destruct Hdo3 as (W & S & U & _). auto. }
  split; [exact Hsb3' |].
  split; [rewrite Hj3, Hj2; exact Hj1 |].
  split; [transitivity (inodes s2); [reflexivity | rewrite Hin2; reflexivity] |].
  split; [transitivity (inodefile s2); [reflexivity | rewrite Hif2; reflexivity] |].
  split.
  { rewrite Hdisk3. now destruct Hdo3 as (_ & _ & _ & Hs3). }
  split.
  { intros b d Hb.
    destruct (staged_home lb L b d Hok Hb) as ((_ & _ & Hbl) & _).
    assert (HbL : (b =? lb) = false).
    { apply Z.eqb_neq. intros ->. apply Hbl. unfold in_log. lia. }
    rewrite bread_set_loglock, Hbr3, Hd3, HbL. split.
    - rewrite (Hdh2 b d d Hb Hb). apply mix_self.
    - rewrite (Hhome2 b d Hb), Hb. apply mix_self. }
  intros i b d Hi. rewrite Hd3.
  destruct (Z.eqb_spec (lb + 1 + Z.of_nat i) lb); [lia |].
  destruct Hdc2 as (_ & _ & _ & _ & Hshd & _). apply (Hshd i b d Hi).
Qed.

(** *** Recovery *)

Lemma recovers_open (lb : Z) (d0 D : Z -> list Z) :
  disk_open lb d0 D -> recovers_to lb D d0.
Proof.
  intros (Hwd & Hsb & Hun & Hsame) dev s0.
  assert (He : cache_empty (crash_state s0 D)) by (intros y; reflexivity).
  destruct (iinit_disk_cases dev (crash_state s0 D) He Hwd) as (Hno & _).
  cbn [disk crash_state set_disk_bufs] in Hno. unfold sb_on in Hsb.
  rewrite Hsb in Hno. rewrite (Hno Hun). exact Hsame.
Qed.

Lemma replay_staged (lb : Z) (L : list (Z * list Z)) (lg : list Z)
    (D : Z -> list Z) :
  log_region_ok lb -> stores_ok lb L -> (length L <= 19)%nat ->
  (forall i b d, L !! i = Some (b, d) -> lm_blockno lg (Z.of_nat i) = b) ->
  (forall i b d, L !! i = Some (b, d) -> D (lb + 1 + Z.of_nat i) = d) ->
  forall i : nat, (i <= length L)%nat ->
    let Di := fold_left (replay_disk lb lg) (seqZ 0 (Z.of_nat i)) D in
    (forall x, in_log lb x -> Di x = D x) /\
    (forall x, ~ in_log lb x ->
       Di x = match staged (take i L) x with
              | Some d => d
              | None => D x
              end).
Proof.
  intros [Hlb1 Hlb2] Hok Hk Hbn Hsh. induction i as [| i IH]; intros Hi.
  - cbn. split; [reflexivity |]. intros x _. rewrite take_0. reflexivity.
  - cbv zeta. rewrite seqZ_S, fold_left_app. cbn [fold_left]. rewrite Z.add_0_l.
    destruct (IH ltac:(lia)) as (IHlog & IHhome). cbv zeta in IHlog, IHhome.
    set (Di := fold_left (replay_disk lb lg) (seqZ 0 (Z.of_nat i)) D) in *.
    destruct (lookup_lt_is_Some_2 L i ltac:(lia)) as [[b d] Hbd].
    destruct (stores_ok_lookup lb L i b d Hok Hbd) as ((Hb32 & Hb1 & Hbl) & _).
    unfold replay_disk. rewrite (Hbn i b d Hbd).
    rewrite (uint32_id (lb + 1 + Z.of_nat i)) by lia.
    rewrite (IHlog (lb + 1 + Z.of_nat i)) by (apply shadow_in_log; lia).
    rewrite (Hsh i b d Hbd).
    rewrite (take_S_r L i (b, d) Hbd).
    split.
    + intros x Hx. rewrite upd_other; [now apply IHlog | congruence].
    + intros x Hx. rewrite staged_snoc. unfold upd. rewrite (Z.eqb_sym x b).
      destruct (b =? x); [reflexivity | now apply IHhome].
Qed.

Lemma recovers_committed (lb : Z) (L : list (Z * list Z)) (d0 D : Z -> list Z) :
  log_region_ok lb -> stores_ok lb L ->
  disk_committed lb L d0 D -> recovers_to lb D (apply_staged L d0).
Proof.
  intros Hreg Hok (Hwd & Hsb & Hk & Hlog & Hsh & Hrest) dev s0.
  assert (He : cache_empty (crash_state s0 D)) by (intros y; reflexivity).
  destruct (iinit_disk_cases dev (crash_state s0 D) He Hwd) as (_ & Hyes).
  cbn [disk crash_state set_disk_bufs junk] in Hyes. unfold sb_on in Hsb.
  rewrite Hsb in Hyes.
  pose proof Hlog as (_ & Hc & Hn & _).
  specialize (Hyes Hc). rewrite Hn, length_map in Hyes.
  intros x Hx.
  assert (HxL : x <> lb) by (intros ->; apply Hx; destruct Hreg; unfold in_log; lia).
  rewrite (Hyes x HxL).
  destruct (replay_staged lb L
              (mem_read (D lb) 0 sizeof_log_meta ++ junk s0) D Hreg Hok Hk)
    with (i := length L) as (_ & Hhome).
  - intros i b d Hi.
    apply (log_holds_junk _ (map fst L) 1 (junk s0) Hlog).
    + now rewrite length_map.
    + rewrite list_lookup_fmap, Hi. reflexivity.
  - exact Hsh.
  - lia.
  - cbv zeta in Hhome. rewrite (Hhome x Hx), firstn_all. unfold apply_staged.
    destruct (staged L x) eqn:E; [reflexivity | now apply Hrest].
Qed.

(** *** Whole transactions *)

Lemma log_stores_logs (lb : Z) (d0 : Z -> list Z) (L : list (Z * list Z)) :
  stores_ok lb L ->
  forall (L0 : list (Z * list Z)) (s : fs),
    tx_open lb d0 L0 s -> (length L0 + length L <= 19)%nat ->
    exists s',
      log_stores L s = Done tt s' /\
      tx_open lb d0 (L0 ++ L) s' /\
      writes_keep (disk_open lb d0) s s' /\
      inodes s' = inodes s /\ inodefile s' = inodefile s /\ sb s' = sb s /\
      junk s' = junk s.
Proof.
  induction 1 as [| [b d] L [Hb Hd] Hok IH]; intros L0 s Hopen Hk.
  - exists s. cbn. rewrite app_nil_r. split; [reflexivity |].
    split; [exact Hopen |].
    split; [| repeat split; reflexivity].
    apply writes_keep_refl.
    now destruct Hopen as (_ & _ & _ & _ & _ & _ & _ & _ & _ & _ & H).
  - cbn [log_stores]. cbn [length] in Hk.
    destruct (log_write_logs lb d0 L0 s b d Hopen Hb Hd) as (_ & Hgo).
    destruct (Hgo ltac:(lia)) as (s1 & E1 & Hopen1 & Hwk1 & Hi1 & Hf1 & Hs1 & Hj1).
    rewrite E1. cbn [bind].
    destruct (IH (L0 ++ [(b, d)]) s1 Hopen1) as (s2 & E2 & Hopen2 & Hwk2 & Hi2 & Hf2 & Hs2 & Hj2).
    { rewrite length_app. cbn. lia. }
    exists s2. split; [exact E2 |].
    split; [rewrite <- app_assoc in Hopen2; exact Hopen2 |].
    split; [eapply writes_keep_trans; eassumption |].
    split; [congruence |]. split; [congruence |]. split; congruence.
Qed.

Lemma recovers_to_same (lb : Z) (D Dg Dg' : Z -> list Z) :
  recovers_to lb D Dg -> same_homes lb Dg Dg' -> recovers_to lb D Dg'.
Proof.
  intros H Hs dev s0 x Hx. rewrite (H dev s0 x Hx). now apply Hs.
Qed.

Lemma log_idle_disk_open (s : fs) :
  log_idle s -> disk_open (logstart (sb s)) (disk s) (disk s).
Proof.
  intros (_ & _ & Hwd & _ & Hsb & Hun).
  split; [exact Hwd |]. split; [exact Hsb |]. split; [exact Hun |].
  intros x _. reflexivity.
Qed.

Lemma take_app_cases {A : Type} (j : nat) (l1 l2 : list A) :
  (j <= length l1 /\ take j (l1 ++ l2) = take j l1)%nat \/
  (exists j', take j (l1 ++ l2) = l1 ++ take j' l2).
Proof.
  destruct (decide (j <= length l1)%nat) as [H | H].
  - left. split; [exact H |]. now apply take_app_le.
  - right. exists (j - length l1)%nat. rewrite take_app.
    rewrite take_ge by lia. reflexivity.
Qed.


(** One transaction: from the idle state [s] through [begin_tx], a body
    that logged the stores [L], and [commit_tx]. *)
Lemma tx_whole (s s1 s2 s3 : fs) (L : list (Z * list Z)) :
  log_idle s -> begin_tx s = Done tt s1 ->
  tx_open (logstart (sb s)) (disk s) L s2 ->
  writes_keep (disk_open (logstart (sb s)) (disk s)) s1 s2 ->
  commit_tx s2 = Done tt s3 ->
  exists tr,
    events s3 = events s ++ tr /\ txns false tr = Some 1%nat /\
    disk s3 = crash_disk (disk s) tr /\
    same_homes (logstart (sb s)) (disk s3) (apply_staged L (disk s)) /\
    forall j : nat,
      recovers_to (logstart (sb s)) (crash_disk (disk s) (take j tr)) (disk s) \/
      recovers_to (logstart (sb s)) (crash_disk (disk s) (take j tr)) (disk s3).
Proof.
  intros Hidle Hb Hopen2 (trb & Heb & Hwb & Hdb & Hpb) Hc.
  set (lb := logstart (sb s)) in *.
  destruct (begin_tx_opens s Hidle) as (s1' & h0 & Hb' & Hopen1 & He1 & Hd1 & Hdo0 & _).
  rewrite Hb in Hb'. injection Hb' as <-.
  destruct (commit_tx_closes lb (disk s) L s2 Hopen2)
    as (s3' & trc & Hc' & He3 & Hwc & Hd3 & Hpc & Hidle3 & Hsb3 & _ & _ & _ & Hsame3 & _).
  rewrite Hc in Hc'. injection Hc' as <-.
  pose proof Hopen2 as (_ & _ & Hreg & _ & Hok & _).
  exists ([Ebegin; Ewrite lb h0] ++ trb ++ trc ++ [Ecommit]).
  assert (Hdisk1 : disk s1 = crash_disk (disk s) [Ebegin; Ewrite lb h0])
    by (rewrite Hd1; reflexivity).
  split; [rewrite He3, Heb, He1, <- !app_assoc; reflexivity |].
  split.
  { cbn. rewrite txns_writes by assumption. rewrite txns_writes by assumption.
    reflexivity. }
  split.
  { rewrite !crash_disk_app, <- Hdisk1, <- Hdb. rewrite Hd3.
    change (crash_disk (crash_disk (disk s2) trc) [Ecommit])
      with (crash_disk (disk s2) trc). reflexivity. }
  split; [exact Hsame3 |].
  assert (Hold : forall D, disk_open lb (disk s) D -> recovers_to lb D (disk s))
    by (intros D HD; now apply recovers_open).
  assert (Hnew : forall D, disk_open lb (apply_staged L (disk s)) D ->
                           recovers_to lb D (disk s3)).
  { intros D HD. apply (recovers_to_same lb D (apply_staged L (disk s))).
    - apply recovers_open. exact HD.
    - intros x Hx. symmetry. now apply Hsame3. }
  assert (Hcom : forall D, disk_committed lb L (disk s) D ->
                           recovers_to lb D (disk s3)).
  { intros D HD. apply (recovers_to_same lb D (apply_staged L (disk s))).
    - now apply recovers_committed.
    - intros x Hx. symmetry. now apply Hsame3. }
  intros j.
  destruct (take_app_cases j [Ebegin; Ewrite lb h0] (trb ++ trc ++ [Ecommit]))
    as [[Hj ->] | [j1 ->]].
  { left. apply Hold. destruct j as [| [| j]]; cbn [take crash_disk fold_left].
    - exact Hdo0.
    - exact Hdo0.
    - rewrite take_nil. cbn.
      destruct Hopen1 as (_ & _ & _ & _ & _ & _ & _ & _ & _ & _ & Hdo1).
      rewrite Hd1 in Hdo1. exact Hdo1. }
  rewrite crash_disk_app, <- Hdisk1.
  destruct (take_app_cases j1 trb (trc ++ [Ecommit])) as [[Hj1 ->] | [j2 ->]].
  { left. apply Hold. apply Hpb. }
  rewrite crash_disk_app, <- Hdb.
  destruct (take_app_cases j2 trc [Ecommit]) as [[Hj2 ->] | [j3 ->]].
  { destruct (Hpc j2) as [H | [H | H]]; [left; now apply Hold | right; now apply Hcom
                                        | right; now apply Hnew]. }
  right. rewrite crash_disk_app, <- Hd3.
  replace (crash_disk (disk s3) (take j3 [Ecommit])) with (disk s3)
    by (destruct j3; [reflexivity | cbn; now rewrite take_nil]).
  apply recovers_open.
  pose proof (log_idle_disk_open s3 Hidle3) as H. rewrite Hsb3 in H.
  destruct Hopen2 as (_ & Hlb2 & _). rewrite Hlb2 in H. exact H.
Qed.

Lemma staged_last (L : list (Z * list Z)) (i : nat) (b : Z) (d : list Z) :
  L !! i = Some (b, d) ->
  (forall i' d', (i < i')%nat -> L !! i' <> Some (b, d')) ->
  staged L b = Some d.
Proof.
  revert i. induction L as [| [b0 d0] L IH]; intros i Hi Hlast; [discriminate |].
  cbn [staged]. destruct i as [| i]; cbn in Hi.
  - injection Hi as -> ->.
    destruct (staged L b) as [d' |] eqn:E.
    + destruct (staged_in L b d' E) as [m Hm].
      exfalso. apply (Hlast (S m) d'); [lia | exact Hm].
    + now rewrite Z.eqb_refl.
  - rewrite (IH i Hi); [reflexivity |].
    intros i' d' Hlt Hi'. apply (Hlast (S i') d'); [lia | exact Hi'].
Qed.


Lemma log_idle_c1 : log_idle (fs_of disk_c1 false).
Proof.
  split; [reflexivity |].
  split; [intros b; apply wf_disk_c1 |].
  split; [apply wf_disk_c1 |].
  split; [cbn; unfold log_region_ok; lia |].
  split; [reflexivity |].
  vm_compute. discriminate.
Defined.

Lemma stores_c2_ok : stores_ok (logstart (sb (fs_of disk_c1 false))) stores_c2.
Proof.
  repeat constructor; cbn; unfold in_log; lia.
Defined.


(** The run of the example: block 70 ends with the content of the third
    store, block 71 with that of the second. *)
Lemma commit_tx_c2_run :
  exists s1 s2,
    open_tx stores_c2 (fs_of disk_c1 false) = Done tt s1 /\
    commit_tx s1 = Done tt s2 /\
    disk s2 70 = repeat 204 512 /\ disk s2 71 = repeat 187 512.
Proof.
  eexists. eexists. split; [vm_compute; reflexivity |].
  split; [vm_compute; reflexivity |].
  split; vm_compute; reflexivity.
Qed.

(* ===================================================================== *)
(** ** Inode writes: one atomic transaction per block *)
(* ===================================================================== *)

(** *** Sequences of transactions *)

Lemma txns_true_pos (tr : list event) (c : nat) :
  txns true tr = Some c -> (1 <= c)%nat.
Proof.
  induction tr as [| e tr IH]; cbn; [discriminate |].
  destruct e; try discriminate; [exact IH |].
  destruct (txns false tr); cbn; [| discriminate]. intros [= <-]. lia.
Qed.

Lemma upto_commits_0 (tr : list event) : upto_commits 0 tr = [].
Proof. destruct tr; reflexivity. Qed.

Lemma upto_commits_all (tr : list event) :
  forall inside c, txns inside tr = Some c -> upto_commits c tr = tr.
Proof.
  induction tr as [| e tr IH]; intros inside c Ht.
  - destruct c; reflexivity.
  - destruct e, inside; cbn in Ht; try discriminate.
    + pose proof (txns_true_pos tr c Ht). destruct c as [| c]; [lia |].
      cbn. f_equal. exact (IH true _ Ht).
    + pose proof (txns_true_pos tr c Ht). destruct c as [| c]; [lia |].
      cbn. f_equal. exact (IH true _ Ht).
    + destruct (txns false tr) as [c' |] eqn:E; cbn in Ht; [| discriminate].
      injection Ht as <-. cbn. f_equal. exact (IH false _ E).
Qed.

Lemma upto_commits_app_le (tr1 tr2 : list event) :
  forall inside a m, txns inside tr1 = Some a -> (m <= a)%nat ->
    upto_commits m (tr1 ++ tr2) = upto_commits m tr1.
Proof.
  induction tr1 as [| e tr1 IH]; intros inside a m Ht Hm.
  - destruct inside; cbn in Ht; [discriminate |]. injection Ht as <-.
    assert (m = 0%nat) as -> by lia. now rewrite !upto_commits_0.
  - destruct m as [| m]; [now rewrite !upto_commits_0 |].
    destruct e, inside; cbn in Ht; try discriminate; cbn.
    + f_equal. exact (IH true a (S m) Ht Hm).
    + f_equal. exact (IH true a (S m) Ht Hm).
    + destruct (txns false tr1) as [c' |] eqn:E; cbn in Ht; [| discriminate].
      injection Ht as <-. f_equal. apply (IH false c' m E). lia.
Qed.

Lemma upto_commits_app_ge (tr1 tr2 : list event) :
  forall inside a m, txns inside tr1 = Some a ->
    upto_commits (a + m) (tr1 ++ tr2) = tr1 ++ upto_commits m tr2.
Proof.
  induction tr1 as [| e tr1 IH]; intros inside a m Ht.
  - destruct inside; cbn in Ht; [discriminate |]. injection Ht as <-.
    reflexivity.
  - destruct e, inside; cbn in Ht; try discriminate.
    + pose proof (txns_true_pos tr1 a Ht). destruct a as [| a]; [lia |].
      cbn. f_equal. exact (IH true (S a) m Ht).
    + pose proof (txns_true_pos tr1 a Ht). destruct a as [| a]; [lia |].
      cbn. f_equal. exact (IH true (S a) m Ht).
    + destruct (txns false tr1) as [c' |] eqn:E; cbn in Ht; [| discriminate].
      injection Ht as <-. cbn. f_equal. exact (IH false c' m E).
Qed.

Lemma txns_atomic_0 (s : fs) :
  log_idle s -> txns_atomic (logstart (sb s)) 0 s s.
Proof.
  intros Hidle. exists []. rewrite app_nil_r.
  split; [reflexivity |]. split; [reflexivity |]. split; [reflexivity |].
  intros j. exists 0%nat. split; [lia |]. rewrite take_nil. cbn.
  apply recovers_open. now apply log_idle_disk_open.
Qed.

Lemma txns_atomic_trans (lb : Z) (a b : nat) (s1 s2 s3 : fs) :
  txns_atomic lb a s1 s2 -> txns_atomic lb b s2 s3 ->
  txns_atomic lb (a + b) s1 s3.
Proof.
  intros (tr1 & He1 & Ht1 & Hd1 & Hr1) (tr2 & He2 & Ht2 & Hd2 & Hr2).
  exists (tr1 ++ tr2).
  split; [rewrite He2, He1, <- app_assoc; reflexivity |].
  split; [now apply txns_app |].
  split; [rewrite crash_disk_app, <- Hd1; exact Hd2 |].
  intros j. destruct (take_app_cases j tr1 tr2) as [[Hj ->] | [j' ->]].
  - destruct (Hr1 j) as (m & Hm & Hrec). exists m. split; [lia |].
    rewrite (upto_commits_app_le tr1 tr2 false a m Ht1 Hm). exact Hrec.
  - destruct (Hr2 j') as (m & Hm & Hrec). exists (a + m)%nat. split; [lia |].
    rewrite (upto_commits_app_ge tr1 tr2 false a m Ht1).
    rewrite !crash_disk_app, <- Hd1. exact Hrec.
Qed.

Lemma txns_atomic_1 (s s' : fs) (tr : list event) :
  events s' = events s ++ tr -> txns false tr = Some 1%nat ->
  disk s' = crash_disk (disk s) tr ->
  (forall j : nat,
     recovers_to (logstart (sb s)) (crash_disk (disk s) (take j tr)) (disk s) \/
     recovers_to (logstart (sb s)) (crash_disk (disk s) (take j tr)) (disk s')) ->
  txns_atomic (logstart (sb s)) 1 s s'.
Proof.
  intros He Ht Hd Hr. exists tr. split; [exact He |]. split; [exact Ht |].
  split; [exact Hd |]. intros j. destruct (Hr j) as [H | H].
  - exists 0%nat. split; [lia |]. rewrite upto_commits_0. exact H.
  - exists 1%nat. split; [lia |].
    rewrite (upto_commits_all tr false 1 Ht), <- Hd. exact H.
Qed.

(** *** [writei] inside a transaction *)

Section in_transaction.
Context `{Config}.
Variables (lb : Z) (d0 : Z -> list Z).

Lemma in_tx_disk_open s : in_tx lb d0 s -> disk_open lb d0 (disk s).
Proof.
  intros ((L & Ho) & _). now destruct Ho as (_ & _ & _ & _ & _ & _ & _ & _ & _ & _ & Hd).
Qed.

Lemma in_tx_lb s : in_tx lb d0 s -> logstart (sb s) = lb /\ loglock s = true.
Proof. intros ((L & Ho) & _). destruct Ho as (Hl & Hlb & _). auto. Qed.

Lemma tx_step_refl s : in_tx lb d0 s -> tx_step lb d0 s s.
Proof.
  intros Hin. split; [exact Hin |]. split; [reflexivity |].
  apply writes_keep_refl. now apply in_tx_disk_open.
Qed.

Lemma tx_step_trans s1 s2 s3 :
  tx_step lb d0 s1 s2 -> tx_step lb d0 s2 s3 -> tx_step lb d0 s1 s3.
Proof.
  intros (_ & Hsb1 & Hw1) (Hin & Hsb2 & Hw2).
  split; [exact Hin |]. split; [congruence |].
  eapply writes_keep_trans; eassumption.
Qed.

(** A change of the cached inodes only. *)
Lemma tx_step_mem s s' :
  in_tx lb d0 s ->
  disk s' = disk s -> bufs s' = bufs s -> sb s' = sb s ->
  loglock s' = loglock s -> events s' = events s ->
  inodes_ok s' -> tx_step lb d0 s s'.
Proof.
  intros ((L & Ho) & Hlay & _) Hd Hb Hsb Hl He Hi.
  split.
  { split; [exists L; now apply (tx_open_frame lb d0 L s s') |].
    split; [now rewrite Hsb | exact Hi]. }
  split; [exact Hsb |].
  apply writes_keep_same; [| exact He | exact Hd].
  now destruct Ho as (_ & _ & _ & _ & _ & _ & _ & _ & _ & _ & Hdo).
Qed.

Lemma inode_ok_at s p ip :
  inodes_ok s -> iget_at s p = Some ip ->
  inode_ok (sb s) ip /\ (p = Inodefile -> i_valid ip <> 0).
Proof.
  intros (Hv & Hf & Hall) Hip. destruct p as [| i]; cbn in Hip.
  - injection Hip as <-. auto.
  - split; [| discriminate]. rewrite Forall_lookup in Hall. exact (Hall i ip Hip).
Qed.

Lemma tx_step_iput s p ip :
  in_tx lb d0 s -> inode_ok (sb s) ip -> (p = Inodefile -> i_valid ip <> 0) ->
  tx_step lb d0 s (iput_at s p ip).
Proof.
  intros Hin Hok Hv. pose proof Hin as (_ & _ & (Hv0 & Hf & Hall)).
  destruct p as [| i]; cbn [iput_at]; apply tx_step_mem; try reflexivity;
    try assumption.
  - split; [cbn; auto |]. split; [exact Hok | exact Hall].
  - split; [exact Hv0 |]. split; [exact Hf |].
    cbn. now apply Forall_insert.
Qed.

Lemma set_ilock_ok x ip l : inode_ok x ip -> inode_ok x (set_ilock ip l).
Proof. intros H0. exact H0. Qed.

Lemma acquire_ilock_tx p s :
  in_tx lb d0 s -> post (fun _ s' => tx_step lb d0 s s') (acquire_ilock p s).
Proof.
  intros Hin. unfold acquire_ilock.
  destruct (iget_at s p) as [ip |] eqn:E; [| exact I].
  destruct (i_ref ip <? 1); [exact I |]. destruct (i_lock ip); [exact I |].
  cbn. pose proof Hin as (_ & _ & Hi).
  destruct (inode_ok_at s p ip Hi E) as (Hok & Hv).
  apply tx_step_iput; assumption.
Qed.

Lemma unlocki_tx p s :
  in_tx lb d0 s -> post (fun _ s' => tx_step lb d0 s s') (unlocki p s).
Proof.
  intros Hin. unfold unlocki.
  destruct (iget_at s p) as [ip |] eqn:E; [| exact I].
  destruct (_ || _); [exact I |].
  cbn. pose proof Hin as (_ & _ & Hi).
  destruct (inode_ok_at s p ip Hi E) as (Hok & Hv).
  apply tx_step_iput; assumption.
Qed.

Lemma locki_inodefile_tx s :
  in_tx lb d0 s -> post (fun _ s' => tx_step lb d0 s s') (locki_inodefile s).
Proof.
  intros Hin. unfold locki_inodefile.
  eapply post_bind; [now apply acquire_ilock_tx |].
  intros ? s1 Hs1. pose proof Hs1 as ((_ & _ & (Hv & _)) & _).
  destruct (Z.eqb_spec (i_valid (inodefile s1)) 0) as [E | _]; [contradiction |].
  exact Hs1.
Qed.

(** A store into the buffer of a home block, followed by [log_write]. *)
Lemma logged_store_tx s b d :
  in_tx lb d0 s -> home_block lb b -> length d = Z.to_nat BSIZE ->
  post (fun _ s' => tx_step lb d0 s s') (log_write b (bset s b d)).
Proof.
  intros ((L & Ho) & Hlay & Hi) Hb Hd.
  destruct (log_write_logs lb d0 L s b d Ho Hb Hd) as (Hfull & Hgo).
  destruct (decide (length L < 19)%nat) as [Hk | Hk].
  - destruct (Hgo Hk) as (s' & E & Ho' & Hwk & Hin' & Hif' & Hsb' & _).
    rewrite E. cbn. split.
    + split; [now exists (L ++ [(b, d)]) |]. rewrite Hsb'. split; [exact Hlay |].
      unfold inodes_ok. rewrite Hif', Hin', Hsb'. exact Hi.
    + split; [exact Hsb' | exact Hwk].
  - rewrite (Hfull ltac:(lia)). exact I.
Qed.

(** Blocks at or behind the bitmap are home blocks. *)
Lemma home_behind_log s b :
  in_tx lb d0 s -> logstart (sb s) + 19 < b < 2 ^ 32 -> home_block lb b.
Proof.
  intros Hin Hb. destruct (in_tx_lb s Hin) as (Hlb & _).
  destruct Hin as (_ & (H1 & _) & _). rewrite Hlb in *.
  unfold home_block, in_log. lia.
Qed.

Lemma balloc_scan_tx bs s :
  in_tx lb d0 s ->
  Forall (fun b => logstart (sb s) + 19 < b < 2 ^ 32) bs ->
  post (fun addr s' => tx_step lb d0 s s' /\
                       inodestart (sb s) < addr < FSSIZE)
       (balloc_scan bs s).
Proof.
  intros Hin Hbs. induction Hbs as [| b r Hb Hr IH]; cbn [balloc_scan]; [exact I |].
  destruct (find_zero_word (bread s b)) as [i |]; [| exact IH].
  eapply post_bind.
  { apply logged_store_tx; [exact Hin | now apply (home_behind_log s) |].
    unfold wr. rewrite mem_write_length.
    destruct Hin as ((L & Ho) & _).
    destruct Ho as (_ & _ & _ & Hwf & _). apply Hwf. }
  intros ? s1 Hs1. pose proof Hs1 as (_ & Hsb1 & _). cbv beta. rewrite Hsb1.
  destruct (Z.ltb_spec (inodestart (sb s))
              (uint32 ((b - bmapstart (sb s)) * BPB + i * 32))); cbn [negb];
    [| exact I].
  destruct (Z.ltb_spec (uint32 ((b - bmapstart (sb s)) * BPB + i * 32)) FSSIZE);
    cbn [negb]; [| exact I].
  cbn. split; [exact Hs1 | lia].
Qed.

Lemma balloc_tx s :
  in_tx lb d0 s ->
  post (fun addr s' => tx_step lb d0 s s' /\
                       inodestart (sb s) < addr < FSSIZE)
       (balloc s).
Proof.
  intros Hin. unfold balloc. apply balloc_scan_tx; [exact Hin |].
  pose proof Hin as (_ & (H1 & H2 & H3 & H4 & H5) & _).
  assert (Hdiv : 0 <= inodestart (sb s) / BPB <= inodestart (sb s)).
  { unfold BPB, BSIZE. split.
    - apply Z.div_pos; lia.
    - apply Z.div_le_upper_bound; lia. }
  assert (HB : BBLOCK (inodestart (sb s)) (sb s)
               = inodestart (sb s) / BPB + bmapstart (sb s)).
  { unfold BBLOCK. apply uint32_id. lia. }
  rewrite HB. rewrite Forall_forall. intros b Hb.
  apply elem_of_seqZ in Hb. lia.
Qed.

End in_transaction.

Section writei_in_tx.
Context `{Config}.

Lemma writeback_inodefile_keeps : wb_keeps writeback_inodefile.
Proof.
  intros lb d0 dip s Hin. unfold writeback_inodefile.
  pose proof Hin as ((L & Ho) & (H1 & H2 & H3 & H4 & H5) & _).
  pose proof Ho as (_ & Hlb & _ & Hwf & _).
  apply logged_store_tx; [exact Hin | |].
  - apply (home_behind_log lb d0 s _ Hin). lia.
  - rewrite mem_write_length. apply Hwf.
Qed.

Lemma set_iextent_ok x ip extno e :
  inode_ok x ip -> extent_ok x e -> inode_ok x (set_iextent ip extno e).
Proof.
  intros (Hlen & Hall) He. split; cbn.
  - now rewrite length_insert.
  - now apply Forall_insert.
Qed.

Lemma set_isize_ok x ip sz : inode_ok x ip -> inode_ok x (set_isize ip sz).
Proof. intros H0. exact H0. Qed.

Lemma ext_at_ok x ip extno : inode_ok x ip -> extent_ok x (ext_at ip extno).
Proof.
  intros (_ & Hall). unfold ext_at.
  destruct (i_data ip !! Z.to_nat extno) as [e |] eqn:E; cbn.
  - rewrite Forall_lookup in Hall. exact (Hall _ _ E).
  - intros Hn. now contradiction Hn.
Qed.

Lemma ext_at_set_iextent ip extno e :
  0 <= extno < 6 -> length (i_data ip) = 6%nat ->
  ext_at (set_iextent ip extno e) extno = e.
Proof.
  intros Hx Hlen. unfold ext_at, set_iextent. cbn.
  rewrite list_lookup_insert_eq by lia. reflexivity.
Qed.

(** One block of the write and the write-back of the dinode, inside a
    transaction. *)
Lemma writei_block_tx lb d0 wb p src n oldoff ip extno extoff off tot s :
  wb_keeps wb -> in_tx lb d0 s ->
  inode_ok (sb s) ip -> (p = Inodefile -> i_valid ip <> 0) ->
  0 <= extno < 6 -> 0 <= extoff < 2 ^ 31 ->
  post (fun ot s' => ot = next_pos n off tot /\ tx_step lb d0 s s')
       (writei_block wb p src n oldoff ip extno extoff off tot s).
Proof.
  intros Hwb Hin Hip Hv Hxn Hxo. unfold writei_block.
  eapply (post_bind (fun ip' s1 =>
            tx_step lb d0 s s1 /\ inode_ok (sb s) ip' /\
            i_valid ip' = i_valid ip /\ nblocks (ext_at ip' extno) <> 0)).
  { destruct (Z.eqb_spec (nblocks (ext_at ip extno)) 0) as [E | E].
    - destruct (extno =? 5); [exact I |].
      eapply post_bind; [exact (balloc_tx lb d0 s Hin) |].
      intros addr s1 (Hs1 & Haddr). cbn.
      pose proof Hin as (_ & (H1 & H2 & H3 & H4 & H5) & _).
      split; [exact Hs1 |]. split.
      + apply set_iextent_ok; [exact Hip |]. intros _. cbn. lia.
      + split; [reflexivity |].
        rewrite ext_at_set_iextent by (try lia; now destruct Hip). cbn. lia.
    - cbn. split; [now apply tx_step_refl |]. auto. }
  intros ip1 s1 (Hs1 & Hip1 & Hv1 & Hnb). cbv zeta.
  pose proof Hs1 as (Hin1 & Hsb1 & _).
  set (b := uint32 (startblkno (ext_at ip1 extno) + extoff)).
  assert (Hb : home_block lb b).
  { apply (home_behind_log lb d0 s1 _ Hin1). rewrite Hsb1.
    pose proof (ext_at_ok (sb s) ip1 extno Hip1 Hnb) as He.
    pose proof Hin as (_ & (H1 & _) & _).
    unfold b. rewrite uint32_id by lia. lia. }
  eapply post_bind.
  { apply logged_store_tx; [exact Hin1 | exact Hb |].
    rewrite mem_write_length.
    destruct Hin1 as ((L & Ho) & _). destruct Ho as (_ & _ & _ & Hwf & _).
    apply Hwf. }
  intros ? s2 Hs2. pose proof Hs2 as (Hin2 & Hsb2 & _).
  set (ip2 := if i_size ip1 <? _ then _ else ip1).
  assert (Hip2 : inode_ok (sb s2) ip2 /\ i_valid ip2 = i_valid ip).
  { rewrite Hsb2, Hsb1. subst ip2. destruct (i_size ip1 <? _); cbn; auto. }
  destruct Hip2 as (Hip2 & Hv2).
  assert (Hs3 : tx_step lb d0 s2 (iput_at s2 p ip2)).
  { apply tx_step_iput; try assumption. intros Hp. rewrite Hv2. auto. }
  eapply post_bind; [exact (Hwb lb d0 _ _ (proj1 Hs3)) |].
  intros ? s4 Hs4. cbn. split; [reflexivity |].
  eapply tx_step_trans; [exact Hs1 |].
  eapply tx_step_trans; [exact Hs2 |].
  eapply tx_step_trans; [exact Hs3 | exact Hs4].
Qed.

Lemma writei_step_tx lb d0 wb p src n oldoff ip extno extoff off tot s :
  wb_keeps wb -> in_tx lb d0 s ->
  inode_ok (sb s) ip -> (p = Inodefile -> i_valid ip <> 0) ->
  0 <= extno -> 0 <= extoff < 2 ^ 31 ->
  post (fun ot s' => ot = next_pos n off tot /\ tx_step lb d0 s s')
       (writei_step wb p src n oldoff true ip extno extoff off tot s).
Proof.
  intros Hwb Hin Hip Hv Hxn Hxo. unfold writei_step.
  destruct (Z.leb_spec 6 extno) as [| Hlt6]; [exact I |]. cbn [bind].
  eapply post_bind.
  { apply (writei_block_tx lb d0 wb p src n oldoff ip extno extoff off tot s
             Hwb Hin Hip Hv); [lia | exact Hxo]. }
  intros ot s1 [Hot Hs1]. cbn. auto.
Qed.

End writei_in_tx.

Section loop_inv.
Context `{Config}.
Variables (G : nat -> fs -> fs -> Prop) (Pre : fs -> Prop).
Variables (wb : list Z -> fs -> outcome unit) (p : iptr) (src : list Z).
Variables (n off0 : Z) (started : bool).
Hypothesis G_refl : forall s, Pre s -> G 0 s s.
Hypothesis G_trans : forall a b s1 s2 s3,
  G a s1 s2 -> G b s2 s3 -> G (a + b) s1 s3.
Hypothesis G_pre : forall c s s', Pre s -> G c s s' -> Pre s'.
Hypothesis G_step : forall ip extno extoff off tot s,
  Pre s -> iget_at s p = Some ip -> 0 <= extno -> 0 <= extoff < 2 ^ 31 ->
  post (fun ot s' => ot = next_pos n off tot /\ G 1 s s')
       (writei_step wb p src n off0 started ip extno extoff off tot s).
Hypothesis Hoff0 : 0 <= off0.
Hypothesis Hsum : off0 + n < 2 ^ 32.

(** The loop of [writei]: [extoff] never passes [foff], so every block
    step sees an extent offset below [2^31]. *)
Lemma writei_loop_inv :
  forall fuel extno extoff foff off tot s,
    Pre s -> 0 <= tot <= n -> off = off0 + tot -> 0 <= foff ->
    (tot < n -> foff <= off / BSIZE) ->
    0 <= extno -> 0 <= extoff <= foff ->
    (off / BSIZE - foff) + (n - tot) <= Z.of_nat fuel ->
    post (fun _ s' => G (steps_left off0 n off tot) s s')
         (writei_loop fuel wb p src n off0 started extno extoff foff off tot s).
Proof.
  induction fuel as [| fuel IH];
    intros extno extoff foff off tot s Hpre Htot Hoff Hfoff0 Hfoff Hxn Hxo Hfuel.
  - assert (tot = n).
    { destruct (Z.lt_ge_cases tot n) as [Hlt |]; [| lia].
      specialize (Hfoff Hlt). lia. }
    subst tot. cbn. unfold steps_left.
    destruct (Z.ltb_spec n n); [lia |]. cbn. now apply G_refl.
  - cbn [writei_loop]. unfold steps_left.
    destruct (Z.ltb_spec tot n) as [Hlt | Hge]; cbn [negb].
    2:{ cbn. now apply G_refl. }
    specialize (Hfoff Hlt).
    destruct (iget_at s p) as [ip |] eqn:Eip; [| exact I].
    destruct (6 <=? extno); [exact I |].
    match goal with
    | |- context [writei_step _ _ _ _ _ _ _ ?a ?b _ _ _] =>
        set (extno' := a); set (extoff' := b)
    end.
    assert (Hxn' : 0 <= extno') by (subst extno'; destruct (_ && _); lia).
    assert (Hxo' : 0 <= extoff' <= foff) by (subst extoff'; destruct (_ && _); lia).
    assert (Hmod : 0 <= off mod BSIZE < BSIZE)
      by (apply Z.mod_pos_bound; unfold BSIZE; lia).
    assert (Hfb : foff < 2 ^ 23)
      by (unfold BSIZE in *; Z.div_mod_to_equations; lia).
    rewrite (uint32_id (foff + 1)) by lia.
    rewrite (uint32_id (extoff' + 1)) by lia.
    destruct (Z.leb_spec (off / BSIZE) foff) as [Hrd | Hskip].
    + eapply post_bind;
        [apply (G_step ip extno' extoff' off tot s Hpre Eip Hxn'); lia |].
      intros ot s1 [Hot HG1]. subst ot. unfold next_pos. cbn [fst snd].
      rewrite (uint32_id (n - tot)) by lia.
      rewrite (uint32_id (BSIZE - off mod BSIZE)) by (unfold BSIZE in *; lia).
      set (m := cmin (n - tot) (BSIZE - off mod BSIZE)).
      assert (Hm : 0 < m <= n - tot /\ m <= BSIZE - off mod BSIZE /\
                   (m < n - tot -> m = BSIZE - off mod BSIZE)).
      { subst m. unfold cmin.
        destruct (Z.ltb_spec (n - tot) (BSIZE - off mod BSIZE)); lia. }
      rewrite (uint32_id (off + m)) by lia.
      rewrite (uint32_id (tot + m)) by lia.
      eapply post_weaken.
      * apply IH; try lia.
        -- eapply G_pre; eassumption.
        -- intros Htm. assert (m = BSIZE - off mod BSIZE) by lia.
           unfold BSIZE in *. Z.div_mod_to_equations. lia.
        -- unfold BSIZE in *. Z.div_mod_to_equations. lia.
      * intros ? s2 HG2. cbn beta in HG2.
        replace (Z.to_nat ((off0 + n - 1) / BSIZE - off / BSIZE + 1))
          with (1 + steps_left off0 n (off + m) (tot + m))%nat.
        { eapply G_trans; eassumption. }
        unfold steps_left.
        destruct (Z.ltb_spec (tot + m) n) as [Hmore | Hdone].
        -- assert (m = BSIZE - off mod BSIZE) by lia.
           unfold BSIZE in *. Z.div_mod_to_equations. lia.
        -- unfold BSIZE in *. Z.div_mod_to_equations. lia.
    + eapply post_weaken.
      * apply IH; try eassumption; try lia.
      * intros ? s2 HG2. cbn beta in HG2. unfold steps_left in HG2.
        destruct (Z.ltb_spec tot n); [exact HG2 | lia].
Qed.
End loop_inv.

Section writei_atomic.
Context `{Config}.

Lemma writei_inodefile_tx lb d0 src off n s :
  in_tx lb d0 s -> 0 <= off < 2 ^ 32 -> 0 <= n < 2 ^ 32 ->
  post (fun _ s' => tx_step lb d0 s s') (writei_inodefile src off n s).
Proof.
  intros Hin Hoff Hn. unfold writei_inodefile.
  pose proof (writei_entry_cases (inodefile s) src off n s Hoff Hn) as Hent.
  destruct (writei_entry (inodefile s) src off n s) as [r |].
  { eapply post_weaken; [exact Hent |]. intros ? s' ->. now apply tx_step_refl. }
  destruct Hent as (_ & _ & Hsum).
  destruct (in_tx_lb lb d0 s Hin) as (_ & Hl).
  eapply post_bind.
  { rewrite Hl.
    apply (writei_loop_inv (fun _ s1 s2 => tx_step lb d0 s1 s2) (in_tx lb d0)
             writeback_inodefile Inodefile src n off true).
    - intros s0 H0. now apply tx_step_refl.
    - intros _ _ s1 s2 s3. apply tx_step_trans.
    - intros _ s0 s1 _ (H1 & _). exact H1.
    - intros ip extno extoff off1 tot s0 H0 Hip Hxn Hxo.
      pose proof H0 as (_ & _ & Hi).
      destruct (inode_ok_at s0 Inodefile ip Hi Hip) as (Hok & Hv).
      apply writei_step_tx; try assumption.
      apply writeback_inodefile_keeps.
    - lia.
    - lia.
    - exact Hin.
    - lia.
    - lia.
    - lia.
    - intros _. apply Z.div_pos; unfold BSIZE; lia.
    - lia.
    - lia.
    - assert (0 <= off / BSIZE) by (apply Z.div_pos; unfold BSIZE; lia). lia. }
  intros ? s1 Hs1. exact Hs1.
Qed.

Lemma writeback_other_keeps inum : wb_keeps (writeback_other inum).
Proof.
  intros lb d0 dip s Hin. unfold writeback_other.
  change (locki Inodefile s) with (locki_inodefile s).
  eapply post_bind; [exact (locki_inodefile_tx lb d0 s Hin) |].
  intros ? s1 Hs1.
  eapply post_bind.
  { apply (writei_inodefile_tx lb d0); [now destruct Hs1 | apply uint32_range |].
    unfold sizeof_dinode. lia. }
  intros ? s2 Hs2.
  eapply post_weaken; [apply (unlocki_tx lb d0); now destruct Hs2 |].
  intros ? s3 Hs3.
  eapply tx_step_trans; [exact Hs1 |].
  eapply tx_step_trans; [exact Hs2 | exact Hs3].
Qed.

(** A block step of [writei] that opens its own transaction. *)
Lemma writei_step_atomic wb p src n oldoff ip extno extoff off tot s :
  wb_keeps wb -> idle_fs s ->
  inode_ok (sb s) ip -> (p = Inodefile -> i_valid ip <> 0) ->
  0 <= extno -> 0 <= extoff < 2 ^ 31 ->
  post (fun ot s' => ot = next_pos n off tot /\ idle_fs s' /\ sb s' = sb s /\
                     txns_atomic (logstart (sb s)) 1 s s')
       (writei_step wb p src n oldoff false ip extno extoff off tot s).
Proof.
  intros Hwb (Hidle & Hlay & Hi) Hip Hv Hxn Hxo. unfold writei_step.
  destruct (Z.leb_spec 6 extno) as [| Hlt6]; [exact I |].
  destruct (begin_tx_opens s Hidle)
    as (s1 & h0 & Hb & Hopen1 & He1 & Hd1 & Hdo0 & Hin1 & Hif1 & Hsb1 & Hj1).
  rewrite Hb. cbn [bind].
  set (lb := logstart (sb s)) in *.
  assert (Hintx1 : in_tx lb (disk s) s1).
  { split; [now exists [] |]. rewrite Hsb1. split; [exact Hlay |].
    unfold inodes_ok. rewrite Hif1, Hin1, Hsb1. exact Hi. }
  eapply post_bind.
  { apply (writei_block_tx lb (disk s) wb p src n oldoff ip extno extoff off tot s1
             Hwb Hintx1); [rewrite Hsb1; exact Hip | exact Hv | lia | exact Hxo]. }
  intros ot s2 (Hot & ((L & Hopen2) & Hlay2 & Hi2) & Hsb2 & Hwk2).
  destruct (commit_tx_closes lb (disk s) L s2 Hopen2)
    as (s3 & trc & Hc & _ & _ & _ & _ & Hidle3 & Hsb3 & _ & Hin3 & Hif3 & _).
  rewrite Hc. cbn [bind post].
  destruct (tx_whole s s1 s2 s3 L Hidle Hb Hopen2 Hwk2 Hc)
    as (tr & Hev & Htx & Hdk & _ & Hrec).
  assert (Hsb : sb s3 = sb s) by congruence.
  split; [exact Hot |].
  split.
  { split; [exact Hidle3 |]. rewrite Hsb3. split; [exact Hlay2 |].
    unfold inodes_ok. rewrite Hif3, Hin3, Hsb3. exact Hi2. }
  split; [exact Hsb |].
  now apply (txns_atomic_1 s s3 tr).
Qed.

End writei_atomic.

Section writei_call_atomic.
Context `{Config}.

End writei_call_atomic.

Lemma wf_disk_log_first : wf_disk disk_log_first.
Proof.
  intros b. unfold disk_log_first.
  destruct (b =? 1); [reflexivity |].
  destruct (b =? 22); [reflexivity |].
  destruct (b =? 23); reflexivity.
Defined.

Lemma log_idle_log_first : log_idle fs_log_first.
Proof.
  split; [reflexivity |].
  split; [intros b; apply wf_disk_log_first |].
  split; [apply wf_disk_log_first |].
  split; [vm_compute; split; reflexivity |].
  split; [reflexivity |].
  vm_compute. discriminate.
Defined.

Lemma layout_ok_log_first : @layout_ok xk_config (sb fs_log_first).
Proof. vm_compute. repeat split; discriminate. Defined.

Lemma extents_ok_log_first (a : Z) :
  21 < a < 2 ^ 31 ->
  Forall (extent_ok (sb fs_log_first)) (mkextent a 32 :: no_extents 5).
Proof.
  intros Ha.
  assert (Hz : extent_ok (sb fs_log_first) (mkextent 0 0))
    by (intros Hn; exfalso; apply Hn; reflexivity).
  repeat (apply Forall_cons_2; [first [exact Hz | intros _; exact Ha] |]).
  apply Forall_nil_2.
Defined.

Lemma inodes_ok_log_first : inodes_ok fs_log_first.
Proof.
  split; [vm_compute; discriminate |].
  split.
  - split; [reflexivity |].
    change (i_data (inodefile fs_log_first))
      with (mkextent 23 32 :: no_extents 5).
    apply extents_ok_log_first. lia.
  - apply Forall_cons_2; [| apply Forall_nil_2].
    split; [reflexivity |]. apply extents_ok_log_first. lia.
Defined.


(** The run of the example: two transactions, and the two blocks of the
    file on the device afterwards. *)
Lemma writei_log_first_run :
  exists s',
    @writei xk_config (Icache 0) src_c1 0 1024 fs_log_first = Done 1024 s' /\
    txns false (events s') = Some 2%nat /\
    disk s' 64 = repeat 17 512 /\ disk s' 65 = repeat 34 512.
Proof.
  eexists. split; [vm_compute; reflexivity |].
  split; [vm_compute; reflexivity |].
  split; vm_compute; reflexivity.
Qed.

(** A one-block write on the same state. *)
Lemma writei_log_first_one_block :
  exists s',
    @writei xk_config (Icache 0) src_c1 0 512 fs_log_first = Done 512 s' /\
    blocks_touched 0 512 = 1 /\
    txns false (events s') = Some 1%nat /\
    disk s' 64 = repeat 17 512.
Proof.
  eexists. split; [vm_compute; reflexivity |].
  split; [reflexivity |].
  split; vm_compute; reflexivity.
Qed.

(* ===================================================================== *)
(** ** Pipes: a read across the end of the ring *)
(* ===================================================================== *)

Section pipe_read_wrap.
Context `{Config}.

(** C6.  [piperead] copies with one linear [memmove] and does not wrap.
    Take a pipe as [sys_pipe] leaves it, its counters at [start], a ring
    position behind the struct; write and read as many bytes as bring
    [head] and [tail] to the last ring position; write the two bytes
    [a; b], which go to ring positions [buf_size - 1] and 0.  The pipe now
    holds two unread bytes that run across the end of the ring.  A read of
    2 bytes returns 2 and empties the pipe, but the second byte it
    delivers is the byte at offset [buf_size] of the page, behind the
    ring, which no write to the pipe has stored; the byte at ring position
    0 is never delivered.  None of this depends on what the bytes of the
    struct, ring positions below [sizeof(struct pipe)], hold at the time
    of the read. *)
Theorem piperead_wrapped_runs_past_ring (mem src1 : list Z) (start a b : Z) :
  pipe_layout_ok -> 0 <= start -> start + 2 * PGSIZE < 2 ^ 30 ->
  sizeof_pipe <= Z.rem start buf_size < buf_size - 1 ->
  buf_size < Z.of_nat (length mem) ->
  buf_size <= Z.of_nat (length src1) ->
  let k := buf_size - 1 - Z.rem start buf_size in
  exists p1 p2 o2 p3,
    pipewrite (fresh_pipe mem start) src1 k = Returns (k, p1) /\
    piperead p1 k = Returns (k, p2, o2) /\
    head p2 = tail p2 /\ Z.rem (head p2) buf_size = buf_size - 1 /\
    pipewrite p2 [a; b] 2 = Returns (2, p3) /\
    pipe_inv p3 /\ tail p3 - head p3 = 2 /\
    byte_at (buf p3) (buf_size - 1) = a /\
    forall m',
      (forall i, sizeof_pipe <= i -> byte_at m' i = byte_at (buf p3) i) ->
      let p3' := set_buf_tail p3 m' (tail p3) in
      exists p4 out,
        piperead p3' 2 = Returns (2, p4, out) /\
        head p4 = tail p4 /\
        byte_at out 0 = a /\
        byte_at out 1 = byte_at mem buf_size /\
        (byte_at mem buf_size <> byte_at m' 0 -> ~ read_from_ring p3' out 2).
Proof.
  intros Hl Hs0 Hs1 Hpos Hmem Hsrc k.
  pose proof (buf_size_bounds Hl) as HB.
  assert (Hsz : 0 <= sizeof_pipe) by (destruct Hl; lia).
  assert (Hk : 0 < k <= buf_size - Z.rem start buf_size) by (subst k; lia).
  assert (HP : PGSIZE = 4096) by reflexivity.
  assert (Hkeq : k = buf_size - 1 - Z.rem start buf_size) by reflexivity.
  set (p0 := fresh_pipe mem start).
  assert (Hc0 : counters_small p0) by (unfold counters_small; cbn; lia).
  assert (Hw1 : pipewrite p0 src1 k
                = Returns (k, set_buf_tail p0
                                (mem_write (buf p0) (Z.rem (tail p0) buf_size) src1 k)
                                (tail p0 + k))).
  { apply pipewrite_fits; try assumption; cbn; try reflexivity; lia. }
  set (p1 := set_buf_tail p0 _ _) in Hw1.
  assert (Hc1 : counters_small p1) by (unfold counters_small; cbn; lia).
  assert (Hr1 : piperead p1 k
                = Returns (k, set_head p1 (head p1 + k),
                           mem_read (buf p1) (Z.rem (head p1) buf_size) k)).
  { rewrite piperead_data; cbn; try assumption; try lia.
    replace (start + k - start) with k by lia.
    rewrite Z.min_l by lia. reflexivity. }
  set (p2 := set_head p1 (head p1 + k)) in Hr1.
  assert (Hrm : Z.rem start buf_size = start mod buf_size)
    by (apply Z.rem_mod_nonneg; lia).
  assert (Hpos2 : Z.rem (start + k) buf_size = buf_size - 1).
  { rewrite Z.rem_mod_nonneg by lia.
    assert (Hdm : start = buf_size * (start / buf_size) + start mod buf_size)
      by (apply Z.div_mod; lia).
    symmetry. apply (Z.mod_unique _ _ (start / buf_size)); [lia |].
    subst k. rewrite Hrm. lia. }
  assert (Hc2 : counters_small p2) by (unfold counters_small; cbn; lia).
  assert (Hw2 : pipewrite p2 [a; b] 2
                = Returns (2, set_buf_tail p2
                     (mem_write
                        (mem_write (buf p2) (Z.rem (tail p2) buf_size) [a; b] 1)
                        0 [a; b] 1)
                     (tail p2 + 2))).
  { rewrite pipewrite_wraps; try assumption; cbn [p2 p1 p0 fresh_pipe set_head
      set_buf_tail head tail hasopenread buf]; try reflexivity; try lia;
      rewrite ?Hpos2; try lia.
    replace (buf_size - (buf_size - 1)) with 1 by lia.
    replace (2 - 1) with 1 by lia.
    rewrite Z.min_l by lia.
    replace (start + k + 1 + 1) with (start + k + 2) by lia. reflexivity. }
  set (p3 := set_buf_tail p2 _ _) in Hw2.
  exists p1, p2, (mem_read (buf p1) (Z.rem (head p1) buf_size) k), p3.
  split; [exact Hw1 |]. split; [exact Hr1 |].
  split; [cbn; lia |]. split; [exact Hpos2 |].
  split; [exact Hw2 |].
  split; [unfold pipe_inv; cbn; lia |].
  split; [cbn; lia |].
  assert (Hlen1 : length (buf p1) = length mem) by (cbn; apply mem_write_length).
  assert (Hlast : byte_at (buf p3) (buf_size - 1) = a).
  { cbn [p3 p2 set_buf_tail set_head buf tail]. cbn [p1 set_buf_tail tail p0 fresh_pipe].
    rewrite Hpos2.
    rewrite byte_at_mem_write_out by lia.
    rewrite byte_at_mem_write_in
      by (cbn [length]; rewrite ?mem_write_length; lia).
    replace (buf_size - 1 - (buf_size - 1)) with 0 by lia. reflexivity. }
  assert (Hbehind : byte_at (buf p3) buf_size = byte_at mem buf_size).
  { cbn [p3 p2 set_buf_tail set_head buf tail]. cbn [p1 set_buf_tail tail buf p0 fresh_pipe].
    rewrite Hpos2.
    do 3 (rewrite byte_at_mem_write_out by lia). reflexivity. }
  split; [exact Hlast |].
  intros m' Hm' p3'.
  assert (Hc3 : counters_small p3') by (unfold counters_small; cbn; lia).
  assert (Hne3 : head p3' <> tail p3') by (cbn; lia).
  assert (Hh3 : Z.rem (head p3') buf_size = buf_size - 1) by exact Hpos2.
  exists (set_head p3' (head p3' + 2)), (mem_read m' (buf_size - 1) 2).
  split.
  { rewrite (piperead_data p3' 2 Hc3 Hne3 ltac:(lia)).
    replace (tail p3' - head p3') with 2 by (cbn; lia).
    rewrite Z.min_id, Hh3. reflexivity. }
  split; [cbn; lia |].
  assert (Ho0 : byte_at (mem_read m' (buf_size - 1) 2) 0 = a).
  { rewrite byte_at_mem_read by lia. rewrite Z.add_0_r.
    rewrite Hm' by lia. exact Hlast. }
  assert (Ho1 : byte_at (mem_read m' (buf_size - 1) 2) 1 = byte_at mem buf_size).
  { rewrite byte_at_mem_read by lia.
    replace (buf_size - 1 + 1) with buf_size by lia.
    rewrite Hm' by lia. exact Hbehind. }
  split; [exact Ho0 |]. split; [exact Ho1 |].
  intros Hdiff Hring.
  specialize (Hring 1 ltac:(lia)). rewrite Ho1 in Hring.
  unfold ring_pos in Hring.
  replace (head p3' + 1) with (start + k + 1) in Hring by (cbn; lia).
  assert (Hz : (start + k + 1) mod buf_size = 0).
  { rewrite <- Z.add_mod_idemp_l by lia.
    rewrite Z.rem_mod_nonneg in Hpos2 by lia. rewrite Hpos2.
    replace (buf_size - 1 + 1) with buf_size by lia. apply Z.mod_same. lia. }
  rewrite Hz in Hring. cbn [p3' set_buf_tail buf] in Hring. contradiction.
Qed.

End pipe_read_wrap.

Lemma piperead_wrapped_runs_past_ring_witness :
  @pipe_layout_ok xk_config /\ 0 <= 33686146 /\ 33686146 + 2 * PGSIZE < 2 ^ 30 /\
  @sizeof_pipe xk_config <= Z.rem 33686146 (@buf_size xk_config)
    < @buf_size xk_config - 1 /\
  @buf_size xk_config < Z.of_nat (length (repeat 2 4096)) /\
  @buf_size xk_config <= Z.of_nat (length (repeat 7 3968)) /\
  let k := @buf_size xk_config - 1 - Z.rem 33686146 (@buf_size xk_config) in
  exists p1 p2 o2 p3,
    @pipewrite xk_config (fresh_pipe (repeat 2 4096) 33686146) (repeat 7 3968) k
      = Returns (k, p1) /\
    @piperead xk_config p1 k = Returns (k, p2, o2) /\
    head p2 = tail p2 /\
    Z.rem (head p2) (@buf_size xk_config) = @buf_size xk_config - 1 /\
    @pipewrite xk_config p2 [8; 9] 2 = Returns (2, p3) /\
    @pipe_inv xk_config p3 /\ tail p3 - head p3 = 2 /\
    byte_at (buf p3) (@buf_size xk_config - 1) = 8 /\
    forall m',
      (forall i, @sizeof_pipe xk_config <= i ->
                 byte_at m' i = byte_at (buf p3) i) ->
      let p3' := set_buf_tail p3 m' (tail p3) in
      exists p4 out,
        @piperead xk_config p3' 2 = Returns (2, p4, out) /\
        head p4 = tail p4 /\
        byte_at out 0 = 8 /\
        byte_at out 1 = byte_at (repeat 2 4096) (@buf_size xk_config) /\
        (byte_at (repeat 2 4096) (@buf_size xk_config) <> byte_at m' 0 ->
         ~ @read_from_ring xk_config p3' out 2).
Proof.
  assert (Hl : @pipe_layout_ok xk_config)
    by (unfold pipe_layout_ok, PGSIZE; cbn; lia).
  assert (H1 : 0 <= 33686146) by lia.
  assert (H2 : 33686146 + 2 * PGSIZE < 2 ^ 30) by (unfold PGSIZE; lia).
  assert (H3 : @sizeof_pipe xk_config <= Z.rem 33686146 (@buf_size xk_config)
               < @buf_size xk_config - 1)
    by (vm_compute; split; [discriminate | reflexivity]).
  assert (H4 : @buf_size xk_config < Z.of_nat (length (repeat 2 4096)))
    by (vm_compute; reflexivity).
  assert (H5 : @buf_size xk_config <= Z.of_nat (length (repeat 7 3968)))
    by (vm_compute; discriminate).
  split; [exact Hl |]. split; [exact H1 |]. split; [exact H2 |].
  split; [exact H3 |]. split; [exact H4 |]. split; [exact H5 |].
  exact (@piperead_wrapped_runs_past_ring xk_config (repeat 2 4096)
           (repeat 7 3968) 33686146 8 9 Hl H1 H2 H3 H4 H5).
Defined.

(** The run of the example: the pipe of a page filled with the byte 2,
    counters at [0x02020202 + 128], ring position 1794.  The two bytes
    written are 8 and 9; the two bytes read are 8 and 2. *)
Lemma piperead_wrapped_run :
  match @pipewrite xk_config (fresh_pipe (repeat 2 4096) 33686146)
                   (repeat 7 3968) 2173 with
  | Returns (_, p1) =>
      match @piperead xk_config p1 2173 with
      | Returns (_, p2, _) =>
          match @pipewrite xk_config p2 [8; 9] 2 with
          | Returns (_, p3) =>
              match @piperead xk_config p3 2 with
              | Returns (r, p4, out) =>
                  r = 2 /\ out = [8; 2] /\ head p4 = tail p4
              | Sleeps => False
              end
          | Sleeps => False
          end
      | Sleeps => False
      end
  | Sleeps => False
  end.
Proof. vm_compute. repeat split. Qed.

(* ===================================================================== *)
(** ** Pipes: the ring and the struct share the page *)
(* ===================================================================== *)

Lemma mem_read_mem_write_inside (m src : list Z) (pos n q k : Z) :
  0 <= pos <= q -> 0 <= k -> q + k <= pos + n ->
  n <= Z.of_nat (length src) -> pos + n <= Z.of_nat (length m) ->
  mem_read (mem_write m pos src n) q k = mem_read src (q - pos) k.
Proof.
  intros Hpos Hk Hin Hsrc Hm. unfold mem_read, mem_write.
  apply list_eq. intros i.
  destruct (decide (i < Z.to_nat k)%nat) as [Hi | Hi].
  - rewrite !lookup_take_lt by assumption. rewrite !lookup_drop.
    rewrite list_lookup_inserts.
    + rewrite lookup_take_lt by lia. f_equal. lia.
    + rewrite length_take. lia.
    + lia.
  - rewrite !lookup_take_ge by lia. reflexivity.
Qed.

Lemma int32_range (z : Z) : - 2 ^ 31 <= int32 z < 2 ^ 31.
Proof.
  unfold int32.
  assert (0 <= (z + 2 ^ 31) mod 2 ^ 32 < 2 ^ 32) by (apply Z.mod_pos_bound; lia).
  lia.
Qed.

Lemma int32_uint (z : Z) : int32 (z mod 2 ^ 32) = int32 z.
Proof. unfold int32. now rewrite Zplus_mod_idemp_l. Qed.

Section pipe_page.
Context `{Config}.

(** The struct has room for its fields and leaves a ring on the page. *)
Hypothesis Hsize : 24 <= sizeof_pipe <= PGSIZE - 2.

Lemma buf_size_page : buf_size = PGSIZE - sizeof_pipe /\ 2 <= buf_size <= 4072.
Proof.
  unfold buf_size, PGSIZE in *. rewrite int32_id by lia. lia.
Qed.

Lemma pg_tail_wr (pg : list Z) (v : Z) :
  length pg = Z.to_nat PGSIZE -> pg_tail (wr pg off_tail 4 v) = int32 v.
Proof.
  intros Hlen. unfold pg_tail, off_tail, PGSIZE in *.
  rewrite rd_wr_same by lia.
  change (256 ^ Z.of_nat 4) with (2 ^ 32). apply int32_uint.
Qed.

Lemma pg_head_wr_tail (pg : list Z) (v : Z) :
  pg_head (wr pg off_tail 4 v) = pg_head pg.
Proof.
  unfold pg_head, off_head, off_tail. rewrite rd_wr_other by lia. reflexivity.
Qed.

Lemma pg_buf_wr_tail (pg : list Z) (v : Z) :
  pg_buf (wr pg off_tail 4 v) = pg_buf pg.
Proof.
  unfold pg_buf, off_buf, off_tail. rewrite rd_wr_other by lia. reflexivity.
Qed.

(** A [memmove] into the page behind the struct leaves the fields. *)
Lemma fields_mem_write_behind (pg src : list Z) (pos len : Z) :
  sizeof_pipe <= pos ->
  pg_buf (mem_write pg pos src len) = pg_buf pg /\
  pg_head (mem_write pg pos src len) = pg_head pg /\
  pg_tail (mem_write pg pos src len) = pg_tail pg /\
  byte_at (mem_write pg pos src len) off_hasopenread
  = byte_at pg off_hasopenread /\
  byte_at (mem_write pg pos src len) off_hasopenwrite
  = byte_at pg off_hasopenwrite.
Proof.
  intros Hpos.
  unfold pg_buf, pg_head, pg_tail, rd, off_buf, off_head, off_tail,
    off_hasopenread, off_hasopenwrite.
  rewrite !mem_read_mem_write_other by lia.
  rewrite !byte_at_mem_write_out by lia. auto.
Qed.

(** A [memmove] of at least [sizeof(struct pipe)] bytes to the start of
    the page replaces the fields by the bytes of the source. *)
Lemma fields_mem_write_over (pg src : list Z) (len : Z) :
  sizeof_pipe <= len -> len <= Z.of_nat (length src) ->
  len <= Z.of_nat (length pg) ->
  pg_buf (mem_write pg 0 src len) = rd src off_buf 8 /\
  pg_head (mem_write pg 0 src len) = int32 (rd src off_head 4) /\
  pg_tail (mem_write pg 0 src len) = int32 (rd src off_tail 4).
Proof.
  intros Hlen Hsrc Hpg.
  unfold pg_buf, pg_head, pg_tail, rd, off_buf, off_head, off_tail.
  rewrite !mem_read_mem_write_inside by lia.
  rewrite !Z.sub_0_r. auto.
Qed.

(** C4.  [pipewrite] does not keep [tail - head] within [0, buf_size]:
    the ring starts at the start of the page, where the struct lies, so a
    write that wraps stores bytes of the caller over the struct, [head]
    and [tail] included.  Take the page of a pipe that is empty, with the
    read end open, its counters at [start], a ring position behind the
    struct, as [sys_pipe] leaves it; the invariant holds.  One [pipewrite]
    of as many bytes as reach the end of the ring and [sizeof(struct pipe)]
    more returns that count, and at the call of [release] [pipe->head] is
    [h], the [int] the source holds at the offset of [head], and
    [pipe->tail] is [t + sizeof(struct pipe)], for [t] the [int] the source
    holds at the offset of [tail].  With a source whose [h] and [t] are
    not within [buf_size] of each other in this way, the invariant is
    broken. *)
Theorem pipewrite_overwrites_counters (addr start h t : Z) (pg src : list Z) :
  length pg = Z.to_nat PGSIZE ->
  pg_buf pg = addr -> pg_head pg = start -> pg_tail pg = start ->
  byte_at pg off_hasopenread <> 0 ->
  0 <= start < 2 ^ 30 ->
  sizeof_pipe < Z.rem start buf_size ->
  let n := buf_size - Z.rem start buf_size + sizeof_pipe in
  n <= Z.of_nat (length src) ->
  int32 (rd src off_head 4) = h -> int32 (rd src off_tail 4) = t ->
  ~ 0 <= int32 (t + sizeof_pipe) - h <= buf_size ->
  page_inv pg /\
  exists pg',
    pipewrite_page addr pg src n = PReturns (n, pg') /\
    pg_head pg' = h /\ pg_tail pg' = int32 (t + sizeof_pipe) /\
    ~ page_inv pg'.
Proof.
  intros Hlen Hbuf Hhead Htail Hopen Hstart Hpos n Hsrc Hh Ht Hbad.
  destruct buf_size_page as (HBeq & HB).
  assert (HP : PGSIZE = 4096) by reflexivity.
  assert (Hrem : 0 <= Z.rem start buf_size < buf_size)
    by (apply Z.rem_bound_pos; lia).
  set (r0 := Z.rem start buf_size) in *.
  assert (Hn : n = buf_size - r0 + sizeof_pipe) by reflexivity.
  split; [unfold page_inv; rewrite Hhead, Htail; lia |].
  unfold pipewrite_page.
  destruct (Z.eqb_spec (byte_at pg off_hasopenread) 0) as [| _]; [contradiction |].
  rewrite Hhead, Htail. fold r0.
  rewrite (int32_id (start - start)) by lia.
  destruct (Z.eqb_spec (start - start) buf_size) as [| _]; [lia |].
  rewrite !(int32_id (buf_size - r0)) by lia.
  destruct (Z.ltb_spec (buf_size - r0) n) as [_ |]; [| lia].
  unfold wild_tail. rewrite Hbuf, Htail, Z.eqb_refl. fold r0.
  destruct (Z.ltb_spec r0 0) as [| _]; [lia |]. cbn [negb orb].
  set (pg1 := mem_write pg r0 src (buf_size - r0)).
  assert (Hs0 : sizeof_pipe <= r0) by lia.
  destruct (fields_mem_write_behind pg src r0 (buf_size - r0) Hs0)
    as (Hb1 & Hh1 & Ht1 & _).
  fold pg1 in Hb1, Hh1, Ht1.
  assert (Hlen1 : length pg1 = Z.to_nat PGSIZE)
    by (unfold pg1; rewrite mem_write_length; exact Hlen).
  rewrite Ht1, Htail.
  rewrite (int32_id (start + (buf_size - r0))) by lia.
  set (pg2 := wr pg1 off_tail 4 (start + (buf_size - r0))).
  assert (Hlen2 : length pg2 = Z.to_nat PGSIZE)
    by (unfold pg2; rewrite wr_length; exact Hlen1).
  assert (Hb2 : pg_buf pg2 = addr)
    by (unfold pg2; rewrite pg_buf_wr_tail, Hb1; exact Hbuf).
  rewrite Hb2, Z.eqb_refl. cbn [negb].
  replace (n - (buf_size - r0)) with sizeof_pipe by lia.
  rewrite !(int32_id sizeof_pipe) by lia.
  destruct (Z.ltb_spec sizeof_pipe r0) as [_ |]; [| lia].
  set (pg3 := mem_write pg2 0 src sizeof_pipe).
  assert (Hs1 : sizeof_pipe <= sizeof_pipe) by lia.
  assert (Hs2 : sizeof_pipe <= Z.of_nat (length src)) by lia.
  assert (Hs3 : sizeof_pipe <= Z.of_nat (length pg2)) by (rewrite Hlen2; lia).
  destruct (fields_mem_write_over pg2 src sizeof_pipe Hs1 Hs2 Hs3)
    as (_ & Hh3 & Ht3).
  fold pg3 in Hh3, Ht3. rewrite Hh in Hh3. rewrite Ht in Ht3.
  assert (Hlen3 : length pg3 = Z.to_nat PGSIZE)
    by (unfold pg3; rewrite mem_write_length; exact Hlen2).
  rewrite Ht3.
  rewrite (int32_id (buf_size - r0 + sizeof_pipe)) by lia.
  assert (Hii : forall z, int32 (int32 z) = int32 z)
    by (intros z; apply int32_id, int32_range).
  assert (Hh4 : pg_head (wr pg3 off_tail 4 (int32 (t + sizeof_pipe))) = h)
    by (rewrite pg_head_wr_tail; exact Hh3).
  assert (Ht4 : pg_tail (wr pg3 off_tail 4 (int32 (t + sizeof_pipe)))
                = int32 (t + sizeof_pipe))
    by (rewrite (pg_tail_wr pg3 _ Hlen3); apply Hii).
  eexists. split; [rewrite Hn; reflexivity |].
  split; [exact Hh4 |]. split; [exact Ht4 |].
  unfold page_inv. rewrite Hh4, Ht4. exact Hbad.
Qed.

(** While a write stays behind the struct and before the end of the ring,
    the two models of [pipewrite] agree: same return value, same counters
    and flags, same bytes from [sizeof(struct pipe)] on, and [pipe->buf]
    still points at the page.  Such a write keeps the invariant when it
    does not exceed the free space. *)
Lemma pipewrite_page_behind_struct (addr : Z) (pg src : list Z) (n : Z) :
  length pg = Z.to_nat PGSIZE -> pg_buf pg = addr ->
  counters_small (page_pipe pg) -> byte_at pg off_hasopenread <> 0 ->
  pg_tail pg - pg_head pg <> buf_size ->
  sizeof_pipe <= Z.rem (pg_tail pg) buf_size ->
  0 < n <= buf_size - Z.rem (pg_tail pg) buf_size ->
  exists pg' p',
    pipewrite_page addr pg src n = PReturns (n, pg') /\
    pipewrite (page_pipe pg) src n = Returns (n, p') /\
    head p' = pg_head pg' /\ tail p' = pg_tail pg' /\
    hasopenread p' = hasopenread (page_pipe pg') /\
    hasopenwrite p' = hasopenwrite (page_pipe pg') /\
    (forall i, sizeof_pipe <= i -> byte_at (buf p') i = byte_at pg' i) /\
    pg_buf pg' = addr /\
    (page_inv pg -> n <= buf_size - (pg_tail pg - pg_head pg) -> page_inv pg').
Proof.
  intros Hlen Hbuf Hc Hopen Hfull Hpos Hn.
  destruct buf_size_page as (HBeq & HB).
  assert (HP : PGSIZE = 4096) by reflexivity.
  assert (Hl : pipe_layout_ok) by (unfold pipe_layout_ok; lia).
  pose proof Hc as (Hh0 & Hht & Ht0). cbn [page_pipe head tail] in Hh0, Hht, Ht0.
  assert (Hr : hasopenread (page_pipe pg) = true).
  { cbn. destruct (Z.eqb_spec (byte_at pg off_hasopenread) 0);
      [contradiction | reflexivity]. }
  rewrite (pipewrite_fits (page_pipe pg) src n Hl Hc Hr Hfull Hn).
  unfold pipewrite_page.
  destruct (Z.eqb_spec (byte_at pg off_hasopenread) 0) as [| _]; [contradiction |].
  rewrite (int32_id (pg_tail pg - pg_head pg)) by lia.
  destruct (Z.eqb_spec (pg_tail pg - pg_head pg) buf_size) as [| _];
    [contradiction |].
  set (r0 := Z.rem (pg_tail pg) buf_size) in *.
  rewrite (int32_id (buf_size - r0)) by lia.
  destruct (Z.ltb_spec (buf_size - r0) n) as [| _]; [lia |].
  unfold wild_tail. rewrite Hbuf, Z.eqb_refl. fold r0.
  destruct (Z.ltb_spec r0 0) as [| _]; [lia |]. cbn [negb orb].
  destruct (fields_mem_write_behind pg src r0 n Hpos)
    as (Hb1 & Hh1 & Ht1 & Hr1 & Hw1).
  set (pg1 := mem_write pg r0 src n) in *.
  assert (Hlen1 : length pg1 = Z.to_nat PGSIZE)
    by (unfold pg1; rewrite mem_write_length; exact Hlen).
  rewrite Ht1. rewrite (int32_id (pg_tail pg + n)) by lia.
  set (pg2 := wr pg1 off_tail 4 (pg_tail pg + n)).
  assert (Hh2 : pg_head pg2 = pg_head pg)
    by (unfold pg2; rewrite pg_head_wr_tail; exact Hh1).
  assert (Ht2 : pg_tail pg2 = pg_tail pg + n)
    by (unfold pg2; rewrite (pg_tail_wr pg1 _ Hlen1); apply int32_id; lia).
  assert (Hb2 : pg_buf pg2 = addr)
    by (unfold pg2; rewrite pg_buf_wr_tail, Hb1; exact Hbuf).
  assert (Hbytes : forall i, sizeof_pipe - 8 <= i ->
                     byte_at pg2 i = byte_at pg1 i).
  { intros i Hi. unfold pg2, wr, off_tail.
    apply byte_at_mem_write_out; lia. }
  exists pg2. eexists. split; [reflexivity |]. split; [reflexivity |].
  cbn [set_buf_tail page_pipe head tail buf hasopenread hasopenwrite].
  split; [symmetry; exact Hh2 |]. split; [symmetry; exact Ht2 |].
  split.
  { rewrite Hbytes by (unfold off_hasopenread; lia). now rewrite Hr1. }
  split.
  { rewrite Hbytes by (unfold off_hasopenwrite; lia). now rewrite Hw1. }
  split; [intros i Hi; symmetry; apply Hbytes; lia |].
  split; [exact Hb2 |].
  unfold page_inv. rewrite Hh2, Ht2. lia.
Qed.

End pipe_page.

Lemma pipewrite_overwrites_counters_witness :
  24 <= @sizeof_pipe xk_config <= PGSIZE - 2 /\
  length (@sys_pipe_page xk_config page_addr_c4 poisoned_page)
  = Z.to_nat PGSIZE /\
  @pg_buf xk_config (@sys_pipe_page xk_config page_addr_c4 poisoned_page)
  = page_addr_c4 /\
  @pg_head xk_config (@sys_pipe_page xk_config page_addr_c4 poisoned_page)
  = 33686146 /\
  @pg_tail xk_config (@sys_pipe_page xk_config page_addr_c4 poisoned_page)
  = 33686146 /\
  byte_at (@sys_pipe_page xk_config page_addr_c4 poisoned_page)
          (@off_hasopenread xk_config) <> 0 /\
  0 <= 33686146 < 2 ^ 30 /\
  @sizeof_pipe xk_config < Z.rem 33686146 (@buf_size xk_config) /\
  (let n := @buf_size xk_config - Z.rem 33686146 (@buf_size xk_config)
            + @sizeof_pipe xk_config in
   n <= Z.of_nat (length payload_c4) /\
   int32 (rd payload_c4 (@off_head xk_config) 4) = 5000 /\
   int32 (rd payload_c4 (@off_tail xk_config) 4) = 0 /\
   ~ 0 <= int32 (0 + @sizeof_pipe xk_config) - 5000 <= @buf_size xk_config /\
   @page_inv xk_config (@sys_pipe_page xk_config page_addr_c4 poisoned_page) /\
   exists pg',
     @pipewrite_page xk_config page_addr_c4
       (@sys_pipe_page xk_config page_addr_c4 poisoned_page) payload_c4 n
     = PReturns (n, pg') /\
     @pg_head xk_config pg' = 5000 /\
     @pg_tail xk_config pg' = int32 (0 + @sizeof_pipe xk_config) /\
     ~ @page_inv xk_config pg').
Proof.
  assert (H0 : 24 <= @sizeof_pipe xk_config <= PGSIZE - 2)
    by (unfold PGSIZE; cbn; lia).
  assert (H1 : length (@sys_pipe_page xk_config page_addr_c4 poisoned_page)
               = Z.to_nat PGSIZE) by (vm_compute; reflexivity).
  assert (H2 : @pg_buf xk_config
                 (@sys_pipe_page xk_config page_addr_c4 poisoned_page)
               = page_addr_c4) by (vm_compute; reflexivity).
  assert (H3 : @pg_head xk_config
                 (@sys_pipe_page xk_config page_addr_c4 poisoned_page)
               = 33686146) by (vm_compute; reflexivity).
  assert (H4 : @pg_tail xk_config
                 (@sys_pipe_page xk_config page_addr_c4 poisoned_page)
               = 33686146) by (vm_compute; reflexivity).
  assert (H5 : byte_at (@sys_pipe_page xk_config page_addr_c4 poisoned_page)
                       (@off_hasopenread xk_config) <> 0)
    by (vm_compute; discriminate).
  assert (H6 : 0 <= 33686146 < 2 ^ 30) by lia.
  assert (H7 : @sizeof_pipe xk_config < Z.rem 33686146 (@buf_size xk_config))
    by (vm_compute; reflexivity).
  assert (H8 : @buf_size xk_config - Z.rem 33686146 (@buf_size xk_config)
               + @sizeof_pipe xk_config <= Z.of_nat (length payload_c4))
    by (vm_compute; discriminate).
  assert (H9 : int32 (rd payload_c4 (@off_head xk_config) 4) = 5000)
    by (vm_compute; reflexivity).
  assert (H10 : int32 (rd payload_c4 (@off_tail xk_config) 4) = 0)
    by (vm_compute; reflexivity).
  assert (H11 : ~ 0 <= int32 (0 + @sizeof_pipe xk_config) - 5000
                  <= @buf_size xk_config)
    by (vm_compute; intros [Hge _]; apply Hge; reflexivity).
  repeat (split; [assumption |]).
  cbv zeta.
  repeat (split; [assumption |]).
  exact (@pipewrite_overwrites_counters xk_config H0 page_addr_c4 33686146
           5000 0 _ payload_c4 H1 H2 H3 H4 H5 H6 H7 H8 H9 H10 H11).
Defined.

(** The run of the example: from the page of a fresh pipe, counters at
    [0x02020202 + 128], one write of 2302 bytes leaves [head = 5000],
    [tail = 128] and a [pipe->buf] of [0x41] bytes. *)
Lemma pipewrite_page_run :
  match @pipewrite_page xk_config page_addr_c4
          (@sys_pipe_page xk_config page_addr_c4 poisoned_page)
          payload_c4 2302 with
  | PReturns (r, pg') =>
      r = 2302 /\ @pg_head xk_config pg' = 5000 /\
      @pg_tail xk_config pg' = 128 /\
      @pg_buf xk_config pg' = 4702111234474983745 /\
      @pg_buf xk_config pg' <> page_addr_c4
  | _ => False
  end.
Proof. vm_compute. repeat split. discriminate. Qed.
